(** * Bulk video generation orchestrator: token pool, plan enforcement,
      submission queue, store retry wrapper and job-row updates.

    A shallow embedding of [server/storage.ts], [server/planEnforcement.ts],
    [server/bulkQueue.ts], [server/pollingCoordinator.ts], the database
    module's [withRetry] (in the sources under [server/objectStorage.ts]) and
    the routes that drive them (in the sources under [unnamed/part_005]).

    Conventions.
    - Instants are [Z], milliseconds since the epoch, as [Date.now()] gives
      them.  A text column that holds [new Date().toISOString()] is
      represented by the instant it denotes; [None] is SQL [NULL].
    - An integer column is a [Z]; a nullable one an [option Z].
    - The in-memory [Map]s of [storage.ts] are [gmap]s keyed by token id.
    - A relational table is the list of its rows. *)

From Stdlib Require Import ZArith QArith Qround String Ascii Lia Lqa DecimalString Sorted.
From stdpp Require Import base option list gmap strings.

Local Open Scope string_scope.
Local Open Scope list_scope.
Local Open Scope Z_scope.

(** ** JavaScript completions *)

Module Js.

Record Error := mkError {
  name : string;
  message : option string;
  code : option string
}.

Definition TypeError (msg : string) : Error :=
  {| name := "TypeError"; message := Some msg; code := None |}.

(** A call either returns a value or throws. *)
Inductive Completion (A : Type) : Type :=
| Return (a : A)
| Throw (e : Error).
Arguments Return {A} a.
Arguments Throw {A} e.

(** [x || 0] on a nullable number: [null], [undefined] and [0] give [0]. *)
Definition orZero (x : option Z) : Z := default 0 x.

(** [a % b] on integers: the sign follows the dividend. *)
Definition rem (a b : Z) : Z := Z.rem a b.

(** [arr[i]] for an integral index: [undefined] out of range. *)
Definition index {A} (arr : list A) (i : Z) : option A :=
  if i <? 0 then None else arr !! Z.to_nat i.

(** Truthiness of an optional string argument: [undefined] and the empty
    string are falsy. *)
Definition truthy (x : option string) : bool :=
  match x with
  | Some s => negb (String.eqb s "")
  | None => false
  end.

(** [s.includes(sub)] *)
Fixpoint includes (s sub : string) : bool :=
  String.prefix sub s ||
  match s with
  | EmptyString => false
  | String _ s' => includes s' sub
  end.

(** [`${n}`] for an integral number. *)
Definition numberToString (n : Z) : string := NilZero.string_of_int (Z.to_int n).

(** The property names of [Object.prototype].  An object literal answers a
    lookup under one of them with the inherited value: a function, or the
    prototype itself under [__proto__]. *)
Definition objectPrototypeKeys : list string :=
  ["constructor"; "__defineGetter__"; "__defineSetter__"; "hasOwnProperty";
   "__lookupGetter__"; "__lookupSetter__"; "isPrototypeOf"; "propertyIsEnumerable";
   "toString"; "valueOf"; "__proto__"; "toLocaleString"].

(** [x || d] on a number: [undefined], [NaN] and [0] are falsy. *)
Definition orElse (x : option Z) (d : Z) : Z :=
  match x with
  | Some 0 | None => d
  | Some n => n
  end.

(** [!x] on a number. *)
Definition isFalsy (x : option Z) : bool :=
  match x with
  | Some 0 | None => true
  | Some _ => false
  end.

(** [parseInt(s, 10)] on a string of ASCII characters: leading white space
    is skipped, one sign is read, then decimal digits up to the first
    character that is not one.  [None] is [NaN]: no digit was read.  The value
    is exact, as the code's is below 2^53. *)
Definition isStrWhiteSpace (c : ascii) : bool :=
  let n := nat_of_ascii c in
  ((9 <=? n) && (n <=? 13) || (n =? 32))%nat.

Fixpoint trimStart (s : string) : string :=
  match s with
  | EmptyString => EmptyString
  | String c s' => if isStrWhiteSpace c then trimStart s' else s
  end.

Definition digitValue (c : ascii) : option Z :=
  let n := nat_of_ascii c in
  if ((48 <=? n) && (n <=? 57))%nat then Some (Z.of_nat n - 48) else None.

Fixpoint digits (s : string) (acc : option Z) : option Z :=
  match s with
  | EmptyString => acc
  | String c s' =>
      match digitValue c with
      | Some d => digits s' (Some (10 * default 0 acc + d))
      | None => acc
      end
  end.

Definition parseInt (s : string) : option Z :=
  match trimStart s with
  | String "-"%char s' => Z.opp <$> digits s' None
  | String "+"%char s' => digits s' None
  | s' => digits s' None
  end.

(** [s.replace(/pat/g, rep)] for a literal, non-empty pattern: the matches
    are taken left to right and do not overlap; [skip] counts the characters
    of a match still to pass over. *)
Fixpoint replaceFrom (pat rep s : string) (skip : nat) : string :=
  match s with
  | EmptyString => EmptyString
  | String c s' =>
      match skip with
      | S k => replaceFrom pat rep s' k
      | O =>
          if String.prefix pat s
          then (rep ++ replaceFrom pat rep s' (String.length pat - 1))%string
          else String c (replaceFrom pat rep s' 0)
      end
  end.

Definition replaceAll (pat rep s : string) : string := replaceFrom pat rep s 0.

(** [Math.ceil(a / b)] for integers [a] and [b > 0]. *)
Definition ceilDiv (a b : Z) : Z := - ((- a) / b).

(** *** Doubles

    A number of the language is a double.  The functions below round a
    rational to the nearest double, ties to even, as each arithmetic operation
    does with its exact result.  No overflow to [Infinity] is modelled: the
    values rounded here stay below 6500. *)

(** [2^e] for [e >= 0], and 1 below. *)
Definition pow2 (e : Z) : Q := inject_Z (2 ^ Z.max e 0).

(** [q * 2^e] *)
Definition shift (q : Q) (e : Z) : Q := (q * pow2 e / pow2 (- e))%Q.

(** [floor (log2 q)] for [q > 0]. *)
Definition log2floor (q : Q) : Z :=
  let k := Z.log2 (Qnum q) - Z.log2 (Zpos (Qden q)) in
  if Qle_bool (shift 1 k) q then k else k - 1.

(** The integer nearest to [q], the even one of two that are equally near. *)
Definition roundHalfEven (q : Q) : Z :=
  let f := Qfloor q in
  match Qcompare (q - inject_Z f) (1 # 2) with
  | Lt => f
  | Gt => f + 1
  | Eq => if Z.even f then f else f + 1
  end.

(** The double nearest to [q > 0]: 53 significant bits, and no bit below
    [2^-1074]. *)
Definition nearestDouble (q : Q) : Q :=
  let e := Z.max (log2floor q - 52) (-1074) in
  shift (inject_Z (roundHalfEven (shift q (- e)))) e.

(** The double nearest to [q]. *)
Definition binary64 (q : Q) : Q :=
  match Qcompare q 0 with
  | Eq => 0%Q
  | Gt => nearestDouble q
  | Lt => (- nearestDouble (- q))%Q
  end.

(** The double that the literal [0.3] denotes, [5404319552844595 / 2^54]. *)
Definition double_0_3 : Q := 5404319552844595 # 18014398509481984.

(** [1 - 2^-52], a double just below 1: the largest value [Math.random()]
    returns in an engine that draws 52 random bits. *)
Definition almostOne : Q := 4503599627370495 # 4503599627370496.

End Js.

(** ** Rows of the relational store *)

(** Modelled from the spec: the row types of [@shared/schema] (the schema
    file is not part of the sources); the fields are those the spec's data
    model lists and the code reads or writes. *)
Module ApiToken.

Record t := mk {
  id : string;
  token : string;
  label : string;
  isActive : bool;
  currentBatchCount : Z;
  totalGenerated : Z;
  batchStartedAt : option Z;
  lastUsedAt : option Z;
  createdAt : Z
}.

Definition set_isActive (b : bool) (r : t) : t :=
  mk (id r) (token r) (label r) b (currentBatchCount r) (totalGenerated r)
     (batchStartedAt r) (lastUsedAt r) (createdAt r).

(** [.set({ currentBatchCount: 0 })] *)
Definition resetBatch (r : t) : t :=
  mk (id r) (token r) (label r) (isActive r) 0 (totalGenerated r)
     (batchStartedAt r) (lastUsedAt r) (createdAt r).

(** [.set({ currentBatchCount: count + 1, totalGenerated: total + 1,
            batchStartedAt: started, lastUsedAt: now })] *)
Definition bump (started : option Z) (now : Z) (r : t) : t :=
  mk (id r) (token r) (label r) (isActive r)
     (currentBatchCount r + 1) (totalGenerated r + 1)
     started (Some now) (createdAt r).

End ApiToken.

(** Modelled from the spec: the singleton settings row of [@shared/schema];
    the two batch settings are text, as [parseInt] in [bulkQueue.ts] reads
    them. *)
Module TokenSettings.

Record t := mk {
  id : string;
  lastUsedTokenIndex : option Z;
  videosPerBatch : string;
  batchDelaySeconds : string
}.

Definition set_lastUsedTokenIndex (i : Z) (r : t) : t :=
  mk (id r) (Some i) (videosPerBatch r) (batchDelaySeconds r).

End TokenSettings.

(** Modelled from the spec: the job row of [@shared/schema]. *)
Module VideoHistory.

Record t := mk {
  id : string;
  userId : string;
  prompt : string;
  aspectRatio : string;
  status : string;
  videoUrl : option string;
  operationName : option string;
  sceneId : option string;
  tokenUsed : option string;
  retryCount : option Z;
  errorMessage : option string;
  title : option string;
  metadata : option string;
  referenceImageUrl : option string;
  createdAt : Z;
  updatedAt : Z
}.

(** [Partial<VideoHistory>] as the callers build it: the columns an update
    may carry.  [None] is an absent key. *)
Record partial := mkPartial {
  p_status : option string;
  p_videoUrl : option string;
  p_tokenUsed : option string;
  p_retryCount : option Z;
  p_errorMessage : option string
}.

Definition empty : partial := mkPartial None None None None None.

(** [.set({ ...fields, updatedAt: now })] on one row.  A key that is present
    overwrites the column; an absent key leaves it. *)
Definition apply (fields : partial) (now : Z) (r : t) : t :=
  mk (id r) (userId r) (prompt r) (aspectRatio r)
     (default (status r) (p_status fields))
     (match p_videoUrl fields with Some u => Some u | None => videoUrl r end)
     (operationName r) (sceneId r)
     (match p_tokenUsed fields with Some u => Some u | None => tokenUsed r end)
     (match p_retryCount fields with Some n => Some n | None => retryCount r end)
     (match p_errorMessage fields with Some m => Some m | None => errorMessage r end)
     (title r) (metadata r) (referenceImageUrl r) (createdAt r) now.

End VideoHistory.

(** Modelled from the spec: the columns of the user row of
    [@shared/schema] that plan enforcement reads. *)
Module User.

Record t := mk {
  id : string;
  username : string;
  isAdmin : bool;
  planType : string;
  planExpiry : option Z;
  dailyVideoCount : Z
}.

Definition set_dailyVideoCount (n : Z) (r : t) : t :=
  mk (id r) (username r) (isAdmin r) (planType r) (planExpiry r) n.

End User.

(** ** The store: tables and the token pool's in-memory maps *)

Module Storage.

Definition ERROR_THRESHOLD : Z := 10.
Definition ERROR_WINDOW_MS : Z := 20 * 60 * 1000.
Definition COOLDOWN_DURATION_MS : Z := 2 * 60 * 60 * 1000.
Definition BATCH_SIZE : Z := 100.

Record Store := mkStore {
  users : list User.t;
  apiTokens : list ApiToken.t;
  tokenSettings : list TokenSettings.t;
  videoHistory : list VideoHistory.t;
  tokenErrorTracking : gmap string (list Z);
  tokenCooldowns : gmap string Z
}.

Definition set_apiTokens (f : list ApiToken.t -> list ApiToken.t) (st : Store) : Store :=
  mkStore (users st) (f (apiTokens st)) (tokenSettings st) (videoHistory st)
          (tokenErrorTracking st) (tokenCooldowns st).

Definition set_users (f : list User.t -> list User.t) (st : Store) : Store :=
  mkStore (f (users st)) (apiTokens st) (tokenSettings st) (videoHistory st)
          (tokenErrorTracking st) (tokenCooldowns st).

Definition set_tokenSettings (f : list TokenSettings.t -> list TokenSettings.t)
    (st : Store) : Store :=
  mkStore (users st) (apiTokens st) (f (tokenSettings st)) (videoHistory st)
          (tokenErrorTracking st) (tokenCooldowns st).

Definition set_videoHistory (f : list VideoHistory.t -> list VideoHistory.t)
    (st : Store) : Store :=
  mkStore (users st) (apiTokens st) (tokenSettings st) (f (videoHistory st))
          (tokenErrorTracking st) (tokenCooldowns st).

Definition set_tokenErrorTracking
    (f : gmap string (list Z) -> gmap string (list Z)) (st : Store) : Store :=
  mkStore (users st) (apiTokens st) (tokenSettings st) (videoHistory st)
          (f (tokenErrorTracking st)) (tokenCooldowns st).

Definition set_tokenCooldowns (f : gmap string Z -> gmap string Z) (st : Store) : Store :=
  mkStore (users st) (apiTokens st) (tokenSettings st) (videoHistory st)
          (tokenErrorTracking st) (f (tokenCooldowns st)).

(** *** SQL fragments *)

(** [UPDATE t SET .. WHERE p RETURNING *]: the new table and the rows
    written. *)
Definition updateWhere {A} (p : A -> bool) (f : A -> A) (rows : list A)
    : list A * list A :=
  (map (fun r => if p r then f r else r) rows, map f (filter (fun r => p r = true) rows)).

(** [ORDER BY key ASC], ties in table order. *)
Fixpoint insertBy {A} (leb : A -> A -> bool) (x : A) (l : list A) : list A :=
  match l with
  | [] => [x]
  | y :: l' => if leb x y then x :: y :: l' else y :: insertBy leb x l'
  end.

Definition orderBy {A} (leb : A -> A -> bool) (rows : list A) : list A :=
  foldr (insertBy leb) [] rows.

Definition byCreatedAt (a b : ApiToken.t) : bool :=
  ApiToken.createdAt a <=? ApiToken.createdAt b.

(** Ascending order puts [NULL] last. *)
Definition byLastUsedAt (a b : ApiToken.t) : bool :=
  match ApiToken.lastUsedAt a, ApiToken.lastUsedAt b with
  | Some x, Some y => x <=? y
  | Some _, None => true
  | None, Some _ => false
  | None, None => true
  end.

Definition hasId (i : string) (r : ApiToken.t) : bool := String.eqb (ApiToken.id r) i.

(** [select().from(apiTokens).where(eq(apiTokens.id, tokenId))], first row. *)
Definition getTokenById (tokenId : string) (st : Store) : option ApiToken.t :=
  head (filter (fun r => hasId tokenId r = true) (apiTokens st)).

Definition getActiveApiTokens (st : Store) : list ApiToken.t :=
  filter (fun r => ApiToken.isActive r = true) (apiTokens st).

Definition toggleApiTokenStatus (tokenId : string) (isActive : bool) (st : Store)
    : option ApiToken.t * Store :=
  let '(rows, written) :=
    updateWhere (hasId tokenId) (ApiToken.set_isActive isActive) (apiTokens st) in
  (head written, set_apiTokens (fun _ => rows) st).

Definition getTokenSettings (st : Store) : option TokenSettings.t :=
  head (tokenSettings st).

(** *** Error tracking and cooldown *)

Definition recent (now : Z) (timestamp : Z) : bool := now - timestamp <? ERROR_WINDOW_MS.

Definition recordTokenError (now : Z) (tokenId : string) (st : Store) : Store :=
  let errors := default [] (tokenErrorTracking st !! tokenId) in
  let errors := errors ++ [now] in
  let recentErrors := filter (fun ts => recent now ts = true) errors in
  let st := set_tokenErrorTracking (fun m => <[tokenId := recentErrors]> m) st in
  if Z.of_nat (length recentErrors) >=? ERROR_THRESHOLD then
    let cooldownEnd := now + COOLDOWN_DURATION_MS in
    set_tokenCooldowns (fun m => <[tokenId := cooldownEnd]> m) st
  else st.

Definition isTokenInCooldown (now : Z) (tokenId : string) (st : Store) : bool * Store :=
  match tokenCooldowns st !! tokenId with
  | None => (false, st)
  | Some cooldownEnd =>
      if cooldownEnd =? 0 then (false, st)          (* [!cooldownEnd] *)
      else if now >=? cooldownEnd then
        (false,
         set_tokenErrorTracking (fun m => delete tokenId m)
           (set_tokenCooldowns (fun m => delete tokenId m) st))
      else (true, st)
  end.

Definition getRecentErrorCount (now : Z) (tokenId : string) (st : Store) : Z :=
  let errors := default [] (tokenErrorTracking st !! tokenId) in
  Z.of_nat (length (filter (fun ts => recent now ts = true) errors)).

(** [tokens.filter(token => !this.isTokenInCooldown(token.id))]: the
    predicate expires stale cooldowns as it goes. *)
Fixpoint filterAvailable (now : Z) (tokens : list ApiToken.t) (st : Store)
    : list ApiToken.t * Store :=
  match tokens with
  | [] => ([], st)
  | t :: rest =>
      let '(inCooldown, st1) := isTokenInCooldown now (ApiToken.id t) st in
      let '(kept, st2) := filterAvailable now rest st1 in
      (if inCooldown then kept else t :: kept, st2)
  end.

(** *** Dispensers *)

Definition SAFE_THRESHOLD : Z := ERROR_THRESHOLD - 1.

(** The [for] loop of [getNextRotationToken]. *)
Fixpoint firstUsable (now : Z) (tokens : list ApiToken.t) (st : Store)
    : option ApiToken.t * Store :=
  match tokens with
  | [] => (None, st)
  | t :: rest =>
      let '(inCooldown, st1) := isTokenInCooldown now (ApiToken.id t) st in
      if inCooldown then firstUsable now rest st1
      else if getRecentErrorCount now (ApiToken.id t) st1 >=? SAFE_THRESHOLD
           then firstUsable now rest st1
           else (Some t, st1)
  end.

Definition getNextRotationToken (now : Z) (st : Store) : option ApiToken.t * Store :=
  firstUsable now (orderBy byLastUsedAt (getActiveApiTokens st)) st.

Definition undefinedId : Js.Error :=
  Js.TypeError "Cannot read properties of undefined (reading 'id')".
Definition undefinedLabel : Js.Error :=
  Js.TypeError "Cannot read properties of undefined (reading 'label')".

(** [getCurrentBatchToken], one transaction.  A throw rolls the tables back;
    the in-memory maps keep what [isTokenInCooldown] did to them. *)
Definition getCurrentBatchToken (now : Z) (st : Store)
    : Js.Completion (option ApiToken.t) * Store :=
  match head (tokenSettings st) with
  | None => (Js.Return None, st)
  | Some settings =>
    let currentIndex := Js.orZero (TokenSettings.lastUsedTokenIndex settings) in
    let allTokens := orderBy byCreatedAt (getActiveApiTokens st) in
    match allTokens with
    | [] => (Js.Return None, st)
    | _ =>
      let '(availableTokens, st) := filterAvailable now allTokens st in
      match availableTokens with
      | [] => (Js.Return None, st)
      | _ =>
        let len := Z.of_nat (length availableTokens) in
        let tokenIndex := Js.rem currentIndex len in
        match Js.index availableTokens tokenIndex with
        | None => (Js.Throw undefinedId, st)
        | Some selected =>
          let currentTokenId := ApiToken.id selected in
          match getTokenById currentTokenId st with
          | None => (Js.Return None, st)
          | Some currentToken =>
            if ApiToken.currentBatchCount currentToken >=? BATCH_SIZE then
              let nextIndex := Js.rem (currentIndex + 1) len in
              match Js.index availableTokens nextIndex with
              | None => (Js.Throw undefinedId, st)
              | Some nextSelected =>
                let nextTokenId := ApiToken.id nextSelected in
                let st1 :=
                  set_apiTokens
                    (fun rows => fst (updateWhere (hasId (ApiToken.id currentToken))
                                        ApiToken.resetBatch rows)) st in
                match getTokenById nextTokenId st1 with
                | None => (Js.Return None, st1)
                | Some nextToken =>
                  let '(rows, written) :=
                    updateWhere (hasId (ApiToken.id nextToken))
                      (ApiToken.bump (Some now) now) (apiTokens st1) in
                  let st2 := set_apiTokens (fun _ => rows) st1 in
                  let st3 :=
                    set_tokenSettings
                      (fun rows =>
                         fst (updateWhere
                                (fun s => String.eqb (TokenSettings.id s)
                                            (TokenSettings.id settings))
                                (TokenSettings.set_lastUsedTokenIndex nextIndex) rows))
                      st2 in
                  match head written with
                  | None => (Js.Throw undefinedLabel, st)
                  | Some updatedToken => (Js.Return (Some updatedToken), st3)
                  end
                end
              end
            else
              let batchStartedAt :=
                match ApiToken.batchStartedAt currentToken with
                | Some started => Some started
                | None => Some now
                end in
              let '(rows, written) :=
                updateWhere (hasId (ApiToken.id currentToken))
                  (ApiToken.bump batchStartedAt now) (apiTokens st) in
              match head written with
              | None => (Js.Throw undefinedLabel, st)
              | Some updatedToken =>
                  (Js.Return (Some updatedToken), set_apiTokens (fun _ => rows) st)
              end
          end
        end
      end
    end
  end.

(** *** Users *)

Definition getUser (id : string) (st : Store) : option User.t :=
  head (filter (fun u => String.eqb (User.id u) id = true) (users st)).

(** [SET daily_video_count = daily_video_count + 1 WHERE id = userId] *)
Definition incrementDailyVideoCount (userId : string) (st : Store) : Store :=
  set_users
    (fun rows =>
       fst (updateWhere (fun u => String.eqb (User.id u) userId)
              (fun u => User.set_dailyVideoCount (User.dailyVideoCount u + 1) u) rows))
    st.

(** *** Video history *)

Definition getVideoById (videoId : string) (st : Store) : option VideoHistory.t :=
  head (filter (fun r => String.eqb (VideoHistory.id r) videoId = true) (videoHistory st)).

(** Modelled from the spec: the column defaults of the [video_history]
    table of [@shared/schema], which is not part of the sources.  The id is
    generated by the database ([newId]), [retryCount] starts at 0 and both
    timestamps at the insertion instant. *)
Record InsertVideoHistory := mkInsert {
  i_userId : string;
  i_prompt : string;
  i_aspectRatio : string;
  i_status : string;
  i_title : option string;
  i_videoUrl : option string;
  i_tokenUsed : option string
}.

Definition addVideoHistory (now : Z) (newId : string) (video : InsertVideoHistory)
    (st : Store) : VideoHistory.t * Store :=
  let newVideo :=
    VideoHistory.mk newId (i_userId video) (i_prompt video) (i_aspectRatio video)
      (i_status video) (i_videoUrl video) None None (i_tokenUsed video) (Some 0) None
      (i_title video) None None now now in
  (newVideo, set_videoHistory (fun rows => rows ++ [newVideo]) st).

Definition ownedBy (videoId userId : string) (r : VideoHistory.t) : bool :=
  String.eqb (VideoHistory.id r) videoId && String.eqb (VideoHistory.userId r) userId.

Definition updateVideoHistoryStatus (now : Z) (videoId userId status : string)
    (videoUrl errorMessage : option string) (st : Store)
    : option VideoHistory.t * Store :=
  let updateData :=
    VideoHistory.mkPartial (Some status)
      (if Js.truthy videoUrl then videoUrl else None)
      None None
      (if Js.truthy errorMessage then errorMessage else None) in
  let '(rows, written) :=
    updateWhere (ownedBy videoId userId) (VideoHistory.apply updateData now)
      (videoHistory st) in
  (head written, set_videoHistory (fun _ => rows) st).

(** The value a call binds to the [userId] parameter of
    [updateVideoHistoryFields], declared [string | undefined].  The routes
    pass a user id or [undefined]; [bulkQueue.ts] and
    [pollingCoordinator.ts] call [updateVideoHistoryFields(videoId, {...})]
    with two arguments, so their object literal is bound to [userId] and
    [fields] is [undefined]. *)
Inductive userIdArg :=
| Undefined
| UserId (userId : string)
| ObjectLiteral (o : VideoHistory.partial).

Section Driver.

(** What the database driver does with an object bound as a query
    parameter: the text it sends, or [None] when it refuses the value and
    the query throws. *)
Variable bindObject : VideoHistory.partial -> option string.

Definition driverError : Js.Error :=
  Js.mkError "Error" (Some "could not bind query parameter") None.

(** [userId ? and(eq(id, videoId), eq(userId, userId)) : eq(id, videoId)] *)
Definition whereConditions (videoId : string) (userId : userIdArg)
    : option (VideoHistory.t -> bool) :=
  match userId with
  | Undefined => Some (fun r => String.eqb (VideoHistory.id r) videoId)
  | UserId u =>
      if String.eqb u "" then Some (fun r => String.eqb (VideoHistory.id r) videoId)
      else Some (ownedBy videoId u)
  | ObjectLiteral o =>
      match bindObject o with
      | Some text => Some (ownedBy videoId text)
      | None => None
      end
  end.

(** [.set({ ...fields, updatedAt: now })]; spreading [undefined] adds no
    key. *)
Definition updateVideoHistoryFields (now : Z) (videoId : string) (userId : userIdArg)
    (fields : option VideoHistory.partial) (st : Store)
    : Js.Completion (option VideoHistory.t) * Store :=
  match whereConditions videoId userId with
  | None => (Js.Throw driverError, st)
  | Some cond =>
      let '(rows, written) :=
        updateWhere cond
          (VideoHistory.apply (default VideoHistory.empty fields) now)
          (videoHistory st) in
      (Js.Return (head written), set_videoHistory (fun _ => rows) st)
  end.

End Driver.

(** *** Other queries of the token pool *)

(** [getTokenByIndex]: round-robin over the active tokens that are not in
    cooldown, by creation time.  [index] is an integral number; the template
    of the log line reads [selectedToken.label]. *)
Definition getTokenByIndex (now : Z) (index : Z) (st : Store)
    : Js.Completion (option ApiToken.t) * Store :=
  let tokens := orderBy byCreatedAt (getActiveApiTokens st) in
  match tokens with
  | [] => (Js.Return None, st)
  | _ =>
    let '(availableTokens, st) := filterAvailable now tokens st in
    match availableTokens with
    | [] => (Js.Return None, st)
    | _ =>
      match Js.index availableTokens (Js.rem index (Z.of_nat (length availableTokens))) with
      | None => (Js.Throw undefinedLabel, st)
      | Some selectedToken => (Js.Return (Some selectedToken), st)
      end
    end
  end.

Definition duplicateTokens : Js.Error :=
  Js.mkError "Error" (Some "Duplicate tokens found in input") None.

(** [.set({ tokenUsed: null })] *)
Definition nullifyTokenUsed (r : VideoHistory.t) : VideoHistory.t :=
  VideoHistory.mk (VideoHistory.id r) (VideoHistory.userId r) (VideoHistory.prompt r)
    (VideoHistory.aspectRatio r) (VideoHistory.status r) (VideoHistory.videoUrl r)
    (VideoHistory.operationName r) (VideoHistory.sceneId r) None
    (VideoHistory.retryCount r) (VideoHistory.errorMessage r) (VideoHistory.title r)
    (VideoHistory.metadata r) (VideoHistory.referenceImageUrl r)
    (VideoHistory.createdAt r) (VideoHistory.updatedAt r).

Section TokenIds.

(** [gen] gives the id the database generates for the row inserted into a
    table of the given size. *)
Variable gen : nat -> string.

(** Modelled from the spec: the column defaults of the [api_tokens] table of
    [@shared/schema], which is not part of the sources: both counters start at
    0, the two usage instants are [NULL] and [createdAt] is the insertion
    instant.  The loop of [replaceAllTokens] that inserts the new rows; [i] is
    the loop index of the first token. *)
Fixpoint insertTokens (now : Z) (i : Z) (tokens : list string) (st : Store)
    : list ApiToken.t * Store :=
  match tokens with
  | [] => ([], st)
  | tok :: rest =>
      let token :=
        ApiToken.mk (gen (length (apiTokens st))) tok
          ("Token " ++ Js.numberToString (i + 1))%string true 0 0 None None now in
      let st := set_apiTokens (fun rows => rows ++ [token]) st in
      let '(newTokens, st) := insertTokens now (i + 1) rest st in
      (token :: newTokens, st)
  end.

(** [replaceAllTokens]: the duplicate check, then one transaction. *)
Definition replaceAllTokens (now : Z) (tokens : list string) (st : Store)
    : Js.Completion (list ApiToken.t) * Store :=
  let uniqueTokens : gset string := list_to_set tokens in
  if negb (size uniqueTokens =? length tokens)%nat then (Js.Throw duplicateTokens, st)
  else
    let st := set_videoHistory (map nullifyTokenUsed) st in
    let st := set_apiTokens (fun _ => []) st in
    let '(newTokens, st) := insertTokens now 0 tokens st in
    (Js.Return newTokens, st).

End TokenIds.

(** *** The settings row *)

Section SettingsDefaults.

(** Modelled from the spec: the row the database makes of [values({})], the
    column defaults of the [token_settings] table of [@shared/schema], which
    is not part of the sources. *)
Variable defaults : TokenSettings.t.

Definition initializeTokenSettings (st : Store) : Store :=
  match getTokenSettings st with
  | Some _ => st
  | None => set_tokenSettings (fun rows => rows ++ [defaults]) st
  end.

(** [updateTokenSettings]; [set] is what [.set(settings)] does to a row, and
    [.values(settings)] inserts the defaults so overwritten. *)
Definition updateTokenSettings (set : TokenSettings.t -> TokenSettings.t) (st : Store)
    : option TokenSettings.t * Store :=
  match getTokenSettings st with
  | Some existing =>
      let '(rows, written) :=
        updateWhere (fun s => String.eqb (TokenSettings.id s) (TokenSettings.id existing))
          set (tokenSettings st) in
      (head written, set_tokenSettings (fun _ => rows) st)
  | None =>
      (Some (set defaults), set_tokenSettings (fun rows => rows ++ [set defaults]) st)
  end.

End SettingsDefaults.

(** *** Other queries of the job rows and the users *)

Definition byCreatedAtDesc (a b : VideoHistory.t) : bool :=
  VideoHistory.createdAt b <=? VideoHistory.createdAt a.

(** [where(eq(userId, userId)).orderBy(desc(createdAt)).limit(100)] *)
Definition getUserVideoHistory (userId : string) (st : Store) : list VideoHistory.t :=
  take 100
    (orderBy byCreatedAtDesc
       (filter (fun r => String.eqb (VideoHistory.userId r) userId = true)
          (videoHistory st))).

(** [db.delete(videoHistory)] *)
Definition clearAllVideoHistory (st : Store) : Store :=
  set_videoHistory (fun _ => []) st.

(** [deleteUser]: the user's job rows first, then the user. *)
Definition deleteUser (userId : string) (st : Store) : Store :=
  let st :=
    set_videoHistory
      (filter (fun r => String.eqb (VideoHistory.userId r) userId = false)) st in
  set_users (filter (fun u => String.eqb (User.id u) userId = false)) st.

End Storage.

(** ** Plan enforcement ([server/planEnforcement.ts]) *)

Module PlanEnforcement.

Inductive AllowedTool := veo | bulk | script | textToImage | imageToVideo.

Definition AllowedTool_eqb (a b : AllowedTool) : bool :=
  match a, b with
  | veo, veo | bulk, bulk | script, script
  | textToImage, textToImage | imageToVideo, imageToVideo => true
  | _, _ => false
  end.

Record BulkGeneration := mkBulk {
  maxBatch : Z;
  delaySeconds : Z;
  maxPrompts : Z
}.

Record PlanConfig := mkPlan {
  name : string;
  dailyVideoLimit : Z;
  allowedTools : list AllowedTool;
  bulkGeneration : BulkGeneration
}.

Definition free : PlanConfig := mkPlan "Free" 0 [veo] (mkBulk 0 0 0).
Definition scale : PlanConfig := mkPlan "Scale" 1000 [veo; bulk] (mkBulk 7 30 50).
Definition empire : PlanConfig :=
  mkPlan "Empire" 2000 [veo; bulk; script; textToImage; imageToVideo] (mkBulk 10 10 100).

(** What [PLAN_CONFIGS[planType]] evaluates to: one of the three
    configurations; a value inherited from [Object.prototype], the table
    being a plain object literal; or [undefined].  An inherited value is
    truthy, and [dailyVideoLimit], [allowedTools] and [bulkGeneration] read
    [undefined] of it. *)
Inductive Entry :=
| Plan (config : PlanConfig)
| Inherited
| Missing.

Definition PLAN_CONFIGS (planType : string) : Entry :=
  if String.eqb planType "free" then Plan free
  else if String.eqb planType "scale" then Plan scale
  else if String.eqb planType "empire" then Plan empire
  else if existsb (String.eqb planType) Js.objectPrototypeKeys then Inherited
  else Missing.

(** A JavaScript number that is an integer, [Infinity] or [NaN]. *)
Inductive Num := Finite (n : Z) | Infinity | NaN.

Definition Num_toString (x : Num) : string :=
  match x with
  | Finite n => Js.numberToString n
  | Infinity => "Infinity"
  | NaN => "NaN"
  end.

(** [videoCount > remaining] *)
Definition gtNum (n : Z) (x : Num) : bool :=
  match x with
  | Finite m => n >? m
  | Infinity => false
  | NaN => false
  end.

Record PlanCheckResult := mkResult {
  allowed : bool;
  reason : option string;
  remainingVideos : option Num
}.

Definition isPlanExpired (now : Z) (user : User.t) : bool :=
  if User.isAdmin user then false
  else if String.eqb (User.planType user) "free" then false
  else match User.planExpiry user with
       | Some expiryDate => now >? expiryDate
       | None => false
       end.

(** Under an inherited value the limit is [undefined]: [count >= undefined]
    is false. *)
Definition hasReachedDailyLimit (user : User.t) : bool :=
  if User.isAdmin user then false
  else match PLAN_CONFIGS (User.planType user) with
       | Missing => true
       | Inherited => false
       | Plan config => User.dailyVideoCount user >=? dailyVideoLimit config
       end.

(** Under an inherited value [undefined - count] is [NaN], and so is
    [Math.max(0, NaN)]. *)
Definition getRemainingVideos (user : User.t) : Num :=
  if User.isAdmin user then Infinity
  else match PLAN_CONFIGS (User.planType user) with
       | Missing => Finite 0
       | Inherited => NaN
       | Plan config =>
           let remaining := dailyVideoLimit config - User.dailyVideoCount user in
           Finite (Z.max 0 remaining)
       end.

Definition includesTool (tools : list AllowedTool) (tool : AllowedTool) : bool :=
  existsb (AllowedTool_eqb tool) tools.

Definition undefinedIncludes : Js.Error :=
  Js.TypeError "Cannot read properties of undefined (reading 'includes')".

(** Under an inherited value [config.allowedTools] is [undefined], and the
    call of [includes] on it throws. *)
Definition canAccessTool (now : Z) (user : User.t) (tool : AllowedTool)
    : Js.Completion PlanCheckResult :=
  if User.isAdmin user then Js.Return (mkResult true None None)
  else if isPlanExpired now user then
    Js.Return
      (mkResult false (Some "Your plan has expired. Please contact admin to renew.") None)
  else match PLAN_CONFIGS (User.planType user) with
       | Missing =>
           Js.Return (mkResult false (Some "Invalid plan type. Please contact admin.") None)
       | Inherited => Js.Throw undefinedIncludes
       | Plan config =>
           if negb (includesTool (allowedTools config) tool) then
             Js.Return
               (mkResult false
                  (Some ("This tool is not available on your " ++ name config
                         ++ " plan. Please upgrade to access this feature.")%string)
                  None)
           else Js.Return (mkResult true None None)
       end.

Definition undefinedDailyVideoLimit : Js.Error :=
  Js.TypeError "Cannot read properties of undefined (reading 'dailyVideoLimit')".

Definition canGenerateVideo (now : Z) (user : User.t) : Js.Completion PlanCheckResult :=
  if User.isAdmin user then Js.Return (mkResult true None None)
  else if isPlanExpired now user then
    Js.Return
      (mkResult false (Some "Your plan has expired. Please contact admin to renew.") None)
  else if hasReachedDailyLimit user then
    match PLAN_CONFIGS (User.planType user) with
    | Missing => Js.Throw undefinedDailyVideoLimit
    | Inherited =>
        Js.Return
          (mkResult false
             (Some ("You have reached your daily limit of " ++ "undefined"
                    ++ " videos. Limit resets at midnight.")%string)
             None)
    | Plan config =>
        Js.Return
          (mkResult false
             (Some ("You have reached your daily limit of "
                    ++ Js.numberToString (dailyVideoLimit config)
                    ++ " videos. Limit resets at midnight.")%string)
             None)
    end
  else Js.Return (mkResult true None (Some (getRemainingVideos user))).

Definition undefinedBulkGeneration : Js.Error :=
  Js.TypeError "Cannot read properties of undefined (reading 'bulkGeneration')".

Definition undefinedMaxPrompts : Js.Error :=
  Js.TypeError "Cannot read properties of undefined (reading 'maxPrompts')".

Definition canBulkGenerate (now : Z) (user : User.t) (videoCount : Z)
    : Js.Completion PlanCheckResult :=
  if User.isAdmin user then Js.Return (mkResult true None None)
  else
    match canAccessTool now user bulk with
    | Js.Throw error => Js.Throw error
    | Js.Return toolCheck =>
      if negb (allowed toolCheck) then Js.Return toolCheck
      else match PLAN_CONFIGS (User.planType user) with
           | Missing => Js.Throw undefinedBulkGeneration
           | Inherited => Js.Throw undefinedMaxPrompts
           | Plan config =>
               if videoCount >? maxPrompts (bulkGeneration config) then
                 Js.Return
                   (mkResult false
                      (Some ("Your " ++ name config ++ " plan allows a maximum of "
                             ++ Js.numberToString (maxPrompts (bulkGeneration config))
                             ++ " prompts in total. Please reduce the number of prompts.")%string)
                      None)
               else
                 let remaining := getRemainingVideos user in
                 if gtNum videoCount remaining then
                   Js.Return
                     (mkResult false
                        (Some ("You have " ++ Num_toString remaining
                               ++ " videos remaining today. Cannot generate "
                               ++ Js.numberToString videoCount ++ " videos.")%string)
                        None)
                 else Js.Return (mkResult true None (Some remaining))
           end
    end.

(** [None] is [undefined]: the [bulkGeneration] of an inherited value. *)
Definition getBatchConfig (user : User.t) : option BulkGeneration :=
  if User.isAdmin user then Some (bulkGeneration empire)
  else match PLAN_CONFIGS (User.planType user) with
       | Missing => Some (mkBulk 0 0 0)
       | Inherited => None
       | Plan config => Some (bulkGeneration config)
       end.

(** What [getPlanConfig] returns: a plan configuration whose daily limit may
    be [Infinity]. *)
Record PlanView := mkView {
  viewName : string;
  viewDailyVideoLimit : Num;
  viewAllowedTools : list AllowedTool;
  viewBulkGeneration : BulkGeneration
}.

Definition viewOf (config : PlanConfig) : PlanView :=
  mkView (name config) (Finite (dailyVideoLimit config)) (allowedTools config)
    (bulkGeneration config).

(** [getPlanConfig] answers a configuration, or the inherited value that
    the lookup found. *)
Inductive Shown :=
| View (view : PlanView)
| InheritedValue.

Definition getPlanConfig (user : User.t) : Shown :=
  if User.isAdmin user then
    View (mkView "Admin (Unlimited)" Infinity (allowedTools empire) (bulkGeneration empire))
  else
    match PLAN_CONFIGS (User.planType user) with
    | Plan config => View (viewOf config)
    | Inherited => InheritedValue
    | Missing => View (viewOf free)
    end.

(** [formatPlanExpiry] at instant [now]; the expiry is the instant its text
    denotes. *)
Definition formatPlanExpiry (now : Z) (expiryDate : option Z) : string :=
  match expiryDate with
  | None => "Never"
  | Some date =>
      if date <? now then "Expired"
      else
        let diffTime := date - now in
        let diffDays := Js.ceilDiv diffTime (1000 * 60 * 60 * 24) in
        if diffDays =? 0 then "Expires today"
        else if diffDays =? 1 then "Expires tomorrow"
        else (Js.numberToString diffDays ++ " days remaining")%string
  end.

End PlanEnforcement.

(** ** Submission queue ([server/bulkQueue.ts]) *)

Module BulkQueue.

Record QueuedVideo := mkVideo {
  videoId : string;
  prompt : string;
  aspectRatio : string;
  sceneNumber : Z;
  userId : string
}.

Definition MAX_RETRIES : Z := 2.
Definition RETRY_DELAY_MS : Z := 10000.

(** The module's state: the queue, the [isProcessing] flag, the
    [setTimeout] callbacks that have not run yet, each with the instant it
    is due and the video its closure holds, and the [overrideDelaySeconds] the
    running processor was started with. *)
Record Queue := mkQueue {
  bulkQueue : list QueuedVideo;
  isProcessing : bool;
  timers : list (Z * QueuedVideo);
  overrideDelaySeconds : option Z
}.

Definition emptyQueue : Queue := mkQueue [] false [] None.

(** [processQueue] up to its first [await]: it returns at once when the
    processor runs, and raises the flag otherwise. *)
Definition processQueue_start (override : option Z) (q : Queue) : Queue :=
  if isProcessing q then q else mkQueue (bulkQueue q) true (timers q) override.

Definition addToQueue (videos : list QueuedVideo) (delaySeconds : option Z) (q : Queue)
    : Queue :=
  let q := mkQueue (bulkQueue q ++ videos) (isProcessing q) (timers q)
             (overrideDelaySeconds q) in
  if negb (isProcessing q) then processQueue_start delaySeconds q else q.

(** The callback [handleVideoFailure] hands to [setTimeout]. *)
Definition requeue (video : QueuedVideo) (q : Queue) : Queue :=
  let q := mkQueue (bulkQueue q ++ [video]) (isProcessing q) (timers q)
             (overrideDelaySeconds q) in
  if negb (isProcessing q) then processQueue_start None q else q.

(** [bulkQueue.shift()] *)
Definition shift (q : Queue) : option QueuedVideo * Queue :=
  match bulkQueue q with
  | [] => (None, q)
  | video :: rest =>
      (Some video, mkQueue rest (isProcessing q) (timers q) (overrideDelaySeconds q))
  end.

Section Driver.

Variable bindObject : VideoHistory.partial -> option string.

Definition retryMessage (errorMessage : string) (newRetryCount : Z) : string :=
  (errorMessage ++ " (Retry " ++ Js.numberToString newRetryCount ++ "/"
   ++ Js.numberToString MAX_RETRIES ++ ")")%string.

Definition failedMessage (errorMessage : string) : string :=
  (errorMessage ++ " (Failed after " ++ Js.numberToString MAX_RETRIES ++ " retries)")%string.

Definition handleVideoFailure (now : Z) (video : QueuedVideo) (errorMessage : string)
    (rotationToken : option ApiToken.t) (st : Storage.Store) (q : Queue)
    : Storage.Store * Queue :=
  match Storage.getVideoById (videoId video) st with
  | None => (st, q)
  | Some videoRecord =>
    let currentRetries := Js.orZero (VideoHistory.retryCount videoRecord) in
    (* the [try] block up to the token error *)
    let tried : Js.Completion (Storage.Store * Queue) :=
      if currentRetries <? MAX_RETRIES then
        let newRetryCount := currentRetries + 1 in
        match
          Storage.updateVideoHistoryFields bindObject now (videoId video)
            (Storage.ObjectLiteral
               (VideoHistory.mkPartial None None None (Some newRetryCount)
                  (Some (retryMessage errorMessage newRetryCount))))
            None st
        with
        | (Js.Throw e, _) => Js.Throw e
        | (Js.Return _, st') =>
            Js.Return
              (st', mkQueue (bulkQueue q) (isProcessing q)
                      (timers q ++ [(now + RETRY_DELAY_MS, video)])
                      (overrideDelaySeconds q))
        end
      else
        Js.Return
          (snd (Storage.updateVideoHistoryStatus now (videoId video) (userId video)
                  "failed" None (Some (failedMessage errorMessage)) st), q)
    in
    match tried with
    | Js.Return (st', q') =>
        (match rotationToken with
         | Some t => Storage.recordTokenError now (ApiToken.id t) st'
         | None => st'
         end, q')
    | Js.Throw _ =>
        (* [catch]: fall back to marking the row failed *)
        (snd (Storage.updateVideoHistoryStatus now (videoId video) (userId video)
                "failed" None (Some errorMessage) st), q)
    end
  end.

(** A job that keeps failing at submission: each round the processor takes
    it from the head of the queue, the submission fails, the failure is
    handled, and the retry timer fires.  The last component counts the failed
    submissions that were handled. *)
Fixpoint failingRounds (n : nat) (now : Z) (errorMessage : string)
    (rotationToken : option ApiToken.t) (st : Storage.Store) (q : Queue)
    : Storage.Store * Queue * nat :=
  match n with
  | O => (st, q, O)
  | S n' =>
      match shift q with
      | (None, q1) => (st, q1, O)
      | (Some video, q1) =>
          let '(st2, q2) := handleVideoFailure now video errorMessage rotationToken st q1 in
          match timers q2 with
          | [] => (st2, q2, 1%nat)
          | (due, v) :: rest =>
              let q3 :=
                requeue v (mkQueue (bulkQueue q2) (isProcessing q2) rest
                             (overrideDelaySeconds q2)) in
              let '(st4, q4, k) :=
                failingRounds n' due errorMessage rotationToken st2 q3 in
              (st4, q4, S k)
          end
      end
  end.

End Driver.

(** *** The processor's batches *)

Definition MAX_CONCURRENT : nat := 8.

(** The batch settings [processQueue] works with: [videosPerBatch] and
    [batchDelaySeconds].  [settings] is how [storage.getTokenSettings()]
    completed; a throw is caught and leaves the defaults. *)
Definition batchSettings (overrideDelaySeconds : option Z)
    (settings : Js.Completion (option TokenSettings.t)) : Z * Z :=
  let videosPerBatch := 10 in
  let batchDelaySeconds := Js.orElse overrideDelaySeconds 20 in
  match settings with
  | Js.Return (Some settings) =>
      (Js.orElse (Js.parseInt (TokenSettings.videosPerBatch settings)) 5,
       if Js.isFalsy overrideDelaySeconds then
         Js.orElse (Js.parseInt (TokenSettings.batchDelaySeconds settings)) 20
       else batchDelaySeconds)
  | _ => (videosPerBatch, batchDelaySeconds)
  end.

(** [for (let i = 0; i < batchSize; i++)] with [count] passes left: each
    pass shifts the queue and keeps the video if there is one. *)
Fixpoint takeBatch (count : nat) (batch : list QueuedVideo) (q : Queue)
    : list QueuedVideo * Queue :=
  match count with
  | O => (batch, q)
  | S count' =>
      match shift q with
      | (Some video, q) => takeBatch count' (batch ++ [video]) q
      | (None, q) => takeBatch count' batch q
      end
  end.

(** One pass of the [while] loop up to [if (batch.length === 0)]. *)
Definition nextBatch (videosPerBatch : Z) (q : Queue) : list QueuedVideo * Queue :=
  let batchSize := Z.min videosPerBatch (Z.of_nat (length (bulkQueue q))) in
  takeBatch (Z.to_nat batchSize) [] q.

(** [arr.slice(i, j)] for [0 <= i <= j]. *)
Definition slice {A} (arr : list A) (i j : nat) : list A := take (j - i) (drop i arr).

(** [for (let i = 0; i < batch.length; i += MAX_CONCURRENT)] with [passes]
    passes left: the chunks submitted together, in order. *)
Fixpoint chunksFrom (passes : nat) (i : nat) (batch : list QueuedVideo)
    : list (list QueuedVideo) :=
  match passes with
  | O => []
  | S passes' =>
      if (i <? length batch)%nat then
        slice batch i (i + MAX_CONCURRENT) :: chunksFrom passes' (i + MAX_CONCURRENT) batch
      else []
  end.

Definition chunks (batch : list QueuedVideo) : list (list QueuedVideo) :=
  chunksFrom (length batch) 0 batch.

(** The [while] loop of [processQueue] on a queue that nothing else touches
    while it runs, with [passes] passes left: the batches it submits, each as
    its chunks, and the queue it leaves.  [None] when the passes run out
    before the loop ends. *)
Fixpoint processQueue_loop (passes : nat) (videosPerBatch : Z) (q : Queue)
    : option (list (list (list QueuedVideo))) * Queue :=
  match passes with
  | O => (None, q)
  | S passes' =>
      match bulkQueue q with
      | [] => (Some [], mkQueue [] false (timers q) (overrideDelaySeconds q))
      | _ =>
          let '(batch, q) := nextBatch videosPerBatch q in
          match batch with
          | [] => processQueue_loop passes' videosPerBatch q
          | _ =>
              let '(batches, q) := processQueue_loop passes' videosPerBatch q in
              (cons (chunks batch) <$> batches, q)
          end
      end
  end.

End BulkQueue.

(** ** Polling coordinator ([server/pollingCoordinator.ts]): the writes to
    the job row *)

Module PollingCoordinator.

Definition MAX_ATTEMPTS : Z := 240.
Definition POLL_INTERVAL_MS : Z := 15000.

Record PollingJob := mkJob {
  videoId : string;
  userId : string;
  operationName : string;
  sceneId : string;
  apiKey : string;
  rotationToken : option ApiToken.t;
  attempts : Z;
  hasRetriedWithNewToken : bool
}.

Section Driver.

Variable bindObject : VideoHistory.partial -> option string.

(** [processJob], the heartbeat: [updateVideoHistoryFields(job.videoId, {})]
    inside a [try] whose [catch] only logs. *)
Definition touchUpdatedAt (now : Z) (job : PollingJob) (st : Storage.Store) : Storage.Store :=
  snd (Storage.updateVideoHistoryFields bindObject now (videoId job)
         (Storage.ObjectLiteral VideoHistory.empty) None st).

(** [retryWithNewToken]: the row is set back to [pending] before the new
    submission, and the token is recorded once the upstream accepts. *)
Definition retryWithNewToken_begin (now : Z) (job : PollingJob) (st : Storage.Store)
    : option VideoHistory.t * Storage.Store :=
  Storage.updateVideoHistoryStatus now (videoId job) (userId job) "pending" None None st.

Definition retryWithNewToken_accepted (now : Z) (job : PollingJob) (nextToken : ApiToken.t)
    (st : Storage.Store) : Storage.Store :=
  snd (Storage.updateVideoHistoryFields bindObject now (videoId job)
         (Storage.ObjectLiteral
            (VideoHistory.mkPartial None None (Some (ApiToken.id nextToken)) None None))
         None st).

End Driver.

(** [checkVideoStatus], upstream complete with a URL, after the upload. *)
Definition markCompleted (now : Z) (job : PollingJob) (cloudinaryUrl : string)
    (st : Storage.Store) : Storage.Store :=
  snd (Storage.updateVideoHistoryStatus now (videoId job) (userId job) "completed"
         (Some cloudinaryUrl) None st).

(** [checkVideoStatus], upstream error field set. *)
Definition markUpstreamFailed (now : Z) (job : PollingJob) (errorMessage : string)
    (st : Storage.Store) : Storage.Store :=
  let st :=
    snd (Storage.updateVideoHistoryStatus now (videoId job) (userId job) "failed"
           None (Some errorMessage) st) in
  match rotationToken job with
  | Some t => Storage.recordTokenError now (ApiToken.id t) st
  | None => st
  end.

Definition timeoutMessage : string :=
  ("Video generation timed out after "
   ++ Js.numberToString (MAX_ATTEMPTS * POLL_INTERVAL_MS / 1000) ++ " seconds ("
   ++ Js.numberToString MAX_ATTEMPTS ++ " attempts)")%string.

(** [processJob], loop exhausted. *)
Definition markTimedOut (now : Z) (job : PollingJob) (st : Storage.Store) : Storage.Store :=
  snd (Storage.updateVideoHistoryStatus now (videoId job) (userId job) "failed"
         None (Some timeoutMessage) st).

(** *** The worker pool *)

Definition MAX_CONCURRENT_WORKERS : Z := 20.
Definition RETRY_ATTEMPT : Z := 8.

(** The module's [pollingQueue] and [activeWorkers], and the calls of
    [processJob] that have started and not reached their [finally] yet (the
    code holds these as pending promises, not in a variable). *)
Record Pool := mkPool {
  pollingQueue : list PollingJob;
  activeWorkers : Z;
  running : list PollingJob
}.

Definition emptyPool : Pool := mkPool [] 0 [].

(** The [while] loop of [startWorkers], by the queue it has left. *)
Fixpoint startWorkers_loop (queue : list PollingJob) (active : Z)
    (started : list PollingJob) : Pool :=
  match queue with
  | [] => mkPool [] active started
  | job :: rest =>
      if active <? MAX_CONCURRENT_WORKERS
      then startWorkers_loop rest (active + 1) (started ++ [job])
      else mkPool queue active started
  end.

Definition startWorkers (p : Pool) : Pool :=
  startWorkers_loop (pollingQueue p) (activeWorkers p) (running p).

Definition enqueueStatusCheck (videoId userId operationName sceneId apiKey : string)
    (rotationToken : option ApiToken.t) (p : Pool) : Pool :=
  let job := mkJob videoId userId operationName sceneId apiKey rotationToken 0 false in
  startWorkers (mkPool (pollingQueue p ++ [job]) (activeWorkers p) (running p)).

(** The [finally] block of the [i]-th running call of [processJob]. *)
Definition workerFinished (i : nat) (p : Pool) : Pool :=
  match running p !! i with
  | None => p
  | Some _ =>
      startWorkers (mkPool (pollingQueue p) (activeWorkers p - 1) (delete i (running p)))
  end.

Inductive PoolEvent :=
| Enqueued (videoId userId operationName sceneId apiKey : string)
    (rotationToken : option ApiToken.t)
| Finished (i : nat).

Definition poolEventStep (p : Pool) (e : PoolEvent) : Pool :=
  match e with
  | Enqueued videoId userId operationName sceneId apiKey rotationToken =>
      enqueueStatusCheck videoId userId operationName sceneId apiKey rotationToken p
  | Finished i => workerFinished i p
  end.

(** *** The polling loop *)

Definition Qmin (a b : Q) : Q := if Qle_bool a b then a else b.

(** The sleep before a poll that is not the first; [random] is the value
    [Math.random()] returned. *)
Definition pollDelay (consecutiveFailures : Z) (random : Q) : Q :=
  if consecutiveFailures =? 0 then inject_Z POLL_INTERVAL_MS
  else
    let backoffMultiplier := Z.min (2 ^ (consecutiveFailures - 1)) 4 in
    let backoffDelay := POLL_INTERVAL_MS * backoffMultiplier in
    let jitter := (random * inject_Z backoffDelay)%Q in
    Qmin (inject_Z backoffDelay + jitter) (inject_Z 120000).

(** What [checkVideoStatus] returns. *)
Record StatusCheck := mkStatus {
  completed : bool;
  failed : bool;
  shouldBackoff : bool
}.

(** What the [while] loop of [processJob] did: [job.attempts] and the
    [completed] flag at its exit, the sleeps between polls in order, and the
    values of [job.attempts] at which [retryWithNewToken] was called. *)
Record PollTrace := mkTrace {
  attemptsMade : Z;
  isCompleted : bool;
  waits : list Q;
  tokenRetries : list Z
}.

Section PollLoop.

(** [statusResult k] is what [checkVideoStatus] returns at the poll that
    makes [job.attempts] equal to [k]; [retrySucceeds k] tells whether
    [retryWithNewToken] called there switched the token; [random k] is the
    draw of [Math.random()] before the poll that follows [k] polls. *)
Variable statusResult : Z -> StatusCheck.
Variable retrySucceeds : Z -> bool.
Variable random : Z -> Q.

(** The [while] loop with [passes] passes left; [None] when the passes run
    out before the loop ends. *)
Fixpoint pollLoop (passes : nat) (attempts : Z) (hasRetriedWithNewToken : bool)
    (consecutiveFailures : Z) (slept : list Q) (retries : list Z) : option PollTrace :=
  if attempts <? MAX_ATTEMPTS then
    match passes with
    | O => None
    | S passes' =>
        let slept :=
          if attempts >? 0
          then slept ++ [pollDelay consecutiveFailures (random attempts)]
          else slept in
        let attempts := attempts + 1 in
        let retrying := (attempts =? RETRY_ATTEMPT) && negb hasRetriedWithNewToken in
        let retries := if retrying then retries ++ [attempts] else retries in
        let hasRetriedWithNewToken :=
          if retrying then retrySucceeds attempts else hasRetriedWithNewToken in
        let result := statusResult attempts in
        if completed result then Some (mkTrace attempts true slept retries)
        else if failed result then Some (mkTrace attempts true slept retries)
        else if shouldBackoff result then
          pollLoop passes' attempts hasRetriedWithNewToken (consecutiveFailures + 1)
            slept retries
        else pollLoop passes' attempts hasRetriedWithNewToken 0 slept retries
    end
  else Some (mkTrace attempts false slept retries).

(** A job as [enqueueStatusCheck] creates it: no attempt made, no token
    switch yet. *)
Definition processJob_polls (passes : nat) : option PollTrace :=
  pollLoop passes 0 false 0 [] [].

End PollLoop.

(** *** The video URL of a status response *)

(** The fields of [operationData.operation] the code reads; [fifeUrl] is
    [operation.metadata.video.fifeUrl]. *)
Record Operation := mkOperation {
  fifeUrl : option string;
  opVideoUrl : option string;
  fileUrl : option string;
  downloadUrl : option string
}.

Definition quote : string := String "034"%char EmptyString.

Definition decodeHtmlEntities (url : string) : string :=
  Js.replaceAll "&#39;" "'"
    (Js.replaceAll "&quot;" quote
       (Js.replaceAll "&gt;" ">"
          (Js.replaceAll "&lt;" "<"
             (Js.replaceAll "&amp;" "&" url)))).

(** The [if]/[else if] chain and the decoding; [operation] is [None] when
    the response's entry has no [operation]. *)
Definition extractVideoUrl (operation : option Operation) : option string :=
  let veoVideoUrl :=
    match operation with
    | None => None
    | Some operation =>
        if Js.truthy (fifeUrl operation) then fifeUrl operation
        else if Js.truthy (opVideoUrl operation) then opVideoUrl operation
        else if Js.truthy (fileUrl operation) then fileUrl operation
        else if Js.truthy (downloadUrl operation) then downloadUrl operation
        else None
    end in
  if Js.truthy veoVideoUrl then decodeHtmlEntities <$> veoVideoUrl else veoVideoUrl.

End PollingCoordinator.

(** ** The store's retry wrapper ([withRetry], imported from [./db]) *)

Module Db.

Definition messageIncludes (error : Js.Error) (sub : string) : bool :=
  match Js.message error with
  | Some m => Js.includes m sub
  | None => false
  end.

Definition codeIs (error : Js.Error) (c : string) : bool :=
  match Js.code error with
  | Some x => String.eqb x c
  | None => false
  end.

Definition isRetryable (error : Js.Error) : bool :=
  messageIncludes error "Connection terminated" ||
  messageIncludes error "WebSocket is not open" ||
  messageIncludes error "Server closed the connection unexpectedly" ||
  messageIncludes error "socket hang up" ||
  messageIncludes error "ECONNREFUSED" ||
  messageIncludes error "ECONNRESET" ||
  messageIncludes error "Connection timeout" ||
  messageIncludes error "timeout exceeded when trying to connect" ||
  messageIncludes error "connection to server" ||
  codeIs error "ECONNRESET" ||
  codeIs error "ECONNREFUSED" ||
  codeIs error "ETIMEDOUT" ||
  codeIs error "EPIPE" ||
  codeIs error "57P01" ||
  codeIs error "57P02" ||
  codeIs error "57P03" ||
  codeIs error "08006" ||
  codeIs error "08003".

Definition exhausted : Js.Error :=
  Js.mkError "Error" (Some "Database operation failed after retries") None.

(** [Math.min(baseDelayMs * Math.pow(2, attempt), 5000)] for an integral
    [baseDelayMs]: below the cap the product is exact, and a positive product
    that is rounded or overflows lies above the cap. *)
Definition backoff (baseDelayMs : Z) (attempt : nat) : Z :=
  Z.min (baseDelayMs * 2 ^ Z.of_nat attempt) 5000.

(** [jitter = Math.random() * backoff * 0.3] and
    [totalDelay = backoff + jitter], in doubles: the two products and the sum
    are each rounded, and [0.3] is the double of that literal.  [r] is the
    value [Math.random()] returned. *)
Definition totalDelay (baseDelayMs : Z) (attempt : nat) (r : Q) : Q :=
  let backoff := inject_Z (backoff baseDelayMs attempt) in
  let jitter := Js.binary64 (Js.binary64 (r * backoff) * Js.double_0_3) in
  Js.binary64 (backoff + jitter).

(** What a run of [withRetry] did: how it completed, how many times it
    called [operation], and the delays it slept, in order. *)
Record Run (T : Type) := mkRun {
  completion : Js.Completion T;
  calls : nat;
  delays : list Q
}.
Arguments mkRun {T} _ _ _.
Arguments completion {T} _.
Arguments calls {T} _.
Arguments delays {T} _.

Section WithRetry.

Context {T : Type}.

(** [operation k] is how the call of [operation()] in iteration [k]
    completes; [random k] is what [Math.random()] returns there. *)
Variable operation : nat -> Js.Completion T.
Variable random : nat -> Q.
Variable maxRetries : Z.
Variable baseDelayMs : Z.

(** The [for] loop, with [iterations] passes left. *)
Fixpoint retryLoop (iterations : nat) (attempt : nat) (lastError : option Js.Error)
    (slept : list Q) : Run T :=
  match iterations with
  | O => mkRun (Js.Throw (default exhausted lastError)) attempt slept
  | S iterations' =>
      match operation attempt with
      | Js.Return v => mkRun (Js.Return v) (S attempt) slept
      | Js.Throw error =>
          if negb (isRetryable error) || (Z.of_nat attempt =? maxRetries - 1) then
            mkRun (Js.Throw error) (S attempt) slept
          else
            retryLoop iterations' (S attempt) (Some error)
              (slept ++ [totalDelay baseDelayMs attempt (random attempt)])
      end
  end.

Definition withRetry_with : Run T := retryLoop (Z.to_nat maxRetries) 0 None [].

End WithRetry.

(** The defaults of the signature: [maxRetries = 5], [baseDelayMs = 250]. *)
Definition withRetry {T} (operation : nat -> Js.Completion T) (random : nat -> Q) : Run T :=
  withRetry_with operation random 5 250.

End Db.

(** ** The uploader's network retry ([withNetworkRetry] and
    [uploadVideoToCloudinary], in the sources under [server/openai-script.ts]) *)

Module Cloudinary.

Definition isRetryable (error : Js.Error) : bool :=
  Db.messageIncludes error "fetch failed" ||
  Db.messageIncludes error "ECONNRESET" ||
  Db.messageIncludes error "ETIMEDOUT" ||
  Db.messageIncludes error "ECONNREFUSED" ||
  Db.messageIncludes error "socket disconnected" ||
  Db.messageIncludes error "TLS connection" ||
  Db.codeIs error "ECONNRESET" ||
  Db.codeIs error "ETIMEDOUT" ||
  Db.codeIs error "ECONNREFUSED" ||
  Db.codeIs error "EPIPE".

Definition failedAfterRetries (operationName : string) : Js.Error :=
  Js.mkError "Error" (Some (operationName ++ " failed after retries")%string) None.

(** [Math.min(baseDelayMs * Math.pow(2, attempt), 10000)] *)
Definition backoff (baseDelayMs : Z) (attempt : nat) : Z :=
  Z.min (baseDelayMs * 2 ^ Z.of_nat attempt) 10000.

Definition totalDelay (baseDelayMs : Z) (attempt : nat) (r : Q) : Q :=
  (inject_Z (backoff baseDelayMs attempt)
   + r * inject_Z (backoff baseDelayMs attempt) * (3 # 10))%Q.

Section WithNetworkRetry.

Context {T : Type}.

(** [operation k] is how the call of [operation()] in iteration [k]
    completes; [random k] is what [Math.random()] returns there. *)
Variable operation : nat -> Js.Completion T.
Variable random : nat -> Q.
Variable maxRetries : Z.
Variable baseDelayMs : Z.
Variable operationName : string.

(** The [for] loop, with [iterations] passes left. *)
Fixpoint retryLoop (iterations : nat) (attempt : nat) (lastError : option Js.Error)
    (slept : list Q) : Db.Run T :=
  match iterations with
  | O =>
      Db.mkRun (Js.Throw (default (failedAfterRetries operationName) lastError))
        attempt slept
  | S iterations' =>
      match operation attempt with
      | Js.Return v => Db.mkRun (Js.Return v) (S attempt) slept
      | Js.Throw error =>
          if negb (isRetryable error) || (Z.of_nat attempt =? maxRetries - 1) then
            Db.mkRun (Js.Throw error) (S attempt) slept
          else
            retryLoop iterations' (S attempt) (Some error)
              (slept ++ [totalDelay baseDelayMs attempt (random attempt)])
      end
  end.

Definition withNetworkRetry : Db.Run T := retryLoop (Z.to_nat maxRetries) 0 None [].

End WithNetworkRetry.

(** The error the [catch] of [uploadVideoToCloudinary] throws.  The
    operations throw [Error] instances, whose message is a string; an error
    without a message stands for a thrown value that is not one. *)
Definition uploadFailed (error : Js.Error) : Js.Error :=
  Js.mkError "Error"
    (Some ("Failed to upload video to Cloudinary: "
           ++ default "Unknown error" (Js.message error))%string)
    None.

(** What a call of [uploadVideoToCloudinary] did: how it completed, how
    often it fetched the video and how often it posted it, and the delays it
    slept, in order. *)
Record UploadRun := mkUploadRun {
  result : Js.Completion string;
  fetchCalls : nat;
  uploadCalls : nat;
  sleeps : list Q
}.

Section Upload.

(** [Blob] is the fetched video.  [fetchVideo k] is how the [k]-th fetch of
    the video (from its URL or from disk) completes, [upload blob k] how the
    [k]-th post of it to the media host does, the secure URL in hand. *)
Context {Blob : Type}.
Variable fetchVideo : nat -> Js.Completion Blob.
Variable upload : Blob -> nat -> Js.Completion string.
Variable randomFetch randomUpload : nat -> Q.

Definition uploadVideoToCloudinary : UploadRun :=
  let fetched :=
    withNetworkRetry fetchVideo randomFetch 5 1000
      "Fetch video from Google Cloud Storage" in
  match Db.completion fetched with
  | Js.Throw error =>
      mkUploadRun (Js.Throw (uploadFailed error)) (Db.calls fetched) 0 (Db.delays fetched)
  | Js.Return videoBlob =>
      let uploaded :=
        withNetworkRetry (upload videoBlob) randomUpload 5 1000 "Upload to Cloudinary" in
      mkUploadRun
        match Db.completion uploaded with
        | Js.Throw error => Js.Throw (uploadFailed error)
        | Js.Return cloudinaryUrl => Js.Return cloudinaryUrl
        end
        (Db.calls fetched) (Db.calls uploaded)
        (Db.delays fetched ++ Db.delays uploaded)
  end.

End Upload.

End Cloudinary.

(** ** Polling coordinator: one status check ([checkVideoStatus] of
    [server/pollingCoordinator.ts]) *)

Module PollingStatus.

(** An error that reaches the [catch], with its [cause.code]. *)
Record PollError := mkPollError {
  thrown : Js.Error;
  causeCode : option string
}.

Definition isNetworkError (pollError : PollError) : bool :=
  String.eqb (Js.name (thrown pollError)) "AbortError" ||
  Db.codeIs (thrown pollError) "ECONNRESET" ||
  match causeCode pollError with
  | Some c => String.eqb c "ECONNRESET"
  | None => false
  end ||
  Db.messageIncludes (thrown pollError) "fetch failed".

(** [operation.error]: its [message], and [JSON.stringify] of it. *)
Record OperationError := mkOperationError {
  errorMessage : option string;
  errorJson : string
}.

(** An entry of [statusData.operations]: its [status], and its [operation]
    with the [error] of that, where they are set. *)
Record OperationData := mkOperationData {
  opStatus : option string;
  operation : option (PollingCoordinator.Operation * option OperationError)
}.

(** What the request came to: an error thrown by [fetch] or by
    [statusResponse.json()], a response that is not [ok] with its status code,
    or the [operations] of the body. *)
Inductive StatusResponse :=
| Rejected (pollError : PollError)
| NotOk (status : Z)
| Ok (operations : option (list OperationData)).

Definition isCompleteStatus (opStatus : option string) : bool :=
  match opStatus with
  | Some s =>
      String.eqb s "MEDIA_GENERATION_STATUS_COMPLETE" ||
      String.eqb s "MEDIA_GENERATION_STATUS_SUCCESSFUL" ||
      String.eqb s "COMPLETED"
  | None => false
  end.

Definition generationFailed (error : OperationError) : string :=
  ("VEO generation failed: "
   ++ (if Js.truthy (errorMessage error) then default "" (errorMessage error)
       else String.substring 0 200 (errorJson error)))%string.

(** [upload url] is how [uploadVideoToCloudinary(url)] completes; the errors
    it throws are made by [new Error(...)] and carry no cause.  The monitor's
    counters and the [lastDbUpdate] map are left out. *)
Definition checkVideoStatus (now : Z) (job : PollingCoordinator.PollingJob)
    (response : StatusResponse) (upload : string -> Js.Completion string)
    (st : Storage.Store) : PollingCoordinator.StatusCheck * Storage.Store :=
  match response with
  | Rejected pollError =>
      (PollingCoordinator.mkStatus false false (isNetworkError pollError), st)
  | NotOk status =>
      let is5xxError := (status >=? 500) && (status <? 600) in
      (PollingCoordinator.mkStatus false false is5xxError, st)
  | Ok (Some (operationData :: _)) =>
      let veoVideoUrl :=
        PollingCoordinator.extractVideoUrl (fst <$> operation operationData) in
      if isCompleteStatus (opStatus operationData) then
        match veoVideoUrl with
        | Some url =>
            if negb (String.eqb url "") then
              match upload url with
              | Js.Return cloudinaryUrl =>
                  (PollingCoordinator.mkStatus true false false,
                   PollingCoordinator.markCompleted now job cloudinaryUrl st)
              | Js.Throw error =>
                  (PollingCoordinator.mkStatus false false
                     (isNetworkError (mkPollError error None)), st)
              end
            else (PollingCoordinator.mkStatus false false false, st)
        | None => (PollingCoordinator.mkStatus false false false, st)
        end
      else
        match operation operationData ≫= snd with
        | Some error =>
            (PollingCoordinator.mkStatus false true false,
             PollingCoordinator.markUpstreamFailed now job (generationFailed error) st)
        | None => (PollingCoordinator.mkStatus false false false, st)
        end
  | Ok _ => (PollingCoordinator.mkStatus false false false, st)
  end.

End PollingStatus.

(** ** The sample buffers and the error log of the monitor (in the sources
    under [unnamed/part_006]) *)

Module Monitoring.

Definition MAX_TIMING_SAMPLES : nat := 1000.
Definition MAX_ERROR_LOG : nat := 100.

Record ErrorEntry := mkEntry {
  timestamp : Z;
  type : string;
  message : string
}.

(** [apiTimings] and [errors]; a duration is the rational its number
    denotes. *)
Record State := mkState {
  veoApiCalls : list Q;
  dbQueries : list Q;
  errors : list ErrorEntry
}.

Definition init : State := mkState [] [] [].

(** [arr.push(x); if (arr.length > cap) arr.shift()] *)
Definition pushCapped {A} (cap : nat) (x : A) (arr : list A) : list A :=
  let arr := arr ++ [x] in
  if (cap <? length arr)%nat then tail arr else arr.

Definition trackVeoApiCall (duration : Q) (s : State) : State :=
  mkState (pushCapped MAX_TIMING_SAMPLES duration (veoApiCalls s)) (dbQueries s) (errors s).

Definition trackDbQuery (duration : Q) (s : State) : State :=
  mkState (veoApiCalls s) (pushCapped MAX_TIMING_SAMPLES duration (dbQueries s)) (errors s).

Definition trackError (now : Z) (type message : string) (s : State) : State :=
  mkState (veoApiCalls s) (dbQueries s)
    (pushCapped MAX_ERROR_LOG (mkEntry now type message) (errors s)).

(** [getRecentErrors(minutes)] for an integral number of minutes. *)
Definition getRecentErrors (now : Z) (minutes : Z) (s : State) : list ErrorEntry :=
  let cutoff := now - minutes * 60 * 1000 in
  filter (fun e => (timestamp e >=? cutoff) = true) (errors s).

(** The [while] loop of the ten-minute timer: old entries leave from the
    front. *)
Fixpoint dropOld (cutoff : Z) (errors : list ErrorEntry) : list ErrorEntry :=
  match errors with
  | [] => []
  | e :: rest => if timestamp e <? cutoff then dropOld cutoff rest else errors
  end.

Definition cleanup (now : Z) (s : State) : State :=
  mkState (veoApiCalls s) (dbQueries s) (dropOld (now - 60 * 60 * 1000) (errors s)).

Inductive Event :=
| VeoApiCall (duration : Q)
| DbQuery (duration : Q)
| Error (now : Z) (type message : string)
| Cleanup (now : Z).

Definition step (s : State) (e : Event) : State :=
  match e with
  | VeoApiCall duration => trackVeoApiCall duration s
  | DbQuery duration => trackDbQuery duration s
  | Error now type message => trackError now type message s
  | Cleanup now => cleanup now s
  end.

End Monitoring.

(** ** The status check of the VEO client and the wait for a video (in the
    sources under [unnamed/part_006]) *)

Module Veo3.

Definition MAX_RETRIES : Z := 3.

(** What [checkVideoStatus] resolves to. *)
Record StatusResult := mkResult {
  status : string;
  videoUrl : option string;
  error : option string
}.

Definition pending : StatusResult := mkResult "PENDING" None None.

Definition isAbortError (e : Js.Error) : bool := String.eqb (Js.name e) "AbortError".

(** [Math.pow(2, retryCount) * 1000] *)
Definition waitTime (retryCount : Z) : Q := (Qpower (inject_Z 2) retryCount * inject_Z 1000)%Q.

Section CheckVideoStatus.

(** [request k] is how the [try] block completes in the [k]-th call of the
    function for one status check: with the result it returns, or with the
    error that reaches the [catch]. *)
Variable request : nat -> Js.Completion StatusResult.

(** [checkVideoStatus] and its calls of itself; [passes] bounds their number
    and [None] says that more were needed.  The run counts the requests made
    and lists the waits between them. *)
Fixpoint checkVideoStatus_from (passes : nat) (retryCount : Z) (calls : nat)
    (slept : list Q) : option (Db.Run StatusResult) :=
  match passes with
  | O => None
  | S passes' =>
      match request calls with
      | Js.Return result => Some (Db.mkRun (Js.Return result) (S calls) slept)
      | Js.Throw error =>
          if isAbortError error then
            if retryCount <? MAX_RETRIES then
              checkVideoStatus_from passes' (retryCount + 1) (S calls)
                (slept ++ [waitTime retryCount])
            else Some (Db.mkRun (Js.Return pending) (S calls) slept)
          else Some (Db.mkRun (Js.Throw error) (S calls) slept)
      end
  end.

Definition checkVideoStatus (passes : nat) (retryCount : Z) : option (Db.Run StatusResult) :=
  checkVideoStatus_from passes retryCount 0 [].

End CheckVideoStatus.

Definition isComplete (status : string) : bool :=
  String.eqb status "COMPLETED" ||
  String.eqb status "MEDIA_GENERATION_STATUS_COMPLETE" ||
  String.eqb status "MEDIA_GENERATION_STATUS_SUCCESSFUL".

Definition isFailed (status : string) : bool :=
  String.eqb status "FAILED" || String.eqb status "MEDIA_GENERATION_STATUS_FAILED".

Definition completedWithoutUrl : Js.Error :=
  Js.mkError "Error" (Some "Video completed but no URL provided") None.

Definition generationFailed (error : option string) : Js.Error :=
  Js.mkError "Error"
    (Some ("Video generation failed: "
           ++ (if Js.truthy error then default "" error else "Unknown error"))%string)
    None.

Definition timedOut : Js.Error := Js.mkError "Error" (Some "Video generation timed out") None.

Section WaitForVideoCompletion.

(** [check k] is how the [k]-th call of [checkVideoStatus] completes, and
    [elapsed k] is [Date.now() - startTime] at the [k]-th test of the loop's
    condition. *)
Variable check : nat -> Js.Completion StatusResult.
Variable elapsed : nat -> Z.
Variable maxWaitTime : Z.

(** The [while] loop of [waitForVideoCompletion], with the number of status
    checks made so far; [None] says that [passes] tests of the condition were
    not enough. *)
Fixpoint waitForVideoCompletion_loop (passes : nat) (polls : nat)
    : option (Js.Completion string * nat) :=
  match passes with
  | O => None
  | S passes' =>
      if elapsed polls <? maxWaitTime then
        match check polls with
        | Js.Throw error => Some (Js.Throw error, S polls)
        | Js.Return result =>
            if isComplete (status result) then
              match videoUrl result with
              | Some url =>
                  if negb (String.eqb url "") then Some (Js.Return url, S polls)
                  else Some (Js.Throw completedWithoutUrl, S polls)
              | None => Some (Js.Throw completedWithoutUrl, S polls)
              end
            else if isFailed (status result) then
              Some (Js.Throw (generationFailed (error result)), S polls)
            else waitForVideoCompletion_loop passes' (S polls)
        end
      else Some (Js.Throw timedOut, polls)
  end.

Definition waitForVideoCompletion (passes : nat) : option (Js.Completion string * nat) :=
  waitForVideoCompletion_loop passes 0.

End WaitForVideoCompletion.

End Veo3.

(** ** Media upload and its cache *)

Module Uploads.

Inductive PromiseState :=
| Pending
| Fulfilled (hostedUrl : string)
| Rejected.

(** The promises [uploadVideoToCloudinary] has returned, by creation order;
    for each the scene on whose behalf it was called and the upstream URL;
    the route's [cloudinaryUploadCache]; and the promises that carry the
    route's [catch] handler, with the scene it deletes. *)
Record State := mkState {
  promises : list PromiseState;
  started : list (string * string);
  cloudinaryUploadCache : gmap string nat;
  deleteOnReject : gmap nat string
}.

Definition init : State := mkState [] [] ∅ ∅.

(** A call of [uploadVideoToCloudinary(url)]: a new pending promise. *)
Definition uploadVideoToCloudinary (sceneId videoUrl : string) (s : State) : nat * State :=
  (length (promises s),
   mkState (promises s ++ [Pending]) (started s ++ [(sceneId, videoUrl)])
           (cloudinaryUploadCache s) (deleteOnReject s)).

(** [POST /api/check-video-status], the block run when the upstream status
    is complete and carries a URL, up to the [await]: the promise the
    handler then awaits. *)
Definition route_completed (sceneId videoUrl : string) (s : State) : nat * State :=
  match cloudinaryUploadCache s !! sceneId with
  | Some uploadPromise => (uploadPromise, s)
  | None =>
      let '(uploadPromise, s) := uploadVideoToCloudinary sceneId videoUrl s in
      (uploadPromise,
       mkState (promises s) (started s)
               (<[sceneId := uploadPromise]> (cloudinaryUploadCache s))
               (<[uploadPromise := sceneId]> (deleteOnReject s)))
  end.

(** [checkVideoStatus] of the polling coordinator, same event: the uploader
    is called with the URL. *)
Definition coordinator_completed (sceneId videoUrl : string) (s : State) : nat * State :=
  uploadVideoToCloudinary sceneId videoUrl s.

(** The background poller of [POST /api/regenerate-video], same event: the
    uploader is called with the URL.  The route has answered its client with
    the [operationName] and the [sceneId] the poller asks about, which are
    what the status-check route takes from the body of a request. *)
Definition regenerate_completed (sceneId videoUrl : string) (s : State) : nat * State :=
  uploadVideoToCloudinary sceneId videoUrl s.

(** A pending promise settles and its handlers run. *)
Definition settle (p : nat) (outcome : PromiseState) (s : State) : State :=
  match promises s !! p with
  | Some Pending =>
      let cache :=
        match outcome, deleteOnReject s !! p with
        | Rejected, Some sceneId => delete sceneId (cloudinaryUploadCache s)
        | _, _ => cloudinaryUploadCache s
        end in
      mkState (<[p := outcome]> (promises s)) (started s) cache (deleteOnReject s)
  | _ => s
  end.

Inductive Event :=
| RouteCompleted (sceneId videoUrl : string)
| CoordinatorCompleted (sceneId videoUrl : string)
| RegenerateCompleted (sceneId videoUrl : string)
| Settled (p : nat) (outcome : PromiseState).

Definition step (s : State) (e : Event) : State :=
  match e with
  | RouteCompleted sceneId videoUrl => snd (route_completed sceneId videoUrl s)
  | CoordinatorCompleted sceneId videoUrl => snd (coordinator_completed sceneId videoUrl s)
  | RegenerateCompleted sceneId videoUrl => snd (regenerate_completed sceneId videoUrl s)
  | Settled p outcome => settle p outcome s
  end.

Definition run (events : list Event) : State := foldl step init events.

Definition isRejected (st : PromiseState) : bool :=
  match st with
  | Rejected => true
  | _ => false
  end.

(** The uploads started for a scene that have not failed: pending or
    fulfilled. *)
Definition isLive (sceneId : string) (s : State) (p : nat) : bool :=
  match started s !! p, promises s !! p with
  | Some (sc, _), Some st => String.eqb sc sceneId && negb (isRejected st)
  | _, _ => false
  end.

Definition liveUploads (sceneId : string) (s : State) : list nat :=
  filter (fun p => isLive sceneId s p = true) (seq 0 (length (promises s))).

(** The uploads the status-check route has started: they carry its
    [catch] handler. *)
Definition byRoute (s : State) (p : nat) : bool :=
  match deleteOnReject s !! p with
  | Some _ => true
  | None => false
  end.

Definition liveRouteUploads (sceneId : string) (s : State) : list nat :=
  filter (fun p => byRoute s p = true) (liveUploads sceneId s).

End Uploads.

(** ** Routes that create and update job rows *)

Module Routes.

Inductive Response :=
| NotAuthenticated                      (* 401 *)
| NotFound                              (* 404 *)
| InvalidInput                          (* 400 *)
| Forbidden (error : option string)     (* 403 *)
| ServerError                           (* 500 *)
| Started (videoIds : list string)
| Updated (video : VideoHistory.t).

(** [req.session.userId] that passes [if (!userId)]. *)
Definition sessionUser (userId : option string) : option string :=
  match userId with
  | Some u => if String.eqb u "" then None else Some u
  | None => None
  end.

Definition isAspectRatio (s : string) : bool :=
  String.eqb s "landscape" || String.eqb s "portrait".

Definition isStatus (s : string) : bool :=
  String.eqb s "pending" || String.eqb s "completed" ||
  String.eqb s "failed" || String.eqb s "queued".

(** The body schema of [POST /api/bulk-generate]. *)
Definition validBulkBody (prompts : list string) (aspectRatio : string) : bool :=
  forallb (fun p => (10 <=? String.length p)%nat) prompts &&
  (1 <=? length prompts)%nat && (length prompts <=? 100)%nat &&
  isAspectRatio aspectRatio.

Section Ids.

(** [gen] gives the id the database generates for the row inserted into a
    table of the given size. *)
Variable gen : nat -> string.

(** The loop of [POST /api/bulk-generate] that creates the rows; [i] is the
    loop index of the first prompt. *)
Fixpoint createRows (now : Z) (userId aspectRatio : string) (i : Z) (prompts : list string)
    (st : Storage.Store) : list BulkQueue.QueuedVideo * Storage.Store :=
  match prompts with
  | [] => ([], st)
  | prompt :: rest =>
      let '(video, st) :=
        Storage.addVideoHistory now (gen (length (Storage.videoHistory st)))
          (Storage.mkInsert userId prompt aspectRatio "pending"
             (Some ("Bulk VEO " ++ aspectRatio ++ " video "
                    ++ Js.numberToString (i + 1))%string)
             None None)
          st in
      let '(queued, st) := createRows now userId aspectRatio (i + 1) rest st in
      (BulkQueue.mkVideo (VideoHistory.id video) prompt aspectRatio (i + 1) userId :: queued,
       st)
  end.

Fixpoint incrementDaily (n : nat) (userId : string) (st : Storage.Store) : Storage.Store :=
  match n with
  | O => st
  | S n' => incrementDaily n' userId (Storage.incrementDailyVideoCount userId st)
  end.

(** [POST /api/bulk-generate] on its own: no store call rejects and no
    other request runs between its awaits. *)
Definition bulkGenerate (now : Z) (session : option string) (prompts : list string)
    (aspectRatio : string) (st : Storage.Store) (q : BulkQueue.Queue)
    : Response * Storage.Store * BulkQueue.Queue :=
  match sessionUser session with
  | None => (NotAuthenticated, st, q)
  | Some userId =>
    match Storage.getUser userId st with
    | None => (NotFound, st, q)
    | Some user =>
      if negb (validBulkBody prompts aspectRatio) then (InvalidInput, st, q)
      else
        match PlanEnforcement.canBulkGenerate now user (Z.of_nat (length prompts)) with
        | Js.Throw _ => (ServerError, st, q)
        | Js.Return bulkCheck =>
          if negb (PlanEnforcement.allowed bulkCheck) then
            (Forbidden (PlanEnforcement.reason bulkCheck), st, q)
          else
            let batchConfig := PlanEnforcement.getBatchConfig user in
            let '(queuedVideos, st) := createRows now userId aspectRatio 0 prompts st in
            let st := incrementDaily (length prompts) userId st in
            match batchConfig with
            | None => (ServerError, st, q)
            | Some batchConfig =>
                let q :=
                  BulkQueue.addToQueue queuedVideos
                    (Some (PlanEnforcement.delaySeconds batchConfig)) q in
                (Started (map BulkQueue.videoId queuedVideos), st, q)
            end
        end
    end
  end.

(** *** The handler by its awaits *)

(** Every [await] of a store call is a point where the call can reject and
    where other requests run.  [fails k] says that the [k]-th store call of the
    request rejects: such a call writes nothing, and the handler's [catch]
    answers 500 with the store as the calls before it left it. *)
Fixpoint createRows_with (fails : nat -> bool) (call : nat) (now : Z)
    (userId aspectRatio : string) (i : Z) (prompts : list string) (st : Storage.Store)
    : option (list BulkQueue.QueuedVideo) * Storage.Store * nat :=
  match prompts with
  | [] => (Some [], st, call)
  | prompt :: rest =>
      if fails call then (None, st, call)
      else
        let '(video, st) :=
          Storage.addVideoHistory now (gen (length (Storage.videoHistory st)))
            (Storage.mkInsert userId prompt aspectRatio "pending"
               (Some ("Bulk VEO " ++ aspectRatio ++ " video "
                      ++ Js.numberToString (i + 1))%string)
               None None)
            st in
        let '(queued, st, call) :=
          createRows_with fails (S call) now userId aspectRatio (i + 1) rest st in
        (cons (BulkQueue.mkVideo (VideoHistory.id video) prompt aspectRatio (i + 1) userId)
           <$> queued,
         st, call)
  end.

Fixpoint incrementDaily_with (fails : nat -> bool) (call : nat) (n : nat) (userId : string)
    (st : Storage.Store) : bool * Storage.Store :=
  match n with
  | O => (true, st)
  | S n' =>
      if fails call then (false, st)
      else
        incrementDaily_with fails (S call) n' userId
          (Storage.incrementDailyVideoCount userId st)
  end.

(** [POST /api/bulk-generate] with calls that can reject.  [read] is the
    store at the call of [getUser] and [st] the store at the first insert: the
    two differ when another request has written in between.  From its first
    insert on the handler is followed without the writes of others.  The
    answer 500 comes from the [catch]. *)
Definition bulkGenerate_with (fails : nat -> bool) (now : Z) (session : option string)
    (prompts : list string) (aspectRatio : string) (read st : Storage.Store)
    (q : BulkQueue.Queue) : Response * Storage.Store * BulkQueue.Queue :=
  match sessionUser session with
  | None => (NotAuthenticated, st, q)
  | Some userId =>
    if fails 0%nat then (ServerError, st, q)
    else
    match Storage.getUser userId read with
    | None => (NotFound, st, q)
    | Some user =>
      if negb (validBulkBody prompts aspectRatio) then (InvalidInput, st, q)
      else
        match PlanEnforcement.canBulkGenerate now user (Z.of_nat (length prompts)) with
        | Js.Throw _ => (ServerError, st, q)
        | Js.Return bulkCheck =>
          if negb (PlanEnforcement.allowed bulkCheck) then
            (Forbidden (PlanEnforcement.reason bulkCheck), st, q)
          else
            let batchConfig := PlanEnforcement.getBatchConfig user in
            match createRows_with fails 1 now userId aspectRatio 0 prompts st with
            | (None, st, _) => (ServerError, st, q)
            | (Some queuedVideos, st, call) =>
                match incrementDaily_with fails call (length prompts) userId st with
                | (false, st) => (ServerError, st, q)
                | (true, st) =>
                    match batchConfig with
                    | None => (ServerError, st, q)
                    | Some batchConfig =>
                        let q :=
                          BulkQueue.addToQueue queuedVideos
                            (Some (PlanEnforcement.delaySeconds batchConfig)) q in
                        (Started (map BulkQueue.videoId queuedVideos), st, q)
                    end
                end
            end
        end
    end
  end.

End Ids.

(** The body of [POST /api/regenerate-video]; [None] is an absent key. *)
Record RegenerateBody := mkRegenerate {
  g_videoId : string;
  g_prompt : string;
  g_aspectRatio : option string;
  g_projectId : option string;
  g_sceneNumber : option Z
}.

Definition validRegenerateBody (body : RegenerateBody) : bool :=
  (10 <=? String.length (g_prompt body))%nat &&
  match g_aspectRatio body with
  | Some a => isAspectRatio a
  | None => true
  end.

(** [POST /api/regenerate-video] up to the token selection: the body is
    validated and the row is set back to [pending]. *)
Definition regenerateVideo_begin (now : Z) (session : option string) (body : RegenerateBody)
    (st : Storage.Store) : option Response * Storage.Store :=
  match sessionUser session with
  | None => (Some NotAuthenticated, st)
  | Some userId =>
      if negb (validRegenerateBody body) then (Some InvalidInput, st)
      else
        match
          Storage.updateVideoHistoryStatus now (g_videoId body) userId "pending"
            None None st
        with
        | (None, st) => (Some NotFound, st)
        | (Some _, st) => (None, st)
        end
  end.

(** The body of [PATCH /api/video-history/:id]. *)
Record PatchBody := mkPatch {
  b_status : option string;
  b_videoUrl : option string;
  b_tokenUsed : option string
}.

Definition validPatchBody (body : PatchBody) : bool :=
  match b_status body with
  | Some s => isStatus s
  | None => true
  end.

Definition patchVideoHistory (bindObject : VideoHistory.partial -> option string)
    (now : Z) (session : option string) (id : string) (body : PatchBody)
    (st : Storage.Store) : Response * Storage.Store :=
  match sessionUser session with
  | None => (NotAuthenticated, st)
  | Some userId =>
      if negb (validPatchBody body) then (InvalidInput, st)
      else
        let updates :=
          VideoHistory.mkPartial (b_status body) (b_videoUrl body) (b_tokenUsed body)
            None None in
        match
          Storage.updateVideoHistoryFields bindObject now id (Storage.UserId userId)
            (Some updates) st
        with
        | (Js.Throw _, st) => (ServerError, st)
        | (Js.Return None, st) => (NotFound, st)
        | (Js.Return (Some updated), st) => (Updated updated, st)
        end
  end.

(** The body of [POST /api/video-history]. *)
Record HistoryBody := mkHistoryBody {
  h_prompt : string;
  h_aspectRatio : string;
  h_videoUrl : option string;
  h_status : string;
  h_title : option string;
  h_tokenUsed : option string
}.

Definition validHistoryBody (body : HistoryBody) : bool :=
  (10 <=? String.length (h_prompt body))%nat &&
  isAspectRatio (h_aspectRatio body) && isStatus (h_status body).

(** [POST /api/video-history]; [newId] is the id the database generates.
    The answer [{ video }] is the one [PATCH] gives, [Updated].  The store
    calls are [getUser], [addVideoHistory] and [incrementDailyVideoCount], in
    this order: [fails k] says that the [k]-th of them rejects (it then writes
    nothing and the [catch] answers 500); [read] is the store at the call of
    [getUser] and [st] the store at the insert. *)
Definition postVideoHistory (fails : nat -> bool) (newId : string) (now : Z)
    (session : option string) (body : HistoryBody) (read st : Storage.Store)
    : Response * Storage.Store :=
  match sessionUser session with
  | None => (NotAuthenticated, st)
  | Some userId =>
    if fails 0%nat then (ServerError, st)
    else
    match Storage.getUser userId read with
    | None => (NotFound, st)
    | Some user =>
      match PlanEnforcement.canGenerateVideo now user with
      | Js.Throw _ => (ServerError, st)
      | Js.Return videoCheck =>
        if negb (PlanEnforcement.allowed videoCheck) then
          (Forbidden (PlanEnforcement.reason videoCheck), st)
        else if negb (validHistoryBody body) then (InvalidInput, st)
        else if fails 1%nat then (ServerError, st)
        else
          let '(video, st) :=
            Storage.addVideoHistory now newId
              (Storage.mkInsert userId (h_prompt body) (h_aspectRatio body)
                 (h_status body) (h_title body) (h_videoUrl body) (h_tokenUsed body))
              st in
          if negb (String.eqb (h_status body) "failed") then
            if fails 2%nat then (ServerError, st)
            else (Updated video, Storage.incrementDailyVideoCount userId st)
          else (Updated video, st)
      end
    end
  end.

End Routes.

(** * Runs, scenarios and the predicates of the statements *)

(** The four tables of [st'] are those of [st]; the in-memory maps may
    differ. *)
Definition sameTables (st st' : Storage.Store) : Prop :=
  Storage.users st' = Storage.users st /\
  Storage.apiTokens st' = Storage.apiTokens st /\
  Storage.tokenSettings st' = Storage.tokenSettings st /\
  Storage.videoHistory st' = Storage.videoHistory st.

(** The row the rollover branch reads for the next token [nxt], after the
    reset of [cur]. *)
Definition afterReset (cur nxt : ApiToken.t) : ApiToken.t :=
  if Storage.hasId (ApiToken.id cur) nxt then ApiToken.resetBatch nxt else nxt.

(** The store once [cur] is reset. *)
Definition resetStore (st1 : Storage.Store) (cur : ApiToken.t) : Storage.Store :=
  Storage.set_apiTokens
    (fun rows => fst (Storage.updateWhere (Storage.hasId (ApiToken.id cur))
                        ApiToken.resetBatch rows)) st1.

(** The store the rollover branch leaves. *)
Definition rolledStore (now : Z) (st1 : Storage.Store) (settings : TokenSettings.t)
    (available : list ApiToken.t) (cur nxt : ApiToken.t) : Storage.Store :=
  Storage.set_tokenSettings
    (fun rows =>
       fst (Storage.updateWhere
              (fun s => String.eqb (TokenSettings.id s) (TokenSettings.id settings))
              (TokenSettings.set_lastUsedTokenIndex
                 (Js.rem (Js.orZero (TokenSettings.lastUsedTokenIndex settings) + 1)
                    (Z.of_nat (length available)))) rows))
    (Storage.set_apiTokens
       (fun rows => fst (Storage.updateWhere (Storage.hasId (ApiToken.id nxt))
                           (ApiToken.bump (Some now) now) rows))
       (resetStore st1 cur)).

(** The store the other branch leaves. *)
Definition continuedStore (now : Z) (st1 : Storage.Store) (cur : ApiToken.t)
    : Storage.Store :=
  Storage.set_apiTokens
    (fun rows =>
       fst (Storage.updateWhere (Storage.hasId (ApiToken.id cur))
              (ApiToken.bump
                 (match ApiToken.batchStartedAt cur with
                  | Some started => Some started
                  | None => Some now
                  end) now) rows)) st1.

(** Scenario S2: one token whose batch stands at 99, cursor at 0; and the
    same with a second, fresh token behind it. *)
Definition S2_token : ApiToken.t :=
  ApiToken.mk "tok-1" "ya29.first" "Token 1" true 99 99 (Some 10) (Some 900) 1.

Definition S2_second : ApiToken.t :=
  ApiToken.mk "tok-2" "ya29.second" "Token 2" true 0 0 None None 2.

Definition S2_settings : TokenSettings.t := TokenSettings.mk "settings" (Some 0) "10" "20".

Definition S2_store (tokens : list ApiToken.t) : Storage.Store :=
  Storage.mkStore [] tokens [S2_settings] [] ∅ ∅.

(** Scenario S3: a single token collects ten errors, one a minute. *)
Definition S3_store : Storage.Store :=
  Storage.mkStore []
    [ApiToken.mk "tok-1" "ya29.first" "Token 1" true 0 0 None None 1]
    [S2_settings] [] ∅ ∅.

Fixpoint S3_errors (k : nat) : Storage.Store :=
  match k with
  | O => S3_store
  | S k' => Storage.recordTokenError (60000 * Z.of_nat k') "tok-1" (S3_errors k')
  end.

(** The same token collects nine errors, one a second, from instant 0. *)
Fixpoint S3_burst (k : nat) : Storage.Store :=
  match k with
  | O => S3_store
  | S k' => Storage.recordTokenError (1000 * Z.of_nat k') "tok-1" (S3_burst k')
  end.

(** The operations that act on the token pool, and a run of them. *)
Inductive PoolOp :=
| Dispense (now : Z)
| RecordError (now : Z) (tokenId : string)
| Toggle (tokenId : string) (isActive : bool).

Definition poolStep (st : Storage.Store) (op : PoolOp) : Storage.Store :=
  match op with
  | Dispense now => snd (Storage.getCurrentBatchToken now st)
  | RecordError now tokenId => Storage.recordTokenError now tokenId st
  | Toggle tokenId isActive => snd (Storage.toggleApiTokenStatus tokenId isActive st)
  end.

Definition poolRun (ops : list PoolOp) (st : Storage.Store) : Storage.Store :=
  foldl poolStep st ops.

(** Two fresh active tokens, cursor at 0. *)
Definition twoFreshTokens : Storage.Store :=
  Storage.mkStore []
    [ApiToken.mk "tok-1" "ya29.first" "Token 1" true 0 0 None None 1;
     ApiToken.mk "tok-2" "ya29.second" "Token 2" true 0 0 None None 2]
    [S2_settings] [] ∅ ∅.

(** 100 dispenses fill the first token's batch; ten errors inside a minute
    put it in cooldown; 100 dispenses then fill the second token's batch, the
    cursor still at 0; after the cooldown has passed, one more dispense. *)
Definition overflowRun : list PoolOp :=
  replicate 100 (Dispense 1000) ++
  replicate 10 (RecordError 2000 "tok-1") ++
  replicate 100 (Dispense 3000) ++
  [Dispense (2000 + Storage.COOLDOWN_DURATION_MS)].

(** The columns the failure handler is there to write are, in [r'], what
    they are in [r]. *)
Definition sameCounters (r r' : VideoHistory.t) : Prop :=
  VideoHistory.retryCount r' = VideoHistory.retryCount r /\
  VideoHistory.status r' = VideoHistory.status r /\
  VideoHistory.errorMessage r' = VideoHistory.errorMessage r /\
  VideoHistory.id r' = VideoHistory.id r.

(** Scenario S5: one bulk job, freshly created, at the head of the queue
    while the processor runs. *)
Definition S5_job : VideoHistory.t :=
  VideoHistory.mk "job-1" "user-1" "a red fox runs through snow" "landscape" "pending"
    None None None None (Some 0) None (Some "Bulk VEO landscape video 1") None None 0 0.

Definition S5_video : BulkQueue.QueuedVideo :=
  BulkQueue.mkVideo "job-1" "a red fox runs through snow" "landscape" 1 "user-1".

Definition S5_store : Storage.Store := Storage.mkStore [] [] [S2_settings] [S5_job] ∅ ∅.

Definition S5_queue : BulkQueue.Queue := BulkQueue.mkQueue [S5_video] true [] (Some 10).

(** The writes the submission queue and the polling coordinator make to job
    rows. *)
Inductive PipelineWrite :=
| SubmitFailed (now : Z) (video : BulkQueue.QueuedVideo) (errorMessage : string)
    (rotationToken : option ApiToken.t)
| Heartbeat (now : Z) (job : PollingCoordinator.PollingJob)
| TokenSwitchBegin (now : Z) (job : PollingCoordinator.PollingJob)
| TokenSwitchAccepted (now : Z) (job : PollingCoordinator.PollingJob) (nextToken : ApiToken.t)
| Completed (now : Z) (job : PollingCoordinator.PollingJob) (cloudinaryUrl : string)
| UpstreamFailed (now : Z) (job : PollingCoordinator.PollingJob) (errorMessage : string)
| TimedOut (now : Z) (job : PollingCoordinator.PollingJob).

Definition pipelineStep (bindObject : VideoHistory.partial -> option string)
    (w : PipelineWrite) (st : Storage.Store) (q : BulkQueue.Queue)
    : Storage.Store * BulkQueue.Queue :=
  match w with
  | SubmitFailed now video errorMessage rotationToken =>
      BulkQueue.handleVideoFailure bindObject now video errorMessage rotationToken st q
  | Heartbeat now job => (PollingCoordinator.touchUpdatedAt bindObject now job st, q)
  | TokenSwitchBegin now job =>
      (snd (PollingCoordinator.retryWithNewToken_begin now job st), q)
  | TokenSwitchAccepted now job nextToken =>
      (PollingCoordinator.retryWithNewToken_accepted bindObject now job nextToken st, q)
  | Completed now job cloudinaryUrl =>
      (PollingCoordinator.markCompleted now job cloudinaryUrl st, q)
  | UpstreamFailed now job errorMessage =>
      (PollingCoordinator.markUpstreamFailed now job errorMessage st, q)
  | TimedOut now job => (PollingCoordinator.markTimedOut now job st, q)
  end.

(** The statuses the submission queue and the polling coordinator write. *)
Definition pipelineStatus (s : string) : Prop :=
  s = "pending" \/ s = "completed" \/ s = "failed".

(** A write leaves the row at each position in place, with its id, and
    with its old status or one of the three the pipeline writes. *)
Definition statusStep (st st' : Storage.Store) : Prop :=
  forall (i : nat) (r : VideoHistory.t),
    Storage.videoHistory st !! i = Some r ->
    exists r', Storage.videoHistory st' !! i = Some r' /\
               VideoHistory.id r' = VideoHistory.id r /\
               (VideoHistory.status r' = VideoHistory.status r \/
                pipelineStatus (VideoHistory.status r')).

(** Scenario S1, cut to two prompts: an empire user with an unused quota. *)
Definition S1_user : User.t :=
  User.mk "user-1" "amina" false "empire" (Some 864000000) 0.

Definition S1_store : Storage.Store := Storage.mkStore [S1_user] [] [S2_settings] [] ∅ ∅.

Definition S1_gen (n : nat) : string := ("job-" ++ Js.numberToString (Z.of_nat n))%string.

Definition S1_prompts : list string :=
  ["a red fox runs through snow"; "waves break on a black beach"].

Definition S1_result : Routes.Response * Storage.Store * BulkQueue.Queue :=
  Routes.bulkGenerate S1_gen 1000 (Some "user-1") S1_prompts "landscape"
    S1_store BulkQueue.emptyQueue.

(** A failed job and a completed one, both of ["user-1"]. *)
Definition S7_failed : VideoHistory.t :=
  VideoHistory.mk "job-1" "user-1" "a red fox runs through snow" "landscape" "failed"
    None (Some "operations/abc") (Some "bulk-job-1-1700") (Some "tok-1") (Some 0)
    (Some "VEO generation failed: quota") None None None 0 5000.

Definition S7_completed : VideoHistory.t :=
  VideoHistory.mk "job-2" "user-1" "waves break on a black beach" "portrait" "completed"
    (Some "https://media.example/v/job-2.mp4") (Some "operations/def")
    (Some "bulk-job-2-1700") (Some "tok-1") (Some 0) None None None None 0 6000.

Definition S7_store : Storage.Store :=
  Storage.mkStore [S1_user] [] [S2_settings] [S7_failed; S7_completed] ∅ ∅.

Definition S7_regenerate : Routes.RegenerateBody :=
  Routes.mkRegenerate "job-1" "a red fox runs through deep snow" None None None.

Definition S7_patch : Routes.PatchBody :=
  Routes.mkPatch (Some "pending") (Some "https://elsewhere.example/x.mp4") None.

(** The call threw an error of the whitelist. *)
Definition retryableThrow {T} (c : Js.Completion T) : Prop :=
  exists e, c = Js.Throw e /\ Db.isRetryable e = true.

(** The sleeps before the retries that follow calls [first], ...,
    [first + count - 1]. *)
Definition retryDelays (baseDelayMs : Z) (random : nat -> Q) (first count : nat) : list Q :=
  map (fun k => Db.totalDelay baseDelayMs k (random k)) (seq first count).

(** The whitelist of [withRetry]: fragments of the message, and codes. *)
Definition retryableMessages : list string :=
  ["Connection terminated"; "WebSocket is not open";
   "Server closed the connection unexpectedly"; "socket hang up"; "ECONNREFUSED";
   "ECONNRESET"; "Connection timeout"; "timeout exceeded when trying to connect";
   "connection to server"].

Definition retryableCodes : list string :=
  ["ECONNRESET"; "ECONNREFUSED"; "ETIMEDOUT"; "EPIPE";
   "57P01"; "57P02"; "57P03"; "08006"; "08003"].

(** A connection that is reset twice and then answers. *)
Definition connectionReset : Js.Error :=
  Js.mkError "Error" (Some "read ECONNRESET") (Some "ECONNRESET").

Definition resetTwice (k : nat) : Js.Completion Z :=
  match k with
  | 0%nat | 1%nat => Js.Throw connectionReset
  | _ => Js.Return 42
  end.

(** An event of the status-check route or of a promise, not of the
    coordinator nor of the poller of the regenerate route. *)
Definition fromRoute (e : Uploads.Event) : Prop :=
  match e with
  | Uploads.CoordinatorCompleted _ _ => False
  | Uploads.RegenerateCompleted _ _ => False
  | _ => True
  end.

(** What the route keeps true of its cache: the cached promise of a scene
    is an upload started for that scene that has not failed, every such upload
    is the cached one, and every upload carries the handler that clears its
    scene. *)
Record cacheInvariant (s : Uploads.State) : Prop := mkCacheInvariant {
  inv_length : length (Uploads.started s) = length (Uploads.promises s);
  inv_cached :
    forall sceneId p,
      Uploads.cloudinaryUploadCache s !! sceneId = Some p ->
      Uploads.isLive sceneId s p = true;
  inv_live :
    forall sceneId p,
      Uploads.isLive sceneId s p = true ->
      Uploads.cloudinaryUploadCache s !! sceneId = Some p;
  inv_handler :
    forall p sceneId videoUrl,
      Uploads.started s !! p = Some (sceneId, videoUrl) ->
      Uploads.deleteOnReject s !! p = Some sceneId
}.

(** What the route keeps true of its cache whatever the other paths upload:
    the cached promise of a scene is an upload the route started for that
    scene that has not failed, every such upload is the cached one, and the
    handler of an upload clears the scene it was started for. *)
Record sharedInvariant (s : Uploads.State) : Prop := mkSharedInvariant {
  sh_length : length (Uploads.started s) = length (Uploads.promises s);
  sh_cached :
    forall sceneId p,
      Uploads.cloudinaryUploadCache s !! sceneId = Some p ->
      Uploads.isLive sceneId s p = true /\ Uploads.deleteOnReject s !! p = Some sceneId;
  sh_live :
    forall sceneId p,
      Uploads.isLive sceneId s p = true -> Uploads.byRoute s p = true ->
      Uploads.cloudinaryUploadCache s !! sceneId = Some p;
  sh_handler :
    forall p sceneId,
      Uploads.deleteOnReject s !! p = Some sceneId ->
      exists videoUrl, Uploads.started s !! p = Some (sceneId, videoUrl)
}.

(** The poller of the regenerate route finds the scene complete and
    uploads; the client, who holds the scene id from the route's answer, asks
    the status-check route about the same scene before that upload settles. *)
Definition regeneratedScene : string := "regenerate-job-1-1700000000000".

Definition polledAfterRegenerate : list Uploads.Event :=
  [Uploads.RegenerateCompleted regeneratedScene "https://upstream.example/1.mp4";
   Uploads.RouteCompleted regeneratedScene "https://upstream.example/1.mp4"].

(** Two status checks see the scene complete while the first upload is in
    flight; the upload fails; a third status check starts it again. *)
Definition retriedUpload : list Uploads.Event :=
  [Uploads.RouteCompleted "veo-scene-7" "https://upstream.example/7.mp4";
   Uploads.RouteCompleted "veo-scene-7" "https://upstream.example/7.mp4";
   Uploads.Settled 0 Uploads.Rejected;
   Uploads.RouteCompleted "veo-scene-7" "https://upstream.example/7.mp4"].

(** What the rotation loop decides about one token at instant [now], read
    off the maps before the loop touches them: a cooldown that has passed
    makes the token usable (its error history is dropped with it), a cooldown
    still running does not, and without one the token is usable below the safe
    threshold of recent errors. *)
Definition usable (now : Z) (st : Storage.Store) (t : ApiToken.t) : bool :=
  let belowThreshold :=
    Storage.getRecentErrorCount now (ApiToken.id t) st <? Storage.SAFE_THRESHOLD in
  match Storage.tokenCooldowns st !! ApiToken.id t with
  | Some cooldownEnd =>
      if cooldownEnd =? 0 then belowThreshold else now >=? cooldownEnd
  | None => belowThreshold
  end.

(** A scale user whose ten days ran out a second ago. *)
Definition lapsedUser : User.t :=
  User.mk "user-2" "bilal" false "scale" (Some 864000000) 12.

(** A scale user ten videos short of the daily limit of 1000, alone in the
    store, and a request of ten prompts. *)
Definition nearLimitStore : Storage.Store :=
  Storage.mkStore [User.mk "user-9" "sana" false "scale" None 990] [] [] [] ∅ ∅.

Definition tenPrompts : list string :=
  replicate 10 "a slow pan over a mountain lake at dawn".


(** The active tokens that are not in a running cooldown at [now], by
    creation time: what [getTokenByIndex] selects from. *)
Definition notInCooldown (now : Z) (st : Storage.Store) : list ApiToken.t :=
  filter (fun t => fst (Storage.isTokenInCooldown now (ApiToken.id t) st) = false)
    (Storage.orderBy Storage.byCreatedAt (Storage.getActiveApiTokens st)).

(** The row [replaceAllTokens] inserts for the token at position [k] of its
    input, into a table that held [base] rows when the loop, at index [i],
    started. *)
Definition insertedToken (gen : nat -> string) (now : Z) (base : nat) (i : Z)
    (k : nat) (token : string) : ApiToken.t :=
  ApiToken.mk (gen (base + k)%nat) token
    ("Token " ++ Js.numberToString (i + Z.of_nat k + 1))%string true 0 0 None None now.

(** Twelve jobs of one bulk request, queued while the processor is idle. *)
Definition S1_queue12 : BulkQueue.Queue :=
  BulkQueue.mkQueue
    (map (fun i => BulkQueue.mkVideo (S1_gen i) "a red fox runs through snow" "landscape"
                     (Z.of_nat i + 1) "user-1")
       (seq 0 12))
    true [] (Some 10).

(** A settings row whose batch size was saved as a negative number. *)
Definition negativeBatchSettings : TokenSettings.t :=
  TokenSettings.mk "settings" (Some 0) "-1" "20".

(** A run of the worker pool from the empty pool, and the jobs its events
    enqueued, in order. *)
Definition poolEvents (events : list PollingCoordinator.PoolEvent) : PollingCoordinator.Pool :=
  foldl PollingCoordinator.poolEventStep PollingCoordinator.emptyPool events.

Definition enqueuedJobs (events : list PollingCoordinator.PoolEvent)
    : list PollingCoordinator.PollingJob :=
  omap (fun e =>
          match e with
          | PollingCoordinator.Enqueued videoId userId operationName sceneId apiKey
              rotationToken =>
              Some (PollingCoordinator.mkJob videoId userId operationName sceneId apiKey
                      rotationToken 0 false)
          | PollingCoordinator.Finished _ => None
          end) events.

(** What the pool keeps true: the counter counts the running workers, it
    stays within the cap, a job waits only while the cap is reached, and the
    jobs started so far are those enqueued first. *)
Record poolInvariant (events : list PollingCoordinator.PoolEvent)
    (p : PollingCoordinator.Pool) : Prop := mkPoolInvariant {
  pool_count :
    PollingCoordinator.activeWorkers p = Z.of_nat (length (PollingCoordinator.running p));
  pool_cap :
    0 <= PollingCoordinator.activeWorkers p <= PollingCoordinator.MAX_CONCURRENT_WORKERS;
  pool_busy :
    PollingCoordinator.pollingQueue p <> [] ->
    PollingCoordinator.activeWorkers p = PollingCoordinator.MAX_CONCURRENT_WORKERS;
  pool_fifo :
    exists started,
      enqueuedJobs events = started ++ PollingCoordinator.pollingQueue p /\
      sublist (PollingCoordinator.running p) started
}.

(** Scenario S1's upstream: pending at the first poll, complete with a URL
    (and the upload done) at the second. *)
Definition completesAtSecondPoll (k : Z) : PollingCoordinator.StatusCheck :=
  if k =? 2 then PollingCoordinator.mkStatus true false false
  else PollingCoordinator.mkStatus false false false.

(** The URLs of a status response that are truthy, in the order the code
    tries them. *)
Definition candidateUrls (operation : option PollingCoordinator.Operation) : list string :=
  match operation with
  | None => []
  | Some operation =>
      omap (fun url => if Js.truthy url then url else None)
        [PollingCoordinator.fifeUrl operation; PollingCoordinator.opVideoUrl operation;
         PollingCoordinator.fileUrl operation; PollingCoordinator.downloadUrl operation]
  end.

(** The call threw an error the uploader retries on, and the sleeps of the
    uploader before the retries that follow calls [first], ...,
    [first + count - 1]. *)
Definition networkThrow {T} (c : Js.Completion T) : Prop :=
  exists e, c = Js.Throw e /\ Cloudinary.isRetryable e = true.

Definition networkDelays (baseDelayMs : Z) (random : nat -> Q) (first count : nat) : list Q :=
  map (fun k => Cloudinary.totalDelay baseDelayMs k (random k)) (seq first count).

(** The upstream URL times out once and then serves the video; the media
    host answers the first post. *)
Definition fetchTimesOutOnce (k : nat) : Js.Completion string :=
  match k with
  | 0%nat => Js.Throw (Js.mkError "TypeError" (Some "fetch failed") None)
  | _ => Js.Return "video-bytes"
  end.

Definition hostAccepts (blob : string) (k : nat) : Js.Completion string :=
  Js.Return "https://res.cloudinary.com/dy40igzli/video/upload/v1/abc.mp4".

(** A run of the monitor from its initial state, and what its events
    reported, in order. *)
Definition monitorRun (events : list Monitoring.Event) : Monitoring.State :=
  foldl Monitoring.step Monitoring.init events.

Definition veoSamples (events : list Monitoring.Event) : list Q :=
  omap (fun e => match e with Monitoring.VeoApiCall d => Some d | _ => None end) events.

Definition dbSamples (events : list Monitoring.Event) : list Q :=
  omap (fun e => match e with Monitoring.DbQuery d => Some d | _ => None end) events.

Definition errorEntries (events : list Monitoring.Event) : list Monitoring.ErrorEntry :=
  omap (fun e =>
          match e with
          | Monitoring.Error now type message => Some (Monitoring.mkEntry now type message)
          | _ => None
          end) events.

(** The last [cap] entries of a list. *)
Definition lastN {A} (cap : nat) (l : list A) : list A := drop (length l - cap) l.

(** The operations that touch the settings table, and a run of them. *)
Inductive SettingsOp :=
| Initialize
| Update (set : TokenSettings.t -> TokenSettings.t)
| DispenseToken (now : Z).

Definition settingsStep (defaults : TokenSettings.t) (st : Storage.Store) (op : SettingsOp)
    : Storage.Store :=
  match op with
  | Initialize => Storage.initializeTokenSettings defaults st
  | Update set => snd (Storage.updateTokenSettings defaults set st)
  | DispenseToken now => snd (Storage.getCurrentBatchToken now st)
  end.

(** The waits of [k] consecutive timeouts of the client's status check that
    started at [retryCount]. *)
Definition retryWaits (retryCount : Z) (k : nat) : list Q :=
  map (fun i => Veo3.waitTime (retryCount + Z.of_nat i)) (seq 0 k).

(** A clock that reads exactly the timers' delays, and a service that
    answers at the third check. *)
Definition timersOnly (k : nat) : Z := 15000 * (Z.of_nat k + 1).

Definition completesAtThirdCheck (k : nat) : Js.Completion Veo3.StatusResult :=
  if (k <? 2)%nat then Js.Return (Veo3.mkResult "MEDIA_GENERATION_STATUS_ACTIVE" None None)
  else Js.Return (Veo3.mkResult "MEDIA_GENERATION_STATUS_SUCCESSFUL"
                    (Some "https://storage.example/video.mp4") None).

(** The [k]-th status check keeps [waitForVideoCompletion] waiting: its
    status is neither complete nor failed. *)
Definition keepsWaiting (check : nat -> Js.Completion Veo3.StatusResult) (k : nat) : Prop :=
  exists result,
    check k = Js.Return result /\
    Veo3.isComplete (Veo3.status result) = false /\
    Veo3.isFailed (Veo3.status result) = false.

(** * Properties *)

(** ** Shared lemmas on the SQL fragments *)

Lemma updateWhere_length {A} (p : A -> bool) (f : A -> A) (rows : list A) :
  length (fst (Storage.updateWhere p f rows)) = length rows.
Proof. unfold Storage.updateWhere; simpl. apply length_map. Qed.

Lemma updateWhere_lookup {A} (p : A -> bool) (f : A -> A) (rows : list A) (i : nat) :
  fst (Storage.updateWhere p f rows) !! i
  = (fun r => if p r then f r else r) <$> (rows !! i).
Proof. unfold Storage.updateWhere; simpl. apply list_lookup_fmap. Qed.

(** ** Job-row updates *)

Lemma updateVideoHistoryStatus_store now videoId userId status videoUrl errorMessage st :
  snd (Storage.updateVideoHistoryStatus now videoId userId status videoUrl errorMessage st)
  = Storage.set_videoHistory
      (fun _ =>
         fst (Storage.updateWhere (Storage.ownedBy videoId userId)
                (VideoHistory.apply
                   (VideoHistory.mkPartial (Some status)
                      (if Js.truthy videoUrl then videoUrl else None) None None
                      (if Js.truthy errorMessage then errorMessage else None)) now)
                (Storage.videoHistory st)))
      st.
Proof. reflexivity. Qed.

Lemma updateVideoHistoryFields_lookup bindObject now videoId userId fields st cond i :
  Storage.whereConditions bindObject videoId userId = Some cond ->
  Storage.videoHistory
    (snd (Storage.updateVideoHistoryFields bindObject now videoId userId fields st)) !! i
  = (fun r => if cond r
              then VideoHistory.apply (default VideoHistory.empty fields) now r
              else r)
      <$> Storage.videoHistory st !! i.
Proof.
  intros Hcond. unfold Storage.updateVideoHistoryFields. rewrite Hcond.
  rewrite (surjective_pairing (Storage.updateWhere _ _ _)).
  cbn [snd Storage.videoHistory Storage.set_videoHistory].
  apply updateWhere_lookup.
Qed.

Lemma updateVideoHistoryStatus_lookup now videoId userId status videoUrl errorMessage st i :
  Storage.videoHistory
    (snd (Storage.updateVideoHistoryStatus now videoId userId status videoUrl
            errorMessage st)) !! i
  = (fun r => if Storage.ownedBy videoId userId r
              then VideoHistory.apply
                     (VideoHistory.mkPartial (Some status)
                        (if Js.truthy videoUrl then videoUrl else None) None None
                        (if Js.truthy errorMessage then errorMessage else None)) now r
              else r)
      <$> Storage.videoHistory st !! i.
Proof.
  rewrite updateVideoHistoryStatus_store.
  cbn [Storage.videoHistory Storage.set_videoHistory].
  apply updateWhere_lookup.
Qed.

Lemma ownedBy_true videoId userId r :
  Storage.ownedBy videoId userId r = true <->
  VideoHistory.id r = videoId /\ VideoHistory.userId r = userId.
Proof.
  unfold Storage.ownedBy.
  destruct (String.eqb_spec (VideoHistory.id r) videoId);
    destruct (String.eqb_spec (VideoHistory.userId r) userId); cbn; intuition congruence.
Qed.

Lemma ownedBy_self r : Storage.ownedBy (VideoHistory.id r) (VideoHistory.userId r) r = true.
Proof. by apply ownedBy_true. Qed.

Lemma ownedBy_other videoId userId r :
  VideoHistory.id r <> videoId \/ VideoHistory.userId r <> userId ->
  Storage.ownedBy videoId userId r = false.
Proof.
  intros H. destruct (Storage.ownedBy videoId userId r) eqn:E; [|done].
  apply ownedBy_true in E. tauto.
Qed.

(** C10.  [updateVideoHistoryStatus] writes, on the rows whose id and owner
    match, the status and the server-side [updatedAt], and the video URL and
    error message only when one is supplied and non-empty; every other column
    of those rows, every other row, and every other table is left as it
    was. *)
Theorem updateVideoHistoryStatus_frame :
  forall (now : Z) (videoId userId status : string)
         (videoUrl errorMessage : option string) (st : Storage.Store),
    let st' :=
      snd (Storage.updateVideoHistoryStatus now videoId userId status
             videoUrl errorMessage st) in
    (Storage.users st' = Storage.users st /\
     Storage.apiTokens st' = Storage.apiTokens st /\
     Storage.tokenSettings st' = Storage.tokenSettings st /\
     Storage.tokenErrorTracking st' = Storage.tokenErrorTracking st /\
     Storage.tokenCooldowns st' = Storage.tokenCooldowns st) /\
    length (Storage.videoHistory st') = length (Storage.videoHistory st) /\
    forall (i : nat) (r : VideoHistory.t),
      Storage.videoHistory st !! i = Some r ->
      exists r', Storage.videoHistory st' !! i = Some r' /\
        ((VideoHistory.id r <> videoId \/ VideoHistory.userId r <> userId) -> r' = r) /\
        (VideoHistory.id r = videoId /\ VideoHistory.userId r = userId ->
           VideoHistory.status r' = status /\
           VideoHistory.updatedAt r' = now /\
           (videoUrl = None \/ videoUrl = Some "" ->
              VideoHistory.videoUrl r' = VideoHistory.videoUrl r) /\
           (forall u, videoUrl = Some u -> u <> "" -> VideoHistory.videoUrl r' = Some u) /\
           (errorMessage = None \/ errorMessage = Some "" ->
              VideoHistory.errorMessage r' = VideoHistory.errorMessage r) /\
           (forall m, errorMessage = Some m -> m <> "" ->
              VideoHistory.errorMessage r' = Some m) /\
           VideoHistory.id r' = VideoHistory.id r /\
           VideoHistory.userId r' = VideoHistory.userId r /\
           VideoHistory.prompt r' = VideoHistory.prompt r /\
           VideoHistory.aspectRatio r' = VideoHistory.aspectRatio r /\
           VideoHistory.operationName r' = VideoHistory.operationName r /\
           VideoHistory.sceneId r' = VideoHistory.sceneId r /\
           VideoHistory.tokenUsed r' = VideoHistory.tokenUsed r /\
           VideoHistory.retryCount r' = VideoHistory.retryCount r /\
           VideoHistory.title r' = VideoHistory.title r /\
           VideoHistory.metadata r' = VideoHistory.metadata r /\
           VideoHistory.referenceImageUrl r' = VideoHistory.referenceImageUrl r /\
           VideoHistory.createdAt r' = VideoHistory.createdAt r).
Proof.
  intros now videoId userId status videoUrl errorMessage st. cbv zeta.
  rewrite updateVideoHistoryStatus_store.
  set (data := VideoHistory.mkPartial _ _ _ _ _).
  cbn [Storage.set_videoHistory Storage.users Storage.apiTokens Storage.tokenSettings
       Storage.videoHistory Storage.tokenErrorTracking Storage.tokenCooldowns].
  split; [done|]. split; [apply updateWhere_length|].
  intros i r Hi. rewrite updateWhere_lookup, Hi. cbn [fmap option_fmap option_map].
  eexists; split; [reflexivity|].
  unfold Storage.ownedBy.
  destruct (String.eqb_spec (VideoHistory.id r) videoId) as [Hid|Hid];
    destruct (String.eqb_spec (VideoHistory.userId r) userId) as [Hu|Hu]; simpl.
  - split; [intros [?|?]; done|]. intros _.
    subst data. unfold VideoHistory.apply; simpl.
    repeat split; try done.
    + intros [->| ->]; done.
    + intros u -> Hu'. simpl. by destruct (String.eqb_spec u "").
    + intros [->| ->]; done.
    + intros m -> Hm. simpl. by destruct (String.eqb_spec m "").
  - split; [done|]. intros [_ ?]; done.
  - split; [done|]. intros [? _]; done.
  - split; [done|]. intros [? _]; done.
Qed.

(** ** Plan enforcement *)

Lemma PLAN_CONFIGS_cases (planType : string) :
  (planType = "free" /\
   PlanEnforcement.PLAN_CONFIGS planType = PlanEnforcement.Plan PlanEnforcement.free) \/
  (planType = "scale" /\
   PlanEnforcement.PLAN_CONFIGS planType = PlanEnforcement.Plan PlanEnforcement.scale) \/
  (planType = "empire" /\
   PlanEnforcement.PLAN_CONFIGS planType = PlanEnforcement.Plan PlanEnforcement.empire) \/
  (planType <> "free" /\ planType <> "scale" /\ planType <> "empire" /\
   (((planType ∈ Js.objectPrototypeKeys) /\
     PlanEnforcement.PLAN_CONFIGS planType = PlanEnforcement.Inherited) \/
    ((planType ∉ Js.objectPrototypeKeys) /\
     PlanEnforcement.PLAN_CONFIGS planType = PlanEnforcement.Missing))).
Proof.
  unfold PlanEnforcement.PLAN_CONFIGS.
  destruct (String.eqb_spec planType "free") as [->|Hf]; [by left|].
  destruct (String.eqb_spec planType "scale") as [->|Hs]; [by right; left|].
  destruct (String.eqb_spec planType "empire") as [->|He]; [by right; right; left|].
  right; right; right. split; [done|]. split; [done|]. split; [done|].
  destruct (existsb (String.eqb planType) Js.objectPrototypeKeys) eqn:E.
  - left. split; [|done]. apply existsb_exists in E as (k & Hk & ->%String.eqb_eq).
    by apply list_elem_of_In.
  - right. split; [|done]. intros Hin. apply list_elem_of_In in Hin.
    assert (existsb (String.eqb planType) Js.objectPrototypeKeys = true) as E'.
    { apply existsb_exists. exists planType. split; [done | apply String.eqb_refl]. }
    congruence.
Qed.

(** The plan types for which the lookup finds a configuration of its own or
    nothing: no property name of [Object.prototype]. *)
Lemma PLAN_CONFIGS_Inherited (planType : string) :
  PlanEnforcement.PLAN_CONFIGS planType = PlanEnforcement.Inherited <->
  planType ∈ Js.objectPrototypeKeys.
Proof.
  destruct (PLAN_CONFIGS_cases planType)
    as [[-> ->]|[[-> ->]|[[-> ->]|(_ & _ & _ & [[Hin ->]|[Hnot ->]])]]].
  1-3: split; [done|]; intros Hin;
    repeat (apply elem_of_cons in Hin as [Hin|Hin]; [done|]); by apply elem_of_nil in Hin.
  - done.
  - split; [done|]. intros; done.
Qed.




(** Once the expiry instant of a paid plan has passed, every check denies
    a user who is not an admin, with the expiry message. *)
Theorem expired_plan_is_denied :
  forall (now expiry : Z) (user : User.t) (tool : PlanEnforcement.AllowedTool)
         (videoCount : Z),
    User.isAdmin user = false ->
    User.planType user <> "free" ->
    User.planExpiry user = Some expiry ->
    now > expiry ->
    let denied :=
      PlanEnforcement.mkResult false
        (Some "Your plan has expired. Please contact admin to renew.") None in
    PlanEnforcement.isPlanExpired now user = true /\
    PlanEnforcement.canAccessTool now user tool = Js.Return denied /\
    PlanEnforcement.canGenerateVideo now user = Js.Return denied /\
    PlanEnforcement.canBulkGenerate now user videoCount = Js.Return denied.
Proof.
  intros now expiry user tool videoCount Hadmin Hfree Hexpiry Hnow. cbv zeta.
  assert (PlanEnforcement.isPlanExpired now user = true) as Hexpired.
  { unfold PlanEnforcement.isPlanExpired. rewrite Hadmin, Hexpiry.
    destruct (String.eqb_spec (User.planType user) "free"); [done|].
    apply Z.gtb_lt. lia. }
  unfold PlanEnforcement.canBulkGenerate, PlanEnforcement.canGenerateVideo,
    PlanEnforcement.canAccessTool.
  by rewrite Hadmin, Hexpired.
Qed.

Lemma expired_plan_is_denied_lapsed :
  PlanEnforcement.isPlanExpired 864001000 lapsedUser = true /\
  PlanEnforcement.canAccessTool 864001000 lapsedUser PlanEnforcement.bulk
    = Js.Return
        (PlanEnforcement.mkResult false
           (Some "Your plan has expired. Please contact admin to renew.") None) /\
  PlanEnforcement.canGenerateVideo 864001000 lapsedUser
    = Js.Return
        (PlanEnforcement.mkResult false
           (Some "Your plan has expired. Please contact admin to renew.") None) /\
  PlanEnforcement.canBulkGenerate 864001000 lapsedUser 3
    = Js.Return
        (PlanEnforcement.mkResult false
           (Some "Your plan has expired. Please contact admin to renew.") None).
Proof.
  exact (expired_plan_is_denied 864001000 864000000 lapsedUser PlanEnforcement.bulk 3
           eq_refl ltac:(done) eq_refl ltac:(lia)).
Defined.

(** ** Token pool *)

Lemma insertBy_elem {A} (leb : A -> A -> bool) (x y : A) (l : list A) :
  y ∈ Storage.insertBy leb x l <-> y = x \/ y ∈ l.
Proof.
  induction l as [|z l IH]; simpl.
  - rewrite list_elem_of_singleton, elem_of_nil. tauto.
  - destruct (leb x z).
    + rewrite !elem_of_cons. tauto.
    + rewrite !elem_of_cons, IH. tauto.
Qed.

Lemma orderBy_elem {A} (leb : A -> A -> bool) (y : A) (l : list A) :
  y ∈ Storage.orderBy leb l <-> y ∈ l.
Proof.
  unfold Storage.orderBy. induction l as [|x l IH]; simpl; [done|].
  rewrite insertBy_elem, IH, elem_of_cons. tauto.
Qed.

Lemma getActiveApiTokens_elem (t : ApiToken.t) (st : Storage.Store) :
  t ∈ Storage.getActiveApiTokens st <->
  ApiToken.isActive t = true /\ t ∈ Storage.apiTokens st.
Proof. unfold Storage.getActiveApiTokens. by rewrite list_elem_of_filter. Qed.

Lemma isTokenInCooldown_tables now tokenId st :
  sameTables st (snd (Storage.isTokenInCooldown now tokenId st)).
Proof.
  unfold Storage.isTokenInCooldown, sameTables.
  destruct (Storage.tokenCooldowns st !! tokenId) as [e|]; [|done].
  destruct (e =? 0); [done|]. destruct (now >=? e); done.
Qed.

Lemma filterAvailable_tables now tokens st :
  sameTables st (snd (Storage.filterAvailable now tokens st)).
Proof.
  revert st. induction tokens as [|t tokens IH]; intros st; simpl; [done|].
  pose proof (isTokenInCooldown_tables now (ApiToken.id t) st) as H1.
  destruct (Storage.isTokenInCooldown now (ApiToken.id t) st) as [c st1].
  pose proof (IH st1) as H2.
  destruct (Storage.filterAvailable now tokens st1) as [kept st2].
  simpl in *. unfold sameTables in *. intuition congruence.
Qed.

Lemma filterAvailable_elem now tokens st t :
  t ∈ fst (Storage.filterAvailable now tokens st) -> t ∈ tokens.
Proof.
  revert st. induction tokens as [|x tokens IH]; intros st; simpl; [done|].
  destruct (Storage.isTokenInCooldown now (ApiToken.id x) st) as [c st1].
  specialize (IH st1).
  destruct (Storage.filterAvailable now tokens st1) as [kept st2].
  simpl in *. destruct c; rewrite ?elem_of_cons; intros H; [right; auto|].
  destruct H as [->|H]; [by left | right; auto].
Qed.

Lemma hasId_true (i : string) (r : ApiToken.t) :
  Storage.hasId i r = true <-> ApiToken.id r = i.
Proof. unfold Storage.hasId. by destruct (String.eqb_spec (ApiToken.id r) i). Qed.

(** Lookup by id in a table whose ids are unique. *)
Lemma head_filter_hasId (rows : list ApiToken.t) (t : ApiToken.t) :
  NoDup (map ApiToken.id rows) -> t ∈ rows ->
  head (filter (fun r => Storage.hasId (ApiToken.id t) r = true) rows) = Some t.
Proof.
  induction rows as [|x rows IH]; intros Hnd Hin; [by apply elem_of_nil in Hin|].
  simpl in Hnd. apply NoDup_cons in Hnd as [Hx Hnd].
  rewrite filter_cons.
  destruct (decide (Storage.hasId (ApiToken.id t) x = true)) as [E|E];
    rewrite hasId_true in E.
  - simpl. apply elem_of_cons in Hin as [->|Hin]; [done|].
    exfalso. apply Hx. rewrite E. apply list_elem_of_fmap. by exists t.
  - apply elem_of_cons in Hin as [->|Hin]; [done|]. by apply IH.
Qed.

Lemma getTokenById_unique (st : Storage.Store) (t : ApiToken.t) :
  NoDup (map ApiToken.id (Storage.apiTokens st)) -> t ∈ Storage.apiTokens st ->
  Storage.getTokenById (ApiToken.id t) st = Some t.
Proof. apply head_filter_hasId. Qed.

(** Lookup by id after an update that keeps ids. *)
Lemma head_filter_updateWhere (i j : string) (f : ApiToken.t -> ApiToken.t)
    (rows : list ApiToken.t) :
  (forall r, ApiToken.id (f r) = ApiToken.id r) ->
  head (filter (fun r => Storage.hasId j r = true)
          (fst (Storage.updateWhere (Storage.hasId i) f rows)))
  = (fun r => if Storage.hasId i r then f r else r)
      <$> head (filter (fun r => Storage.hasId j r = true) rows).
Proof.
  intros Hf. unfold Storage.updateWhere; simpl.
  induction rows as [|x rows IH]; [done|].
  simpl. rewrite !filter_cons.
  assert (Storage.hasId j (if Storage.hasId i x then f x else x) = Storage.hasId j x) as ->.
  { unfold Storage.hasId. destruct (_ =? i)%string; by rewrite ?Hf. }
  destruct (decide (Storage.hasId j x = true)); [done | apply IH].
Qed.

Lemma head_written (i : string) (f : ApiToken.t -> ApiToken.t) (rows : list ApiToken.t) :
  head (snd (Storage.updateWhere (Storage.hasId i) f rows))
  = f <$> head (filter (fun r => Storage.hasId i r = true) rows).
Proof.
  unfold Storage.updateWhere; simpl.
  by destruct (filter _ rows).
Qed.

Lemma head_filter_hasId_id (j : string) (rows : list ApiToken.t) (r : ApiToken.t) :
  head (filter (fun r => Storage.hasId j r = true) rows) = Some r -> ApiToken.id r = j.
Proof.
  intros H. apply head_Some_elem_of in H.
  apply list_elem_of_filter in H as [H _]. by apply hasId_true.
Qed.

Lemma Js_index_mod {A} (l : list A) (i : Z) :
  l <> [] -> 0 <= i ->
  exists x, Js.index l (Js.rem i (Z.of_nat (length l))) = Some x /\
            l !! Z.to_nat (i mod Z.of_nat (length l)) = Some x /\ x ∈ l.
Proof.
  intros Hl Hi.
  assert (0 < Z.of_nat (length l)) as Hn by (destruct l; [done | simpl; lia]).
  unfold Js.index, Js.rem. rewrite Z.rem_mod_nonneg by lia.
  pose proof (Z.mod_pos_bound i _ Hn) as Hb.
  destruct (Z.ltb_spec (i mod Z.of_nat (length l)) 0) as [?|_]; [lia|].
  destruct (lookup_lt_is_Some_2 l (Z.to_nat (i mod Z.of_nat (length l)))) as [x Hx]; [lia|].
  exists x. repeat split; try done. by eapply list_elem_of_lookup_2.
Qed.

Lemma filterAvailable_nil_in now st : Storage.filterAvailable now [] st = ([], st).
Proof. reflexivity. Qed.

Lemma Js_index_lookup {A} (l : list A) (i : Z) (x : A) :
  l <> [] -> 0 <= i ->
  l !! Z.to_nat (i mod Z.of_nat (length l)) = Some x ->
  Js.index l (Js.rem i (Z.of_nat (length l))) = Some x.
Proof.
  intros Hl Hi Hx. destruct (Js_index_mod l i Hl Hi) as (y & H1 & H2 & _). congruence.
Qed.

Lemma match_nonempty {A B} (l : list A) (a b : B) :
  l <> [] -> match l with [] => a | _ :: _ => b end = b.
Proof. by destruct l. Qed.

Lemma getTokenById_update (i j : string) (f : ApiToken.t -> ApiToken.t) (s : Storage.Store) :
  (forall r, ApiToken.id (f r) = ApiToken.id r) ->
  Storage.getTokenById j
    (Storage.set_apiTokens (fun rows => fst (Storage.updateWhere (Storage.hasId i) f rows)) s)
  = (fun r => if String.eqb j i then f r else r) <$> Storage.getTokenById j s.
Proof.
  intros Hf. unfold Storage.getTokenById.
  cbn [Storage.apiTokens Storage.set_apiTokens].
  rewrite head_filter_updateWhere by done.
  destruct (head (filter _ (Storage.apiTokens s))) as [r|] eqn:E; [|done].
  apply head_filter_hasId_id in E. cbn. unfold Storage.hasId. by rewrite E.
Qed.

Lemma getTokenById_set_tokenSettings (j : string) g (s : Storage.Store) :
  Storage.getTokenById j (Storage.set_tokenSettings g s) = Storage.getTokenById j s.
Proof. reflexivity. Qed.

Lemma getTokenById_sameTables (j : string) (s s' : Storage.Store) :
  sameTables s s' -> Storage.getTokenById j s' = Storage.getTokenById j s.
Proof. intros (_ & H & _). unfold Storage.getTokenById. by rewrite H. Qed.

Section Dispense.

Variables (now : Z) (st st1 : Storage.Store) (settings : TokenSettings.t).
Variables (available : list ApiToken.t) (cur nxt : ApiToken.t).

Local Abbreviation cursor := (Js.orZero (TokenSettings.lastUsedTokenIndex settings)).
Local Abbreviation n := (Z.of_nat (length available)).

Hypothesis Hset : Storage.getTokenSettings st = Some settings.
Hypothesis Hnd : NoDup (map ApiToken.id (Storage.apiTokens st)).
Hypothesis Hav :
  Storage.filterAvailable now
    (Storage.orderBy Storage.byCreatedAt (Storage.getActiveApiTokens st)) st
  = (available, st1).
Hypothesis Hne : available <> [].
Hypothesis Hcursor : 0 <= cursor.
Hypothesis Hcur : available !! Z.to_nat (cursor mod n) = Some cur.
Hypothesis Hnxt : available !! Z.to_nat ((cursor + 1) mod n) = Some nxt.

Lemma dispense_tables : sameTables st st1.
Proof.
  pose proof (filterAvailable_tables now
                (Storage.orderBy Storage.byCreatedAt (Storage.getActiveApiTokens st)) st)
    as H.
  by rewrite Hav in H.
Qed.

Lemma dispense_available_in_table (t : ApiToken.t) :
  t ∈ available -> t ∈ Storage.apiTokens st1.
Proof.
  intros Ht. destruct dispense_tables as (_ & -> & _).
  pose proof (filterAvailable_elem now
                (Storage.orderBy Storage.byCreatedAt (Storage.getActiveApiTokens st))
                st t) as H.
  rewrite Hav in H. specialize (H Ht).
  apply orderBy_elem, getActiveApiTokens_elem in H. tauto.
Qed.

Lemma dispense_lookup (t : ApiToken.t) :
  t ∈ available -> Storage.getTokenById (ApiToken.id t) st1 = Some t.
Proof.
  intros Ht. apply getTokenById_unique.
  - destruct dispense_tables as (_ & -> & _). exact Hnd.
  - by apply dispense_available_in_table.
Qed.

Lemma dispense_prefix :
  Storage.getCurrentBatchToken now st
  = if ApiToken.currentBatchCount cur >=? Storage.BATCH_SIZE then
      (Js.Return (Some (ApiToken.bump (Some now) now (afterReset cur nxt))),
       rolledStore now st1 settings available cur nxt)
    else
      (Js.Return
         (Some (ApiToken.bump
                  (match ApiToken.batchStartedAt cur with
                   | Some started => Some started
                   | None => Some now
                   end) now cur)),
       continuedStore now st1 cur).
Proof.
  assert (cur ∈ available) as Hin by (by eapply list_elem_of_lookup_2).
  assert (nxt ∈ available) as Hin' by (by eapply list_elem_of_lookup_2).
  unfold Storage.getCurrentBatchToken.
  unfold Storage.getTokenSettings in Hset. rewrite Hset.
  rewrite match_nonempty; cycle 1.
  { intros Hall. rewrite Hall, filterAvailable_nil_in in Hav.
    apply Hne. by inversion Hav. }
  rewrite Hav, match_nonempty by exact Hne.
  rewrite (Js_index_lookup available _ cur Hne Hcursor Hcur).
  rewrite (dispense_lookup cur Hin).
  destruct (ApiToken.currentBatchCount cur >=? Storage.BATCH_SIZE).
  - rewrite (Js_index_lookup available (cursor + 1) nxt Hne ltac:(lia) Hnxt).
    fold (resetStore st1 cur).
    assert (Storage.getTokenById (ApiToken.id nxt) (resetStore st1 cur)
            = Some (afterReset cur nxt)) as ->.
    { unfold Storage.getTokenById, resetStore. cbn [Storage.apiTokens Storage.set_apiTokens].
      rewrite head_filter_updateWhere by done.
      fold (Storage.getTokenById (ApiToken.id nxt) st1).
      by rewrite (dispense_lookup nxt Hin'). }
    assert (ApiToken.id (afterReset cur nxt) = ApiToken.id nxt) as Hid.
    { unfold afterReset. by destruct (Storage.hasId _ nxt). }
    rewrite Hid.
    rewrite (surjective_pairing
               (Storage.updateWhere _ _ (Storage.apiTokens (resetStore st1 cur)))).
    rewrite head_written.
    fold (Storage.getTokenById (ApiToken.id nxt) (resetStore st1 cur)).
    assert (Storage.getTokenById (ApiToken.id nxt) (resetStore st1 cur)
            = Some (afterReset cur nxt)) as ->.
    { unfold Storage.getTokenById, resetStore. cbn [Storage.apiTokens Storage.set_apiTokens].
      rewrite head_filter_updateWhere by done.
      fold (Storage.getTokenById (ApiToken.id nxt) st1).
      by rewrite (dispense_lookup nxt Hin'). }
    reflexivity.
  - rewrite (surjective_pairing (Storage.updateWhere _ _ (Storage.apiTokens st1))).
    rewrite head_written.
    fold (Storage.getTokenById (ApiToken.id cur) st1).
    rewrite (dispense_lookup cur Hin). reflexivity.
Qed.

End Dispense.

(** C1.  One call of the batch dispenser, when a settings row exists, the
    cursor is not negative and some active token is out of cooldown.  Let
    [available] be the active tokens by creation time without those in
    cooldown and [cur] the one at [cursor mod length available].  When
    [cur] has reached [BATCH_SIZE], [cur]'s counter is reset to 0, the cursor
    moves to [(cursor + 1) mod length available] and is stored in the settings
    row, and the token there is returned with its counter and its total
    incremented (from 0 when it is [cur] itself).  Otherwise [cur] is returned
    with counter and total incremented and the settings are untouched.  No
    other token row changes. *)
Theorem getCurrentBatchToken_spec :
  forall (now : Z) (st st1 : Storage.Store) (settings : TokenSettings.t)
         (available : list ApiToken.t),
    Storage.getTokenSettings st = Some settings ->
    NoDup (map ApiToken.id (Storage.apiTokens st)) ->
    Storage.filterAvailable now
      (Storage.orderBy Storage.byCreatedAt (Storage.getActiveApiTokens st)) st
      = (available, st1) ->
    available <> [] ->
    0 <= Js.orZero (TokenSettings.lastUsedTokenIndex settings) ->
    let cursor := Js.orZero (TokenSettings.lastUsedTokenIndex settings) in
    let n := Z.of_nat (length available) in
    let res := fst (Storage.getCurrentBatchToken now st) in
    let st' := snd (Storage.getCurrentBatchToken now st) in
    exists cur : ApiToken.t,
      available !! Z.to_nat (cursor mod n) = Some cur /\
      (ApiToken.currentBatchCount cur >= Storage.BATCH_SIZE ->
         exists nxt updated : ApiToken.t,
           available !! Z.to_nat ((cursor + 1) mod n) = Some nxt /\
           res = Js.Return (Some updated) /\
           ApiToken.id updated = ApiToken.id nxt /\
           ApiToken.currentBatchCount updated
             = (if String.eqb (ApiToken.id nxt) (ApiToken.id cur) then 0
                else ApiToken.currentBatchCount nxt) + 1 /\
           ApiToken.totalGenerated updated = ApiToken.totalGenerated nxt + 1 /\
           Storage.getTokenById (ApiToken.id nxt) st' = Some updated /\
           (ApiToken.id nxt <> ApiToken.id cur ->
              Storage.getTokenById (ApiToken.id cur) st' = Some (ApiToken.resetBatch cur)) /\
           (forall i, i <> ApiToken.id cur -> i <> ApiToken.id nxt ->
              Storage.getTokenById i st' = Storage.getTokenById i st) /\
           Storage.getTokenSettings st'
             = Some (TokenSettings.set_lastUsedTokenIndex ((cursor + 1) mod n) settings)) /\
      (ApiToken.currentBatchCount cur < Storage.BATCH_SIZE ->
         exists updated : ApiToken.t,
           res = Js.Return (Some updated) /\
           ApiToken.id updated = ApiToken.id cur /\
           ApiToken.currentBatchCount updated = ApiToken.currentBatchCount cur + 1 /\
           ApiToken.totalGenerated updated = ApiToken.totalGenerated cur + 1 /\
           Storage.getTokenById (ApiToken.id cur) st' = Some updated /\
           (forall i, i <> ApiToken.id cur ->
              Storage.getTokenById i st' = Storage.getTokenById i st) /\
           Storage.getTokenSettings st' = Some settings).
Proof.
  intros now st st1 settings available Hset Hnd Hav Hne Hcursor. cbv zeta.
  destruct (Js_index_mod available _ Hne Hcursor) as (cur & _ & Hcur & Hin).
  destruct (Js_index_mod available
              (Js.orZero (TokenSettings.lastUsedTokenIndex settings) + 1) Hne ltac:(lia))
    as (nxt & _ & Hnxt & Hin').
  exists cur. split; [exact Hcur|].
  rewrite (dispense_prefix now st st1 settings available cur nxt
             Hset Hnd Hav Hne Hcursor Hcur Hnxt).
  pose proof (dispense_tables now st st1 available Hav) as Htab.
  pose proof (dispense_lookup now st st1 available Hnd Hav) as Hget.
  unfold Storage.BATCH_SIZE.
  split; intros Hcount.
  - destruct (Z.geb_spec (ApiToken.currentBatchCount cur) 100) as [_|?]; [|lia].
    cbn [fst snd].
    exists nxt, (ApiToken.bump (Some now) now (afterReset cur nxt)).
    split; [exact Hnxt|]. split; [done|].
    unfold afterReset, Storage.hasId.
    split; [by destruct (_ =? _)%string|].
    split; [by destruct (_ =? _)%string|].
    split; [by destruct (_ =? _)%string|].
    unfold rolledStore, resetStore.
    rewrite !getTokenById_set_tokenSettings.
    split; [|split; [|split]].
    + rewrite !getTokenById_update by done. rewrite (Hget nxt Hin').
      cbn. by rewrite String.eqb_refl.
    + intros Hneq. rewrite !getTokenById_update by done. rewrite (Hget cur Hin).
      cbn. rewrite String.eqb_refl.
      destruct (String.eqb_spec (ApiToken.id cur) (ApiToken.id nxt)); congruence.
    + intros i Hi Hi'. rewrite getTokenById_set_tokenSettings.
      rewrite !getTokenById_update by done.
      rewrite (getTokenById_sameTables i st st1 Htab).
      destruct (Storage.getTokenById i st) as [r|]; [|done]. cbn.
      destruct (String.eqb_spec i (ApiToken.id cur)); [done|].
      by destruct (String.eqb_spec i (ApiToken.id nxt)).
    + unfold Storage.getTokenSettings in *.
      cbn [Storage.tokenSettings Storage.set_tokenSettings Storage.set_apiTokens].
      destruct Htab as (_ & _ & -> & _).
      destruct (Storage.tokenSettings st) as [|s0 rest]; [done|].
      cbn in Hset. inversion Hset; subst s0. cbn. rewrite String.eqb_refl.
      unfold Js.rem. rewrite Z.rem_mod_nonneg; [done | lia |].
      destruct available; [done | cbn; lia].
  - destruct (Z.geb_spec (ApiToken.currentBatchCount cur) 100) as [?|_]; [lia|].
    cbn [fst snd].
    eexists. split; [reflexivity|].
    split; [done|]. split; [done|]. split; [done|].
    unfold continuedStore.
    split; [|split].
    + rewrite getTokenById_update by done. rewrite (Hget cur Hin).
      cbn. by rewrite String.eqb_refl.
    + intros i Hi. rewrite getTokenById_update by done.
      rewrite (getTokenById_sameTables i st st1 Htab).
      destruct (Storage.getTokenById i st) as [r|]; [|done]. cbn.
      by destruct (String.eqb_spec i (ApiToken.id cur)).
    + unfold Storage.getTokenSettings in *.
      cbn [Storage.tokenSettings Storage.set_apiTokens].
      destruct Htab as (_ & _ & -> & _). exact Hset.
Qed.

Lemma getCurrentBatchToken_S2 :
  (exists first second : ApiToken.t,
     let st1 := snd (Storage.getCurrentBatchToken 1000 (S2_store [S2_token])) in
     fst (Storage.getCurrentBatchToken 1000 (S2_store [S2_token])) = Js.Return (Some first) /\
     ApiToken.id first = "tok-1" /\ ApiToken.currentBatchCount first = 100 /\
     fst (Storage.getCurrentBatchToken 2000 st1) = Js.Return (Some second) /\
     ApiToken.id second = "tok-1" /\ ApiToken.currentBatchCount second = 1) /\
  (exists first second : ApiToken.t,
     let st0 := S2_store [S2_token; S2_second] in
     let st1 := snd (Storage.getCurrentBatchToken 1000 st0) in
     let st2 := snd (Storage.getCurrentBatchToken 2000 st1) in
     fst (Storage.getCurrentBatchToken 1000 st0) = Js.Return (Some first) /\
     ApiToken.id first = "tok-1" /\ ApiToken.currentBatchCount first = 100 /\
     fst (Storage.getCurrentBatchToken 2000 st1) = Js.Return (Some second) /\
     ApiToken.id second = "tok-2" /\ ApiToken.currentBatchCount second = 1 /\
     ApiToken.currentBatchCount <$> Storage.getTokenById "tok-1" st2 = Some 0 /\
     TokenSettings.lastUsedTokenIndex <$> Storage.getTokenSettings st2 = Some (Some 1)).
Proof.
  split.
  - pose (st0 := S2_store [S2_token]).
    pose (st1 := snd (Storage.getCurrentBatchToken 1000 st0)).
    destruct (getCurrentBatchToken_spec 1000 st0 st0 S2_settings [S2_token]
                eq_refl ltac:(apply NoDup_singleton) eq_refl ltac:(done) ltac:(done))
      as (cur & Hcur & _ & Hcont).
    injection Hcur as <-.
    destruct (Hcont ltac:(unfold Storage.BATCH_SIZE; simpl; lia))
      as (first & Hres & Hid & Hcount & _).
    destruct (getCurrentBatchToken_spec 2000 st1 st1 S2_settings
                [ApiToken.bump (Some 10) 1000 S2_token]
                eq_refl ltac:(apply NoDup_singleton) eq_refl ltac:(done) ltac:(done))
      as (cur' & Hcur' & Hroll & _).
    injection Hcur' as <-.
    destruct (Hroll ltac:(unfold Storage.BATCH_SIZE; simpl; lia))
      as (nxt & second & Hnxt & Hres' & Hid' & Hcount' & _).
    injection Hnxt as <-.
    exists first, second. cbv zeta. fold st0. fold st1.
    repeat split; assumption.
  - pose (st0 := S2_store [S2_token; S2_second]).
    pose (st1 := snd (Storage.getCurrentBatchToken 1000 st0)).
    assert (NoDup ["tok-1"; "tok-2"]) as Hnd
      by (apply NoDup_cons; split; [by intros ?%list_elem_of_singleton | apply NoDup_singleton]).
    destruct (getCurrentBatchToken_spec 1000 st0 st0 S2_settings [S2_token; S2_second]
                eq_refl Hnd eq_refl ltac:(done) ltac:(done))
      as (cur & Hcur & _ & Hcont).
    injection Hcur as <-.
    destruct (Hcont ltac:(unfold Storage.BATCH_SIZE; simpl; lia))
      as (first & Hres & Hid & Hcount & _).
    destruct (getCurrentBatchToken_spec 2000 st1 st1 S2_settings
                [ApiToken.bump (Some 10) 1000 S2_token; S2_second]
                eq_refl Hnd eq_refl ltac:(done) ltac:(done))
      as (cur' & Hcur' & Hroll & _).
    injection Hcur' as <-.
    destruct (Hroll ltac:(unfold Storage.BATCH_SIZE; simpl; lia))
      as (nxt & second & Hnxt & Hres' & Hid' & Hcount' & _ & _ & Hreset & _ & Hsettings).
    injection Hnxt as <-.
    exists first, second. cbv zeta. fold st0. fold st1.
    specialize (Hreset ltac:(done)).
    cbn [ApiToken.id ApiToken.bump S2_token] in Hreset.
    rewrite Hreset, Hsettings.
    repeat split; assumption.
Defined.

(** *** Error tracking and cooldown *)

Lemma isTokenInCooldown_true now tokenId st :
  fst (Storage.isTokenInCooldown now tokenId st) = true <->
  exists e, Storage.tokenCooldowns st !! tokenId = Some e /\ e <> 0 /\ now < e.
Proof.
  unfold Storage.isTokenInCooldown.
  destruct (Storage.tokenCooldowns st !! tokenId) as [e|]; cbn.
  - destruct (Z.eqb_spec e 0) as [->|He]; cbn.
    + split; [done|]. intros (e & [= <-] & ? & _). done.
    + destruct (Z.geb_spec now e); cbn.
      * split; [done|]. intros (e' & [= <-] & _ & ?). lia.
      * split; [|done]. intros _. exists e. repeat split; [done | lia].
  - split; [done|]. intros (e & ? & _). done.
Qed.

(** A cooldown that has not passed survives a query for any token. *)
Lemma isTokenInCooldown_keeps now other tokenId e st :
  Storage.tokenCooldowns st !! tokenId = Some e -> e <> 0 -> now < e ->
  Storage.tokenCooldowns (snd (Storage.isTokenInCooldown now other st)) !! tokenId = Some e.
Proof.
  intros He Hnz Hlt. unfold Storage.isTokenInCooldown.
  destruct (Storage.tokenCooldowns st !! other) as [e'|] eqn:E; [|done].
  destruct (e' =? 0); [done|].
  destruct (Z.geb_spec now e'); [|done]. cbn.
  destruct (decide (other = tokenId)) as [->|Hne].
  - rewrite E in He. injection He as ->. lia.
  - by rewrite lookup_delete_ne.
Qed.

Lemma filterAvailable_excludes now tokenId e tokens st :
  Storage.tokenCooldowns st !! tokenId = Some e -> e <> 0 -> now < e ->
  (forall x, x ∈ fst (Storage.filterAvailable now tokens st) -> ApiToken.id x <> tokenId) /\
  Storage.tokenCooldowns (snd (Storage.filterAvailable now tokens st)) !! tokenId = Some e.
Proof.
  intros He Hnz Hlt. revert st He.
  induction tokens as [|t tokens IH]; intros st He; cbn.
  { split; [intros x Hx; by apply elem_of_nil in Hx | done]. }
  pose proof (isTokenInCooldown_keeps now (ApiToken.id t) tokenId e st He Hnz Hlt) as Hk.
  pose proof (isTokenInCooldown_true now (ApiToken.id t) st) as Ht.
  destruct (Storage.isTokenInCooldown now (ApiToken.id t) st) as [c st1]. cbn in Hk, Ht.
  destruct (IH st1 Hk) as [IH1 IH2].
  destruct (Storage.filterAvailable now tokens st1) as [kept st2]. cbn in *.
  split; [|done].
  intros x Hx. destruct c; [by apply IH1|].
  apply elem_of_cons in Hx as [->|Hx]; [|by apply IH1].
  intros Heq. rewrite Heq in Ht.
  assert (false = true) by (apply Ht; eauto). done.
Qed.

Lemma firstUsable_excludes now tokenId e tokens st tok :
  Storage.tokenCooldowns st !! tokenId = Some e -> e <> 0 -> now < e ->
  fst (Storage.firstUsable now tokens st) = Some tok -> ApiToken.id tok <> tokenId.
Proof.
  intros He Hnz Hlt. revert st He.
  induction tokens as [|t tokens IH]; intros st He; cbn; [done|].
  pose proof (isTokenInCooldown_keeps now (ApiToken.id t) tokenId e st He Hnz Hlt) as Hk.
  pose proof (isTokenInCooldown_true now (ApiToken.id t) st) as Ht.
  destruct (Storage.isTokenInCooldown now (ApiToken.id t) st) as [c st1]. cbn in Hk, Ht.
  destruct c; [by apply IH|].
  destruct (_ >=? _); [by apply IH|]. cbn.
  intros [= <-] Heq. rewrite Heq in Ht.
  assert (false = true) by (apply Ht; eauto). done.
Qed.

Lemma getTokenById_id (i : string) (st : Storage.Store) (r : ApiToken.t) :
  Storage.getTokenById i st = Some r -> ApiToken.id r = i.
Proof. apply head_filter_hasId_id. Qed.

Lemma Js_index_elem {A} (l : list A) (i : Z) (x : A) : Js.index l i = Some x -> x ∈ l.
Proof.
  unfold Js.index. destruct (i <? 0); [done|]. apply list_elem_of_lookup_2.
Qed.

(** Whatever the batch dispenser returns carries the id of a token that
    passed the cooldown filter. *)
Lemma getCurrentBatchToken_from_available now st tok :
  fst (Storage.getCurrentBatchToken now st) = Js.Return (Some tok) ->
  exists x,
    x ∈ fst (Storage.filterAvailable now
               (Storage.orderBy Storage.byCreatedAt (Storage.getActiveApiTokens st)) st) /\
    ApiToken.id tok = ApiToken.id x.
Proof.
  unfold Storage.getCurrentBatchToken.
  destruct (head (Storage.tokenSettings st)) as [settings|]; [|done].
  destruct (Storage.orderBy _ _) as [|t0 rest]; [done|].
  destruct (Storage.filterAvailable now (t0 :: rest) st) as [available st1].
  destruct available as [|a0 av']; [done|].
  set (available := a0 :: av').
  destruct (Js.index available _) as [selected|] eqn:Hsel; [|done].
  apply Js_index_elem in Hsel.
  destruct (Storage.getTokenById (ApiToken.id selected) st1) as [currentToken|] eqn:Hc;
    [|done].
  apply getTokenById_id in Hc.
  destruct (_ >=? _).
  - destruct (Js.index available _) as [nextSelected|] eqn:Hn; [|done].
    apply Js_index_elem in Hn.
    destruct (Storage.getTokenById (ApiToken.id nextSelected) _) as [nextToken|] eqn:Hnt;
      [|done].
    apply getTokenById_id in Hnt.
    rewrite (surjective_pairing (Storage.updateWhere _ _ _)), head_written.
    destruct (head _) as [r|] eqn:Hr; [|done]. cbn.
    intros [= <-]. exists nextSelected. split; [done|].
    apply head_filter_hasId_id in Hr. cbn. congruence.
  - rewrite (surjective_pairing (Storage.updateWhere _ _ _)), head_written.
    destruct (head _) as [r|] eqn:Hr; [|done]. cbn.
    intros [= <-]. exists selected. split; [done|].
    apply head_filter_hasId_id in Hr. cbn. congruence.
Qed.

Lemma recordTokenError_tables now tokenId st :
  sameTables st (Storage.recordTokenError now tokenId st).
Proof.
  unfold Storage.recordTokenError, sameTables. by destruct (_ >=? _).
Qed.

(** C3, as the code has it.  [recordTokenError] appends the instant to the
    token's error list and keeps the entries less than 20 minutes old, so an
    entry exactly 20 minutes old goes with the older ones; with 10 or more left it
    sets the cooldown end to two hours later.  [isTokenInCooldown] is true
    exactly while a recorded end lies in the future; once the end has passed
    it deletes the cooldown entry and the whole error history and answers
    false.  (An end of 0 reads as no entry; none is recorded at a
    non-negative instant.)  Hence the 10th error inside the window puts the
    token in cooldown, and while a cooldown has not passed neither dispenser
    returns the token. *)
Theorem cooldown_spec :
  forall (now : Z) (tokenId : string) (st : Storage.Store),
    let old := default [] (Storage.tokenErrorTracking st !! tokenId) in
    let kept := filter (fun ts => Storage.recent now ts = true) (old ++ [now]) in
    let st' := Storage.recordTokenError now tokenId st in
    (* recordError *)
    (Storage.tokenErrorTracking st' !! tokenId = Some kept /\
     (forall ts, ts ∈ kept <-> (ts ∈ old \/ ts = now) /\ now - ts < 20 * 60 * 1000) /\
     (10 <= Z.of_nat (length kept) ->
        Storage.tokenCooldowns st' !! tokenId = Some (now + 2 * 60 * 60 * 1000)) /\
     (Z.of_nat (length kept) < 10 ->
        Storage.tokenCooldowns st' = Storage.tokenCooldowns st) /\
     sameTables st st') /\
    (* isInCooldown *)
    (forall (instant : Z) (s : Storage.Store),
       (Storage.tokenCooldowns s !! tokenId = None ->
          Storage.isTokenInCooldown instant tokenId s = (false, s)) /\
       (forall e, Storage.tokenCooldowns s !! tokenId = Some e -> e <> 0 ->
          (instant < e -> Storage.isTokenInCooldown instant tokenId s = (true, s)) /\
          (e <= instant ->
             let s' := snd (Storage.isTokenInCooldown instant tokenId s) in
             fst (Storage.isTokenInCooldown instant tokenId s) = false /\
             Storage.tokenCooldowns s' !! tokenId = None /\
             Storage.tokenErrorTracking s' !! tokenId = None))) /\
    (* the 10th error inside the window *)
    (0 <= now ->
     9 <= Z.of_nat (length (filter (fun ts => Storage.recent now ts = true) old)) ->
     forall instant : Z, instant < now + 2 * 60 * 60 * 1000 ->
       fst (Storage.isTokenInCooldown instant tokenId st') = true) /\
    (* a token in cooldown is not dispensed *)
    (forall (instant : Z) (s : Storage.Store),
       fst (Storage.isTokenInCooldown instant tokenId s) = true ->
       (forall tok, fst (Storage.getCurrentBatchToken instant s) = Js.Return (Some tok) ->
                    ApiToken.id tok <> tokenId) /\
       (forall tok, fst (Storage.getNextRotationToken instant s) = Some tok ->
                    ApiToken.id tok <> tokenId)).
Proof.
  intros now tokenId st. cbv zeta.
  set (old := default [] (Storage.tokenErrorTracking st !! tokenId)).
  set (kept := filter (fun ts => Storage.recent now ts = true) (old ++ [now])).
  assert (Storage.tokenErrorTracking (Storage.recordTokenError now tokenId st) !! tokenId
          = Some kept) as Herr.
  { unfold Storage.recordTokenError. fold old. fold kept.
    destruct (_ >=? _); cbn; apply lookup_insert_eq. }
  assert (10 <= Z.of_nat (length kept) ->
          Storage.tokenCooldowns (Storage.recordTokenError now tokenId st) !! tokenId
          = Some (now + 2 * 60 * 60 * 1000)) as Hcool.
  { intros Hlen. unfold Storage.recordTokenError. fold old. fold kept.
    unfold Storage.ERROR_THRESHOLD.
    destruct (Z.geb_spec (Z.of_nat (length kept)) 10); [|lia].
    cbn. apply lookup_insert_eq. }
  split; [|split; [|split]].
  - split; [exact Herr|]. split; [|split; [exact Hcool|split]].
    + intros ts. unfold kept. rewrite list_elem_of_filter, elem_of_app, list_elem_of_singleton.
      unfold Storage.recent, Storage.ERROR_WINDOW_MS. rewrite Z.ltb_lt. tauto.
    + intros Hlen. unfold Storage.recordTokenError. fold old. fold kept.
      unfold Storage.ERROR_THRESHOLD.
      destruct (Z.geb_spec (Z.of_nat (length kept)) 10); [lia|]. done.
    + apply recordTokenError_tables.
  - intros instant s. split.
    + intros Hnone. unfold Storage.isTokenInCooldown. by rewrite Hnone.
    + intros e He Hnz. unfold Storage.isTokenInCooldown. rewrite He.
      destruct (Z.eqb_spec e 0); [done|].
      split; intros Hcmp.
      * destruct (Z.geb_spec instant e); [lia | done].
      * destruct (Z.geb_spec instant e); [|lia]. cbn.
        split; [done|]. split; apply lookup_delete_eq.
  - intros Hnow Hnine instant Hinstant.
    apply isTokenInCooldown_true. exists (now + 2 * 60 * 60 * 1000).
    split; [|split; lia]. apply Hcool.
    unfold kept. rewrite filter_app, length_app.
    assert (filter (fun ts => Storage.recent now ts = true) [now] = [now]) as ->.
    { rewrite filter_cons, decide_True; [done|].
      unfold Storage.recent, Storage.ERROR_WINDOW_MS. apply Z.ltb_lt. lia. }
    cbn [length]. lia.
  - intros instant s Hin.
    apply isTokenInCooldown_true in Hin as (e & He & Hnz & Hlt).
    split; intros tok Htok.
    + apply getCurrentBatchToken_from_available in Htok as (x & Hx & ->).
      by eapply filterAvailable_excludes.
    + by eapply firstUsable_excludes.
Qed.

(** The window is open on its far side.  Nine errors are on record, the
    first of them exactly 20 minutes old when the tenth error comes.  No entry
    is older than 20 minutes, so by the claim's words ten entries remain and
    the cooldown starts.  The code keeps an entry only while its age is below
    20 minutes: it drops the first entry, counts nine, and sets no
    cooldown. *)
Lemma error_aged_twenty_minutes_is_pruned :
  let window : Z := 20 * 60 * 1000 in
  let before := S3_burst 9 in
  let after := Storage.recordTokenError window "tok-1" before in
  Storage.tokenErrorTracking before !! "tok-1"
  = Some [0; 1000; 2000; 3000; 4000; 5000; 6000; 7000; 8000] /\
  Forall (fun ts => window - ts <= window)
    [0; 1000; 2000; 3000; 4000; 5000; 6000; 7000; 8000] /\
  Storage.tokenErrorTracking after !! "tok-1"
  = Some [1000; 2000; 3000; 4000; 5000; 6000; 7000; 8000; window] /\
  Storage.tokenCooldowns after !! "tok-1" = None /\
  fst (Storage.isTokenInCooldown (window + 1) "tok-1" after) = false.
Proof.
  cbv zeta. split; [by vm_compute|]. split; [repeat constructor; lia|].
  by vm_compute.
Qed.

Lemma cooldown_S3 :
  let tenth : Z := 540000 in
  let expiry : Z := tenth + 2 * 60 * 60 * 1000 in
  fst (Storage.isTokenInCooldown (tenth + 1) "tok-1" (S3_errors 10)) = true /\
  fst (Storage.getCurrentBatchToken (tenth + 1) (S3_errors 10)) = Js.Return None /\
  fst (Storage.getNextRotationToken (tenth + 1) (S3_errors 10)) = None /\
  fst (Storage.isTokenInCooldown expiry "tok-1" (S3_errors 10)) = false /\
  Storage.tokenErrorTracking
    (snd (Storage.isTokenInCooldown expiry "tok-1" (S3_errors 10))) !! "tok-1" = None /\
  (ApiToken.id <$>
     match fst (Storage.getCurrentBatchToken expiry (S3_errors 10)) with
     | Js.Return tok => tok
     | Js.Throw _ => None
     end) = Some "tok-1".
Proof.
  cbv zeta.
  destruct (cooldown_spec 540000 "tok-1" (S3_errors 9)) as (_ & _ & Htenth & _).
  assert (S3_errors 10 = Storage.recordTokenError 540000 "tok-1" (S3_errors 9)) as E10
    by (cbn [S3_errors]; reflexivity).
  rewrite <- E10 in Htenth.
  split; [apply Htenth; [lia | by vm_compute | lia]|].
  split; [by vm_compute|]. split; [by vm_compute|].
  destruct (cooldown_spec 540000 "tok-1" (S3_errors 10)) as (_ & Hquery & _).
  destruct (Hquery (540000 + 2 * 60 * 60 * 1000) (S3_errors 10)) as [_ Hsome].
  destruct (Hsome (540000 + 2 * 60 * 60 * 1000) ltac:(by vm_compute) ltac:(lia))
    as [_ Hpast].
  destruct (Hpast ltac:(lia)) as (Hfalse & _ & Hcleared).
  split; [exact Hfalse|]. split; [exact Hcleared|].
  by vm_compute.
Defined.

(** *** The rotation dispenser *)

Lemma firstUsable_cons now t rest st :
  Storage.firstUsable now (t :: rest) st
  = if usable now st t
    then (Some t, snd (Storage.isTokenInCooldown now (ApiToken.id t) st))
    else Storage.firstUsable now rest st.
Proof.
  cbn [Storage.firstUsable]. unfold usable, Storage.isTokenInCooldown.
  destruct (Storage.tokenCooldowns st !! ApiToken.id t) as [e|] eqn:He.
  - destruct (Z.eqb_spec e 0) as [->|Hnz].
    + rewrite Z.geb_leb, Z.ltb_antisym. by destruct (_ <=? _).
    + destruct (Z.geb_spec now e); [|done].
      assert (Storage.getRecentErrorCount now (ApiToken.id t)
                (Storage.set_tokenErrorTracking (fun m => delete (ApiToken.id t) m)
                   (Storage.set_tokenCooldowns (fun m => delete (ApiToken.id t) m) st))
              = 0) as ->.
      { unfold Storage.getRecentErrorCount. cbn. by rewrite lookup_delete_eq. }
      done.
  - rewrite Z.geb_leb, Z.ltb_antisym. by destruct (_ <=? _).
Qed.

Lemma firstUsable_head now tokens st :
  fst (Storage.firstUsable now tokens st)
  = head (filter (fun t => usable now st t = true) tokens).
Proof.
  induction tokens as [|t rest IH]; [done|].
  rewrite firstUsable_cons, filter_cons.
  destruct (usable now st t) eqn:E.
  - by rewrite decide_True.
  - by rewrite decide_False.
Qed.

(** [getNextRotationToken] returns the first usable token among the active
    ones by least recent use, and nothing exactly when no active token is
    usable: each is in a running cooldown or has reached the safe threshold of
    9 recent errors. *)
Theorem getNextRotationToken_spec :
  forall (now : Z) (st : Storage.Store),
    fst (Storage.getNextRotationToken now st)
      = head (filter (fun t => usable now st t = true)
                (Storage.orderBy Storage.byLastUsedAt (Storage.getActiveApiTokens st))) /\
    (fst (Storage.getNextRotationToken now st) = None <->
     forall t, t ∈ Storage.apiTokens st -> ApiToken.isActive t = true ->
               usable now st t = false) /\
    (forall t, fst (Storage.getNextRotationToken now st) = Some t ->
               t ∈ Storage.apiTokens st /\ ApiToken.isActive t = true /\
               usable now st t = true) /\
    (forall t, usable now st t = false <->
       (exists e, Storage.tokenCooldowns st !! ApiToken.id t = Some e /\ e <> 0 /\ now < e) \/
       ((Storage.tokenCooldowns st !! ApiToken.id t = None \/
         Storage.tokenCooldowns st !! ApiToken.id t = Some 0) /\
        9 <= Storage.getRecentErrorCount now (ApiToken.id t) st)).
Proof.
  intros now st. unfold Storage.getNextRotationToken. rewrite firstUsable_head.
  split; [done|]. split; [|split].
  - rewrite head_None. split.
    + intros Hnil t Hin Hactive. destruct (usable now st t) eqn:E; [|done].
      assert (t ∈ filter (fun t => usable now st t = true)
                (Storage.orderBy Storage.byLastUsedAt (Storage.getActiveApiTokens st)))
        as Ht.
      { apply list_elem_of_filter. split; [done|].
        apply orderBy_elem, getActiveApiTokens_elem. done. }
      rewrite Hnil in Ht. by apply elem_of_nil in Ht.
    + intros Hall.
      destruct (filter _ _) as [|t l] eqn:E; [done|].
      assert (t ∈ filter (fun t => usable now st t = true)
                (Storage.orderBy Storage.byLastUsedAt (Storage.getActiveApiTokens st)))
        as Ht by (rewrite E; left).
      apply list_elem_of_filter in Ht as [Hu Ht].
      apply orderBy_elem, getActiveApiTokens_elem in Ht as [Hactive Hin].
      rewrite (Hall t Hin Hactive) in Hu. done.
  - intros t Ht. apply head_Some_elem_of, list_elem_of_filter in Ht as [Hu Ht].
    apply orderBy_elem, getActiveApiTokens_elem in Ht as [Hactive Hin]. done.
  - intros t. unfold usable, Storage.SAFE_THRESHOLD, Storage.ERROR_THRESHOLD.
    destruct (Storage.tokenCooldowns st !! ApiToken.id t) as [e|].
    + destruct (Z.eqb_spec e 0) as [->|Hnz].
      * rewrite Z.ltb_ge. split.
        -- intros H. right. split; [by right | lia].
        -- intros [(e & [= <-] & ? & _)|[_ H]]; [done | lia].
      * rewrite Z.geb_leb, Z.leb_gt. split.
        -- intros H. left. by exists e.
        -- intros [(e' & [= <-] & _ & H)|[[?|[= ->]] _]]; done.
    + rewrite Z.ltb_ge. split.
      * intros H. right. split; [by left | lia].
      * intros [(e & ? & _)|[_ H]]; [done | lia].
Qed.

(** *** The batch counter over runs of the pool *)

(** C2.  The bound [currentBatchCount <= BATCH_SIZE] is not an invariant of
    the pool.  From two fresh tokens, a run of dispenses and recorded errors
    reaches a store in which both tokens stand at 100 with the cursor on the
    first; the next dispense resets the first and increments the second, which
    is active, to 101. *)
Theorem currentBatchCount_exceeds_BATCH_SIZE :
  let before := poolRun (removelast overflowRun) twoFreshTokens in
  let after := poolRun overflowRun twoFreshTokens in
  (ApiToken.currentBatchCount <$> Storage.getTokenById "tok-1" before = Some 100 /\
   ApiToken.currentBatchCount <$> Storage.getTokenById "tok-2" before = Some 100 /\
   TokenSettings.lastUsedTokenIndex <$> Storage.getTokenSettings before = Some (Some 0)) /\
  (ApiToken.currentBatchCount <$> Storage.getTokenById "tok-1" after = Some 0 /\
   ApiToken.isActive <$> Storage.getTokenById "tok-2" after = Some true /\
   ApiToken.currentBatchCount <$> Storage.getTokenById "tok-2" after = Some 101 /\
   Storage.BATCH_SIZE = 100).
Proof. by vm_compute. Qed.

(** ** Submission queue: the retry counter *)

Lemma head_filter_fmap {A} (p : A -> bool) (g : A -> A) (rows : list A) :
  (forall r, p (g r) = p r) ->
  head (filter (fun r => p r = true) (map g rows))
  = g <$> head (filter (fun r => p r = true) rows).
Proof.
  intros Hp. induction rows as [|x rows IH]; [done|].
  cbn [map]. rewrite !filter_cons, Hp.
  destruct (decide (p x = true)); [done | apply IH].
Qed.

Lemma getVideoById_updated (videoId : string) (cond : VideoHistory.t -> bool)
    (fields : VideoHistory.partial) (now : Z) (st : Storage.Store) :
  Storage.getVideoById videoId
    (Storage.set_videoHistory
       (fun _ => fst (Storage.updateWhere cond (VideoHistory.apply fields now)
                        (Storage.videoHistory st))) st)
  = (fun r => if cond r then VideoHistory.apply fields now r else r)
      <$> Storage.getVideoById videoId st.
Proof.
  unfold Storage.getVideoById, Storage.updateWhere.
  cbn [Storage.videoHistory Storage.set_videoHistory fst].
  apply (head_filter_fmap (fun r => String.eqb (VideoHistory.id r) videoId)).
  intros r. by destruct (cond r).
Qed.

Lemma getVideoById_recordTokenError (videoId : string) now tokenId st :
  Storage.getVideoById videoId (Storage.recordTokenError now tokenId st)
  = Storage.getVideoById videoId st.
Proof.
  unfold Storage.getVideoById.
  by destruct (recordTokenError_tables now tokenId st) as (_ & _ & _ & ->).
Qed.

(** When the driver sends the object as text, a failure below the retry
    limit changes nothing in the row but [updatedAt], and schedules the
    retry. *)
Lemma handleVideoFailure_below_limit (text : VideoHistory.partial -> string)
    (now : Z) (video : BulkQueue.QueuedVideo) (errorMessage : string)
    (rotationToken : option ApiToken.t) (st : Storage.Store) (q : BulkQueue.Queue)
    (r : VideoHistory.t) :
  Storage.getVideoById (BulkQueue.videoId video) st = Some r ->
  Js.orZero (VideoHistory.retryCount r) < BulkQueue.MAX_RETRIES ->
  let res :=
    BulkQueue.handleVideoFailure (fun o => Some (text o)) now video errorMessage
      rotationToken st q in
  snd res = BulkQueue.mkQueue (BulkQueue.bulkQueue q) (BulkQueue.isProcessing q)
              (BulkQueue.timers q ++ [(now + BulkQueue.RETRY_DELAY_MS, video)])
              (BulkQueue.overrideDelaySeconds q) /\
  exists r', Storage.getVideoById (BulkQueue.videoId video) (fst res) = Some r' /\
             sameCounters r r'.
Proof.
  intros Hrow Hlimit. cbv zeta.
  unfold BulkQueue.handleVideoFailure. rewrite Hrow.
  destruct (Z.ltb_spec (Js.orZero (VideoHistory.retryCount r)) BulkQueue.MAX_RETRIES);
    [|lia].
  unfold Storage.updateVideoHistoryFields, Storage.whereConditions.
  rewrite (surjective_pairing (Storage.updateWhere _ _ _)).
  cbn [fst snd default].
  split; [done|].
  set (st' := Storage.set_videoHistory _ st).
  assert (exists r', Storage.getVideoById (BulkQueue.videoId video) st' = Some r' /\
                     sameCounters r r') as (r' & Hr' & Hsame).
  { unfold st'. rewrite getVideoById_updated, Hrow. cbn.
    eexists; split; [reflexivity|]. by destruct (Storage.ownedBy _ _ r). }
  exists r'. split; [|done].
  destruct rotationToken; [by rewrite getVideoById_recordTokenError | done].
Qed.

Lemma failingRounds_all_handled (text : VideoHistory.partial -> string)
    (video : BulkQueue.QueuedVideo) (errorMessage : string)
    (rotationToken : option ApiToken.t) (delay : option Z) (n : nat) :
  forall (now : Z) (st : Storage.Store) (r : VideoHistory.t),
    Storage.getVideoById (BulkQueue.videoId video) st = Some r ->
    Js.orZero (VideoHistory.retryCount r) < BulkQueue.MAX_RETRIES ->
    let res :=
      BulkQueue.failingRounds (fun o => Some (text o)) n now errorMessage rotationToken
        st (BulkQueue.mkQueue [video] true [] delay) in
    snd res = n /\
    snd (fst res) = BulkQueue.mkQueue [video] true [] delay /\
    exists r', Storage.getVideoById (BulkQueue.videoId video) (fst (fst res)) = Some r' /\
               sameCounters r r'.
Proof.
  induction n as [|n IH]; intros now st r Hrow Hlimit; cbv zeta.
  { cbn. repeat split. exists r. by repeat split. }
  cbn [BulkQueue.failingRounds BulkQueue.shift BulkQueue.bulkQueue
       BulkQueue.isProcessing BulkQueue.timers BulkQueue.overrideDelaySeconds].
  destruct (handleVideoFailure_below_limit text now video errorMessage rotationToken st
              (BulkQueue.mkQueue [] true [] delay) r Hrow Hlimit) as (Hq & r1 & Hr1 & Hs1).
  destruct (BulkQueue.handleVideoFailure _ now video errorMessage rotationToken st _)
    as [st2 q2].
  cbn [fst snd] in Hq, Hr1. subst q2.
  cbn [BulkQueue.timers BulkQueue.bulkQueue BulkQueue.isProcessing
       BulkQueue.overrideDelaySeconds app].
  change (BulkQueue.requeue video (BulkQueue.mkQueue [] true [] delay))
    with (BulkQueue.mkQueue [video] true [] delay).
  assert (Js.orZero (VideoHistory.retryCount r1) < BulkQueue.MAX_RETRIES) as Hlimit1
    by (destruct Hs1 as (-> & _); done).
  specialize (IH (now + BulkQueue.RETRY_DELAY_MS) st2 r1 Hr1 Hlimit1). cbv zeta in IH.
  destruct (BulkQueue.failingRounds _ n _ errorMessage rotationToken st2 _)
    as [[st4 q4] k].
  cbn [fst snd] in *. destruct IH as (-> & -> & r' & Hr' & Hs').
  repeat split. exists r'. split; [done|].
  unfold sameCounters in *. intuition congruence.
Qed.

(** C4.  The failure handler does not count its retries.  It calls
    [updateVideoHistoryFields(videoId, {retryCount, errorMessage})] with two
    arguments, so the object is taken for the [userId] and no field is
    written.  When the driver sends the object as text, a job whose
    submission fails every time is handled and re-queued any number of times,
    its [retryCount] still 0, its status still [pending], and no
    ["(Retry k/2)"] message stored.  When the driver refuses the object, the
    first failure marks the job failed and nothing is retried. *)
Theorem handleVideoFailure_retry_not_counted :
  (forall (text : VideoHistory.partial -> string) (n : nat),
     let res :=
       BulkQueue.failingRounds (fun o => Some (text o)) n 1000 "VEO API error (500): {}"
         None S5_store S5_queue in
     snd res = n /\
     snd (fst res) = S5_queue /\
     VideoHistory.retryCount <$> Storage.getVideoById "job-1" (fst (fst res))
       = Some (Some 0) /\
     VideoHistory.status <$> Storage.getVideoById "job-1" (fst (fst res))
       = Some "pending" /\
     VideoHistory.errorMessage <$> Storage.getVideoById "job-1" (fst (fst res))
       = Some None) /\
  (let res :=
     BulkQueue.handleVideoFailure (fun _ => None) 1000 S5_video "VEO API error (500): {}"
       None S5_store S5_queue in
   BulkQueue.timers (snd res) = [] /\
   VideoHistory.retryCount <$> Storage.getVideoById "job-1" (fst res) = Some (Some 0) /\
   VideoHistory.status <$> Storage.getVideoById "job-1" (fst res) = Some "failed" /\
   VideoHistory.errorMessage <$> Storage.getVideoById "job-1" (fst res)
     = Some (Some "VEO API error (500): {}")).
Proof.
  split.
  - intros text n. cbv zeta. unfold S5_queue.
    destruct (failingRounds_all_handled text S5_video "VEO API error (500): {}" None
                (Some 10) n 1000 S5_store S5_job eq_refl ltac:(done))
      as (Hn & Hq & r' & Hr' & Hcount & Hstatus & Hmsg & _).
    change (BulkQueue.videoId S5_video) with "job-1" in Hr'.
    rewrite Hr'. cbn [fmap option_fmap option_map].
    rewrite Hcount, Hstatus, Hmsg. done.
  - by vm_compute.
Qed.

(** ** Job lifecycle *)

Lemma statusStep_refl st : statusStep st st.
Proof. intros i r Hi. exists r. auto. Qed.

Lemma statusStep_trans st1 st2 st3 :
  statusStep st1 st2 -> statusStep st2 st3 -> statusStep st1 st3.
Proof.
  intros H12 H23 i r Hi.
  destruct (H12 i r Hi) as (r2 & Hi2 & Hid2 & Hs2).
  destruct (H23 i r2 Hi2) as (r3 & Hi3 & Hid3 & Hs3).
  exists r3. split; [done|]. split; [congruence|].
  destruct Hs3 as [Hs3|Hs3]; [|by right].
  destruct Hs2 as [Hs2|Hs2]; [left; congruence | right; by rewrite Hs3].
Qed.

Lemma updateVideoHistoryStatus_statusStep now videoId userId status videoUrl errorMessage st :
  pipelineStatus status ->
  statusStep st
    (snd (Storage.updateVideoHistoryStatus now videoId userId status videoUrl errorMessage st)).
Proof.
  intros Hs i r Hi. rewrite updateVideoHistoryStatus_lookup, Hi.
  cbn [fmap option_fmap option_map]. eexists; split; [reflexivity|].
  destruct (Storage.ownedBy videoId userId r); cbn; auto.
Qed.

Lemma updateVideoHistoryFields_statusStep bindObject now videoId userId fields st :
  (forall s, VideoHistory.p_status (default VideoHistory.empty fields) = Some s ->
             pipelineStatus s) ->
  statusStep st
    (snd (Storage.updateVideoHistoryFields bindObject now videoId userId fields st)).
Proof.
  intros Hs i r Hi.
  destruct (Storage.whereConditions bindObject videoId userId) as [cond|] eqn:Hcond.
  - rewrite (updateVideoHistoryFields_lookup _ _ _ _ _ _ cond _ Hcond), Hi.
    cbn [fmap option_fmap option_map]. eexists; split; [reflexivity|].
    destruct (cond r); [|auto]. cbn. split; [done|].
    destruct (VideoHistory.p_status _) as [s|]; cbn; auto.
  - unfold Storage.updateVideoHistoryFields. rewrite Hcond. exists r. auto.
Qed.

Lemma recordTokenError_statusStep now tokenId st :
  statusStep st (Storage.recordTokenError now tokenId st).
Proof.
  intros i r Hi. exists r.
  destruct (recordTokenError_tables now tokenId st) as (_ & _ & _ & ->). auto.
Qed.

Lemma pipelineStep_statusStep bindObject w st q :
  statusStep st (fst (pipelineStep bindObject w st q)).
Proof.
  assert (pipelineStatus "pending") as Hp by (by left).
  assert (pipelineStatus "completed") as Hc by (by right; left).
  assert (pipelineStatus "failed") as Hf by (by right; right).
  destruct w; cbn [pipelineStep fst].
  - unfold BulkQueue.handleVideoFailure.
    destruct (Storage.getVideoById _ st) as [r|]; [|apply statusStep_refl].
    destruct (_ <? _).
    + pose proof (updateVideoHistoryFields_statusStep bindObject now
                    (BulkQueue.videoId video)
                    (Storage.ObjectLiteral
                       (VideoHistory.mkPartial None None None
                          (Some (Js.orZero (VideoHistory.retryCount r) + 1))
                          (Some (BulkQueue.retryMessage errorMessage
                                   (Js.orZero (VideoHistory.retryCount r) + 1)))))
                    None st ltac:(done)) as H.
      destruct (Storage.updateVideoHistoryFields _ _ _ _ _ _) as [[v|e] st'];
        cbn [fst snd] in *.
      * destruct rotationToken; [|done].
        eapply statusStep_trans; [exact H | apply recordTokenError_statusStep].
      * by apply updateVideoHistoryStatus_statusStep.
    + cbn [fst]. destruct rotationToken.
      * eapply statusStep_trans; [|apply recordTokenError_statusStep].
        by apply updateVideoHistoryStatus_statusStep.
      * by apply updateVideoHistoryStatus_statusStep.
  - by apply updateVideoHistoryFields_statusStep.
  - by apply updateVideoHistoryStatus_statusStep.
  - by apply updateVideoHistoryFields_statusStep.
  - by apply updateVideoHistoryStatus_statusStep.
  - unfold PollingCoordinator.markUpstreamFailed.
    destruct (PollingCoordinator.rotationToken job).
    + eapply statusStep_trans; [|apply recordTokenError_statusStep].
      by apply updateVideoHistoryStatus_statusStep.
    + by apply updateVideoHistoryStatus_statusStep.
  - by apply updateVideoHistoryStatus_statusStep.
Qed.

Lemma createRows_spec gen now userId aspectRatio prompts :
  forall (i : Z) (st : Storage.Store),
    let res := Routes.createRows gen now userId aspectRatio i prompts st in
    exists rows : list VideoHistory.t,
      Storage.videoHistory (snd res) = Storage.videoHistory st ++ rows /\
      map VideoHistory.id rows = map BulkQueue.videoId (fst res) /\
      length rows = length prompts /\
      Forall (fun r => VideoHistory.status r = "pending") rows.
Proof.
  induction prompts as [|prompt rest IH]; intros i st; cbv zeta.
  { exists []. cbn. by rewrite app_nil_r. }
  cbn [Routes.createRows].
  unfold Storage.addVideoHistory.
  set (row := VideoHistory.mk _ _ _ _ _ _ _ _ _ _ _ _ _ _ _ _).
  set (st1 := Storage.set_videoHistory _ st).
  specialize (IH (i + 1) st1). cbv zeta in IH.
  destruct (Routes.createRows gen now userId aspectRatio (i + 1) rest st1)
    as [queued st2].
  destruct IH as (rows & Hrows & Hids & Hlen & Hpending). cbn [fst snd] in *.
  exists (row :: rows). repeat split.
  - rewrite Hrows. unfold st1. cbn [Storage.videoHistory Storage.set_videoHistory].
    by rewrite <- app_assoc.
  - cbn. by rewrite Hids.
  - cbn. by rewrite Hlen.
  - by constructor.
Qed.

Lemma incrementDaily_videoHistory n userId st :
  Storage.videoHistory (Routes.incrementDaily n userId st) = Storage.videoHistory st.
Proof. revert st. induction n as [|n IH]; intros st; cbn; [done|]. by rewrite IH. Qed.

Lemma addToQueue_bulkQueue videos delaySeconds q :
  BulkQueue.bulkQueue (BulkQueue.addToQueue videos delaySeconds q)
  = BulkQueue.bulkQueue q ++ videos.
Proof.
  unfold BulkQueue.addToQueue, BulkQueue.processQueue_start. cbn.
  by destruct (BulkQueue.isProcessing q).
Qed.

(** C8, as the code has it.  A bulk submission that is accepted appends one
    row per prompt, each with status [pending], and appends the jobs to the
    submission queue; the rows are still [pending] once the queue holds them,
    for [addToQueue] writes no row.  After that, every write of the
    submission queue and of the polling coordinator stores [pending],
    [completed] or [failed]: a row that is not [queued] is not [queued]
    after it. *)
Theorem bulk_job_stays_pending_when_queued :
  forall (gen : nat -> string) (now : Z) (session : option string)
         (prompts : list string) (aspectRatio : string)
         (st st' : Storage.Store) (q q' : BulkQueue.Queue) (videoIds : list string),
    Routes.bulkGenerate gen now session prompts aspectRatio st q
      = (Routes.Started videoIds, st', q') ->
    (exists (rows : list VideoHistory.t) (videos : list BulkQueue.QueuedVideo),
       Storage.videoHistory st' = Storage.videoHistory st ++ rows /\
       map VideoHistory.id rows = videoIds /\
       length rows = length prompts /\
       Forall (fun r => VideoHistory.status r = "pending") rows /\
       BulkQueue.bulkQueue q' = BulkQueue.bulkQueue q ++ videos /\
       map BulkQueue.videoId videos = videoIds) /\
    (forall (bindObject : VideoHistory.partial -> option string) (w : PipelineWrite)
            (s : Storage.Store) (k : BulkQueue.Queue) (i : nat) (r : VideoHistory.t),
       Storage.videoHistory s !! i = Some r ->
       VideoHistory.status r <> "queued" ->
       exists r',
         Storage.videoHistory (fst (pipelineStep bindObject w s k)) !! i = Some r' /\
         VideoHistory.id r' = VideoHistory.id r /\
         VideoHistory.status r' <> "queued").
Proof.
  intros gen now session prompts aspectRatio st st' q q' videoIds Hgen.
  split; cycle 1.
  { intros bindObject w s k i r Hi Hr.
    destruct (pipelineStep_statusStep bindObject w s k i r Hi) as (r' & Hi' & Hid & Hs).
    exists r'. split; [done|]. split; [done|].
    destruct Hs as [->|[->|[->| ->]]]; done. }
  unfold Routes.bulkGenerate in Hgen.
  destruct (Routes.sessionUser session) as [userId|]; [|done].
  destruct (Storage.getUser userId st) as [user|]; [|done].
  destruct (negb _); [done|].
  destruct (PlanEnforcement.canBulkGenerate _ _ _) as [bulkCheck|]; [|done].
  destruct (negb _); [done|].
  destruct (createRows_spec gen now userId aspectRatio prompts 0 st)
    as (rows & Hrows & Hids & Hlen & Hpending).
  destruct (Routes.createRows gen now userId aspectRatio 0 prompts st) as [videos st1].
  cbn [fst snd] in *.
  destruct (PlanEnforcement.getBatchConfig user) as [batchConfig|]; [|done].
  injection Hgen as <- <- <-.
  exists rows, videos. repeat split; try done.
  - by rewrite incrementDaily_videoHistory.
  - apply addToQueue_bulkQueue.
Qed.

Lemma bulk_job_stays_pending_S1 :
  exists (rows : list VideoHistory.t) (videos : list BulkQueue.QueuedVideo),
    Storage.videoHistory (snd (fst S1_result)) = Storage.videoHistory S1_store ++ rows /\
    map VideoHistory.id rows = ["job-0"; "job-1"] /\
    length rows = length S1_prompts /\
    Forall (fun r => VideoHistory.status r = "pending") rows /\
    BulkQueue.bulkQueue (snd S1_result) = BulkQueue.bulkQueue BulkQueue.emptyQueue ++ videos /\
    map BulkQueue.videoId videos = ["job-0"; "job-1"].
Proof.
  assert (S1_result
          = (Routes.Started ["job-0"; "job-1"], snd (fst S1_result), snd S1_result)) as H
    by (by vm_compute).
  exact (proj1 (bulk_job_stays_pending_when_queued S1_gen 1000 (Some "user-1") S1_prompts
                  "landscape" S1_store _ BulkQueue.emptyQueue _ _ H)).
Defined.

(** The specified transition to [queued] does not happen on S1: the two jobs sit in the submission
    queue and their rows read [pending], not [queued]. *)
Lemma bulk_job_not_queued_S1 :
  map BulkQueue.videoId (BulkQueue.bulkQueue (snd S1_result)) = ["job-0"; "job-1"] /\
  map VideoHistory.id (Storage.videoHistory (snd (fst S1_result))) = ["job-0"; "job-1"] /\
  map VideoHistory.status (Storage.videoHistory (snd (fst S1_result)))
    = ["pending"; "pending"] /\
  "pending" <> "queued".
Proof. by vm_compute. Qed.

(** C7, as the code has it.  Let [r] be a job row whose status is
    [completed] or [failed].  The store's updates do not look at the current
    status: the regenerate endpoint, called by the owner, sets the row back to
    [pending] and keeps its video URL; [PATCH /api/video-history/:id], called
    by the owner, stores whatever status and video URL the body carries.
    What leaves status and video URL of [r] alone is every status update
    addressed to another job or another user, and every two-argument call of
    [updateVideoHistoryFields] (the heartbeat among them). *)
Theorem terminal_row_updates :
  forall (bindObject : VideoHistory.partial -> option string) (now : Z)
         (st : Storage.Store) (i : nat) (r : VideoHistory.t),
    Storage.videoHistory st !! i = Some r ->
    VideoHistory.status r = "completed" \/ VideoHistory.status r = "failed" ->
    VideoHistory.userId r <> "" ->
    (* regenerate, by the owner *)
    (forall body : Routes.RegenerateBody,
       Routes.validRegenerateBody body = true ->
       Routes.g_videoId body = VideoHistory.id r ->
       exists r',
         Storage.videoHistory
           (snd (Routes.regenerateVideo_begin now (Some (VideoHistory.userId r))
                   body st)) !! i = Some r' /\
         VideoHistory.status r' = "pending" /\
         VideoHistory.videoUrl r' = VideoHistory.videoUrl r) /\
    (* PATCH, by the owner *)
    (forall body : Routes.PatchBody,
       Routes.validPatchBody body = true ->
       exists r',
         Storage.videoHistory
           (snd (Routes.patchVideoHistory bindObject now (Some (VideoHistory.userId r))
                   (VideoHistory.id r) body st)) !! i = Some r' /\
         VideoHistory.status r' = default (VideoHistory.status r) (Routes.b_status body) /\
         VideoHistory.videoUrl r'
           = match Routes.b_videoUrl body with
             | Some u => Some u
             | None => VideoHistory.videoUrl r
             end) /\
    (* a status update for another job or another user *)
    (forall (videoId userId status : string) (videoUrl errorMessage : option string),
       VideoHistory.id r <> videoId \/ VideoHistory.userId r <> userId ->
       Storage.videoHistory
         (snd (Storage.updateVideoHistoryStatus now videoId userId status videoUrl
                 errorMessage st)) !! i = Some r) /\
    (* a two-argument call of updateVideoHistoryFields *)
    (forall (videoId : string) (o : VideoHistory.partial),
       exists r',
         Storage.videoHistory
           (snd (Storage.updateVideoHistoryFields bindObject now videoId
                   (Storage.ObjectLiteral o) None st)) !! i = Some r' /\
         VideoHistory.status r' = VideoHistory.status r /\
         VideoHistory.videoUrl r' = VideoHistory.videoUrl r).
Proof.
  intros bindObject now st i r Hi Hterminal Huser.
  assert (Routes.sessionUser (Some (VideoHistory.userId r)) = Some (VideoHistory.userId r))
    as Hsession.
  { cbn. by destruct (String.eqb_spec (VideoHistory.userId r) ""). }
  split; [|split; [|split]].
  - intros body Hbody Hid. unfold Routes.regenerateVideo_begin.
    rewrite Hsession, Hbody, Hid. cbn [negb].
    assert (forall (o : option VideoHistory.t) (s : Storage.Store),
              snd (match (o, s) with
                   | (None, s') => (Some Routes.NotFound, s')
                   | (Some _, s') => (None, s')
                   end) = s) as Hsnd by (by intros [?|] ?).
    rewrite (surjective_pairing (Storage.updateVideoHistoryStatus _ _ _ _ _ _ _)).
    rewrite Hsnd, updateVideoHistoryStatus_lookup, Hi.
    cbn [fmap option_fmap option_map]. rewrite ownedBy_self.
    eexists; split; [reflexivity|]. done.
  - intros body Hbody. unfold Routes.patchVideoHistory. rewrite Hsession, Hbody.
    cbn [negb].
    set (updates := VideoHistory.mkPartial _ _ _ _ _).
    assert (Storage.whereConditions bindObject (VideoHistory.id r)
              (Storage.UserId (VideoHistory.userId r))
            = Some (Storage.ownedBy (VideoHistory.id r) (VideoHistory.userId r))) as Hcond.
    { cbn. by destruct (String.eqb_spec (VideoHistory.userId r) ""). }
    pose proof (updateVideoHistoryFields_lookup bindObject now (VideoHistory.id r)
                  (Storage.UserId (VideoHistory.userId r)) (Some updates) st _ i Hcond)
      as Hlk.
    destruct (Storage.updateVideoHistoryFields _ _ _ _ _ _) as [[[v|]|e] st'];
      cbn [snd] in *; rewrite Hlk, Hi; cbn [fmap option_fmap option_map];
      rewrite ownedBy_self; (eexists; split; [reflexivity|]); done.
  - intros videoId userId status videoUrl errorMessage Hother.
    rewrite updateVideoHistoryStatus_lookup, Hi. cbn [fmap option_fmap option_map].
    by rewrite ownedBy_other.
  - intros videoId o. unfold Storage.updateVideoHistoryFields.
    destruct (Storage.whereConditions _ _ _) as [cond|]; [|by exists r].
    rewrite (surjective_pairing (Storage.updateWhere _ _ _)).
    cbn [snd Storage.videoHistory Storage.set_videoHistory].
    rewrite updateWhere_lookup, Hi. cbn [fmap option_fmap option_map].
    eexists; split; [reflexivity|]. by destruct (cond r).
Qed.

Lemma terminal_row_updates_S7 :
  (exists r',
     Storage.videoHistory
       (snd (Routes.regenerateVideo_begin 9000 (Some "user-1") S7_regenerate S7_store))
       !! 0%nat = Some r' /\
     VideoHistory.status r' = "pending" /\ VideoHistory.videoUrl r' = None) /\
  Storage.videoHistory
    (snd (Storage.updateVideoHistoryStatus 9000 "job-2" "user-1" "failed" None None
            S7_store)) !! 0%nat = Some S7_failed.
Proof.
  destruct (terminal_row_updates (fun _ => None) 9000 S7_store 0 S7_failed
              eq_refl ltac:(by right) ltac:(done)) as (Hregen & _ & Hother & _).
  split.
  - exact (Hregen S7_regenerate eq_refl eq_refl).
  - exact (Hother "job-2" "user-1" "failed" None None ltac:(by left)).
Defined.

(** Terminal states are not absorbing: the failed job is [pending] again after the
    owner's regenerate request, and the completed job has another status and
    another video URL after the owner's PATCH. *)
Lemma terminal_status_not_absorbing :
  let regenerated :=
    snd (Routes.regenerateVideo_begin 9000 (Some "user-1") S7_regenerate S7_store) in
  let patched :=
    snd (Routes.patchVideoHistory (fun _ => None) 9000 (Some "user-1") "job-2" S7_patch
           S7_store) in
  (VideoHistory.status <$> Storage.getVideoById "job-1" S7_store = Some "failed" /\
   VideoHistory.status <$> Storage.getVideoById "job-1" regenerated = Some "pending") /\
  (VideoHistory.status <$> Storage.getVideoById "job-2" S7_store = Some "completed" /\
   VideoHistory.videoUrl <$> Storage.getVideoById "job-2" S7_store
     = Some (Some "https://media.example/v/job-2.mp4") /\
   VideoHistory.status <$> Storage.getVideoById "job-2" patched = Some "pending" /\
   VideoHistory.videoUrl <$> Storage.getVideoById "job-2" patched
     = Some (Some "https://elsewhere.example/x.mp4")).
Proof. by vm_compute. Qed.

(** ** The retry wrapper *)

Lemma retryLoop_S {T} (operation : nat -> Js.Completion T) (random : nat -> Q)
    (maxRetries baseDelayMs : Z) (iterations attempt : nat) (lastError : option Js.Error)
    (slept : list Q) :
  Db.retryLoop operation random maxRetries baseDelayMs (S iterations) attempt lastError slept
  = match operation attempt with
    | Js.Return v => Db.mkRun (Js.Return v) (S attempt) slept
    | Js.Throw error =>
        if negb (Db.isRetryable error) || (Z.of_nat attempt =? maxRetries - 1) then
          Db.mkRun (Js.Throw error) (S attempt) slept
        else
          Db.retryLoop operation random maxRetries baseDelayMs iterations (S attempt)
            (Some error) (slept ++ [Db.totalDelay baseDelayMs attempt (random attempt)])
    end.
Proof. reflexivity. Qed.

(** A run that stops at its first call. *)
Lemma first_call_stops {T} (operation : nat -> Js.Completion T) (random : nat -> Q)
    (baseDelayMs : Z) (attempt bound : nat) (slept : list Q) (c : Js.Completion T) :
  operation attempt = c -> (S attempt <= bound)%nat ->
  ((S attempt < bound)%nat -> ~ retryableThrow c) ->
  let run := Db.mkRun c (S attempt) slept in
  (attempt < Db.calls run <= bound)%nat /\
  Db.completion run = operation (Db.calls run - 1)%nat /\
  (forall k, (attempt <= k < Db.calls run - 1)%nat -> retryableThrow (operation k)) /\
  ((Db.calls run < bound)%nat -> ~ retryableThrow (Db.completion run)) /\
  Db.delays run
    = slept ++ retryDelays baseDelayMs random attempt (Db.calls run - 1 - attempt).
Proof.
  intros Hop Hbound Hstop. cbv zeta. cbn [Db.calls Db.completion Db.delays].
  replace (S attempt - 1)%nat with attempt by lia.
  replace (attempt - attempt)%nat with 0%nat by lia.
  split; [lia|]. split; [done|]. split; [intros; lia|]. split; [done|].
  unfold retryDelays. cbn. by rewrite app_nil_r.
Qed.

(** The loop, started at iteration [attempt] with [iterations] passes left
    that end at [maxRetries]. *)
Lemma retryLoop_spec {T} (operation : nat -> Js.Completion T) (random : nat -> Q)
    (maxRetries baseDelayMs : Z) (iterations : nat) :
  forall (attempt : nat) (lastError : option Js.Error) (slept : list Q),
    Z.of_nat (attempt + S iterations) = maxRetries ->
    let run :=
      Db.retryLoop operation random maxRetries baseDelayMs (S iterations) attempt
        lastError slept in
    (attempt < Db.calls run <= attempt + S iterations)%nat /\
    Db.completion run = operation (Db.calls run - 1)%nat /\
    (forall k, (attempt <= k < Db.calls run - 1)%nat -> retryableThrow (operation k)) /\
    ((Db.calls run < attempt + S iterations)%nat ->
       ~ retryableThrow (Db.completion run)) /\
    Db.delays run
      = slept ++ retryDelays baseDelayMs random attempt (Db.calls run - 1 - attempt).
Proof.
  induction iterations as [|iterations IH]; intros attempt lastError slept Hmax; cbv zeta;
    rewrite retryLoop_S.
  - destruct (operation attempt) as [v|error] eqn:Hop.
    + apply first_call_stops; [done | lia | lia].
    + destruct (Z.eqb_spec (Z.of_nat attempt) (maxRetries - 1)) as [_|?]; [|lia].
      rewrite orb_true_r. apply first_call_stops; [done | lia | lia].
  - destruct (operation attempt) as [v|error] eqn:Hop.
    + apply first_call_stops; [done | lia |]. intros _ (e & He & _). done.
    + destruct (Z.eqb_spec (Z.of_nat attempt) (maxRetries - 1)) as [?|_]; [lia|].
      rewrite orb_false_r.
      destruct (Db.isRetryable error) eqn:Hretry; cbn [negb].
      * specialize (IH (S attempt) (Some error)
                      (slept ++ [Db.totalDelay baseDelayMs attempt (random attempt)])
                      ltac:(lia)).
        cbv zeta in IH.
        set (run := Db.retryLoop operation random maxRetries baseDelayMs (S iterations)
                      (S attempt) (Some error) _) in *.
        destruct IH as (Hcalls & Hcompletion & Hbefore & Hlast & Hdelays).
        split; [lia|]. split; [done|]. split; [|split].
        -- intros k Hk. destruct (decide (k = attempt)) as [->|Hne].
           ++ exists error. by rewrite Hop.
           ++ apply Hbefore. lia.
        -- intros Hlt. apply Hlast. lia.
        -- rewrite Hdelays, <- app_assoc. f_equal.
           replace (Db.calls run - 1 - attempt)%nat
             with (S (Db.calls run - 1 - S attempt)) by lia.
           reflexivity.
      * apply first_call_stops; [done | lia |].
        intros _ (e & He & Hr). injection He as <-. congruence.
Qed.

(** *** Rounding to a double *)

Lemma pow2_pos e : (0 < Js.pow2 e)%Q.
Proof.
  unfold Js.pow2. change 0%Q with (inject_Z 0). rewrite <- Zlt_Qlt.
  apply Z.pow_pos_nonneg; lia.
Qed.

Lemma shift_le (q1 q2 : Q) (e : Z) : (q1 <= q2)%Q -> (Js.shift q1 e <= Js.shift q2 e)%Q.
Proof.
  intros H. unfold Js.shift, Qdiv.
  pose proof (pow2_pos e). pose proof (pow2_pos (- e)).
  apply Qmult_le_compat_r; [|apply Qlt_le_weak, Qinv_lt_0_compat; done].
  apply Qmult_le_compat_r; [done | by apply Qlt_le_weak].
Qed.

Lemma shift_shift (q : Q) (e : Z) : (Js.shift (Js.shift q (- e)) e == q)%Q.
Proof.
  unfold Js.shift. rewrite Z.opp_involutive.
  pose proof (pow2_pos e). pose proof (pow2_pos (- e)).
  field. split; lra.
Qed.

Lemma roundHalfEven_le (q : Q) (k : Z) : (q <= inject_Z k)%Q -> Js.roundHalfEven q <= k.
Proof.
  intros Hq. unfold Js.roundHalfEven.
  pose proof (Qfloor_le q) as Hf. pose proof (Qlt_floor q) as Hc.
  rewrite inject_Z_plus in Hc.
  assert (Qfloor q <= k) as Hfk by (rewrite Zle_Qle; lra).
  assert ((1 # 2 <= q - inject_Z (Qfloor q))%Q -> Qfloor q + 1 <= k) as Hup.
  { intros Hhalf. assert (Qfloor q < k); [|lia]. rewrite Zlt_Qlt. lra. }
  destruct (Qcompare_spec (q - inject_Z (Qfloor q)) (1 # 2)) as [E|E|E].
  - destruct (Z.even _); [done|]. apply Hup. lra.
  - done.
  - apply Hup. lra.
Qed.

Lemma roundHalfEven_ge (q : Q) (k : Z) : (inject_Z k <= q)%Q -> k <= Js.roundHalfEven q.
Proof.
  intros Hq. unfold Js.roundHalfEven.
  pose proof (Qfloor_le q) as Hf. pose proof (Qlt_floor q) as Hc.
  rewrite inject_Z_plus in Hc.
  assert (k <= Qfloor q) as Hfk.
  { assert (k < Qfloor q + 1); [|lia]. rewrite Zlt_Qlt, inject_Z_plus. lra. }
  destruct (Qcompare_spec (q - inject_Z (Qfloor q)) (1 # 2)) as [E|E|E].
  - destruct (Z.even _); lia.
  - done.
  - lia.
Qed.

Lemma shift_Z (z m : Z) : 0 <= m -> (Js.shift (inject_Z z) m == inject_Z (z * 2 ^ m))%Q.
Proof.
  intros Hm. unfold Js.shift, Js.pow2.
  rewrite Z.max_l by lia. rewrite Z.max_r by lia.
  rewrite inject_Z_mult. change (inject_Z (2 ^ 0)) with 1%Q. field.
Qed.

Lemma log2floor_le (q : Q) : (0 < q)%Q -> (Js.shift 1 (Js.log2floor q) <= q)%Q.
Proof.
  intros Hq. unfold Js.log2floor.
  set (k := Z.log2 (Qnum q) - Z.log2 (Z.pos (Qden q))).
  destruct (Qle_bool (Js.shift 1 k) q) eqn:Hk; [by apply Qle_bool_iff|].
  clear Hk. destruct q as [n d]. cbn [Qnum Qden] in k.
  assert (0 < n) as Hn by (unfold Qlt in Hq; cbn in Hq; lia).
  destruct (Z.log2_spec n Hn) as [Hn1 Hn2].
  destruct (Z.log2_spec (Z.pos d) ltac:(lia)) as [Hd1 Hd2].
  pose proof (Z.log2_nonneg n) as Ha. pose proof (Z.log2_nonneg (Z.pos d)) as Hb.
  unfold Js.shift. apply Qle_shift_div_r; [apply pow2_pos|].
  unfold Js.pow2. rewrite Qmult_1_l.
  unfold Qle, Qmult, inject_Z. cbn [Qnum Qden]. rewrite Pos.mul_1_r, Z.mul_1_r.
  destruct (Z.le_gt_cases 0 (k - 1)) as [Hpos|Hneg].
  - rewrite Z.max_l by lia. rewrite Z.max_r by lia. rewrite Z.pow_0_r, Z.mul_1_r.
    assert (2 ^ Z.log2 n = 2 ^ (k - 1) * 2 ^ Z.succ (Z.log2 (Z.pos d))) as E.
    { rewrite <- Z.pow_add_r by lia. f_equal. lia. }
    pose proof (Z.pow_pos_nonneg 2 (k - 1) ltac:(lia) Hpos). nia.
  - rewrite Z.max_r by lia. rewrite Z.max_l by lia. rewrite Z.pow_0_r, Z.mul_1_l.
    assert (2 ^ Z.succ (Z.log2 (Z.pos d)) = 2 ^ Z.log2 n * 2 ^ (- (k - 1))) as E.
    { rewrite <- Z.pow_add_r by lia. f_equal. lia. }
    pose proof (Z.pow_pos_nonneg 2 (- (k - 1)) ltac:(lia) ltac:(lia)). nia.
Qed.

Lemma log2floor_small (q : Q) (z : Z) :
  (0 < q)%Q -> (q <= inject_Z z)%Q -> z < 2 ^ 53 -> Js.log2floor q <= 52.
Proof.
  intros Hq Hz Hsmall. pose proof (log2floor_le q Hq) as Hk.
  destruct (Z.le_gt_cases (Js.log2floor q) 52) as [|Hbig]; [done|]. exfalso.
  change 1%Q with (inject_Z 1) in Hk. rewrite shift_Z, Z.mul_1_l in Hk by lia.
  assert (2 ^ Js.log2floor q <= z) as Hle by (rewrite Zle_Qle; lra).
  pose proof (Z.pow_le_mono_r 2 53 (Js.log2floor q) ltac:(lia) ltac:(lia)). lia.
Qed.

(** Rounding does not cross an integer below [2^53]. *)
Lemma nearestDouble_le (q : Q) (z : Z) :
  (0 < q)%Q -> (q <= inject_Z z)%Q -> z < 2 ^ 53 -> (Js.nearestDouble q <= inject_Z z)%Q.
Proof.
  intros Hq Hz Hsmall. unfold Js.nearestDouble.
  pose proof (log2floor_small q z Hq Hz Hsmall) as Hk.
  set (e := Z.max (Js.log2floor q - 52) (-1074)).
  assert (e <= 0) as He by lia.
  rewrite <- (shift_shift (inject_Z z) e). apply shift_le.
  rewrite shift_Z by lia. rewrite <- Zle_Qle. apply roundHalfEven_le.
  rewrite <- shift_Z by lia. by apply shift_le.
Qed.

Lemma nearestDouble_ge (q : Q) (z : Z) :
  (0 < q)%Q -> (inject_Z z <= q)%Q -> z < 2 ^ 53 -> (inject_Z z <= Js.nearestDouble q)%Q.
Proof.
  intros Hq Hz Hsmall. unfold Js.nearestDouble.
  set (e := Z.max (Js.log2floor q - 52) (-1074)).
  destruct (Z.le_gt_cases e 0) as [He|He].
  - rewrite <- (shift_shift (inject_Z z) e). apply shift_le.
    rewrite shift_Z by lia. rewrite <- Zle_Qle. apply roundHalfEven_ge.
    rewrite <- shift_Z by lia. by apply shift_le.
  - assert (Js.log2floor q = e + 52) as Hk by lia.
    pose proof (log2floor_le q Hq) as Hlow. rewrite Hk in Hlow.
    change 1%Q with (inject_Z 1) in Hlow. rewrite shift_Z, Z.mul_1_l in Hlow by lia.
    assert (2 ^ 52 <= Js.roundHalfEven (Js.shift q (- e))) as Hround.
    { apply roundHalfEven_ge.
      apply Qle_trans with (Js.shift (inject_Z (2 ^ (e + 52))) (- e)); [|by apply shift_le].
      assert (0 < inject_Z (2 ^ e))%Q as Hpos.
      { change 0%Q with (inject_Z 0). rewrite <- Zlt_Qlt. apply Z.pow_pos_nonneg; lia. }
      unfold Js.shift, Js.pow2. rewrite Z.opp_involutive.
      rewrite (Z.max_r (- e) 0), (Z.max_l e 0) by lia.
      rewrite Z.pow_add_r, inject_Z_mult by lia. change (inject_Z (2 ^ 0)) with 1%Q.
      apply Qle_shift_div_l; [done|]. lra. }
    apply Qle_trans with (Js.shift (inject_Z (2 ^ 52)) e).
    + rewrite shift_Z by lia. rewrite <- Zle_Qle.
      pose proof (Z.pow_le_mono_r 2 1 e ltac:(lia) ltac:(lia)). lia.
    + apply shift_le. by rewrite <- Zle_Qle.
Qed.

Lemma binary64_le (q : Q) (z : Z) :
  Z.abs z < 2 ^ 53 -> (q <= inject_Z z)%Q -> (Js.binary64 q <= inject_Z z)%Q.
Proof.
  intros Hsmall Hz. unfold Js.binary64.
  destruct (Qcompare_spec q 0) as [E|E|E].
  - lra.
  - destruct (Z.le_gt_cases 0 z) as [Hpos|Hneg].
    + assert (0 <= Js.nearestDouble (- q))%Q; [|
        assert (inject_Z 0 <= inject_Z z)%Q by (by rewrite <- Zle_Qle);
        change (inject_Z 0) with 0%Q in *; lra ].
      change 0%Q with (inject_Z 0). apply nearestDouble_ge; [lra | change (inject_Z 0) with 0%Q; lra | lia].
    + assert (inject_Z (- z) <= Js.nearestDouble (- q))%Q; [|rewrite inject_Z_opp in *; lra].
      apply nearestDouble_ge; [lra | rewrite inject_Z_opp; lra | lia].
  - apply nearestDouble_le; [done | done | lia].
Qed.

Lemma binary64_ge (q : Q) (z : Z) :
  Z.abs z < 2 ^ 53 -> (inject_Z z <= q)%Q -> (inject_Z z <= Js.binary64 q)%Q.
Proof.
  intros Hsmall Hz. unfold Js.binary64.
  destruct (Qcompare_spec q 0) as [E|E|E].
  - lra.
  - assert (Js.nearestDouble (- q) <= inject_Z (- z))%Q; [|rewrite inject_Z_opp in *; lra].
    apply nearestDouble_le; [lra | rewrite inject_Z_opp; lra | lia].
  - apply nearestDouble_ge; [done | done | lia].
Qed.

(** The rounding on known values: [0.3]; [0.1 + 0.2], which is
    [0.30000000000000004]; a tie, [2^53 + 1], which goes to the even
    neighbour; and a double, which is left as it is. *)
Lemma binary64_examples :
  (Js.binary64 (3 # 10) == Js.double_0_3)%Q /\
  (Js.binary64 (Js.binary64 (1 # 10) + Js.binary64 (2 # 10))
   == 5404319552844596 # 18014398509481984)%Q /\
  (Js.binary64 (inject_Z (2 ^ 53 + 1)) == inject_Z (2 ^ 53))%Q /\
  (Js.binary64 Js.almostOne == Js.almostOne)%Q.
Proof. repeat split; by vm_compute. Qed.

Lemma binary64_nonneg (q : Q) : (0 <= q)%Q -> (0 <= Js.binary64 q)%Q.
Proof. intros Hq. change 0%Q with (inject_Z 0). by apply binary64_ge. Qed.

Lemma ceilDiv_ge (a b : Z) : 0 < b -> a <= b * Js.ceilDiv a b.
Proof.
  intros Hb. unfold Js.ceilDiv.
  pose proof (Z.mul_div_le (- a) b Hb). lia.
Qed.

Lemma ceilDiv_mul (c b : Z) : 0 < b -> Js.ceilDiv (b * c) b = c.
Proof.
  intros Hb. unfold Js.ceilDiv.
  replace (- (b * c)) with ((- c) * b) by lia. rewrite Z.div_mul by lia. lia.
Qed.

Lemma ceilDiv_tenths_range (b : Z) :
  0 <= b <= 5000 -> 0 <= Js.ceilDiv (3 * b) 10 <= 1500.
Proof.
  intros Hb. unfold Js.ceilDiv.
  assert (- 1500 <= (- (3 * b)) / 10 <= 0); [|lia]. split.
  - apply Z.div_le_lower_bound; lia.
  - apply Z.div_le_upper_bound; lia.
Qed.

Lemma backoff_range (baseDelayMs : Z) (attempt : nat) :
  0 <= baseDelayMs -> 0 <= Db.backoff baseDelayMs attempt <= 5000.
Proof.
  intros Hbase. unfold Db.backoff.
  pose proof (Z.pow_pos_nonneg 2 (Z.of_nat attempt) ltac:(lia) ltac:(lia)). nia.
Qed.

Lemma jitter_range (b : Z) (r : Q) :
  0 <= b <= 5000 -> (0 <= r)%Q ->
  (0 <= Js.binary64 (Js.binary64 (r * inject_Z b) * Js.double_0_3))%Q /\
  ((r <= 1)%Q ->
   (Js.binary64 (Js.binary64 (r * inject_Z b) * Js.double_0_3)
    <= inject_Z (Js.ceilDiv (3 * b) 10))%Q).
Proof.
  intros Hb Hr.
  assert (0 <= inject_Z b)%Q as HB.
  { change 0%Q with (inject_Z 0). rewrite <- Zle_Qle. lia. }
  assert (0 <= Js.binary64 (r * inject_Z b))%Q as Hx by (apply binary64_nonneg; nra).
  assert (0 < Js.double_0_3)%Q as Hc by done.
  split; [apply binary64_nonneg; nra|].
  intros Hr1.
  assert (Js.binary64 (r * inject_Z b) <= inject_Z b)%Q as Hxb
    by (apply binary64_le; [lia | nra]).
  pose proof (ceilDiv_ge (3 * b) 10 ltac:(lia)) as Hceil.
  assert (inject_Z b * (3 # 10) <= inject_Z (Js.ceilDiv (3 * b) 10))%Q as Hq.
  { unfold Qle, Qmult, inject_Z. cbn [Qnum Qden]. lia. }
  assert (Js.double_0_3 <= 3 # 10)%Q as Hc3 by (by vm_compute).
  pose proof (ceilDiv_tenths_range b Hb) as Hrange.
  apply binary64_le; [lia|].
  apply Qle_trans with (inject_Z b * (3 # 10))%Q; [|done].
  apply Qle_trans with (inject_Z b * Js.double_0_3)%Q.
  - apply Qmult_le_compat_r; [done | by apply Qlt_le_weak].
  - rewrite !(Qmult_comm (inject_Z b)). by apply Qmult_le_compat_r.
Qed.

(** A sleep is at least the backoff, and at most the backoff and three
    tenths of it, rounded up to a whole millisecond. *)
Lemma totalDelay_bounds (baseDelayMs : Z) (attempt : nat) (r : Q) :
  0 <= baseDelayMs -> (0 <= r)%Q ->
  let b := Db.backoff baseDelayMs attempt in
  (inject_Z b <= Db.totalDelay baseDelayMs attempt r)%Q /\
  ((r <= 1)%Q ->
   (Db.totalDelay baseDelayMs attempt r <= inject_Z (b + Js.ceilDiv (3 * b) 10))%Q).
Proof.
  intros Hbase Hr b. unfold Db.totalDelay. fold b. cbv zeta.
  pose proof (backoff_range baseDelayMs attempt Hbase) as Hb. fold b in Hb.
  destruct (jitter_range b r Hb Hr) as [Hlow Hhigh].
  pose proof (ceilDiv_ge (3 * b) 10 ltac:(lia)) as Hceil.
  pose proof (ceilDiv_tenths_range b Hb) as Hrange.
  split.
  - apply binary64_ge; [lia | lra].
  - intros Hr1. specialize (Hhigh Hr1).
    apply binary64_le; [lia|]. rewrite inject_Z_plus. lra.
Qed.

(** The backoff from the default base is a whole number of centiseconds. *)
Lemma backoff_250_tenths (attempt : nat) :
  exists c, Db.backoff 250 attempt = 10 * c.
Proof.
  unfold Db.backoff.
  destruct (Z.min_spec (250 * 2 ^ Z.of_nat attempt) 5000) as [[_ ->]|[_ ->]].
  - exists (25 * 2 ^ Z.of_nat attempt). lia.
  - by exists 500.
Qed.

Lemma totalDelay_250_bounds (attempt : nat) (r : Q) :
  (0 <= r)%Q -> (r <= 1)%Q ->
  (inject_Z (Db.backoff 250 attempt) <= Db.totalDelay 250 attempt r)%Q /\
  (Db.totalDelay 250 attempt r <= inject_Z (Db.backoff 250 attempt) * (13 # 10))%Q.
Proof.
  intros H0 H1.
  destruct (totalDelay_bounds 250 attempt r ltac:(lia) H0) as [Hlow Hhigh].
  split; [done|]. specialize (Hhigh H1). cbv zeta in Hhigh.
  destruct (backoff_250_tenths attempt) as [c Hc]. rewrite Hc in *.
  replace (3 * (10 * c)) with (10 * (3 * c)) in Hhigh by lia.
  rewrite ceilDiv_mul in Hhigh by lia.
  eapply Qle_trans; [exact Hhigh|].
  unfold Qle, Qmult, inject_Z. cbn [Qnum Qden]. lia.
Qed.

Lemma isRetryable_whitelist (error : Js.Error) :
  Db.isRetryable error
  = existsb (Db.messageIncludes error) retryableMessages
    || existsb (Db.codeIs error) retryableCodes.
Proof.
  unfold Db.isRetryable, retryableMessages, retryableCodes. cbn [existsb].
  rewrite !orb_false_r, !orb_assoc. reflexivity.
Qed.

(** C9, as the code has it.  [withRetry] calls the operation at most five
    times.  It returns the outcome of its last call; every call before the last
    threw an error of the whitelist; and it stops before the fifth call only on
    success or on an error outside the whitelist, which is thrown at once.
    Before retry number [k+1] it sleeps the backoff
    [min (250 * 2^k) 5000] plus a jitter of 0 up to 30 percent of the backoff:
    the jitter only ever adds.  The sum is a double, and 130 percent of the
    backoff is reached: at a draw of [1 - 2^-52] the first retry sleeps
    325 ms.  The whitelist is nine message fragments and
    nine error codes. *)
Theorem withRetry_spec :
  forall (T : Type) (operation : nat -> Js.Completion T) (random : nat -> Q),
    (forall k, (0 <= random k)%Q /\ (random k < 1)%Q) ->
    let run := Db.withRetry operation random in
    (1 <= Db.calls run <= 5)%nat /\
    Db.completion run = operation (Db.calls run - 1)%nat /\
    (forall k, (k < Db.calls run - 1)%nat ->
       exists e, operation k = Js.Throw e /\ Db.isRetryable e = true) /\
    ((Db.calls run < 5)%nat ->
       match Db.completion run with
       | Js.Return _ => True
       | Js.Throw e => Db.isRetryable e = false
       end) /\
    length (Db.delays run) = (Db.calls run - 1)%nat /\
    (forall (k : nat) (d : Q),
       Db.delays run !! k = Some d ->
       d = Db.totalDelay 250 k (random k) /\
       (inject_Z (Db.backoff 250 k) <= d)%Q /\
       (d <= inject_Z (Db.backoff 250 k) * (13 # 10))%Q) /\
    (Db.totalDelay 250 0 Js.almostOne == 325)%Q /\
    (Db.backoff 250 0 = 250 /\ Db.backoff 250 1 = 500 /\
     Db.backoff 250 2 = 1000 /\ Db.backoff 250 3 = 2000 /\
     forall k, Db.backoff 250 k <= 5000) /\
    (forall e : Js.Error,
       Db.isRetryable e = true <->
       (exists sub, sub ∈ retryableMessages /\ Db.messageIncludes e sub = true) \/
       (exists c, c ∈ retryableCodes /\ Js.code e = Some c)).
Proof.
  intros T operation random Hrandom. cbv zeta.
  unfold Db.withRetry, Db.withRetry_with.
  change (Z.to_nat 5) with 5%nat.
  destruct (retryLoop_spec operation random 5 250 4 0 None [] eq_refl)
    as (Hcalls & Hcompletion & Hbefore & Hlast & Hdelays).
  set (run := Db.retryLoop operation random 5 250 5 0 None []) in *.
  cbn [app] in Hdelays.
  split; [lia|]. split; [done|]. split; [|split; [|split; [|split; [|split; [|split]]]]].
  - intros k Hk. apply Hbefore. lia.
  - intros Hlt. specialize (Hlast ltac:(lia)).
    destruct (Db.completion run) as [v|e]; [done|].
    destruct (Db.isRetryable e) eqn:E; [|done].
    exfalso. apply Hlast. by exists e.
  - rewrite Hdelays. unfold retryDelays. rewrite length_map, length_seq. lia.
  - intros k d Hd. rewrite Hdelays in Hd. unfold retryDelays in Hd.
    rewrite list_lookup_fmap in Hd.
    destruct (seq 0 (Db.calls run - 1 - 0) !! k) as [k'|] eqn:Hk; [|done].
    apply lookup_seq in Hk as [-> _]. cbn in Hd. injection Hd as <-.
    split; [done|]. destruct (Hrandom k) as [H0 H1].
    apply totalDelay_250_bounds; [done | by apply Qlt_le_weak].
  - by vm_compute.
  - repeat split; try done. intros k. unfold Db.backoff. lia.
  - intros e. rewrite isRetryable_whitelist, orb_true_iff, !existsb_exists.
    split; intros [(x & Hx & Hm)|(x & Hx & Hc)].
    + left. exists x. by rewrite list_elem_of_In.
    + right. exists x. rewrite list_elem_of_In. split; [done|].
      unfold Db.codeIs in Hc. destruct (Js.code e) as [c|]; [|done].
      by apply String.eqb_eq in Hc as ->.
    + left. exists x. by rewrite <- list_elem_of_In.
    + right. exists x. rewrite <- list_elem_of_In. split; [done|].
      unfold Db.codeIs. rewrite Hc. apply String.eqb_refl.
Qed.

Lemma withRetry_resetTwice :
  let run := Db.withRetry resetTwice (fun _ => 1 # 2) in
  ((1 <= Db.calls run <= 5)%nat /\
   Db.completion run = resetTwice (Db.calls run - 1)%nat /\
   length (Db.delays run) = (Db.calls run - 1)%nat) /\
  Db.calls run = 3%nat /\
  Db.completion run = Js.Return 42 /\
  Db.delays run = [Db.totalDelay 250 0 (1 # 2); Db.totalDelay 250 1 (1 # 2)].
Proof.
  cbv zeta. split; [|by vm_compute].
  destruct (withRetry_spec Z resetTwice (fun _ => 1 # 2) ltac:(intros; split; lra))
    as (Hcalls & Hcompletion & _ & _ & Hlength & _).
  exact (conj Hcalls (conj Hcompletion Hlength)).
Defined.

(** The jitter is not symmetric.  At the lowest draw the first
    retry sleeps the whole backoff of 250 ms, and no draw makes it sleep
    less: nothing is ever subtracted. *)
Lemma jitter_only_adds :
  let resetOnce (k : nat) : Js.Completion Z :=
    match k with
    | 0%nat => Js.Throw connectionReset
    | _ => Js.Return 42
    end in
  Db.delays (Db.withRetry resetOnce (fun _ => 0%Q)) = [Db.totalDelay 250 0 0] /\
  (Db.totalDelay 250 0 0 == 250)%Q /\
  (forall r : Q, (0 <= r)%Q -> (250 <= Db.totalDelay 250 0 r)%Q).
Proof.
  cbv zeta. split; [by vm_compute|]. split; [by vm_compute|].
  intros r Hr. by destruct (totalDelay_bounds 250 0 r ltac:(lia) Hr) as [Hlow _].
Qed.

(** *** The status-check route on its own *)

Lemma isLive_inv sceneId s p :
  Uploads.isLive sceneId s p = true <->
  exists videoUrl st,
    Uploads.started s !! p = Some (sceneId, videoUrl) /\
    Uploads.promises s !! p = Some st /\ Uploads.isRejected st = false.
Proof.
  unfold Uploads.isLive.
  destruct (Uploads.started s !! p) as [[sc url]|]; cycle 1.
  { split; [done | by intros (? & ? & ? & _)]. }
  destruct (Uploads.promises s !! p) as [st|]; cycle 1.
  { split; [done | by intros (? & ? & _ & ? & _)]. }
  rewrite andb_true_iff, negb_true_iff. split.
  - intros [->%String.eqb_eq Hst]. by exists url, st.
  - intros (url' & st' & [= -> ->] & [= ->] & Hst). split; [apply String.eqb_refl | done].
Qed.

Lemma cacheInvariant_init : cacheInvariant Uploads.init.
Proof. by split. Qed.

Lemma cacheInvariant_route sceneId videoUrl s :
  cacheInvariant s -> cacheInvariant (snd (Uploads.route_completed sceneId videoUrl s)).
Proof.
  intros [Hlen Hcached Hlive Hhandler]. unfold Uploads.route_completed.
  destruct (Uploads.cloudinaryUploadCache s !! sceneId) as [p0|] eqn:Hc; [by split|].
  cbn [Uploads.uploadVideoToCloudinary snd fst].
  set (p := length (Uploads.promises s)).
  assert (forall q, (Uploads.promises s ++ [Uploads.Pending]) !! q
                    = if decide (q = p) then Some Uploads.Pending
                      else Uploads.promises s !! q) as Hpr.
  { intros q. case_decide as Hq.
    - subst q. unfold p. rewrite lookup_app_r by lia. by rewrite Nat.sub_diag.
    - destruct (decide (q < p)%nat).
      + by rewrite lookup_app_l.
      + rewrite !lookup_ge_None_2; [done | unfold p in *; lia |].
        rewrite length_app. cbn. unfold p in *. lia. }
  assert (forall q, (Uploads.started s ++ [(sceneId, videoUrl)]) !! q
                    = if decide (q = p) then Some (sceneId, videoUrl)
                      else Uploads.started s !! q) as Hst.
  { intros q. case_decide as Hq.
    - subst q. unfold p. rewrite <- Hlen, lookup_app_r by lia. by rewrite Nat.sub_diag.
    - destruct (decide (q < p)%nat).
      + rewrite lookup_app_l; [done | unfold p in *; lia].
      + rewrite !lookup_ge_None_2; [done | unfold p in *; lia |].
        rewrite length_app. cbn. unfold p in *. lia. }
  assert (forall sc q,
            Uploads.isLive sc
              (Uploads.mkState (Uploads.promises s ++ [Uploads.Pending])
                 (Uploads.started s ++ [(sceneId, videoUrl)])
                 (<[sceneId := p]> (Uploads.cloudinaryUploadCache s))
                 (<[p := sceneId]> (Uploads.deleteOnReject s))) q
            = if decide (q = p) then String.eqb sceneId sc else Uploads.isLive sc s q)
    as Hisl.
  { intros sc q. unfold Uploads.isLive. cbn [Uploads.started Uploads.promises].
    rewrite Hpr, Hst. case_decide; [|done]. cbn. by rewrite andb_true_r. }
  split; cbn [Uploads.started Uploads.promises Uploads.cloudinaryUploadCache
              Uploads.deleteOnReject].
  - rewrite !length_app. cbn. lia.
  - intros sc q Hq. rewrite Hisl. case_decide as Hqp.
    + subst q. destruct (decide (sceneId = sc)) as [->|Hne]; [apply String.eqb_refl|].
      rewrite lookup_insert_ne in Hq by done.
      apply Hcached, isLive_inv in Hq as (? & ? & _ & Hq & _).
      apply lookup_lt_Some in Hq. unfold p in *. lia.
    + destruct (decide (sceneId = sc)) as [->|Hne].
      * rewrite lookup_insert_eq in Hq. congruence.
      * rewrite lookup_insert_ne in Hq by done. by apply Hcached.
  - intros sc q Hq. rewrite Hisl in Hq. case_decide as Hqp.
    + subst q. apply String.eqb_eq in Hq as ->. apply lookup_insert_eq.
    + apply Hlive in Hq. destruct (decide (sceneId = sc)) as [->|Hne]; [congruence|].
      by rewrite lookup_insert_ne.
  - intros q sc url Hq. rewrite Hst in Hq. case_decide as Hqp.
    + subst q. injection Hq as -> ->. apply lookup_insert_eq.
    + rewrite lookup_insert_ne by done. by eapply Hhandler.
Qed.

Lemma cacheInvariant_settle p outcome s :
  cacheInvariant s -> cacheInvariant (Uploads.settle p outcome s).
Proof.
  intros Hinv. pose proof Hinv as [Hlen Hcached Hlive Hhandler].
  unfold Uploads.settle.
  destruct (Uploads.promises s !! p) as [[| |]|] eqn:Hp; try done.
  assert (p < length (Uploads.promises s))%nat as Hlt by (by eapply lookup_lt_Some).
  destruct (lookup_lt_is_Some_2 (Uploads.started s) p ltac:(lia)) as [[scp url] Hsp].
  pose proof (Hhandler p scp url Hsp) as Hdor. rewrite Hdor.
  assert (Uploads.isLive scp s p = true) as Hplive.
  { apply isLive_inv. by exists url, Uploads.Pending. }
  set (cache' := match outcome with
                 | Uploads.Rejected => delete scp (Uploads.cloudinaryUploadCache s)
                 | _ => Uploads.cloudinaryUploadCache s
                 end).
  change (cacheInvariant
            (Uploads.mkState (<[p := outcome]> (Uploads.promises s)) (Uploads.started s)
               cache' (Uploads.deleteOnReject s))).
  assert (forall sc q,
            Uploads.isLive sc
              (Uploads.mkState (<[p := outcome]> (Uploads.promises s)) (Uploads.started s)
                 cache' (Uploads.deleteOnReject s)) q
            = if decide (q = p)
              then String.eqb scp sc && negb (Uploads.isRejected outcome)
              else Uploads.isLive sc s q) as Hisl.
  { intros sc q. unfold Uploads.isLive. cbn [Uploads.started Uploads.promises].
    case_decide as Hq.
    - subst q. by rewrite Hsp, list_lookup_insert_eq.
    - by rewrite list_lookup_insert_ne. }
  destruct (Uploads.isRejected outcome) eqn:Hout.
  - assert (outcome = Uploads.Rejected) as -> by (by destruct outcome).
    unfold cache' in *. clear cache'.
    split; cbn [Uploads.started Uploads.promises Uploads.cloudinaryUploadCache
                Uploads.deleteOnReject].
    + by rewrite length_insert.
    + intros sc q Hq. rewrite Hisl.
      destruct (decide (sc = scp)) as [->|Hne]; [by rewrite lookup_delete_eq in Hq|].
      rewrite lookup_delete_ne in Hq by done. apply Hcached in Hq.
      case_decide as Hqp; [|done]. subst q.
      apply isLive_inv in Hq as (? & ? & Hq & _). congruence.
    + intros sc q Hq. rewrite Hisl in Hq.
      case_decide as Hqp; [by rewrite andb_false_r in Hq|].
      apply Hlive in Hq. destruct (decide (sc = scp)) as [->|Hne].
      * apply Hlive in Hplive. congruence.
      * by rewrite lookup_delete_ne.
    + done.
  - assert (cache' = Uploads.cloudinaryUploadCache s) as Hcache
      by (unfold cache'; by destruct outcome).
    assert (forall sc q,
              Uploads.isLive sc
                (Uploads.mkState (<[p := outcome]> (Uploads.promises s)) (Uploads.started s)
                   cache' (Uploads.deleteOnReject s)) q
              = Uploads.isLive sc s q) as Hsame.
    { intros sc q. rewrite Hisl. case_decide as Hqp; [|done]. subst q.
      rewrite andb_true_r. unfold Uploads.isLive. by rewrite Hsp, Hp, andb_true_r. }
    split; cbn [Uploads.started Uploads.promises Uploads.cloudinaryUploadCache
                Uploads.deleteOnReject].
    + by rewrite length_insert.
    + intros sc q Hq. rewrite Hsame. rewrite Hcache in Hq. by apply Hcached.
    + intros sc q Hq. rewrite Hsame in Hq. rewrite Hcache. by apply Hlive.
    + done.
Qed.

Lemma cacheInvariant_run (events : list Uploads.Event) :
  forall s, cacheInvariant s -> Forall fromRoute events ->
            cacheInvariant (foldl Uploads.step s events).
Proof.
  induction events as [|e events IH]; intros s Hs Hev; [done|].
  apply Forall_cons in Hev as [He Hev]. cbn [foldl]. apply IH; [|done].
  destruct e as [sceneId videoUrl|sceneId videoUrl|sceneId videoUrl|p outcome];
    cbn [Uploads.step].
  - by apply cacheInvariant_route.
  - done.
  - done.
  - by apply cacheInvariant_settle.
Qed.

Lemma length_le_1_of_all_equal {A} (l : list A) (a : A) :
  NoDup l -> (forall x, x ∈ l -> x = a) -> (length l <= 1)%nat.
Proof.
  intros Hnd Hall. destruct l as [|x [|y l]]; cbn; [lia | lia |].
  exfalso. apply NoDup_cons in Hnd as [Hx _]. apply Hx.
  rewrite (Hall x), (Hall y); [left | right; left | left].
Qed.

(** Within the status-check route the upload is shared: over any run of
    route completions and settlements, a scene never has two uploads that
    have not failed, and a completion that finds an entry awaits the cached
    promise without starting an upload; a failed upload clears the entry, so
    the next completion starts a new one. *)
Theorem route_shares_one_upload :
  forall (events : list Uploads.Event) (sceneId videoUrl : string),
    Forall fromRoute events ->
    let s := Uploads.run events in
    (length (Uploads.liveUploads sceneId s) <= 1)%nat /\
    (forall p, Uploads.cloudinaryUploadCache s !! sceneId = Some p ->
       Uploads.route_completed sceneId videoUrl s = (p, s)) /\
    (forall p, Uploads.cloudinaryUploadCache s !! sceneId = Some p ->
       Uploads.promises s !! p = Some Uploads.Pending ->
       Uploads.cloudinaryUploadCache (Uploads.settle p Uploads.Rejected s) !! sceneId = None).
Proof.
  intros events sceneId videoUrl Hev. cbv zeta.
  pose proof (cacheInvariant_run events Uploads.init cacheInvariant_init Hev) as Hinv.
  fold (Uploads.run events) in Hinv. set (s := Uploads.run events) in *.
  destruct Hinv as [Hlen Hcached Hlive Hhandler].
  split; [|split].
  - destruct (Uploads.cloudinaryUploadCache s !! sceneId) as [p0|] eqn:Hc.
    + apply (length_le_1_of_all_equal _ p0).
      * unfold Uploads.liveUploads. apply NoDup_filter, NoDup_seq.
      * intros p Hp. apply list_elem_of_filter in Hp as [Hp _].
        apply Hlive in Hp. congruence.
    + destruct (Uploads.liveUploads sceneId s) as [|p l] eqn:E; [cbn; lia|].
      assert (p ∈ Uploads.liveUploads sceneId s) as Hp by (rewrite E; left).
      apply list_elem_of_filter in Hp as [Hp _]. apply Hlive in Hp. congruence.
  - intros p Hp. unfold Uploads.route_completed. by rewrite Hp.
  - intros p Hp Hpending.
    apply Hcached, isLive_inv in Hp as (url & st & Hst & _).
    unfold Uploads.settle. rewrite Hpending, (Hhandler p sceneId url Hst).
    cbn. apply lookup_delete_eq.
Qed.

Lemma route_shares_one_upload_retried :
  (length (Uploads.liveUploads "veo-scene-7" (Uploads.run retriedUpload)) <= 1)%nat /\
  Uploads.liveUploads "veo-scene-7" (Uploads.run retriedUpload) = [1%nat] /\
  Uploads.started (Uploads.run retriedUpload)
    = [("veo-scene-7", "https://upstream.example/7.mp4");
       ("veo-scene-7", "https://upstream.example/7.mp4")].
Proof.
  split; [|by vm_compute].
  apply (route_shares_one_upload retriedUpload "veo-scene-7"
           "https://upstream.example/7.mp4").
  repeat constructor.
Defined.

(** ** Media upload: the cache beside the other paths *)

Lemma filter_ext_in {A} (P Q : A -> Prop) `{!forall x, Decision (P x)}
    `{!forall x, Decision (Q x)} (l : list A) :
  (forall x, x ∈ l -> (P x <-> Q x)) -> filter P l = filter Q l.
Proof.
  induction l as [|x l IH]; intros Hext; [done|].
  rewrite !filter_cons.
  assert (filter P l = filter Q l) as -> by (apply IH; intros y Hy; apply Hext; by right).
  destruct (decide (P x)) as [HP|HP], (decide (Q x)) as [HQ|HQ]; try done.
  - exfalso. apply HQ, (Hext x); [left | done].
  - exfalso. apply HP, (Hext x); [left | done].
Qed.

Lemma lookup_snoc {A} (l : list A) (x : A) (q : nat) :
  (l ++ [x]) !! q = if decide (q = length l) then Some x else l !! q.
Proof.
  case_decide as Hq.
  - subst q. rewrite lookup_app_r by lia. by rewrite Nat.sub_diag.
  - destruct (decide (q < length l)%nat).
    + by rewrite lookup_app_l.
    + rewrite !lookup_ge_None_2; [done | lia |]. rewrite length_app. cbn. lia.
Qed.

(** Liveness once the uploader has been called for [sceneId]. *)
Lemma isLive_upload sc sceneId videoUrl s cache handlers q :
  length (Uploads.started s) = length (Uploads.promises s) ->
  Uploads.isLive sc
    (Uploads.mkState (Uploads.promises s ++ [Uploads.Pending])
       (Uploads.started s ++ [(sceneId, videoUrl)]) cache handlers) q
  = if decide (q = length (Uploads.promises s)) then String.eqb sceneId sc
    else Uploads.isLive sc s q.
Proof.
  intros Hlen. unfold Uploads.isLive. cbn [Uploads.started Uploads.promises].
  rewrite !lookup_snoc, Hlen. case_decide; [|done]. cbn. by rewrite andb_true_r.
Qed.

Lemma isLive_lt sc s q :
  Uploads.isLive sc s q = true -> (q < length (Uploads.promises s))%nat.
Proof.
  intros Hq. apply isLive_inv in Hq as (? & ? & _ & Hq & _). by eapply lookup_lt_Some.
Qed.

Lemma sharedInvariant_init : sharedInvariant Uploads.init.
Proof. by split. Qed.

Lemma sharedInvariant_direct sceneId videoUrl s :
  sharedInvariant s ->
  sharedInvariant (snd (Uploads.uploadVideoToCloudinary sceneId videoUrl s)).
Proof.
  intros [Hlen Hcached Hlive Hhandler]. cbn [Uploads.uploadVideoToCloudinary snd].
  split; cbn [Uploads.started Uploads.promises Uploads.cloudinaryUploadCache
              Uploads.deleteOnReject].
  - rewrite !length_app. cbn. lia.
  - intros sc q Hq. destruct (Hcached sc q Hq) as [Hl Hh]. split; [|done].
    rewrite isLive_upload by done. case_decide as Hqp; [|done].
    apply isLive_lt in Hl. lia.
  - intros sc q Hq Hroute. unfold Uploads.byRoute in Hroute.
    cbn [Uploads.deleteOnReject] in Hroute.
    rewrite isLive_upload in Hq by done. case_decide as Hqp.
    + subst q. destruct (Uploads.deleteOnReject s !! length (Uploads.promises s))
        as [sc'|] eqn:Hh; [|done].
      destruct (Hhandler _ _ Hh) as [url Hst]. apply lookup_lt_Some in Hst. lia.
    + by apply Hlive.
  - intros q sc Hq. destruct (Hhandler q sc Hq) as [url Hst]. exists url.
    by rewrite lookup_app_l by (by eapply lookup_lt_Some).
Qed.

Lemma sharedInvariant_route sceneId videoUrl s :
  sharedInvariant s ->
  sharedInvariant (snd (Uploads.route_completed sceneId videoUrl s)).
Proof.
  intros [Hlen Hcached Hlive Hhandler]. unfold Uploads.route_completed.
  destruct (Uploads.cloudinaryUploadCache s !! sceneId) as [p0|] eqn:Hc; [by split|].
  cbn [Uploads.uploadVideoToCloudinary snd fst].
  set (p := length (Uploads.promises s)).
  split; cbn [Uploads.started Uploads.promises Uploads.cloudinaryUploadCache
              Uploads.deleteOnReject].
  - rewrite !length_app. cbn. lia.
  - intros sc q Hq. rewrite isLive_upload by done. fold p.
    destruct (decide (sceneId = sc)) as [->|Hne].
    + rewrite lookup_insert_eq in Hq. injection Hq as <-.
      rewrite decide_True by done. split; [apply String.eqb_refl | apply lookup_insert_eq].
    + rewrite lookup_insert_ne in Hq by done.
      destruct (Hcached sc q Hq) as [Hl Hh].
      pose proof (isLive_lt _ _ _ Hl). rewrite decide_False by (unfold p; lia).
      split; [done|]. rewrite lookup_insert_ne by (unfold p; lia). done.
  - intros sc q Hq Hroute. rewrite isLive_upload in Hq by done. fold p in Hq.
    unfold Uploads.byRoute in Hroute. cbn [Uploads.deleteOnReject] in Hroute.
    case_decide as Hqp.
    + subst q. apply String.eqb_eq in Hq as ->. apply lookup_insert_eq.
    + rewrite lookup_insert_ne in Hroute by done.
      assert (Uploads.cloudinaryUploadCache s !! sc = Some q) as Hold by (by apply Hlive).
      destruct (decide (sceneId = sc)) as [->|Hne]; [congruence|].
      by rewrite lookup_insert_ne.
  - intros q sc Hq. destruct (decide (q = p)) as [->|Hqp].
    + rewrite lookup_insert_eq in Hq. injection Hq as <-. exists videoUrl.
      rewrite lookup_snoc, Hlen. by rewrite decide_True.
    + rewrite lookup_insert_ne in Hq by done.
      destruct (Hhandler q sc Hq) as [url Hst]. exists url.
      by rewrite lookup_app_l by (by eapply lookup_lt_Some).
Qed.

Lemma sharedInvariant_settle p outcome s :
  sharedInvariant s -> sharedInvariant (Uploads.settle p outcome s).
Proof.
  intros [Hlen Hcached Hlive Hhandler]. unfold Uploads.settle.
  destruct (Uploads.promises s !! p) as [[| |]|] eqn:Hp; try done.
  assert (p < length (Uploads.promises s))%nat as Hlt by (by eapply lookup_lt_Some).
  destruct (lookup_lt_is_Some_2 (Uploads.started s) p ltac:(lia)) as [[scp url] Hsp].
  set (cache' := match outcome, Uploads.deleteOnReject s !! p with
                 | Uploads.Rejected, Some sceneId =>
                     delete sceneId (Uploads.cloudinaryUploadCache s)
                 | _, _ => Uploads.cloudinaryUploadCache s
                 end).
  assert (forall sc q,
            Uploads.isLive sc
              (Uploads.mkState (<[p := outcome]> (Uploads.promises s)) (Uploads.started s)
                 cache' (Uploads.deleteOnReject s)) q
            = if decide (q = p)
              then String.eqb scp sc && negb (Uploads.isRejected outcome)
              else Uploads.isLive sc s q) as Hisl.
  { intros sc q. unfold Uploads.isLive. cbn [Uploads.started Uploads.promises].
    case_decide as Hq.
    - subst q. by rewrite Hsp, list_lookup_insert_eq.
    - by rewrite list_lookup_insert_ne. }
  assert (Uploads.isLive scp s p = true) as Hplive.
  { apply isLive_inv. by exists url, Uploads.Pending. }
  assert (forall sc, Uploads.deleteOnReject s !! p = Some sc -> sc = scp) as Hscene.
  { intros sc Hh. destruct (Hhandler p sc Hh) as [url' Hst]. congruence. }
  split; cbn [Uploads.started Uploads.promises Uploads.cloudinaryUploadCache
              Uploads.deleteOnReject].
  - by rewrite length_insert.
  - (* the cached promise is a live upload of the route *)
    intros sc q Hq. rewrite Hisl.
    assert (Uploads.cloudinaryUploadCache s !! sc = Some q /\
            (q = p -> Uploads.isRejected outcome = false)) as [Hold Hkeep].
    { unfold cache' in Hq.
      destruct outcome; try (split; [done | by intros _]).
      destruct (Uploads.deleteOnReject s !! p) as [sc'|] eqn:Hh.
      - rewrite (Hscene sc' eq_refl) in Hq.
        destruct (decide (sc = scp)) as [->|Hne]; [by rewrite lookup_delete_eq in Hq|].
        rewrite lookup_delete_ne in Hq by done. split; [done|]. intros ->.
        destruct (Hcached sc p Hq) as [Hl _].
        apply isLive_inv in Hl as (? & ? & Hl & _). congruence.
      - split; [done|]. intros ->. destruct (Hcached sc p Hq) as [_ Hh']. congruence. }
    destruct (Hcached sc q Hold) as [Hl Hh]. split; [|done].
    case_decide as Hqp; [|done]. subst q. rewrite (Hkeep eq_refl), andb_true_r.
    apply isLive_inv in Hl as (? & ? & Hl & _).
    assert (scp = sc) as -> by congruence. apply String.eqb_refl.
  - (* a live upload of the route is the cached one *)
    intros sc q Hq Hroute. rewrite Hisl in Hq.
    unfold Uploads.byRoute in Hroute. cbn [Uploads.deleteOnReject] in Hroute.
    assert (Uploads.isLive sc s q = true /\
            (q = p -> Uploads.isRejected outcome = false)) as [Hl Hkeep].
    { case_decide as Hqp; [|by split]. subst q.
      apply andb_true_iff in Hq as [->%String.eqb_eq Hout].
      apply negb_true_iff in Hout. done. }
    assert (Uploads.cloudinaryUploadCache s !! sc = Some q) as Hold by (by apply Hlive).
    unfold cache'. destruct outcome; try done.
    destruct (Uploads.deleteOnReject s !! p) as [sc'|] eqn:Hh; [|done].
    rewrite (Hscene sc' eq_refl).
    destruct (decide (sc = scp)) as [->|Hne]; [|by rewrite lookup_delete_ne].
    exfalso. assert (Uploads.cloudinaryUploadCache s !! scp = Some p) as Hcp.
    { apply Hlive; [done|]. unfold Uploads.byRoute. by rewrite Hh. }
    assert (q = p) as -> by congruence. by specialize (Hkeep eq_refl).
  - done.
Qed.

Lemma sharedInvariant_run (events : list Uploads.Event) :
  forall s, sharedInvariant s -> sharedInvariant (foldl Uploads.step s events).
Proof.
  induction events as [|e events IH]; intros s Hs; [done|].
  cbn [foldl]. apply IH.
  destruct e as [sceneId videoUrl|sceneId videoUrl|sceneId videoUrl|p outcome];
    cbn [Uploads.step].
  - by apply sharedInvariant_route.
  - by apply sharedInvariant_direct.
  - by apply sharedInvariant_direct.
  - by apply sharedInvariant_settle.
Qed.

(** C6, as the code has it.  The map of shared uploads belongs to the
    status-check route, and it holds whatever the other paths do: over every
    run of route completions, uploads by the polling coordinator and by the
    poller of the regenerate route, and settlements, at most one upload that
    the route started for a scene has not failed; a route call that finds an
    entry awaits the cached promise, which is such an upload, and starts none;
    a route call that finds none starts an upload and caches it before it
    awaits; and the rejection of the cached upload removes the entry, so that
    a later call starts again.  The other paths do not consult the map: a
    completion seen by the coordinator or by the regenerate poller always
    starts one more upload for the scene and leaves the map as it is. *)
Theorem route_shares_upload_beside_other_paths :
  forall (events : list Uploads.Event) (sceneId videoUrl : string),
    let s := Uploads.run events in
    let direct := Uploads.coordinator_completed sceneId videoUrl s in
    (length (Uploads.liveRouteUploads sceneId s) <= 1)%nat /\
    (forall p, Uploads.cloudinaryUploadCache s !! sceneId = Some p ->
       Uploads.route_completed sceneId videoUrl s = (p, s) /\
       Uploads.liveRouteUploads sceneId s = [p]) /\
    (Uploads.cloudinaryUploadCache s !! sceneId = None ->
       Uploads.liveRouteUploads sceneId s = [] /\
       fst (Uploads.route_completed sceneId videoUrl s) = length (Uploads.promises s) /\
       Uploads.cloudinaryUploadCache (snd (Uploads.route_completed sceneId videoUrl s))
         !! sceneId
       = Some (length (Uploads.promises s))) /\
    (forall p, Uploads.cloudinaryUploadCache s !! sceneId = Some p ->
       Uploads.promises s !! p = Some Uploads.Pending ->
       Uploads.cloudinaryUploadCache (Uploads.settle p Uploads.Rejected s) !! sceneId
       = None) /\
    (Uploads.regenerate_completed sceneId videoUrl s = direct /\
     fst direct = length (Uploads.promises s) /\
     Uploads.cloudinaryUploadCache (snd direct) = Uploads.cloudinaryUploadCache s /\
     Uploads.liveUploads sceneId (snd direct)
     = Uploads.liveUploads sceneId s ++ [fst direct] /\
     Uploads.liveRouteUploads sceneId (snd direct) = Uploads.liveRouteUploads sceneId s).
Proof.
  intros events sceneId videoUrl. cbv zeta.
  pose proof (sharedInvariant_run events Uploads.init sharedInvariant_init) as Hinv.
  fold (Uploads.run events) in Hinv. set (s := Uploads.run events) in *.
  destruct Hinv as [Hlen Hcached Hlive Hhandler].
  assert (forall p, p ∈ Uploads.liveRouteUploads sceneId s <->
                    Uploads.cloudinaryUploadCache s !! sceneId = Some p) as Hmem.
  { intros p. unfold Uploads.liveRouteUploads, Uploads.liveUploads.
    rewrite !list_elem_of_filter, elem_of_seq. split.
    - intros (Hroute & Hl & _). by apply Hlive.
    - intros Hc. destruct (Hcached sceneId p Hc) as [Hl Hh].
      split; [unfold Uploads.byRoute; by rewrite Hh|]. split; [done|].
      apply isLive_lt in Hl. lia. }
  assert (NoDup (Uploads.liveRouteUploads sceneId s)) as Hnd
    by (unfold Uploads.liveRouteUploads, Uploads.liveUploads;
        apply NoDup_filter, NoDup_filter, NoDup_seq).
  split; [|split; [|split; [|split]]].
  - destruct (Uploads.cloudinaryUploadCache s !! sceneId) as [p0|] eqn:Hc.
    + apply (length_le_1_of_all_equal _ p0); [done|].
      intros p Hp. apply Hmem in Hp. congruence.
    + destruct (Uploads.liveRouteUploads sceneId s) as [|p l] eqn:E; [cbn; lia|].
      assert (p ∈ p :: l) as Hp by left. apply Hmem in Hp. done.
  - intros p Hp. split; [unfold Uploads.route_completed; by rewrite Hp|].
    destruct (Uploads.liveRouteUploads sceneId s) as [|p1 [|p2 l]] eqn:E.
    + assert (p ∈ @nil nat) as Hin by (by apply Hmem). by apply elem_of_nil in Hin.
    + assert (p1 ∈ [p1]) as Hin by left. apply Hmem in Hin. congruence.
    + exfalso. apply NoDup_cons in Hnd as [Hnot _]. apply Hnot.
      assert (p1 ∈ p1 :: p2 :: l) as H1 by left.
      assert (p2 ∈ p1 :: p2 :: l) as H2 by (right; left).
      apply Hmem in H1, H2. assert (p1 = p2) as -> by congruence. left.
  - intros Hc. split.
    + destruct (Uploads.liveRouteUploads sceneId s) as [|p l] eqn:E; [done|].
      assert (p ∈ p :: l) as Hp by left. apply Hmem in Hp. congruence.
    + unfold Uploads.route_completed. rewrite Hc. cbn. split; [done|].
      apply lookup_insert_eq.
  - intros p Hp Hpending. destruct (Hcached sceneId p Hp) as [_ Hh].
    unfold Uploads.settle. rewrite Hpending, Hh. cbn. apply lookup_delete_eq.
  - split; [done|]. split; [done|]. split; [done|].
    assert (Uploads.liveUploads sceneId
              (snd (Uploads.coordinator_completed sceneId videoUrl s))
            = Uploads.liveUploads sceneId s ++ [length (Uploads.promises s)]) as Hall.
    { unfold Uploads.liveUploads, Uploads.coordinator_completed.
      cbn [Uploads.uploadVideoToCloudinary snd Uploads.promises].
      rewrite length_app. cbn [length]. rewrite Nat.add_1_r, seq_S, filter_app.
      cbn [Nat.add]. f_equal.
      - apply filter_ext_in. intros q Hq. apply elem_of_seq in Hq.
        rewrite isLive_upload by done. by rewrite decide_False by lia.
      - rewrite filter_cons, filter_nil, decide_True; [done|].
        rewrite isLive_upload by done. rewrite decide_True by done.
        apply String.eqb_refl. }
    split; [exact Hall|].
    unfold Uploads.liveRouteUploads. rewrite Hall, filter_app.
    assert (Uploads.byRoute (snd (Uploads.coordinator_completed sceneId videoUrl s))
              (length (Uploads.promises s)) = false) as Hnot.
    { unfold Uploads.byRoute, Uploads.coordinator_completed.
      cbn [Uploads.uploadVideoToCloudinary snd Uploads.deleteOnReject].
      destruct (Uploads.deleteOnReject s !! length (Uploads.promises s)) as [sc|] eqn:Hh;
        [|done].
      destruct (Hhandler _ _ Hh) as [url Hst]. apply lookup_lt_Some in Hst. lia. }
    rewrite filter_cons, filter_nil, decide_False by (by rewrite Hnot).
    by rewrite app_nil_r.
Qed.

(** The claim's "at most one upload for a scene, whichever path sees it
    complete" fails for a scene of the regenerate route.  Its poller calls the
    uploader without the map; the client holds the scene id and the operation
    name from the route's answer and can ask the status-check route about the
    scene.  In either order two uploads are started for the scene, and both
    are in flight at once; only the route's is in the map. *)
Lemma upload_started_twice_after_regenerate :
  let videoUrl := "https://upstream.example/1.mp4" in
  (let s := Uploads.run polledAfterRegenerate in
   Uploads.started s = [(regeneratedScene, videoUrl); (regeneratedScene, videoUrl)] /\
   Uploads.promises s = [Uploads.Pending; Uploads.Pending] /\
   Uploads.liveUploads regeneratedScene s = [0%nat; 1%nat] /\
   Uploads.liveRouteUploads regeneratedScene s = [1%nat] /\
   Uploads.cloudinaryUploadCache s !! regeneratedScene = Some 1%nat) /\
  (let s := Uploads.run (reverse polledAfterRegenerate) in
   Uploads.liveUploads regeneratedScene s = [0%nat; 1%nat] /\
   Uploads.liveRouteUploads regeneratedScene s = [0%nat] /\
   Uploads.cloudinaryUploadCache s !! regeneratedScene = Some 0%nat).
Proof. by vm_compute. Qed.

(** ** Round-robin selection by index *)

Lemma isTokenInCooldown_fst now tokenId st :
  fst (Storage.isTokenInCooldown now tokenId st)
  = match Storage.tokenCooldowns st !! tokenId with
    | Some cooldownEnd => negb (cooldownEnd =? 0) && negb (now >=? cooldownEnd)
    | None => false
    end.
Proof.
  unfold Storage.isTokenInCooldown.
  destruct (Storage.tokenCooldowns st !! tokenId) as [e|]; [|done].
  destruct (e =? 0); [done|]. by destruct (now >=? e).
Qed.

(** Asking whether one token is in cooldown does not change the answer for
    any token: the query only drops a cooldown that has passed. *)
Lemma isTokenInCooldown_stable now other tokenId st :
  fst (Storage.isTokenInCooldown now tokenId
         (snd (Storage.isTokenInCooldown now other st)))
  = fst (Storage.isTokenInCooldown now tokenId st).
Proof.
  rewrite !isTokenInCooldown_fst.
  unfold Storage.isTokenInCooldown.
  destruct (Storage.tokenCooldowns st !! other) as [e|] eqn:E; [|done].
  destruct (Z.eqb_spec e 0) as [|Hnz]; [done|].
  destruct (Z.geb_spec now e) as [Hge|]; [|done]. cbn.
  destruct (decide (other = tokenId)) as [->|Hne].
  - rewrite lookup_delete_eq, E.
    destruct (Z.eqb_spec e 0); [done|].
    destruct (Z.geb_spec now e); [done | lia].
  - by rewrite lookup_delete_ne.
Qed.

(** The cooldown filter keeps exactly the tokens that are not in cooldown
    when it starts. *)
Lemma filterAvailable_filter now tokens st :
  fst (Storage.filterAvailable now tokens st)
  = filter (fun t => fst (Storage.isTokenInCooldown now (ApiToken.id t) st) = false) tokens.
Proof.
  assert (forall st0,
             (forall i, fst (Storage.isTokenInCooldown now i st0)
                        = fst (Storage.isTokenInCooldown now i st)) ->
             fst (Storage.filterAvailable now tokens st0)
             = filter (fun t => fst (Storage.isTokenInCooldown now (ApiToken.id t) st)
                                = false) tokens) as H; [|by apply H].
  induction tokens as [|t tokens IH]; intros st0 Hst0; [done|].
  cbn [Storage.filterAvailable]. rewrite filter_cons.
  pose proof (Hst0 (ApiToken.id t)) as Ht.
  assert (forall i,
             fst (Storage.isTokenInCooldown now i
                    (snd (Storage.isTokenInCooldown now (ApiToken.id t) st0)))
             = fst (Storage.isTokenInCooldown now i st)) as Hnext.
  { intros i. by rewrite isTokenInCooldown_stable. }
  destruct (Storage.isTokenInCooldown now (ApiToken.id t) st0) as [c st1].
  cbn [fst snd] in Ht, Hnext. specialize (IH st1 Hnext).
  destruct (Storage.filterAvailable now tokens st1) as [kept st2].
  cbn [fst] in *. rewrite <- Ht.
  destruct c; [by rewrite decide_False | by rewrite decide_True, IH].
Qed.

(** [getTokenByIndex] as one equation. *)
Lemma getTokenByIndex_eq now index st :
  let available := notInCooldown now st in
  Storage.getTokenByIndex now index st
  = (match available with
     | [] => Js.Return None
     | _ =>
         match Js.index available (Js.rem index (Z.of_nat (length available))) with
         | None => Js.Throw Storage.undefinedLabel
         | Some selectedToken => Js.Return (Some selectedToken)
         end
     end,
     match Storage.orderBy Storage.byCreatedAt (Storage.getActiveApiTokens st) with
     | [] => st
     | tokens => snd (Storage.filterAvailable now tokens st)
     end).
Proof.
  cbv zeta. unfold notInCooldown, Storage.getTokenByIndex.
  rewrite <- filterAvailable_filter.
  destruct (Storage.orderBy _ _) as [|t0 tokens]; [done|].
  destruct (Storage.filterAvailable now (t0 :: tokens) st) as [available st1].
  cbn [fst snd]. destruct available as [|a0 available]; [done|].
  by destruct (Js.index _ _).
Qed.


(** ** Replacing the token pool *)

(** [new Set(tokens).size !== tokens.length] finds exactly the lists with a
    repeated entry. *)
Lemma size_list_to_set_length (l : list string) :
  size (list_to_set l : gset string) = length l <-> NoDup l.
Proof.
  split; [|apply size_list_to_set].
  assert (forall l : list string, (size (list_to_set l : gset string) <= length l)%nat)
    as Hle.
  { clear l. induction l as [|x l IH]; cbn [list_to_set length].
    - by rewrite size_empty.
    - rewrite size_union_alt, size_singleton.
      assert (list_to_set l ∖ {[x]} ⊆ (list_to_set l : gset string)) as Hsub
        by (by apply subseteq_difference_l).
      apply subseteq_size in Hsub. lia. }
  induction l as [|x l IH]; cbn [list_to_set length]; intros Hsize; [constructor|].
  destruct (decide (x ∈ l)) as [Hin|Hnotin].
  - exfalso.
    assert ({[x]} ∪ list_to_set l = (list_to_set l : gset string)) as E.
    { apply subseteq_union_1_L, singleton_subseteq_l, elem_of_list_to_set, Hin. }
    rewrite E in Hsize. pose proof (Hle l). lia.
  - constructor; [done|]. apply IH.
    rewrite size_union in Hsize
      by (apply disjoint_singleton_l; by rewrite elem_of_list_to_set).
    rewrite size_singleton in Hsize. lia.
Qed.

Lemma insertTokens_eq gen now (tokens : list string) :
  forall (i : Z) (st : Storage.Store),
    Storage.insertTokens gen now i tokens st
    = (imap (insertedToken gen now (length (Storage.apiTokens st)) i) tokens,
       Storage.set_apiTokens
         (fun rows =>
            rows ++ imap (insertedToken gen now (length (Storage.apiTokens st)) i) tokens)
         st).
Proof.
  induction tokens as [|tok tokens IH]; intros i st.
  - cbn. unfold Storage.set_apiTokens. rewrite app_nil_r. by destruct st.
  - cbn [Storage.insertTokens]. rewrite IH. cbn [imap].
    set (token := ApiToken.mk _ tok _ true 0 0 None None now).
    assert (insertedToken gen now (length (Storage.apiTokens st)) i 0 tok = token) as E0.
    { unfold insertedToken, token. cbn [Z.of_nat]. by rewrite Nat.add_0_r, Z.add_0_r. }
    assert (imap (insertedToken gen now
                    (length (Storage.apiTokens
                               (Storage.set_apiTokens (fun r => r ++ [token]) st)))
                    (i + 1)) tokens
            = imap (insertedToken gen now (length (Storage.apiTokens st)) i ∘ S) tokens)
      as E.
    { apply imap_ext. intros k tok' _. unfold compose, insertedToken.
      cbn [Storage.apiTokens Storage.set_apiTokens].
      assert ((length (Storage.apiTokens st ++ [token]) + k)%nat
              = (length (Storage.apiTokens st) + S k)%nat) as ->
        by (rewrite length_app; cbn [length]; lia).
      assert (i + 1 + Z.of_nat k + 1 = i + Z.of_nat (S k) + 1) as -> by lia.
      done. }
    rewrite E, E0. f_equal.
    unfold Storage.set_apiTokens. cbn. by rewrite <- app_assoc.
Qed.

(** [replaceAllTokens] throws "Duplicate tokens found in input" exactly when
    the input repeats a token, and then writes nothing.  Otherwise the token
    table becomes the input, in order: the row at position [i] carries the
    [i]-th token, the label "Token i+1", is active and starts with empty
    counters; every job row loses its [tokenUsed] and keeps its other
    columns; users, settings and the error and cooldown maps are untouched
    (a cooldown recorded for an old id stays, no new row carries that id
    unless the database reuses it). *)
Theorem replaceAllTokens_spec :
  forall (gen : nat -> string) (now : Z) (tokens : list string) (st : Storage.Store),
    (~ NoDup tokens ->
       Storage.replaceAllTokens gen now tokens st
       = (Js.Throw Storage.duplicateTokens, st)) /\
    (NoDup tokens ->
       exists st',
         Storage.replaceAllTokens gen now tokens st
         = (Js.Return (Storage.apiTokens st'), st') /\
         Storage.apiTokens st' = imap (insertedToken gen now 0 0) tokens /\
         map ApiToken.token (Storage.apiTokens st') = tokens /\
         (forall t, t ∈ Storage.apiTokens st' ->
            ApiToken.isActive t = true /\ ApiToken.currentBatchCount t = 0 /\
            ApiToken.lastUsedAt t = None) /\
         Storage.videoHistory st'
           = map Storage.nullifyTokenUsed (Storage.videoHistory st) /\
         (forall r, r ∈ Storage.videoHistory st' -> VideoHistory.tokenUsed r = None) /\
         map VideoHistory.status (Storage.videoHistory st')
           = map VideoHistory.status (Storage.videoHistory st) /\
         Storage.users st' = Storage.users st /\
         Storage.tokenSettings st' = Storage.tokenSettings st /\
         Storage.tokenErrorTracking st' = Storage.tokenErrorTracking st /\
         Storage.tokenCooldowns st' = Storage.tokenCooldowns st).
Proof.
  intros gen now tokens st. unfold Storage.replaceAllTokens.
  destruct (Nat.eqb_spec (size (list_to_set tokens : gset string)) (length tokens))
    as [Hsize|Hsize]; rewrite size_list_to_set_length in Hsize; cbn [negb].
  { split; [done|]. intros _. rewrite insertTokens_eq.
    cbn [Storage.apiTokens Storage.set_apiTokens Storage.set_videoHistory length].
    exists (Storage.set_apiTokens
              (fun rows => rows ++ imap (insertedToken gen now 0 0) tokens)
              (Storage.set_apiTokens (fun _ => [])
                 (Storage.set_videoHistory (map Storage.nullifyTokenUsed) st))).
    split; [reflexivity|].
    cbn [Storage.apiTokens Storage.videoHistory Storage.users Storage.tokenSettings
         Storage.tokenErrorTracking Storage.tokenCooldowns app
         Storage.set_apiTokens Storage.set_videoHistory].
    split; [done|]. split; [|split; [|split; [done|split; [|split]]]].
    - apply list_eq. intros k. rewrite list_lookup_fmap, list_lookup_imap.
      by destruct (tokens !! k).
    - intros t Ht. apply list_elem_of_lookup in Ht as [k Hk].
      rewrite list_lookup_imap in Hk.
      destruct (tokens !! k); [|done]. by injection Hk as <-.
    - intros r Hr. apply list_elem_of_fmap in Hr as (r0 & -> & _). done.
    - rewrite <- list_fmap_compose. by apply list_fmap_ext.
    - done. }
  split; [done|]. intros Hnd. done.
Qed.

(** ** A user's job rows *)

Lemma insertBy_Permutation {A} (leb : A -> A -> bool) (x : A) (l : list A) :
  Storage.insertBy leb x l ≡ₚ x :: l.
Proof.
  induction l as [|y l IH]; cbn; [done|].
  destruct (leb x y); [done|]. rewrite IH. apply Permutation_swap.
Qed.

Lemma orderBy_Permutation {A} (leb : A -> A -> bool) (l : list A) :
  Storage.orderBy leb l ≡ₚ l.
Proof.
  unfold Storage.orderBy. induction l as [|x l IH]; cbn; [done|].
  by rewrite insertBy_Permutation, IH.
Qed.

Section OrderBy.

Context {A : Type} (leb : A -> A -> bool).
Hypothesis leb_total : forall a b, leb a b = true \/ leb b a = true.
Hypothesis leb_trans : forall a b c, leb a b = true -> leb b c = true -> leb a c = true.

Lemma insertBy_sorted (x : A) (l : list A) :
  StronglySorted (fun a b => leb a b = true) l ->
  StronglySorted (fun a b => leb a b = true) (Storage.insertBy leb x l).
Proof.
  induction 1 as [|y l Hl IH Hy]; cbn; [repeat constructor|].
  destruct (leb x y) eqn:E.
  - constructor; [by constructor|]. constructor; [done|].
    eapply Forall_impl; [exact Hy|]. intros z Hz. by eapply leb_trans.
  - constructor; [done|].
    apply Forall_forall. intros z Hz. apply insertBy_elem in Hz as [->|Hz].
    + destruct (leb_total x y) as [H|H]; [congruence | done].
    + by eapply Forall_forall in Hy.
Qed.

Lemma orderBy_sorted (l : list A) :
  StronglySorted (fun a b => leb a b = true) (Storage.orderBy leb l).
Proof.
  unfold Storage.orderBy. induction l as [|x l IH]; cbn; [constructor|].
  by apply insertBy_sorted.
Qed.

End OrderBy.

Lemma StronglySorted_take_drop {A} (R : A -> A -> Prop) (l : list A) (n : nat) :
  StronglySorted R l ->
  StronglySorted R (take n l) /\
  forall a b, a ∈ take n l -> b ∈ drop n l -> R a b.
Proof.
  intros Hl. revert n. induction Hl as [|x l Hl IH Hx]; intros n.
  - rewrite take_nil, drop_nil. split; [constructor|]. intros a b Ha. by apply elem_of_nil in Ha.
  - destruct n as [|n]; cbn.
    + split; [constructor|]. intros a b Ha. by apply elem_of_nil in Ha.
    + destruct (IH n) as [IH1 IH2]. split.
      * constructor; [done|]. apply Forall_forall. intros z Hz.
        eapply Forall_forall in Hx; [exact Hx|]. by eapply subseteq_take.
      * intros a b Ha Hb. apply elem_of_cons in Ha as [->|Ha]; [|by apply IH2].
        eapply Forall_forall in Hx; [exact Hx|]. by eapply subseteq_drop.
Qed.

Lemma StronglySorted_weaken {A} (R R' : A -> A -> Prop) (l : list A) :
  (forall a b, R a b -> R' a b) -> StronglySorted R l -> StronglySorted R' l.
Proof.
  intros HR. induction 1 as [|x l Hl IH Hx]; constructor; [done|].
  eapply Forall_impl; [exact Hx|]. intros z. apply HR.
Qed.

(** [getUserVideoHistory] returns rows of the table that belong to the
    user, newest first, and at most 100 of them: the user's 100 newest rows.
    Every row of the user's it leaves out is no newer than any row it returns,
    and with at most 100 rows of the user's in the table it returns them
    all. *)
Theorem getUserVideoHistory_spec :
  forall (userId : string) (st : Storage.Store),
    let rows := Storage.getUserVideoHistory userId st in
    let own :=
      filter (fun r => String.eqb (VideoHistory.userId r) userId = true)
        (Storage.videoHistory st) in
    length rows = Nat.min 100 (length own) /\
    (forall r, r ∈ rows ->
       r ∈ Storage.videoHistory st /\ VideoHistory.userId r = userId) /\
    StronglySorted
      (fun a b => VideoHistory.createdAt b <= VideoHistory.createdAt a) rows /\
    (exists older,
       rows ++ older ≡ₚ own /\
       forall a b, a ∈ rows -> b ∈ older ->
                   VideoHistory.createdAt b <= VideoHistory.createdAt a) /\
    ((length own <= 100)%nat -> rows ≡ₚ own).
Proof.
  intros userId st rows own.
  set (sorted := Storage.orderBy Storage.byCreatedAtDesc own).
  assert (rows = take 100 sorted) as Hrows by reflexivity.
  assert (sorted ≡ₚ own) as Hperm by apply orderBy_Permutation.
  assert (StronglySorted (fun a b => Storage.byCreatedAtDesc a b = true) sorted) as Hsorted.
  { apply orderBy_sorted; unfold Storage.byCreatedAtDesc.
    - intros a b. rewrite !Z.leb_le. lia.
    - intros a b c. rewrite !Z.leb_le. lia. }
  destruct (StronglySorted_take_drop _ sorted 100 Hsorted) as [Htake Hdrop].
  rewrite <- Hrows in Htake, Hdrop.
  split; [|split; [|split; [|split]]].
  - rewrite Hrows, length_take, (Permutation_length Hperm). lia.
  - intros r Hr. rewrite Hrows in Hr. apply subseteq_take in Hr.
    rewrite Hperm in Hr. apply list_elem_of_filter in Hr as [Hu Hr].
    split; [done|]. by apply String.eqb_eq.
  - eapply StronglySorted_weaken; [|exact Htake].
    intros a b. unfold Storage.byCreatedAtDesc. by rewrite Z.leb_le.
  - exists (drop 100 sorted). split.
    + by rewrite Hrows, take_drop.
    + intros a b Ha Hb. specialize (Hdrop a b Ha Hb).
      unfold Storage.byCreatedAtDesc in Hdrop. by apply Z.leb_le.
  - intros Hle. rewrite Hrows, take_ge; [done|].
    rewrite (Permutation_length Hperm). done.
Qed.

(** ** A job row from insertion to update *)

Lemma filter_none {A} (P : A -> Prop) `{!forall x, Decision (P x)} (l : list A) :
  (forall x, x ∈ l -> ~ P x) -> filter P l = [].
Proof.
  induction l as [|x l IH]; intros Hl; [done|].
  rewrite filter_cons, decide_False by (apply Hl; left).
  apply IH. intros y Hy. apply Hl. by right.
Qed.

Lemma getVideoById_None (videoId : string) (st : Storage.Store) :
  Storage.getVideoById videoId st = None <->
  forall r, r ∈ Storage.videoHistory st -> VideoHistory.id r <> videoId.
Proof.
  unfold Storage.getVideoById. rewrite head_None. split.
  - intros Hnil r Hr Hid.
    assert (r ∈ filter (fun r => String.eqb (VideoHistory.id r) videoId = true)
                  (Storage.videoHistory st)) as H.
    { apply list_elem_of_filter. split; [by apply String.eqb_eq | done]. }
    rewrite Hnil in H. by apply elem_of_nil in H.
  - intros Hall. apply filter_none. intros r Hr Hid.
    apply String.eqb_eq in Hid. by apply (Hall r).
Qed.

(** A row inserted under an id the table does not hold yet is the row
    [getVideoById] finds for that id, with the inserted columns, no retry
    counted and both timestamps at the insertion; the other ids read as
    before.  An update of its status by its owner writes that row and
    returns it, and [getVideoById] then reads the written row; the same
    update under another user id writes nothing and returns nothing. *)
Theorem job_row_round_trip :
  forall (now later : Z) (newId status : string) (video : Storage.InsertVideoHistory)
         (st : Storage.Store),
    Storage.getVideoById newId st = None ->
    let row := fst (Storage.addVideoHistory now newId video st) in
    let st1 := snd (Storage.addVideoHistory now newId video st) in
    let update (userId : string) :=
      Storage.updateVideoHistoryStatus later newId userId status None None st1 in
    let updated :=
      VideoHistory.apply (VideoHistory.mkPartial (Some status) None None None None)
        later row in
    Storage.getVideoById newId st1 = Some row /\
    (VideoHistory.id row = newId /\
     VideoHistory.userId row = Storage.i_userId video /\
     VideoHistory.status row = Storage.i_status video /\
     VideoHistory.retryCount row = Some 0 /\
     VideoHistory.createdAt row = now /\ VideoHistory.updatedAt row = now) /\
    (forall other, other <> newId ->
       Storage.getVideoById other st1 = Storage.getVideoById other st) /\
    fst (update (Storage.i_userId video)) = Some updated /\
    Storage.getVideoById newId (snd (update (Storage.i_userId video))) = Some updated /\
    (forall stranger, stranger <> Storage.i_userId video ->
       fst (update stranger) = None /\
       Storage.videoHistory (snd (update stranger)) = Storage.videoHistory st1).
Proof.
  intros now later newId status video st Hfresh. cbv zeta.
  unfold Storage.addVideoHistory. cbn [fst snd].
  set (row := VideoHistory.mk newId _ _ _ _ _ _ _ _ _ _ _ _ _ _ _).
  set (st1 := Storage.set_videoHistory _ st).
  assert (forall p : VideoHistory.t -> bool,
            (forall r, p r = true -> VideoHistory.id r = newId) ->
            filter (fun r => p r = true) (Storage.videoHistory st1)
            = if p row then [row] else []) as Hfilter.
  { intros p Hp. unfold st1. cbn [Storage.videoHistory Storage.set_videoHistory].
    rewrite filter_app.
    assert (filter (fun r => p r = true) (Storage.videoHistory st) = []) as ->.
    { apply filter_none. intros r Hr Hpr.
      rewrite getVideoById_None in Hfresh. by apply (Hfresh r Hr), Hp. }
    rewrite filter_cons, filter_nil. cbn [app].
    by destruct (p row). }
  assert (Storage.getVideoById newId st1 = Some row) as Hread.
  { unfold Storage.getVideoById. rewrite Hfilter.
    - cbn. by rewrite String.eqb_refl.
    - intros r. apply String.eqb_eq. }
  split; [done|]. split; [done|]. split; [|split; [|split]].
  - intros other Hother. unfold Storage.getVideoById, st1.
    cbn [Storage.videoHistory Storage.set_videoHistory].
    rewrite filter_app, filter_cons, filter_nil.
    destruct (String.eqb_spec (VideoHistory.id row) other) as [E|_]; [done|].
    rewrite decide_False by done. by rewrite app_nil_r.
  - unfold Storage.updateVideoHistoryStatus, Storage.updateWhere. cbn [fst].
    rewrite Hfilter.
    + unfold Storage.ownedBy. cbn. by rewrite !String.eqb_refl.
    + intros r Hr. by apply ownedBy_true in Hr as [-> _].
  - rewrite updateVideoHistoryStatus_store, getVideoById_updated, Hread. cbn.
    unfold Storage.ownedBy. cbn. by rewrite !String.eqb_refl.
  - intros stranger Hstranger.
    assert (Storage.ownedBy newId stranger row = false) as Hrow.
    { unfold Storage.ownedBy. cbn. rewrite String.eqb_refl. cbn.
      by apply String.eqb_neq. }
    split.
    + unfold Storage.updateVideoHistoryStatus, Storage.updateWhere. cbn [fst].
      rewrite Hfilter.
      * by rewrite Hrow.
      * intros r Hr. by apply ownedBy_true in Hr as [-> _].
    + apply list_eq. intros i. rewrite updateVideoHistoryStatus_lookup.
      destruct (Storage.videoHistory st1 !! i) as [r|] eqn:Hi; [|done]. cbn.
      destruct (Storage.ownedBy newId stranger r) eqn:Ho; [|done].
      exfalso. apply ownedBy_true in Ho as [Hid Hu].
      assert (r ∈ filter (fun r => Storage.ownedBy newId stranger r = true)
                    (Storage.videoHistory st1)) as Hin.
      { apply list_elem_of_filter. split; [by apply ownedBy_true|].
        by eapply list_elem_of_lookup_2. }
      rewrite Hfilter, Hrow in Hin; [by apply elem_of_nil in Hin|].
      intros r' Hr'. by apply ownedBy_true in Hr' as [-> _].
Qed.

Lemma job_row_round_trip_S7 :
  let video :=
    Storage.mkInsert "user-1" "a heron lifts off the lake" "portrait" "pending"
      None None None in
  let st1 := snd (Storage.addVideoHistory 7000 "job-3" video S7_store) in
  Storage.getVideoById "job-3" st1
    = Some (fst (Storage.addVideoHistory 7000 "job-3" video S7_store)) /\
  fst (Storage.updateVideoHistoryStatus 8000 "job-3" "user-1" "completed" None None st1)
    = Some (VideoHistory.mk "job-3" "user-1" "a heron lifts off the lake" "portrait"
              "completed" None None None None (Some 0) None None None None 7000 8000) /\
  fst (Storage.updateVideoHistoryStatus 8000 "job-3" "user-2" "completed" None None st1)
    = None.
Proof.
  cbv zeta.
  destruct (job_row_round_trip 7000 8000 "job-3" "completed"
              (Storage.mkInsert "user-1" "a heron lifts off the lake" "portrait" "pending"
                 None None None) S7_store eq_refl)
    as (Hread & _ & _ & Hupdate & _ & Hstranger).
  split; [exact Hread|]. split; [exact Hupdate|].
  apply (Hstranger "user-2"). done.
Defined.

(** ** The failure handler off its retry path *)

Lemma failedMessage_truthy (errorMessage : string) :
  Js.truthy (Some (BulkQueue.failedMessage errorMessage)) = true.
Proof.
  unfold BulkQueue.failedMessage, Js.truthy.
  by destruct errorMessage.
Qed.

(** What [handleVideoFailure] does when it does not schedule a retry.
    Without a row for the job it returns at once: nothing is written, nothing
    re-queued and no error is recorded against the token; this is the case of
    every queued job once the nightly cleanup has cleared the table.  With a
    stored [retryCount] of 2 or more it marks the row failed with the
    "(Failed after 2 retries)" message, leaves the queue and the timers alone,
    and records the token error.  When the driver refuses the object of the
    two-argument update, the [catch] marks the row failed with the bare
    message, and the token error is not recorded. *)
Theorem handleVideoFailure_without_retry :
  forall (bindObject : VideoHistory.partial -> option string) (now : Z)
         (video : BulkQueue.QueuedVideo) (errorMessage : string)
         (rotationToken : option ApiToken.t) (st : Storage.Store) (q : BulkQueue.Queue),
    let handle := BulkQueue.handleVideoFailure bindObject now video errorMessage
                    rotationToken in
    let markFailed (message : string) :=
      snd (Storage.updateVideoHistoryStatus now (BulkQueue.videoId video)
             (BulkQueue.userId video) "failed" None (Some message) st) in
    (Storage.getVideoById (BulkQueue.videoId video) st = None -> handle st q = (st, q)) /\
    handle (Storage.clearAllVideoHistory st) q = (Storage.clearAllVideoHistory st, q) /\
    (forall r,
       Storage.getVideoById (BulkQueue.videoId video) st = Some r ->
       BulkQueue.MAX_RETRIES <= Js.orZero (VideoHistory.retryCount r) ->
       handle st q
       = (match rotationToken with
          | Some t =>
              Storage.recordTokenError now (ApiToken.id t)
                (markFailed (BulkQueue.failedMessage errorMessage))
          | None => markFailed (BulkQueue.failedMessage errorMessage)
          end, q) /\
       (VideoHistory.userId r = BulkQueue.userId video ->
        Storage.getVideoById (BulkQueue.videoId video) (fst (handle st q))
        = Some (VideoHistory.apply
                  (VideoHistory.mkPartial (Some "failed") None None None
                     (Some (BulkQueue.failedMessage errorMessage))) now r))) /\
    (forall r,
       Storage.getVideoById (BulkQueue.videoId video) st = Some r ->
       Js.orZero (VideoHistory.retryCount r) < BulkQueue.MAX_RETRIES ->
       (forall o, bindObject o = None) ->
       handle st q = (markFailed errorMessage, q) /\
       Storage.tokenErrorTracking (fst (handle st q)) = Storage.tokenErrorTracking st /\
       Storage.tokenCooldowns (fst (handle st q)) = Storage.tokenCooldowns st).
Proof.
  intros bindObject now video errorMessage rotationToken st q. cbv zeta.
  split; [|split; [|split]].
  - intros Hnone. unfold BulkQueue.handleVideoFailure. by rewrite Hnone.
  - reflexivity.
  - intros r Hr Hlimit.
    assert (BulkQueue.handleVideoFailure bindObject now video errorMessage rotationToken
              st q
            = (match rotationToken with
               | Some t =>
                   Storage.recordTokenError now (ApiToken.id t)
                     (snd (Storage.updateVideoHistoryStatus now (BulkQueue.videoId video)
                             (BulkQueue.userId video) "failed" None
                             (Some (BulkQueue.failedMessage errorMessage)) st))
               | None =>
                   snd (Storage.updateVideoHistoryStatus now (BulkQueue.videoId video)
                          (BulkQueue.userId video) "failed" None
                          (Some (BulkQueue.failedMessage errorMessage)) st)
               end, q)) as Heq.
    { unfold BulkQueue.handleVideoFailure. rewrite Hr.
      destruct (Z.ltb_spec (Js.orZero (VideoHistory.retryCount r)) BulkQueue.MAX_RETRIES);
        [lia|]. done. }
    split; [exact Heq|]. intros Howner. rewrite Heq. cbn [fst].
    assert (Storage.getVideoById (BulkQueue.videoId video)
              (snd (Storage.updateVideoHistoryStatus now (BulkQueue.videoId video)
                      (BulkQueue.userId video) "failed" None
                      (Some (BulkQueue.failedMessage errorMessage)) st))
            = Some (VideoHistory.apply
                      (VideoHistory.mkPartial (Some "failed") None None None
                         (Some (BulkQueue.failedMessage errorMessage))) now r)) as Hrow.
    { rewrite updateVideoHistoryStatus_store, getVideoById_updated, Hr.
      cbn [fmap option_fmap option_map]. rewrite failedMessage_truthy.
      assert (Storage.ownedBy (BulkQueue.videoId video) (BulkQueue.userId video) r = true)
        as ->; [|done].
      apply ownedBy_true. split; [|done].
      unfold Storage.getVideoById in Hr. apply head_Some_elem_of in Hr.
      apply list_elem_of_filter in Hr as [Hid _]. by apply String.eqb_eq. }
    destruct rotationToken as [t|]; [|done].
    by rewrite getVideoById_recordTokenError.
  - intros r Hr Hlimit Hrefuse.
    assert (BulkQueue.handleVideoFailure bindObject now video errorMessage rotationToken
              st q
            = (snd (Storage.updateVideoHistoryStatus now (BulkQueue.videoId video)
                      (BulkQueue.userId video) "failed" None (Some errorMessage) st), q))
      as Heq.
    { unfold BulkQueue.handleVideoFailure. rewrite Hr.
      destruct (Z.ltb_spec (Js.orZero (VideoHistory.retryCount r)) BulkQueue.MAX_RETRIES);
        [|lia].
      unfold Storage.updateVideoHistoryFields, Storage.whereConditions.
      by rewrite Hrefuse. }
    split; [exact Heq|]. rewrite Heq. cbn [fst].
    by rewrite updateVideoHistoryStatus_store.
Qed.

(** ** Deleting a user *)

Lemma filter_filter_implied {A} (P Q : A -> Prop) `{!forall x, Decision (P x)}
    `{!forall x, Decision (Q x)} (l : list A) :
  (forall x, P x -> Q x) -> filter P (filter Q l) = filter P l.
Proof.
  intros HPQ. induction l as [|x l IH]; [done|].
  rewrite !filter_cons. destruct (decide (Q x)) as [HQ|HQ].
  - rewrite filter_cons. destruct (decide (P x)); by rewrite IH.
  - rewrite decide_False by (intros HP; by apply HQ, HPQ). apply IH.
Qed.

(** [deleteUser] removes the user and the user's job rows, and nothing
    else: afterwards the user is not found, has no history and owns no row;
    every other user is found as before with the same history; tokens,
    settings and the in-memory maps are untouched. *)
Theorem deleteUser_spec :
  forall (userId : string) (st : Storage.Store),
    let st' := Storage.deleteUser userId st in
    Storage.getUser userId st' = None /\
    Storage.getUserVideoHistory userId st' = [] /\
    (forall r, r ∈ Storage.videoHistory st' ->
       r ∈ Storage.videoHistory st /\ VideoHistory.userId r <> userId) /\
    (forall other, other <> userId ->
       Storage.getUser other st' = Storage.getUser other st /\
       Storage.getUserVideoHistory other st' = Storage.getUserVideoHistory other st) /\
    (forall videoId r,
       Storage.getVideoById videoId st = Some r -> VideoHistory.userId r <> userId ->
       Storage.getVideoById videoId st' = Some r) /\
    Storage.apiTokens st' = Storage.apiTokens st /\
    Storage.tokenSettings st' = Storage.tokenSettings st /\
    Storage.tokenErrorTracking st' = Storage.tokenErrorTracking st /\
    Storage.tokenCooldowns st' = Storage.tokenCooldowns st.
Proof.
  intros userId st. cbv zeta.
  unfold Storage.deleteUser, Storage.getUser, Storage.getUserVideoHistory.
  cbn [Storage.users Storage.videoHistory Storage.set_users Storage.set_videoHistory
       Storage.apiTokens Storage.tokenSettings Storage.tokenErrorTracking
       Storage.tokenCooldowns].
  split; [|split; [|split; [|split; [|split]]]]; [| | | | |done].
  - rewrite filter_none; [done|].
    intros u Hu Hid. apply list_elem_of_filter in Hu as [Hne _]. congruence.
  - rewrite filter_none; [done|].
    intros r Hr Hid. apply list_elem_of_filter in Hr as [Hne _]. congruence.
  - intros r Hr. apply list_elem_of_filter in Hr as [Hne Hr]. split; [done|].
    by apply String.eqb_neq.
  - intros other Hother. split.
    + rewrite filter_filter_implied; [done|].
      intros u Hu. apply String.eqb_eq in Hu. apply String.eqb_neq. congruence.
    + rewrite filter_filter_implied; [done|].
      intros r Hr. apply String.eqb_eq in Hr. apply String.eqb_neq. congruence.
  - intros videoId r Hr Hne. unfold Storage.getVideoById in *.
    cbn [Storage.videoHistory Storage.set_users Storage.set_videoHistory].
    revert Hr. generalize (Storage.videoHistory st). intros rows.
    induction rows as [|x rows IH]; intros Hr; [done|].
    rewrite filter_cons in Hr. rewrite filter_cons.
    destruct (decide (String.eqb (VideoHistory.id x) videoId = true)) as [Hx|Hx].
    + cbn in Hr. injection Hr as ->.
      rewrite decide_True by (by apply String.eqb_neq).
      by rewrite filter_cons, decide_True.
    + destruct (decide (String.eqb (VideoHistory.userId x) userId = false)).
      * rewrite filter_cons, decide_False by done. by apply IH.
      * by apply IH.
Qed.

(** ** Switching a token off *)

(** Once [toggleApiTokenStatus(tokenId, false)] has run, no row with that id
    is active, and none of the three dispensers returns a token with that id,
    whatever the instant, the cursor and the index.  The call answers nothing
    (the route's 404) exactly when no row has the id, and it never touches the
    batch counters. *)
Theorem inactive_token_is_not_dispensed :
  forall (now index : Z) (tokenId : string) (st : Storage.Store),
    let st' := snd (Storage.toggleApiTokenStatus tokenId false st) in
    (forall t, t ∈ Storage.apiTokens st' -> ApiToken.id t = tokenId ->
               ApiToken.isActive t = false) /\
    (forall tok, fst (Storage.getCurrentBatchToken now st') = Js.Return (Some tok) ->
                 ApiToken.id tok <> tokenId) /\
    (forall tok, fst (Storage.getNextRotationToken now st') = Some tok ->
                 ApiToken.id tok <> tokenId) /\
    (forall tok, fst (Storage.getTokenByIndex now index st') = Js.Return (Some tok) ->
                 ApiToken.id tok <> tokenId) /\
    (fst (Storage.toggleApiTokenStatus tokenId false st) = None <->
     Storage.getTokenById tokenId st = None) /\
    map ApiToken.currentBatchCount (Storage.apiTokens st')
      = map ApiToken.currentBatchCount (Storage.apiTokens st).
Proof.
  intros now index tokenId st. cbv zeta.
  unfold Storage.toggleApiTokenStatus.
  rewrite (surjective_pairing (Storage.updateWhere _ _ _)). cbn [fst snd].
  set (st' := Storage.set_apiTokens _ st).
  assert (forall t, t ∈ Storage.apiTokens st' -> ApiToken.id t = tokenId ->
                    ApiToken.isActive t = false) as Hoff.
  { intros t Ht Hid. unfold st' in Ht. cbn [Storage.apiTokens Storage.set_apiTokens] in Ht.
    apply list_elem_of_lookup in Ht as [i Hi]. rewrite updateWhere_lookup in Hi.
    destruct (Storage.apiTokens st !! i) as [r|]; [|done]. cbn in Hi. injection Hi as <-.
    destruct (Storage.hasId tokenId r) eqn:Hr; [done|].
    exfalso. apply hasId_true in Hid. congruence. }
  assert (forall x, x ∈ Storage.getActiveApiTokens st' -> ApiToken.id x <> tokenId)
    as Hactive.
  { intros x Hx Hid. apply getActiveApiTokens_elem in Hx as [Hon Hx].
    rewrite (Hoff x Hx Hid) in Hon. done. }
  split; [done|]. split; [|split; [|split; [|split]]].
  - intros tok Htok.
    destruct (getCurrentBatchToken_from_available now st' tok Htok) as (x & Hx & ->).
    apply Hactive. by apply filterAvailable_elem, orderBy_elem in Hx.
  - intros tok Htok. unfold Storage.getNextRotationToken in Htok.
    rewrite firstUsable_head in Htok.
    apply head_Some_elem_of, list_elem_of_filter in Htok as [_ Htok].
    apply Hactive. by apply orderBy_elem in Htok.
  - intros tok Htok. rewrite getTokenByIndex_eq in Htok. cbv zeta in Htok. cbn [fst] in Htok.
    destruct (notInCooldown now st') as [|a0 rest] eqn:E; [done|].
    destruct (Js.index _ _) as [x|] eqn:Hx; [|done].
    injection Htok as ->. apply Js_index_elem in Hx. rewrite <- E in Hx.
    unfold notInCooldown in Hx. apply list_elem_of_filter in Hx as [_ Hx].
    apply Hactive. by apply orderBy_elem in Hx.
  - rewrite head_written. unfold Storage.getTokenById.
    by destruct (head _).
  - unfold st'. cbn [Storage.apiTokens Storage.set_apiTokens].
    unfold Storage.updateWhere. cbn [fst]. rewrite <- list_fmap_compose.
    apply list_fmap_ext. intros i r _. cbn. by destruct (Storage.hasId tokenId r).
Qed.

(** ** The daily quota of single generations *)

(** [canGenerateVideo].  An admin is always allowed.  Anyone else is denied
    with the expiry message once the plan has expired; otherwise a user on a
    tier is denied, with a reason, exactly when the daily count has reached
    the tier's limit (free 0, scale 1000, empire 2000), and is allowed below
    it, the result reporting what is left.  A free user whose count is not
    negative is therefore never allowed.  For a plan type that is no property
    of the table at all, the call throws a [TypeError]: the limit check
    answers "reached" and the message then reads the limit of a configuration
    that is not there.  For a plan type that is a property name of
    [Object.prototype] the lookup finds the inherited value, the limit reads
    [undefined], and the user is allowed whatever the count, with [NaN] videos
    left.  The limit is reached exactly when nothing remains. *)
Theorem canGenerateVideo_spec :
  forall (now : Z) (user : User.t),
    (User.isAdmin user = true ->
       PlanEnforcement.canGenerateVideo now user
       = Js.Return (PlanEnforcement.mkResult true None None)) /\
    (User.isAdmin user = false ->
       (PlanEnforcement.isPlanExpired now user = true ->
          PlanEnforcement.canGenerateVideo now user
          = Js.Return
              (PlanEnforcement.mkResult false
                 (Some "Your plan has expired. Please contact admin to renew.") None)) /\
       (PlanEnforcement.isPlanExpired now user = false ->
          (User.planType user <> "free" -> User.planType user <> "scale" ->
           User.planType user <> "empire" ->
             (User.planType user ∉ Js.objectPrototypeKeys ->
                PlanEnforcement.canGenerateVideo now user
                = Js.Throw PlanEnforcement.undefinedDailyVideoLimit) /\
             (User.planType user ∈ Js.objectPrototypeKeys ->
                PlanEnforcement.canGenerateVideo now user
                = Js.Return
                    (PlanEnforcement.mkResult true None (Some PlanEnforcement.NaN)))) /\
          (forall dailyLimit : Z,
             (User.planType user = "free" /\ dailyLimit = 0) \/
             (User.planType user = "scale" /\ dailyLimit = 1000) \/
             (User.planType user = "empire" /\ dailyLimit = 2000) ->
             (dailyLimit <= User.dailyVideoCount user ->
                exists reason,
                  PlanEnforcement.canGenerateVideo now user
                  = Js.Return (PlanEnforcement.mkResult false (Some reason) None)) /\
             (User.dailyVideoCount user < dailyLimit ->
                PlanEnforcement.canGenerateVideo now user
                = Js.Return
                    (PlanEnforcement.mkResult true None
                       (Some (PlanEnforcement.Finite
                                (dailyLimit - User.dailyVideoCount user)))))))) /\
    (PlanEnforcement.hasReachedDailyLimit user = true <->
     PlanEnforcement.getRemainingVideos user = PlanEnforcement.Finite 0).
Proof.
  intros now user.
  unfold PlanEnforcement.canGenerateVideo, PlanEnforcement.hasReachedDailyLimit,
    PlanEnforcement.getRemainingVideos.
  destruct (User.isAdmin user) eqn:Hadmin.
  { split; [done|]. split; [done|]. split; done. }
  split; [done|]. split.
  - intros _. split; [by intros ->|]. intros ->.
    destruct (PLAN_CONFIGS_cases (User.planType user))
      as [[Hp ->]|[[Hp ->]|[[Hp ->]|(Hf & Hs & He & [[Hin ->]|[Hnot ->]])]]].
    + split; [done|].
      intros ? [[_ ->]|[[H _]|[H _]]]; [|rewrite Hp in H; done..].
      cbn [PlanEnforcement.dailyVideoLimit PlanEnforcement.free].
      destruct (Z.geb_spec (User.dailyVideoCount user) 0).
      * split; [intros _; eauto | intros; lia].
      * split; [intros; lia | intros _; by rewrite Z.max_r by lia].
    + split; [done|].
      intros ? [[H _]|[[_ ->]|[H _]]]; [rewrite Hp in H; done| |rewrite Hp in H; done].
      cbn [PlanEnforcement.dailyVideoLimit PlanEnforcement.scale].
      destruct (Z.geb_spec (User.dailyVideoCount user) 1000).
      * split; [intros _; eauto | intros; lia].
      * split; [intros; lia | intros _; by rewrite Z.max_r by lia].
    + split; [done|].
      intros ? [[H _]|[[H _]|[_ ->]]]; [rewrite Hp in H; done..|].
      cbn [PlanEnforcement.dailyVideoLimit PlanEnforcement.empire].
      destruct (Z.geb_spec (User.dailyVideoCount user) 2000).
      * split; [intros _; eauto | intros; lia].
      * split; [intros; lia | intros _; by rewrite Z.max_r by lia].
    + split; [by intros _ _ _; split|]. intros ? [[H _]|[[H _]|[H _]]]; done.
    + split; [by intros _ _ _; split|]. intros ? [[H _]|[[H _]|[H _]]]; done.
  - destruct (PlanEnforcement.PLAN_CONFIGS (User.planType user)) as [config| |];
      [|done..].
    destruct (Z.geb_spec (User.dailyVideoCount user)
                (PlanEnforcement.dailyVideoLimit config)); split; try done.
    + intros _. f_equal. lia.
    + intros [= Hzero]. lia.
Qed.

(** ** Tool access and the plan a user is shown *)

(** [canAccessTool] allows a tool exactly to an admin and to a user whose
    plan has not expired and whose tier lists the tool; every denial carries a
    reason.  The tiers are cumulative: scale has the tools of free, empire
    those of scale, and empire has every tool.  For an admin and for a user
    on a tier that has not expired, the tools [getPlanConfig] shows are the
    tools [canAccessTool] allows.  A plan type that is no property of the
    table at all is shown as the free plan but is denied every tool.  A plan
    type that is a property name of [Object.prototype] is shown the inherited
    value, no plan, and unless the plan has expired the tool check throws a
    [TypeError]; the check throws in no other case.  [getPlanConfig] shows an
    unlimited daily quota to admins only. *)
Theorem canAccessTool_matches_plan :
  forall (now : Z) (user : User.t) (tool : PlanEnforcement.AllowedTool),
    let check := PlanEnforcement.canAccessTool now user tool in
    let shown := PlanEnforcement.getPlanConfig user in
    (forall res, check = Js.Return res ->
       PlanEnforcement.allowed res = false -> is_Some (PlanEnforcement.reason res)) /\
    ((exists res, check = Js.Return res /\ PlanEnforcement.allowed res = true) <->
     User.isAdmin user = true \/
     (PlanEnforcement.isPlanExpired now user = false /\
      exists config,
        PlanEnforcement.PLAN_CONFIGS (User.planType user) = PlanEnforcement.Plan config /\
        PlanEnforcement.includesTool (PlanEnforcement.allowedTools config) tool = true)) /\
    ((PlanEnforcement.includesTool
        (PlanEnforcement.allowedTools PlanEnforcement.free) tool = true ->
      PlanEnforcement.includesTool
        (PlanEnforcement.allowedTools PlanEnforcement.scale) tool = true) /\
     (PlanEnforcement.includesTool
        (PlanEnforcement.allowedTools PlanEnforcement.scale) tool = true ->
      PlanEnforcement.includesTool
        (PlanEnforcement.allowedTools PlanEnforcement.empire) tool = true) /\
     PlanEnforcement.includesTool
       (PlanEnforcement.allowedTools PlanEnforcement.empire) tool = true) /\
    (User.isAdmin user = true \/
     (PlanEnforcement.isPlanExpired now user = false /\
      exists config,
        PlanEnforcement.PLAN_CONFIGS (User.planType user) = PlanEnforcement.Plan config) ->
     exists res view,
       check = Js.Return res /\ shown = PlanEnforcement.View view /\
       PlanEnforcement.allowed res
       = PlanEnforcement.includesTool (PlanEnforcement.viewAllowedTools view) tool) /\
    (User.isAdmin user = false ->
     User.planType user <> "free" -> User.planType user <> "scale" ->
     User.planType user <> "empire" ->
       (User.planType user ∉ Js.objectPrototypeKeys ->
          shown = PlanEnforcement.View (PlanEnforcement.viewOf PlanEnforcement.free) /\
          exists res, check = Js.Return res /\ PlanEnforcement.allowed res = false) /\
       (User.planType user ∈ Js.objectPrototypeKeys ->
          shown = PlanEnforcement.InheritedValue /\
          (PlanEnforcement.isPlanExpired now user = false ->
             check = Js.Throw PlanEnforcement.undefinedIncludes))) /\
    (forall e, check = Js.Throw e ->
       e = PlanEnforcement.undefinedIncludes /\
       User.isAdmin user = false /\
       PlanEnforcement.isPlanExpired now user = false /\
       User.planType user ∈ Js.objectPrototypeKeys) /\
    ((exists view,
        shown = PlanEnforcement.View view /\
        PlanEnforcement.viewDailyVideoLimit view = PlanEnforcement.Infinity) <->
     User.isAdmin user = true).
Proof.
  intros now user tool. cbv zeta.
  assert ((PlanEnforcement.includesTool
             (PlanEnforcement.allowedTools PlanEnforcement.free) tool = true ->
           PlanEnforcement.includesTool
             (PlanEnforcement.allowedTools PlanEnforcement.scale) tool = true) /\
          (PlanEnforcement.includesTool
             (PlanEnforcement.allowedTools PlanEnforcement.scale) tool = true ->
           PlanEnforcement.includesTool
             (PlanEnforcement.allowedTools PlanEnforcement.empire) tool = true) /\
          PlanEnforcement.includesTool
            (PlanEnforcement.allowedTools PlanEnforcement.empire) tool = true) as Htiers
    by (by destruct tool).
  unfold PlanEnforcement.canAccessTool, PlanEnforcement.getPlanConfig.
  destruct (User.isAdmin user) eqn:Hadmin.
  { split; [by intros res [= <-]|]. split; [split; [by left | by eauto]|].
    split; [done|]. split.
    { intros _. eexists _, _. split; [done|]. split; [done|]. by destruct tool. }
    split; [done|]. split; [done|]. split; [done | by eauto]. }
  pose proof (PLAN_CONFIGS_cases (User.planType user)) as Hcases.
  destruct (PlanEnforcement.PLAN_CONFIGS (User.planType user)) as [config| |]
    eqn:Hconfig.
  - (* a tier *)
    assert (~ (User.planType user <> "free" /\ User.planType user <> "scale" /\
               User.planType user <> "empire")) as Htier.
    { intros (Hf & Hs & He).
      destruct Hcases as [[? _]|[[? _]|[[? _]|(_ & _ & _ & [[_ ?]|[_ ?]])]]]; done. }
    destruct (PlanEnforcement.isPlanExpired now user) eqn:Hexp.
    + split; [intros res [= <-]; by eauto|].
      split; [split; [by intros (res & [= <-] & ?) | by intros [?|[? _]]]|].
      split; [done|]. split; [by intros [?|[? _]]|].
      split; [intros _ Hf Hs He; exfalso; by apply Htier|]. split; [done|].
      split; [by intros (view & [= <-] & ?) | done].
    + destruct (PlanEnforcement.includesTool (PlanEnforcement.allowedTools config) tool)
        eqn:Htool; cbn [negb].
      * split; [by intros res [= <-]|].
        split; [split; [intros _; right; split; [done|]; by eauto | by eauto]|].
        split; [done|].
        split; [intros _; eexists _, _; split; [done|]; split; [done|]; by cbn|].
        split; [intros _ Hf Hs He; exfalso; by apply Htier|]. split; [done|].
        split; [by intros (view & [= <-] & ?) | done].
      * split; [intros res [= <-]; by eauto|].
        split; [split; [by intros (res & [= <-] & ?)
                       | intros [?|(_ & c & [= <-] & Hc)]; congruence]|].
        split; [done|].
        split; [intros _; eexists _, _; split; [done|]; split; [done|]; by cbn|].
        split; [intros _ Hf Hs He; exfalso; by apply Htier|]. split; [done|].
        split; [by intros (view & [= <-] & ?) | done].
  - (* a property name of [Object.prototype] *)
    assert (User.planType user ∈ Js.objectPrototypeKeys) as Hin
      by (by apply PLAN_CONFIGS_Inherited).
    destruct (PlanEnforcement.isPlanExpired now user) eqn:Hexp.
    + split; [intros res [= <-]; by eauto|].
      split; [split; [by intros (res & [= <-] & ?) | by intros [?|[? _]]]|].
      split; [done|]. split; [by intros [?|[? _]]|].
      split; [by intros _ _ _ _; split|]. split; [done|].
      split; [by intros (view & ? & ?) | done].
    + split; [done|].
      split; [split; [by intros (res & ? & ?) | by intros [?|(_ & c & ? & _)]]|].
      split; [done|]. split; [by intros [?|(_ & c & ?)]|].
      split; [by intros _ _ _ _; split|]. split; [by intros e [= <-]|].
      split; [by intros (view & ? & ?) | done].
  - (* no property of the table *)
    assert (User.planType user ∉ Js.objectPrototypeKeys) as Hnot.
    { intros Hin. apply PLAN_CONFIGS_Inherited in Hin. congruence. }
    destruct (PlanEnforcement.isPlanExpired now user) eqn:Hexp.
    + split; [intros res [= <-]; by eauto|].
      split; [split; [by intros (res & [= <-] & ?) | by intros [?|[? _]]]|].
      split; [done|]. split; [by intros [?|[? _]]|].
      split; [intros _ _ _ _; split; [by eauto | done]|]. split; [done|].
      split; [by intros (view & [= <-] & ?) | done].
    + split; [intros res [= <-]; by eauto|].
      split; [split; [by intros (res & [= <-] & ?) | by intros [?|(_ & c & ? & _)]]|].
      split; [done|]. split; [by intros [?|(_ & c & ?)]|].
      split; [intros _ _ _ _; split; [by eauto | done]|]. split; [done|].
      split; [by intros (view & [= <-] & ?) | done].
Qed.

(** ** The expiry line *)

Lemma ceilDiv_unique (a b k : Z) :
  0 < b -> (k - 1) * b < a <= k * b -> Js.ceilDiv a b = k.
Proof.
  intros Hb Hk. unfold Js.ceilDiv.
  assert ((- a) / b = - k) as ->; [|lia].
  symmetry. apply (Z.div_unique_pos (- a) b (- k) (k * b - a)); lia.
Qed.

(** [formatPlanExpiry] reads "Never" without an expiry and "Expired" once
    the expiry lies in the past.  Otherwise it counts the days left, rounded
    up: "Expires today" only at the very instant of the expiry, "Expires
    tomorrow" for anything up to 24 hours ahead, and "k days remaining" for an
    expiry more than k-1 and at most k days ahead, k at least 2. *)
Theorem formatPlanExpiry_spec :
  forall (now : Z) (expiryDate : option Z),
    let day := 1000 * 60 * 60 * 24 in
    (expiryDate = None -> PlanEnforcement.formatPlanExpiry now expiryDate = "Never") /\
    (forall date, expiryDate = Some date ->
       (date < now -> PlanEnforcement.formatPlanExpiry now expiryDate = "Expired") /\
       (date = now ->
          PlanEnforcement.formatPlanExpiry now expiryDate = "Expires today") /\
       (now < date <= now + day ->
          PlanEnforcement.formatPlanExpiry now expiryDate = "Expires tomorrow") /\
       (forall k, 2 <= k -> now + (k - 1) * day < date <= now + k * day ->
          PlanEnforcement.formatPlanExpiry now expiryDate
          = (Js.numberToString k ++ " days remaining")%string)).
Proof.
  intros now expiryDate day. split; [by intros ->|].
  intros date ->. unfold PlanEnforcement.formatPlanExpiry. fold day.
  assert (0 < day) as Hday by (unfold day; lia).
  split; [|split; [|split]].
  - intros Hpast. by destruct (Z.ltb_spec date now); [|lia].
  - intros ->. destruct (Z.ltb_spec now now); [lia|].
    by rewrite (ceilDiv_unique (now - now) day 0) by lia.
  - intros Hahead. destruct (Z.ltb_spec date now); [lia|].
    by rewrite (ceilDiv_unique (date - now) day 1) by lia.
  - intros k Hk Hahead. destruct (Z.ltb_spec date now); [nia|].
    rewrite (ceilDiv_unique (date - now) day k) by lia.
    destruct (Z.eqb_spec k 0); [lia|]. destruct (Z.eqb_spec k 1); [lia|]. done.
Qed.

(** ** The processor's batches and chunks *)

Lemma takeBatch_eq (count : nat) :
  forall (batch : list BulkQueue.QueuedVideo) (q : BulkQueue.Queue),
    BulkQueue.takeBatch count batch q
    = (batch ++ take count (BulkQueue.bulkQueue q),
       BulkQueue.mkQueue (drop count (BulkQueue.bulkQueue q)) (BulkQueue.isProcessing q)
         (BulkQueue.timers q) (BulkQueue.overrideDelaySeconds q)).
Proof.
  induction count as [|count IH]; intros batch q.
  - cbn. rewrite app_nil_r. by destruct q.
  - cbn [BulkQueue.takeBatch]. unfold BulkQueue.shift.
    destruct (BulkQueue.bulkQueue q) as [|video rest] eqn:E.
    + rewrite IH, E. cbn. by rewrite take_nil, drop_nil.
    + rewrite IH. cbn. by rewrite <- app_assoc.
Qed.

Lemma nextBatch_eq (videosPerBatch : Z) (q : BulkQueue.Queue) :
  let m := Z.to_nat (Z.min videosPerBatch (Z.of_nat (length (BulkQueue.bulkQueue q)))) in
  BulkQueue.nextBatch videosPerBatch q
  = (take m (BulkQueue.bulkQueue q),
     BulkQueue.mkQueue (drop m (BulkQueue.bulkQueue q)) (BulkQueue.isProcessing q)
       (BulkQueue.timers q) (BulkQueue.overrideDelaySeconds q)).
Proof. cbv zeta. unfold BulkQueue.nextBatch. by rewrite takeBatch_eq. Qed.

Lemma chunksFrom_spec (batch : list BulkQueue.QueuedVideo) (passes : nat) :
  forall i : nat,
    (length batch <= i + passes)%nat ->
    concat (BulkQueue.chunksFrom passes i batch) = drop i batch /\
    Forall (fun chunk => (1 <= length chunk <= BulkQueue.MAX_CONCURRENT)%nat)
      (BulkQueue.chunksFrom passes i batch) /\
    length (BulkQueue.chunksFrom passes i batch)
    = ((length batch - i + 7) / 8)%nat.
Proof.
  induction passes as [|passes IH]; intros i Hi.
  - cbn. rewrite drop_ge by lia.
    replace (length batch - i + 7)%nat with 7%nat by lia. done.
  - cbn [BulkQueue.chunksFrom]. destruct (Nat.ltb_spec i (length batch)) as [Hlt|Hge].
    + destruct (IH (i + BulkQueue.MAX_CONCURRENT)%nat) as (IH1 & IH2 & IH3);
        [unfold BulkQueue.MAX_CONCURRENT; lia|].
      unfold BulkQueue.slice.
      replace (i + BulkQueue.MAX_CONCURRENT - i)%nat with BulkQueue.MAX_CONCURRENT by lia.
      split; [|split].
      * cbn [concat]. rewrite IH1, <- drop_drop. apply take_drop.
      * constructor; [|done]. rewrite length_take, length_drop.
        unfold BulkQueue.MAX_CONCURRENT. lia.
      * cbn [length]. rewrite IH3. unfold BulkQueue.MAX_CONCURRENT.
        destruct (Nat.le_gt_cases (i + 8) (length batch)) as [Hfull|Hshort].
        -- replace (length batch - i + 7)%nat
             with (length batch - (i + 8) + 7 + 1 * 8)%nat by lia.
           rewrite Nat.div_add by lia. lia.
        -- replace (length batch - (i + 8) + 7)%nat with 7%nat by lia.
           change (S (7 / 8)) with 1%nat.
           apply (Nat.div_unique (length batch - i + 7) 8 1 (length batch - i - 1)); lia.
    + cbn. rewrite drop_ge by lia.
      replace (length batch - i + 7)%nat with 7%nat by lia. done.
Qed.

(** One pass of the processor takes the first
    [min videosPerBatch (length queue)] videos of the queue, in order, and
    leaves the rest; with a positive [videosPerBatch] and a queue that is not
    empty the batch is not empty, with a [videosPerBatch] that is not positive
    nothing is taken.  The batch is then cut into consecutive chunks of
    8, the last one possibly shorter: the chunks are not empty, put together
    they are the batch, and there are [ceil (length batch / 8)] of them. *)
Theorem nextBatch_chunks_spec :
  forall (videosPerBatch : Z) (q : BulkQueue.Queue),
    let m := Z.to_nat (Z.min videosPerBatch (Z.of_nat (length (BulkQueue.bulkQueue q)))) in
    let batch := fst (BulkQueue.nextBatch videosPerBatch q) in
    let q' := snd (BulkQueue.nextBatch videosPerBatch q) in
    batch = take m (BulkQueue.bulkQueue q) /\
    BulkQueue.bulkQueue q' = drop m (BulkQueue.bulkQueue q) /\
    batch ++ BulkQueue.bulkQueue q' = BulkQueue.bulkQueue q /\
    (BulkQueue.isProcessing q' = BulkQueue.isProcessing q /\
     BulkQueue.timers q' = BulkQueue.timers q) /\
    (0 < videosPerBatch -> BulkQueue.bulkQueue q <> [] -> batch <> []) /\
    (videosPerBatch <= 0 -> batch = [] /\ q' = q) /\
    concat (BulkQueue.chunks batch) = batch /\
    Forall (fun chunk => (1 <= length chunk <= 8)%nat) (BulkQueue.chunks batch) /\
    length (BulkQueue.chunks batch) = ((length batch + 7) / 8)%nat.
Proof.
  intros videosPerBatch q. cbv zeta. rewrite nextBatch_eq. cbv zeta. cbn [fst snd].
  set (m := Z.to_nat _).
  split; [done|]. split; [done|]. split; [apply take_drop|]. split; [done|].
  split; [|split].
  - intros Hpos Hne Htake.
    destruct (BulkQueue.bulkQueue q) as [|video rest]; [done|].
    assert (m <> 0%nat) as Hm by (unfold m; cbn [length]; lia).
    destruct m; done.
  - intros Hnonpos. assert (m = 0%nat) as -> by (unfold m; lia).
    cbn. by destruct q.
  - destruct (chunksFrom_spec (take m (BulkQueue.bulkQueue q))
                (length (take m (BulkQueue.bulkQueue q))) 0 ltac:(lia))
      as (H1 & H2 & H3).
    unfold BulkQueue.chunks. rewrite H1, H3, Nat.sub_0_r. done.
Qed.

Lemma ceilDiv_bounds (a b : Z) :
  0 < b -> (Js.ceilDiv a b - 1) * b < a <= Js.ceilDiv a b * b.
Proof.
  intros Hb. unfold Js.ceilDiv.
  pose proof (Z.div_mod (- a) b ltac:(lia)) as Hdm.
  pose proof (Z.mod_pos_bound (- a) b Hb) as Hmod.
  nia.
Qed.

Lemma processQueue_loop_drains (videosPerBatch : Z) (passes : nat) :
  0 < videosPerBatch ->
  forall q : BulkQueue.Queue,
    (length (BulkQueue.bulkQueue q) < passes)%nat ->
    exists batches,
      BulkQueue.processQueue_loop passes videosPerBatch q
      = (Some batches,
         BulkQueue.mkQueue [] false (BulkQueue.timers q) (BulkQueue.overrideDelaySeconds q)) /\
      concat (concat batches) = BulkQueue.bulkQueue q /\
      Forall (fun batch =>
                (1 <= length (concat batch))%nat /\
                Z.of_nat (length (concat batch)) <= videosPerBatch /\
                Forall (fun chunk => (1 <= length chunk <= 8)%nat) batch)
        batches /\
      Z.of_nat (length batches)
      = Js.ceilDiv (Z.of_nat (length (BulkQueue.bulkQueue q))) videosPerBatch.
Proof.
  intros Hpos. induction passes as [|passes IH]; intros q Hq; [lia|].
  cbn [BulkQueue.processQueue_loop].
  destruct (BulkQueue.bulkQueue q) as [|video rest] eqn:E.
  { exists []. repeat split; done. }
  rewrite nextBatch_eq. cbv zeta. rewrite E.
  set (queue := video :: rest) in *.
  set (m := Z.to_nat (Z.min videosPerBatch (Z.of_nat (length queue)))).
  assert (1 <= m <= length queue)%nat as Hm by (unfold m, queue; cbn [length]; lia).
  assert (Z.of_nat m <= videosPerBatch) as Hmv by (unfold m; lia).
  destruct (take m queue) as [|b0 batch'] eqn:Etake.
  { exfalso. assert (length (take m queue) = 0%nat) as Hl by (by rewrite Etake).
    rewrite length_take in Hl. lia. }
  rewrite <- Etake.
  destruct (IH (BulkQueue.mkQueue (drop m queue) (BulkQueue.isProcessing q)
                  (BulkQueue.timers q) (BulkQueue.overrideDelaySeconds q)))
    as (batches & -> & Hconcat & Hall & Hcount).
  { cbn [BulkQueue.bulkQueue]. rewrite length_drop. lia. }
  cbn [BulkQueue.bulkQueue BulkQueue.timers BulkQueue.overrideDelaySeconds] in *.
  destruct (chunksFrom_spec (take m queue) (length (take m queue)) 0 ltac:(lia))
    as (H1 & H2 & _).
  fold (BulkQueue.chunks (take m queue)) in H1, H2. rewrite drop_0 in H1.
  exists (BulkQueue.chunks (take m queue) :: batches).
  split; [done|]. split; [|split].
  - cbn [concat]. rewrite concat_app, H1, Hconcat. apply take_drop.
  - constructor; [|done]. rewrite H1, length_take. repeat split; [lia | lia | done].
  - cbn [length]. rewrite Nat2Z.inj_succ, Hcount, length_drop.
    symmetry. apply ceilDiv_unique; [done|].
    pose proof (ceilDiv_bounds (Z.of_nat (length queue - m)) videosPerBatch Hpos) as Hb.
    destruct (Z.le_gt_cases videosPerBatch (Z.of_nat (length queue))) as [Hfull|Hshort].
    + assert (Z.of_nat m = videosPerBatch) as Hmeq by (unfold m; lia). nia.
    + assert (m = length queue) as Hmeq by (unfold m; lia).
      rewrite Hmeq, Nat.sub_diag in Hb |- *.
      assert (Js.ceilDiv (Z.of_nat 0) videosPerBatch = 0) as ->
        by (apply ceilDiv_unique; cbn; lia).
      lia.
Qed.

(** With a batch size that is positive, the processor, left alone with
    its queue, empties it in [ceil (length queue / videosPerBatch)] passes and
    lowers its flag: every queued video is submitted exactly once and in queue
    order; no batch is empty or holds more than [videosPerBatch] videos; no
    chunk is empty or holds more than 8. *)
Theorem processQueue_drains :
  forall (override : option Z) (settings : Js.Completion (option TokenSettings.t))
         (q : BulkQueue.Queue) (passes : nat),
    let videosPerBatch := fst (BulkQueue.batchSettings override settings) in
    0 < videosPerBatch ->
    (length (BulkQueue.bulkQueue q) < passes)%nat ->
    exists batches,
      BulkQueue.processQueue_loop passes videosPerBatch q
      = (Some batches,
         BulkQueue.mkQueue [] false (BulkQueue.timers q) (BulkQueue.overrideDelaySeconds q)) /\
      concat (concat batches) = BulkQueue.bulkQueue q /\
      Forall (fun batch =>
                (1 <= length (concat batch))%nat /\
                Z.of_nat (length (concat batch)) <= videosPerBatch /\
                Forall (fun chunk => (1 <= length chunk <= 8)%nat) batch)
        batches /\
      Z.of_nat (length batches)
      = Js.ceilDiv (Z.of_nat (length (BulkQueue.bulkQueue q))) videosPerBatch.
Proof.
  intros override settings q passes videosPerBatch Hpos Hpasses.
  by apply processQueue_loop_drains.
Qed.

Lemma processQueue_drains_S1 :
  exists batches,
    BulkQueue.processQueue_loop 13 10 S1_queue12
    = (Some batches, BulkQueue.mkQueue [] false [] (Some 10)) /\
    concat (concat batches) = BulkQueue.bulkQueue S1_queue12 /\
    map (map (@length BulkQueue.QueuedVideo)) batches = [[8; 2]; [2]]%nat.
Proof.
  destruct (processQueue_drains (Some 10) (Js.Return (Some S2_settings)) S1_queue12 13
              ltac:(by vm_compute) ltac:(cbn; lia))
    as (batches & Hloop & Hconcat & _).
  exists batches. split; [exact Hloop|]. split; [exact Hconcat|].
  assert (Some batches
          = fst (BulkQueue.processQueue_loop 13
                   (fst (BulkQueue.batchSettings (Some 10) (Js.Return (Some S2_settings))))
                   S1_queue12)) as E by (by rewrite Hloop).
  vm_compute in E. injection E as ->. reflexivity.
Defined.

(** A batch size saved as a negative number is used as it is, and the loop
    then never ends: each pass takes [min videosPerBatch (length queue)], that
    is no video, finds its batch empty and starts over without waiting; no
    video is ever submitted and the flag stays up. *)
Theorem processQueue_negative_setting_spins :
  forall (override : option Z) (settings : TokenSettings.t) (n : Z)
         (q : BulkQueue.Queue) (passes : nat),
    Js.parseInt (TokenSettings.videosPerBatch settings) = Some n ->
    n < 0 ->
    BulkQueue.bulkQueue q <> [] ->
    fst (BulkQueue.batchSettings override (Js.Return (Some settings))) = n /\
    BulkQueue.processQueue_loop passes n q = (None, q).
Proof.
  intros override settings n q passes Hparse Hneg Hq. split.
  - unfold BulkQueue.batchSettings. cbn [fst]. rewrite Hparse.
    unfold Js.orElse. destruct n; done.
  - induction passes as [|passes IH]; [done|].
    cbn [BulkQueue.processQueue_loop].
    destruct (BulkQueue.bulkQueue q) as [|video rest] eqn:E; [done|].
    rewrite nextBatch_eq. cbv zeta. rewrite E.
    replace (Z.to_nat (Z.min n (Z.of_nat (length (video :: rest))))) with 0%nat by lia.
    cbn [take drop]. rewrite <- E.
    assert (BulkQueue.mkQueue (BulkQueue.bulkQueue q) (BulkQueue.isProcessing q)
              (BulkQueue.timers q) (BulkQueue.overrideDelaySeconds q) = q) as ->
      by (by destruct q).
    exact IH.
Qed.

Lemma processQueue_negative_setting_spins_example :
  fst (BulkQueue.batchSettings (Some 10) (Js.Return (Some negativeBatchSettings))) = -1 /\
  BulkQueue.processQueue_loop 1000 (-1) S5_queue = (None, S5_queue).
Proof.
  apply (processQueue_negative_setting_spins (Some 10) negativeBatchSettings (-1)
           S5_queue 1000); [reflexivity | lia | done].
Defined.

(** The settings the processor works with.  Neither the batch size nor the
    delay is ever 0.  Without a settings row, or when reading it throws, the
    batch size is 10; with a row whose batch size does not parse, or parses to
    0, it is 5.  A delay handed over by the caller that is not 0 is used
    whatever the row says; otherwise the row's delay is used, and 20 when there
    is no row or its delay does not parse or parses to 0. *)
Theorem batchSettings_spec :
  forall (override : option Z) (settings : Js.Completion (option TokenSettings.t)),
    let videosPerBatch := fst (BulkQueue.batchSettings override settings) in
    let batchDelaySeconds := snd (BulkQueue.batchSettings override settings) in
    videosPerBatch <> 0 /\ batchDelaySeconds <> 0 /\
    ((settings = Js.Return None \/ exists e, settings = Js.Throw e) ->
       videosPerBatch = 10 /\ batchDelaySeconds = Js.orElse override 20) /\
    (forall row,
       settings = Js.Return (Some row) ->
       (Js.parseInt (TokenSettings.videosPerBatch row) = None \/
        Js.parseInt (TokenSettings.videosPerBatch row) = Some 0 ->
        videosPerBatch = 5) /\
       (forall n, n <> 0 -> Js.parseInt (TokenSettings.videosPerBatch row) = Some n ->
                  videosPerBatch = n) /\
       (Js.isFalsy override = true ->
        batchDelaySeconds
        = Js.orElse (Js.parseInt (TokenSettings.batchDelaySeconds row)) 20)) /\
    (forall d, d <> 0 -> override = Some d -> batchDelaySeconds = d).
Proof.
  intros override settings. cbv zeta.
  assert (forall x d, d <> 0 -> Js.orElse x d <> 0) as Hnz.
  { intros [[| |]|] d Hd; cbn; done. }
  unfold BulkQueue.batchSettings.
  destruct settings as [[row|]|e]; cbn [fst snd].
  - split; [by apply Hnz|]. split.
    { destruct (Js.isFalsy override) eqn:E; by apply Hnz. }
    split; [intros [?|[? ?]]; done|]. split.
    + intros row' [= <-]. split; [|split].
      * by intros [->| ->].
      * intros n Hn ->. by destruct n.
      * by intros ->.
    + intros d Hd ->. by destruct d.
  - split; [done|]. split; [by apply Hnz|]. split; [done|]. split; [done|].
    intros d Hd ->. by destruct d.
  - split; [done|]. split; [by apply Hnz|]. split; [done|]. split; [done|].
    intros d Hd ->. by destruct d.
Qed.

(** ** The worker pool of the polling coordinator *)

Lemma startWorkers_loop_eq (queue : list PollingCoordinator.PollingJob) :
  forall (active : Z) (started : list PollingCoordinator.PollingJob),
    0 <= active <= PollingCoordinator.MAX_CONCURRENT_WORKERS ->
    let k := Z.to_nat (Z.min (Z.of_nat (length queue))
                         (PollingCoordinator.MAX_CONCURRENT_WORKERS - active)) in
    PollingCoordinator.startWorkers_loop queue active started
    = PollingCoordinator.mkPool (drop k queue) (active + Z.of_nat k)
        (started ++ take k queue).
Proof.
  unfold PollingCoordinator.MAX_CONCURRENT_WORKERS.
  induction queue as [|job queue IH]; intros active started Hactive; cbv zeta.
  - replace (Z.to_nat (Z.min (Z.of_nat (length (@nil PollingCoordinator.PollingJob)))
                         (20 - active))) with 0%nat by (cbn [length]; lia).
    cbn. by rewrite Z.add_0_r, app_nil_r.
  - cbn [PollingCoordinator.startWorkers_loop].
    unfold PollingCoordinator.MAX_CONCURRENT_WORKERS.
    destruct (Z.ltb_spec active 20) as [Hlt|Hge].
    + rewrite IH by lia. cbv zeta.
      replace (Z.to_nat (Z.min (Z.of_nat (length (job :: queue))) (20 - active)))
        with (S (Z.to_nat (Z.min (Z.of_nat (length queue)) (20 - (active + 1)))))
        by (cbn [length]; lia).
      cbn [drop take]. rewrite <- app_assoc. cbn [app]. f_equal. lia.
    + replace (Z.to_nat (Z.min (Z.of_nat (length (job :: queue))) (20 - active)))
        with 0%nat by lia.
      cbn. by rewrite Z.add_0_r, app_nil_r.
Qed.

Lemma poolInvariant_startWorkers events (p : PollingCoordinator.Pool) started :
  PollingCoordinator.activeWorkers p = Z.of_nat (length (PollingCoordinator.running p)) ->
  0 <= PollingCoordinator.activeWorkers p <= PollingCoordinator.MAX_CONCURRENT_WORKERS ->
  enqueuedJobs events = started ++ PollingCoordinator.pollingQueue p ->
  sublist (PollingCoordinator.running p) started ->
  poolInvariant events (PollingCoordinator.startWorkers p).
Proof.
  intros Hcount Hcap Hfifo Hsub. unfold PollingCoordinator.startWorkers.
  rewrite startWorkers_loop_eq by done. cbv zeta.
  set (k := Z.to_nat _).
  assert (k <= length (PollingCoordinator.pollingQueue p))%nat as Hk by (unfold k; lia).
  unfold PollingCoordinator.MAX_CONCURRENT_WORKERS in *.
  split; cbn [PollingCoordinator.activeWorkers PollingCoordinator.running
              PollingCoordinator.pollingQueue].
  - rewrite length_app, length_take. lia.
  - unfold k, PollingCoordinator.MAX_CONCURRENT_WORKERS. lia.
  - intros Hne. unfold PollingCoordinator.MAX_CONCURRENT_WORKERS.
    assert (k < length (PollingCoordinator.pollingQueue p))%nat as Hlt.
    { destruct (decide (k < length (PollingCoordinator.pollingQueue p))%nat); [done|].
      rewrite drop_ge in Hne by lia. done. }
    unfold k in *. lia.
  - exists (started ++ take k (PollingCoordinator.pollingQueue p)). split.
    + by rewrite <- app_assoc, take_drop.
    + by apply sublist_app.
Qed.

Lemma poolInvariant_run (events : list PollingCoordinator.PoolEvent) :
  poolInvariant events (poolEvents events).
Proof.
  unfold poolEvents.
  induction events as [|e events IH] using rev_ind.
  { split; cbn; try done. by exists []. }
  rewrite foldl_app. cbn [foldl].
  set (p := foldl _ _ events) in *.
  destruct IH as [Hcount Hcap Hbusy (started & Hfifo & Hsub)].
  assert (enqueuedJobs (events ++ [e]) = enqueuedJobs events ++ enqueuedJobs [e]) as Henq
    by (unfold enqueuedJobs; apply omap_app).
  destruct e as [videoId userId operationName sceneId apiKey rotationToken|i];
    cbn [PollingCoordinator.poolEventStep].
  - unfold PollingCoordinator.enqueueStatusCheck.
    eapply (poolInvariant_startWorkers _ _ started); cbn; try done.
    by rewrite Henq, Hfifo, <- app_assoc.
  - assert (enqueuedJobs (events ++ [PollingCoordinator.Finished i])
            = started ++ PollingCoordinator.pollingQueue p) as Hfifo'
      by (rewrite Henq, Hfifo; cbn; by rewrite app_nil_r).
    unfold PollingCoordinator.workerFinished.
    destruct (PollingCoordinator.running p !! i) as [job|] eqn:Hi.
    + apply lookup_lt_Some in Hi as Hlt.
      eapply (poolInvariant_startWorkers _ _ started); cbn; try done.
      * rewrite length_delete by eauto. lia.
      * lia.
      * etrans; [apply sublist_delete | done].
    + split; try done. by exists started.
Qed.

(** Over every run of the pool, made of status checks enqueued and workers
    finishing: the counter [activeWorkers] is the number of workers running,
    it never leaves [0, 20], a job waits in the queue only while 20 workers
    run, and jobs are started in the order they were enqueued. *)
Theorem worker_pool_invariant :
  forall events : list PollingCoordinator.PoolEvent,
    let p := poolEvents events in
    PollingCoordinator.activeWorkers p = Z.of_nat (length (PollingCoordinator.running p)) /\
    0 <= PollingCoordinator.activeWorkers p <= 20 /\
    (PollingCoordinator.pollingQueue p <> [] -> PollingCoordinator.activeWorkers p = 20) /\
    (exists started,
       enqueuedJobs events = started ++ PollingCoordinator.pollingQueue p /\
       sublist (PollingCoordinator.running p) started).
Proof.
  intros events. destruct (poolInvariant_run events) as [H1 H2 H3 H4]. done.
Qed.

(** ** The polling loop *)

Lemma Qmin_cases (a b : Q) :
  (PollingCoordinator.Qmin a b = a /\ (a <= b)%Q) \/
  (PollingCoordinator.Qmin a b = b /\ (b < a)%Q).
Proof.
  unfold PollingCoordinator.Qmin. destruct (Qle_bool a b) eqn:E.
  - left. split; [done|]. by apply Qle_bool_iff.
  - right. split; [done|]. apply Qnot_le_lt. intros H. apply Qle_bool_iff in H. congruence.
Qed.

Lemma pollDelay_bounds (consecutiveFailures : Z) (r : Q) :
  0 <= consecutiveFailures -> (0 <= r)%Q -> (r < 1)%Q ->
  (15000 <= PollingCoordinator.pollDelay consecutiveFailures r)%Q /\
  (PollingCoordinator.pollDelay consecutiveFailures r <= 120000)%Q.
Proof.
  intros Hcf H0 H1. unfold PollingCoordinator.pollDelay, PollingCoordinator.POLL_INTERVAL_MS.
  destruct (Z.eqb_spec consecutiveFailures 0) as [_|Hnz].
  { change (inject_Z 15000) with 15000%Q. split; lra. }
  set (m := Z.min (2 ^ (consecutiveFailures - 1)) 4).
  assert (1 <= m <= 4) as Hm.
  { unfold m. pose proof (Z.pow_pos_nonneg 2 (consecutiveFailures - 1) ltac:(lia) ltac:(lia)).
    lia. }
  assert (15000 <= inject_Z (15000 * m))%Q as Hlo.
  { change 15000%Q with (inject_Z 15000). rewrite <- Zle_Qle. lia. }
  assert (inject_Z (15000 * m) <= 60000)%Q as Hhi.
  { change 60000%Q with (inject_Z 60000). rewrite <- Zle_Qle. lia. }
  change (inject_Z 120000) with 120000%Q.
  destruct (Qmin_cases (inject_Z (15000 * m) + r * inject_Z (15000 * m)) 120000)
    as [[-> Hle]|[-> Hlt]]; split; try lra; nra.
Qed.

Section PollLoopProperties.

Variable statusResult : Z -> PollingCoordinator.StatusCheck.
Variable retrySucceeds : Z -> bool.
Variable random : Z -> Q.
Hypothesis random_range : forall k, (0 <= random k)%Q /\ (random k < 1)%Q.

Local Abbreviation loop := (PollingCoordinator.pollLoop statusResult retrySucceeds random).

Lemma pollLoop_spec (passes : nat) :
  forall (attempts : Z) (hasRetried : bool) (failures : Z) (slept : list Q)
         (retries : list Z),
    1 <= attempts <= PollingCoordinator.MAX_ATTEMPTS -> 0 <= failures ->
    (Z.to_nat (PollingCoordinator.MAX_ATTEMPTS - attempts) <= passes)%nat ->
    exists trace new,
      loop passes attempts hasRetried failures slept retries = Some trace /\
      attempts <= PollingCoordinator.attemptsMade trace <= PollingCoordinator.MAX_ATTEMPTS /\
      PollingCoordinator.waits trace = slept ++ new /\
      Z.of_nat (length new) = PollingCoordinator.attemptsMade trace - attempts /\
      Forall (fun d => (15000 <= d)%Q /\ (d <= 120000)%Q) new /\
      (failures = 0 ->
       (forall k, attempts < k ->
                  PollingCoordinator.shouldBackoff (statusResult k) = false) ->
       Forall (fun d => d = inject_Z 15000) new) /\
      PollingCoordinator.tokenRetries trace
      = retries ++
        (if (attempts <? PollingCoordinator.RETRY_ATTEMPT)
            && (PollingCoordinator.RETRY_ATTEMPT <=? PollingCoordinator.attemptsMade trace)
            && negb hasRetried
         then [PollingCoordinator.RETRY_ATTEMPT] else []) /\
      (forall k, attempts < k < PollingCoordinator.attemptsMade trace ->
         PollingCoordinator.completed (statusResult k) = false /\
         PollingCoordinator.failed (statusResult k) = false) /\
      (if PollingCoordinator.isCompleted trace
       then attempts < PollingCoordinator.attemptsMade trace /\
            (PollingCoordinator.completed
               (statusResult (PollingCoordinator.attemptsMade trace)) = true \/
             PollingCoordinator.failed
               (statusResult (PollingCoordinator.attemptsMade trace)) = true)
       else PollingCoordinator.attemptsMade trace = PollingCoordinator.MAX_ATTEMPTS /\
            (attempts < PollingCoordinator.attemptsMade trace ->
             PollingCoordinator.completed
               (statusResult (PollingCoordinator.attemptsMade trace)) = false /\
             PollingCoordinator.failed
               (statusResult (PollingCoordinator.attemptsMade trace)) = false)).
Proof.
  unfold PollingCoordinator.MAX_ATTEMPTS, PollingCoordinator.RETRY_ATTEMPT.
  induction passes as [|passes IH];
    intros attempts hasRetried failures slept retries Hattempts Hfailures Hpasses.
  - assert (attempts = 240) as -> by lia. cbn.
    exists (PollingCoordinator.mkTrace 240 false slept retries), []. cbn.
    rewrite !app_nil_r. repeat split; try done; lia.
  - cbn [PollingCoordinator.pollLoop]. unfold PollingCoordinator.MAX_ATTEMPTS.
    destruct (Z.ltb_spec attempts 240) as [Hlt|Hge].
    2: { assert (attempts = 240) as -> by lia.
         exists (PollingCoordinator.mkTrace 240 false slept retries), []. cbn.
         rewrite !app_nil_r. repeat split; try done; lia. }
    destruct (Z.gtb_spec attempts 0) as [_|?]; [|lia].
    unfold PollingCoordinator.RETRY_ATTEMPT.
    set (delay := PollingCoordinator.pollDelay failures (random attempts)).
    assert ((15000 <= delay)%Q /\ (delay <= 120000)%Q) as Hdelay
      by (apply pollDelay_bounds; [done | apply random_range..]).
    set (retrying := (attempts + 1 =? 8) && negb hasRetried).
    set (retries' := if retrying then retries ++ [attempts + 1] else retries).
    assert (retries'
            = retries ++ (if (attempts <? 8) && (8 <=? attempts + 1) && negb hasRetried
                          then [8] else [])) as Hretries.
    { unfold retries', retrying.
      destruct (Z.eqb_spec (attempts + 1) 8) as [E|E]; destruct hasRetried; cbn.
      - destruct (attempts <? 8), (8 <=? attempts + 1); cbn; by rewrite app_nil_r.
      - destruct (Z.ltb_spec attempts 8), (Z.leb_spec 8 (attempts + 1)); try lia.
        cbn. by rewrite E.
      - destruct (attempts <? 8), (8 <=? attempts + 1); cbn; by rewrite app_nil_r.
      - destruct (Z.ltb_spec attempts 8), (Z.leb_spec 8 (attempts + 1)); try lia;
          cbn; by rewrite app_nil_r. }
    destruct (PollingCoordinator.completed (statusResult (attempts + 1))) eqn:Hc.
    { exists (PollingCoordinator.mkTrace (attempts + 1) true (slept ++ [delay]) retries'),
             [delay]. cbn.
      split; [done|]. split; [lia|]. split; [done|]. split; [lia|].
      split; [by constructor|]. split.
      { intros -> _. by constructor. }
      split; [done|]. split; [intros; lia|]. split; [lia | by left]. }
    destruct (PollingCoordinator.failed (statusResult (attempts + 1))) eqn:Hf.
    { exists (PollingCoordinator.mkTrace (attempts + 1) true (slept ++ [delay]) retries'),
             [delay]. cbn.
      split; [done|]. split; [lia|]. split; [done|]. split; [lia|].
      split; [by constructor|]. split.
      { intros -> _. by constructor. }
      split; [done|]. split; [intros; lia|]. split; [lia | by right]. }
    set (failures' := if PollingCoordinator.shouldBackoff (statusResult (attempts + 1))
                      then failures + 1 else 0).
    set (hasRetried' := if retrying then retrySucceeds (attempts + 1) else hasRetried).
    assert (loop passes (attempts + 1) hasRetried' failures' (slept ++ [delay]) retries'
            = if PollingCoordinator.shouldBackoff (statusResult (attempts + 1))
              then loop passes (attempts + 1) hasRetried' (failures + 1)
                     (slept ++ [delay]) retries'
              else loop passes (attempts + 1) hasRetried' 0 (slept ++ [delay]) retries')
      as Hstep by (unfold failures'; by destruct (PollingCoordinator.shouldBackoff _)).
    rewrite <- Hstep. clear Hstep.
    destruct (IH (attempts + 1) hasRetried' failures' (slept ++ [delay]) retries')
      as (trace & new & Hloop & Hmade & Hwaits & Hlen & Hbounds & Hplain & Htok & Hbefore
          & Hlast); [lia | unfold failures'; destruct (PollingCoordinator.shouldBackoff _); lia | lia |].
    exists trace, (delay :: new).
    split; [done|]. split; [lia|]. split; [by rewrite Hwaits, <- app_assoc|].
    split; [cbn [length]; lia|]. split; [by constructor|]. split; [|split; [|split]].
    + intros -> Hnone. constructor; [done|]. apply Hplain.
      * unfold failures'. by rewrite (Hnone (attempts + 1)) by lia.
      * intros k Hk. apply Hnone. lia.
    + rewrite Htok, Hretries, <- app_assoc. f_equal.
      unfold hasRetried', retrying.
      destruct (Z.ltb_spec attempts 8), (Z.ltb_spec (attempts + 1) 8),
        (Z.leb_spec 8 (attempts + 1)),
        (Z.leb_spec 8 (PollingCoordinator.attemptsMade trace)),
        (Z.eqb_spec (attempts + 1) 8); try lia; destruct hasRetried; cbn; try done.
      all: by destruct (retrySucceeds _).
    + intros k Hk. destruct (decide (k = attempts + 1)) as [->|Hne]; [done|].
      apply Hbefore. lia.
    + destruct (PollingCoordinator.isCompleted trace).
      * destruct Hlast as [? Hlast]. split; [lia | done].
      * destruct Hlast as [-> Hlast]. split; [done|]. intros _.
        destruct (decide (attempts + 1 = 240)) as [E|E]; [by rewrite <- E | apply Hlast; lia].
Qed.

End PollLoopProperties.

(** A job is polled at least once and at most 240 times, and the loop
    ends: on the first poll that reports the job completed or failed, or after
    the 240th poll, and only then is the job timed out.  Inside the loop there
    is no sleep before the first poll and one before each later poll, never
    shorter than 15 s nor longer than 120 s, and exactly 15 s each as long as
    no poll asks for a backoff.  [retryWithNewToken] is called once, at the eighth poll,
    if the loop gets that far, and never again. *)
Theorem processJob_polls_spec :
  forall (statusResult : Z -> PollingCoordinator.StatusCheck) (retrySucceeds : Z -> bool)
         (random : Z -> Q) (passes : nat),
    (forall k, (0 <= random k)%Q /\ (random k < 1)%Q) ->
    (240 <= passes)%nat ->
    exists trace,
      PollingCoordinator.processJob_polls statusResult retrySucceeds random passes
      = Some trace /\
      1 <= PollingCoordinator.attemptsMade trace <= 240 /\
      Z.of_nat (length (PollingCoordinator.waits trace))
      = PollingCoordinator.attemptsMade trace - 1 /\
      Forall (fun d => (15000 <= d)%Q /\ (d <= 120000)%Q)
        (PollingCoordinator.waits trace) /\
      ((forall k, PollingCoordinator.shouldBackoff (statusResult k) = false) ->
       Forall (fun d => d = inject_Z 15000) (PollingCoordinator.waits trace)) /\
      PollingCoordinator.tokenRetries trace
      = (if 8 <=? PollingCoordinator.attemptsMade trace then [8] else []) /\
      (forall k, 1 <= k < PollingCoordinator.attemptsMade trace ->
         PollingCoordinator.completed (statusResult k) = false /\
         PollingCoordinator.failed (statusResult k) = false) /\
      (PollingCoordinator.isCompleted trace = true <->
       PollingCoordinator.completed
         (statusResult (PollingCoordinator.attemptsMade trace)) = true \/
       PollingCoordinator.failed
         (statusResult (PollingCoordinator.attemptsMade trace)) = true) /\
      (PollingCoordinator.isCompleted trace = false ->
       PollingCoordinator.attemptsMade trace = 240).
Proof.
  intros statusResult retrySucceeds random passes Hrandom Hpasses.
  destruct passes as [|passes]; [lia|].
  unfold PollingCoordinator.processJob_polls. cbn [PollingCoordinator.pollLoop].
  change (0 <? PollingCoordinator.MAX_ATTEMPTS) with true.
  change (0 >? 0) with false. change (0 + 1) with 1.
  change ((1 =? PollingCoordinator.RETRY_ATTEMPT) && negb false) with false.
  cbn iota.
  destruct (PollingCoordinator.completed (statusResult 1)) eqn:Hc.
  { eexists. split; [reflexivity|]. cbn.
    split; [lia|]. split; [done|]. split; [done|]. split; [done|]. split; [done|].
    split; [intros; lia|]. split; [by split; [left|]|]. done. }
  destruct (PollingCoordinator.failed (statusResult 1)) eqn:Hf.
  { eexists. split; [reflexivity|]. cbn.
    split; [lia|]. split; [done|]. split; [done|]. split; [done|]. split; [done|].
    split; [intros; lia|]. split; [by split; [right|]|]. done. }
  set (failures := if PollingCoordinator.shouldBackoff (statusResult 1) then 1 else 0).
  assert (PollingCoordinator.pollLoop statusResult retrySucceeds random passes 1 false
            failures [] []
          = if PollingCoordinator.shouldBackoff (statusResult 1)
            then PollingCoordinator.pollLoop statusResult retrySucceeds random passes 1
                   false 1 [] []
            else PollingCoordinator.pollLoop statusResult retrySucceeds random passes 1
                   false 0 [] [])
    as Hstep by (unfold failures; by destruct (PollingCoordinator.shouldBackoff _)).
  rewrite <- Hstep. clear Hstep.
  destruct (pollLoop_spec statusResult retrySucceeds random Hrandom passes 1 false failures
              [] [])
    as (trace & new & Hloop & Hmade & Hwaits & Hlen & Hbounds & Hplain & Htok & Hbefore
        & Hlast);
    [unfold PollingCoordinator.MAX_ATTEMPTS; lia
    | unfold failures; destruct (PollingCoordinator.shouldBackoff _); lia
    | unfold PollingCoordinator.MAX_ATTEMPTS; lia |].
  unfold PollingCoordinator.MAX_ATTEMPTS, PollingCoordinator.RETRY_ATTEMPT in *.
  cbn [app] in Hwaits, Htok. change (1 <? 8) with true in Htok.
  rewrite andb_true_r in Htok. cbn [andb] in Htok.
  exists trace. split; [done|]. split; [lia|]. rewrite Hwaits.
  split; [lia|]. split; [done|]. split; [|split; [done|split; [|split]]].
  - intros Hnone. apply Hplain; [|intros; apply Hnone].
    unfold failures. by rewrite Hnone.
  - intros k Hk. destruct (decide (k = 1)) as [->|Hne]; [done|]. apply Hbefore. lia.
  - destruct (PollingCoordinator.isCompleted trace).
    + by destruct Hlast as [_ Hlast].
    + destruct Hlast as [Hmax Hlast]. split; [done|].
      intros Hdone. destruct (Hlast ltac:(lia)) as [H1 H2].
      destruct Hdone; congruence.
  - intros Hnot. rewrite Hnot in Hlast. by destruct Hlast.
Qed.

Lemma processJob_polls_spec_second_poll :
  exists trace,
    PollingCoordinator.processJob_polls completesAtSecondPoll (fun _ => false)
      (fun _ => 1 # 2) 240
    = Some trace /\
    PollingCoordinator.attemptsMade trace = 2 /\
    PollingCoordinator.isCompleted trace = true /\
    PollingCoordinator.waits trace = [inject_Z 15000] /\
    PollingCoordinator.tokenRetries trace = [].
Proof.
  destruct (processJob_polls_spec completesAtSecondPoll (fun _ => false) (fun _ => 1 # 2)
              240 ltac:(intros; split; lra) ltac:(lia))
    as (trace & Hloop & _).
  exists trace. split; [exact Hloop|].
  assert (Some trace
          = PollingCoordinator.processJob_polls completesAtSecondPoll (fun _ => false)
              (fun _ => 1 # 2) 240) as E by (by rewrite Hloop).
  vm_compute in E. injection E as ->. by vm_compute.
Defined.

(** ** The video URL of a status response *)

Lemma prefix_length (pat s : string) :
  String.prefix pat s = true -> (String.length pat <= String.length s)%nat.
Proof.
  revert s. induction pat as [|a pat IH]; intros [|b s];
    cbn [String.prefix String.length]; [lia | lia | done |].
  destruct (ascii_dec a b); [|done].
  intros H. apply IH in H. lia.
Qed.

Lemma string_length_app (s1 s2 : string) :
  String.length (s1 ++ s2)%string = (String.length s1 + String.length s2)%nat.
Proof.
  induction s1 as [|a s1 IH]; [reflexivity|].
  change (S (String.length (s1 ++ s2)%string)
          = S (String.length s1 + String.length s2)%nat).
  by rewrite IH.
Qed.

Section ReplaceAll.

Variables (pat' rep : string).
Hypothesis rep_short : (1 <= String.length rep <= S (String.length pat'))%nat.

Local Abbreviation pat := (String "&"%char pat').

Lemma replaceFrom_length (s : string) :
  forall skip : nat,
    (String.length (Js.replaceFrom pat rep s skip) + Nat.min skip (String.length s)
     <= String.length s)%nat.
Proof.
  induction s as [|c s IH]; intros skip; [cbn; lia|].
  cbn [Js.replaceFrom]. destruct skip as [|skip].
  - destruct (String.prefix pat (String c s)) eqn:E.
    + apply prefix_length in E. cbn [String.length] in E |- *.
      rewrite string_length_app.
      replace (S (String.length pat') - 1)%nat with (String.length pat') by lia.
      specialize (IH (String.length pat')). lia.
    + cbn [String.length]. specialize (IH 0%nat). lia.
  - cbn [String.length]. specialize (IH skip). lia.
Qed.

Lemma replaceAll_length (s : string) :
  (String.length (Js.replaceAll pat rep s) <= String.length s)%nat.
Proof. unfold Js.replaceAll. pose proof (replaceFrom_length s 0). lia. Qed.

Lemma replaceAll_nonempty (s : string) :
  s <> EmptyString -> Js.replaceAll pat rep s <> EmptyString.
Proof.
  unfold Js.replaceAll. destruct s as [|c s]; [done|]. intros _.
  cbn [Js.replaceFrom]. destruct (String.prefix pat (String c s)); [|done].
  destruct rep; [cbn in rep_short; lia | done].
Qed.

Lemma replaceAll_without_ampersand (s : string) :
  Js.includes s "&" = false -> Js.replaceAll pat rep s = s.
Proof.
  unfold Js.replaceAll. induction s as [|c s IH]; [done|].
  cbn [Js.includes Js.replaceFrom String.prefix]. intros H.
  apply orb_false_iff in H as [Hc Hs].
  destruct (ascii_dec "&"%char c) as [_|Hne].
  - by destruct s.
  - by rewrite IH.
Qed.

End ReplaceAll.

(** The URL [checkVideoStatus] takes from a status response is the first
    truthy one among [metadata.video.fifeUrl], [videoUrl], [fileUrl] and
    [downloadUrl], with its HTML entities decoded, and none when the entry has
    no operation or none of the four is truthy.  Decoding never makes a URL
    longer, leaves a URL without "&" as it is, and never empties one, so a
    URL that was found is still truthy when the completion is tested. *)
Theorem extractVideoUrl_spec :
  forall operation : option PollingCoordinator.Operation,
    PollingCoordinator.extractVideoUrl operation
      = PollingCoordinator.decodeHtmlEntities <$> head (candidateUrls operation) /\
    (forall url, PollingCoordinator.extractVideoUrl operation = Some url ->
                 Js.truthy (Some url) = true) /\
    (forall url : string,
       (String.length (PollingCoordinator.decodeHtmlEntities url) <= String.length url)%nat /\
       (Js.includes url "&" = false -> PollingCoordinator.decodeHtmlEntities url = url) /\
       (url <> EmptyString -> PollingCoordinator.decodeHtmlEntities url <> EmptyString)).
Proof.
  intros operation.
  assert (forall url : string,
            (String.length (PollingCoordinator.decodeHtmlEntities url)
             <= String.length url)%nat /\
            (Js.includes url "&" = false ->
             PollingCoordinator.decodeHtmlEntities url = url) /\
            (url <> EmptyString ->
             PollingCoordinator.decodeHtmlEntities url <> EmptyString)) as Hdecode.
  { intros url. unfold PollingCoordinator.decodeHtmlEntities. split; [|split].
    - repeat (etrans; [apply replaceAll_length; cbn; lia|]). done.
    - intros H.
      by rewrite (replaceAll_without_ampersand "amp;" _ url H),
        (replaceAll_without_ampersand "lt;" _ url H),
        (replaceAll_without_ampersand "gt;" _ url H),
        (replaceAll_without_ampersand "quot;" _ url H),
        (replaceAll_without_ampersand "#39;" _ url H).
    - intros H. repeat (apply replaceAll_nonempty; [cbn; lia|]). done. }
  assert (PollingCoordinator.extractVideoUrl operation
          = PollingCoordinator.decodeHtmlEntities <$> head (candidateUrls operation)) as Heq.
  { unfold PollingCoordinator.extractVideoUrl, candidateUrls.
    destruct operation as [[fife video file download]|]; [|done]. cbn.
    destruct fife as [[|a s]|]; cbn; try done;
      destruct video as [[|a' s']|]; cbn; try done;
        destruct file as [[|a'' s'']|]; cbn; try done;
          destruct download as [[|a''' s''']|]; cbn; done. }
  split; [exact Heq|]. split; [|exact Hdecode].
  intros url. rewrite Heq.
  destruct (head (candidateUrls operation)) as [found|] eqn:Hfound; [|done].
  cbn. intros [= <-].
  assert (found <> EmptyString) as Hne.
  { apply head_Some_elem_of in Hfound. unfold candidateUrls in Hfound.
    destruct operation as [operation|]; [|by apply elem_of_nil in Hfound].
    apply list_elem_of_omap in Hfound as (u & _ & Hu).
    destruct u as [[|a s]|]; cbn in Hu; try done. by injection Hu as <-. }
  destruct (Hdecode found) as (_ & _ & Hkeep). specialize (Hkeep Hne).
  unfold Js.truthy. by destruct (PollingCoordinator.decodeHtmlEntities found).
Qed.

(** ** The uploader *)

Section NetworkRetry.

Context {T : Type}.
Variable operation : nat -> Js.Completion T.
Variable random : nat -> Q.
Variables (maxRetries baseDelayMs : Z) (operationName : string).

Local Abbreviation networkLoop :=
  (Cloudinary.retryLoop operation random maxRetries baseDelayMs operationName).

Lemma networkLoop_S (iterations attempt : nat) (lastError : option Js.Error)
    (slept : list Q) :
  networkLoop (S iterations) attempt lastError slept
  = match operation attempt with
    | Js.Return v => Db.mkRun (Js.Return v) (S attempt) slept
    | Js.Throw error =>
        if negb (Cloudinary.isRetryable error) || (Z.of_nat attempt =? maxRetries - 1) then
          Db.mkRun (Js.Throw error) (S attempt) slept
        else
          networkLoop iterations (S attempt) (Some error)
            (slept ++ [Cloudinary.totalDelay baseDelayMs attempt (random attempt)])
    end.
Proof. reflexivity. Qed.

Lemma networkLoop_spec (iterations : nat) :
  forall (attempt : nat) (lastError : option Js.Error) (slept : list Q),
    Z.of_nat (attempt + S iterations) = maxRetries ->
    let run := networkLoop (S iterations) attempt lastError slept in
    (attempt < Db.calls run <= attempt + S iterations)%nat /\
    Db.completion run = operation (Db.calls run - 1)%nat /\
    (forall k, (attempt <= k < Db.calls run - 1)%nat -> networkThrow (operation k)) /\
    ((Db.calls run < attempt + S iterations)%nat -> ~ networkThrow (Db.completion run)) /\
    Db.delays run
      = slept ++ networkDelays baseDelayMs random attempt (Db.calls run - 1 - attempt).
Proof.
  assert (forall attempt bound slept c,
            operation attempt = c -> (S attempt <= bound)%nat ->
            ((S attempt < bound)%nat -> ~ networkThrow c) ->
            let run := Db.mkRun c (S attempt) slept in
            (attempt < Db.calls run <= bound)%nat /\
            Db.completion run = operation (Db.calls run - 1)%nat /\
            (forall k, (attempt <= k < Db.calls run - 1)%nat -> networkThrow (operation k)) /\
            ((Db.calls run < bound)%nat -> ~ networkThrow (Db.completion run)) /\
            Db.delays run
              = slept ++ networkDelays baseDelayMs random attempt
                           (Db.calls run - 1 - attempt)) as Hstop.
  { intros attempt bound slept c Hop Hbound Hnot. cbv zeta.
    cbn [Db.calls Db.completion Db.delays].
    replace (S attempt - 1)%nat with attempt by lia.
    replace (attempt - attempt)%nat with 0%nat by lia.
    split; [lia|]. split; [done|]. split; [intros; lia|]. split; [done|].
    unfold networkDelays. cbn. by rewrite app_nil_r. }
  induction iterations as [|iterations IH]; intros attempt lastError slept Hmax; cbv zeta;
    rewrite networkLoop_S.
  - destruct (operation attempt) as [v|error] eqn:Hop.
    + apply Hstop; [done | lia | lia].
    + destruct (Z.eqb_spec (Z.of_nat attempt) (maxRetries - 1)) as [_|?]; [|lia].
      rewrite orb_true_r. apply Hstop; [done | lia | lia].
  - destruct (operation attempt) as [v|error] eqn:Hop.
    + apply Hstop; [done | lia |]. intros _ (e & He & _). done.
    + destruct (Z.eqb_spec (Z.of_nat attempt) (maxRetries - 1)) as [?|_]; [lia|].
      rewrite orb_false_r.
      destruct (Cloudinary.isRetryable error) eqn:Hretry; cbn [negb].
      * specialize (IH (S attempt) (Some error)
                      (slept ++ [Cloudinary.totalDelay baseDelayMs attempt (random attempt)])
                      ltac:(lia)).
        cbv zeta in IH.
        set (run := Cloudinary.retryLoop operation random maxRetries baseDelayMs
                      operationName (S iterations) (S attempt) (Some error) _) in *.
        destruct IH as (Hcalls & Hcompletion & Hbefore & Hlast & Hdelays).
        split; [lia|]. split; [done|]. split; [|split].
        -- intros k Hk. destruct (decide (k = attempt)) as [->|Hne].
           ++ exists error. by rewrite Hop.
           ++ apply Hbefore. lia.
        -- intros Hlt. apply Hlast. lia.
        -- rewrite Hdelays, <- app_assoc. f_equal.
           replace (Db.calls run - 1 - attempt)%nat
             with (S (Db.calls run - 1 - S attempt)) by lia.
           reflexivity.
      * apply Hstop; [done | lia |].
        intros _ (e & He & Hr). injection He as <-. congruence.
Qed.

End NetworkRetry.

Lemma networkDelay_bounds (attempt : nat) (r : Q) :
  (0 <= r)%Q -> (r < 1)%Q ->
  (1000 <= Cloudinary.totalDelay 1000 attempt r)%Q /\
  (Cloudinary.totalDelay 1000 attempt r < 13000)%Q.
Proof.
  intros H0 H1. unfold Cloudinary.totalDelay.
  assert (1000 <= Cloudinary.backoff 1000 attempt <= 10000) as Hb.
  { unfold Cloudinary.backoff.
    pose proof (Z.pow_pos_nonneg 2 (Z.of_nat attempt) ltac:(lia) ltac:(lia)). lia. }
  assert (1000 <= inject_Z (Cloudinary.backoff 1000 attempt))%Q as Hlo.
  { change 1000%Q with (inject_Z 1000). rewrite <- Zle_Qle. lia. }
  assert (inject_Z (Cloudinary.backoff 1000 attempt) <= 10000)%Q as Hhi.
  { change 10000%Q with (inject_Z 10000). rewrite <- Zle_Qle. lia. }
  split; nra.
Qed.

(** [uploadVideoToCloudinary] fetches the video at least once and at most
    five times, going on only after network errors, and posts it only once
    a fetch has succeeded, again at most five times.  It returns the secure
    URL of the post that succeeded.  Whatever fails, in either step, it throws
    an [Error] without a code whose message is "Failed to upload video to
    Cloudinary: " followed by the message of the error that ended the step.
    It sleeps once before each retry, at least 1 s and less than 13 s. *)
Theorem uploadVideoToCloudinary_spec :
  forall (Blob : Type) (fetchVideo : nat -> Js.Completion Blob)
         (upload : Blob -> nat -> Js.Completion string)
         (randomFetch randomUpload : nat -> Q),
    (forall k, (0 <= randomFetch k)%Q /\ (randomFetch k < 1)%Q) ->
    (forall k, (0 <= randomUpload k)%Q /\ (randomUpload k < 1)%Q) ->
    let run := Cloudinary.uploadVideoToCloudinary fetchVideo upload randomFetch
                 randomUpload in
    let fetches := Cloudinary.fetchCalls run in
    let posts := Cloudinary.uploadCalls run in
    (1 <= fetches <= 5)%nat /\ (posts <= 5)%nat /\
    (forall k, (k < fetches - 1)%nat -> networkThrow (fetchVideo k)) /\
    match fetchVideo (fetches - 1)%nat with
    | Js.Throw error =>
        posts = 0%nat /\ Cloudinary.result run = Js.Throw (Cloudinary.uploadFailed error)
    | Js.Return videoBlob =>
        (1 <= posts)%nat /\
        (forall k, (k < posts - 1)%nat -> networkThrow (upload videoBlob k)) /\
        match upload videoBlob (posts - 1)%nat with
        | Js.Throw error => Cloudinary.result run = Js.Throw (Cloudinary.uploadFailed error)
        | Js.Return cloudinaryUrl => Cloudinary.result run = Js.Return cloudinaryUrl
        end
    end /\
    length (Cloudinary.sleeps run) = (fetches - 1 + (posts - 1))%nat /\
    Forall (fun d => (1000 <= d)%Q /\ (d < 13000)%Q) (Cloudinary.sleeps run) /\
    (forall e, Cloudinary.result run = Js.Throw e ->
       Js.name e = "Error" /\ Js.code e = None /\
       exists m, Js.message e = Some ("Failed to upload video to Cloudinary: " ++ m)%string).
Proof.
  intros Blob fetchVideo upload randomFetch randomUpload Hfetch Hupload. cbv zeta.
  assert (forall random first count,
            (forall k, (0 <= random k)%Q /\ (random k < 1)%Q) ->
            Forall (fun d => (1000 <= d)%Q /\ (d < 13000)%Q)
              (networkDelays 1000 random first count)) as Hdelays.
  { intros random first count Hrandom. unfold networkDelays.
    apply Forall_fmap, Forall_forall. intros k _.
    apply networkDelay_bounds; apply Hrandom. }
  unfold Cloudinary.uploadVideoToCloudinary, Cloudinary.withNetworkRetry.
  change (Z.to_nat 5) with 5%nat.
  destruct (networkLoop_spec fetchVideo randomFetch 5 1000
              "Fetch video from Google Cloud Storage" 4 0 None [] eq_refl)
    as (Hcalls & Hcompletion & Hbefore & _ & Hslept).
  set (fetched := Cloudinary.retryLoop fetchVideo randomFetch 5 1000 _ 5 0 None []) in *.
  cbn [app] in Hslept.
  destruct (Db.completion fetched) as [videoBlob|error] eqn:Hfetched;
    cbn [Cloudinary.fetchCalls Cloudinary.uploadCalls Cloudinary.result Cloudinary.sleeps];
    rewrite <- Hcompletion.
  - destruct (networkLoop_spec (upload videoBlob) randomUpload 5 1000
                "Upload to Cloudinary" 4 0 None [] eq_refl)
      as (Hcalls' & Hcompletion' & Hbefore' & _ & Hslept').
    set (uploaded := Cloudinary.retryLoop (upload videoBlob) randomUpload 5 1000 _ 5 0
                       None []) in *.
    cbn [app] in Hslept'.
    split; [lia|]. split; [lia|]. split; [intros k Hk; apply Hbefore; lia|].
    split; [|split; [|split]].
    + split; [lia|]. split; [intros k Hk; apply Hbefore'; lia|].
      rewrite <- Hcompletion'. by destruct (Db.completion uploaded).
    + rewrite length_app, Hslept, Hslept'. unfold networkDelays.
      rewrite !length_map, !length_seq. lia.
    + rewrite Hslept, Hslept'. apply Forall_app. split; by apply Hdelays.
    + intros e He. destruct (Db.completion uploaded) as [url|error]; [done|].
      injection He as <-. cbn. repeat split; eauto.
  - split; [lia|]. split; [lia|]. split; [intros k Hk; apply Hbefore; lia|].
    split; [done|]. split; [|split].
    + rewrite Hslept. unfold networkDelays. rewrite length_map, length_seq. lia.
    + rewrite Hslept. by apply Hdelays.
    + intros e [= <-]. cbn. repeat split; eauto.
Qed.

Lemma uploadVideoToCloudinary_spec_retried :
  let run := Cloudinary.uploadVideoToCloudinary fetchTimesOutOnce hostAccepts
               (fun _ => 1 # 2) (fun _ => 1 # 2) in
  ((1 <= Cloudinary.fetchCalls run <= 5)%nat /\ (Cloudinary.uploadCalls run <= 5)%nat) /\
  Cloudinary.fetchCalls run = 2%nat /\ Cloudinary.uploadCalls run = 1%nat /\
  Cloudinary.result run
    = Js.Return "https://res.cloudinary.com/dy40igzli/video/upload/v1/abc.mp4" /\
  Cloudinary.sleeps run = [Cloudinary.totalDelay 1000 0 (1 # 2)].
Proof.
  cbv zeta. split; [|by vm_compute].
  destruct (uploadVideoToCloudinary_spec string fetchTimesOutOnce hostAccepts
              (fun _ => 1 # 2) (fun _ => 1 # 2)
              ltac:(intros; split; lra) ltac:(intros; split; lra))
    as (Hfetches & Hposts & _).
  exact (conj Hfetches Hposts).
Defined.

(** ** The routes that count against the daily quota *)

Lemma getUser_incrementDailyVideoCount (other userId : string) (st : Storage.Store) :
  Storage.getUser other (Storage.incrementDailyVideoCount userId st)
  = (fun u => if String.eqb (User.id u) userId
              then User.set_dailyVideoCount (User.dailyVideoCount u + 1) u else u)
      <$> Storage.getUser other st.
Proof.
  unfold Storage.getUser, Storage.incrementDailyVideoCount, Storage.updateWhere.
  cbn [Storage.users Storage.set_users fst].
  apply (head_filter_fmap (fun u => String.eqb (User.id u) other)).
  intros u. by destruct (String.eqb (User.id u) userId).
Qed.

Lemma getUser_incrementDaily (n : nat) (userId : string) :
  forall (st : Storage.Store) (user : User.t),
    Storage.getUser userId st = Some user ->
    Storage.getUser userId (Routes.incrementDaily n userId st)
    = Some (User.set_dailyVideoCount (User.dailyVideoCount user + Z.of_nat n) user).
Proof.
  induction n as [|n IH]; intros st user Huser.
  - cbn. rewrite Huser, Z.add_0_r. by destruct user.
  - cbn [Routes.incrementDaily].
    assert (User.id user = userId) as Hid.
    { unfold Storage.getUser in Huser. apply head_Some_elem_of in Huser.
      apply list_elem_of_filter in Huser as [Hid _]. by apply String.eqb_eq. }
    rewrite (IH _ (User.set_dailyVideoCount (User.dailyVideoCount user + 1) user)).
    + unfold User.set_dailyVideoCount. cbn. do 2 f_equal. lia.
    + rewrite getUser_incrementDailyVideoCount, Huser. cbn.
      by rewrite Hid, String.eqb_refl.
Qed.

Lemma createRows_users gen now userId aspectRatio prompts :
  forall (i : Z) (st : Storage.Store),
    Storage.users (snd (Routes.createRows gen now userId aspectRatio i prompts st))
    = Storage.users st /\
    length (fst (Routes.createRows gen now userId aspectRatio i prompts st))
    = length prompts.
Proof.
  induction prompts as [|prompt rest IH]; intros i st; [done|].
  cbn [Routes.createRows]. unfold Storage.addVideoHistory.
  set (st1 := Storage.set_videoHistory _ st).
  destruct (IH (i + 1) st1) as [IH1 IH2].
  destruct (Routes.createRows gen now userId aspectRatio (i + 1) rest st1) as [queued st2].
  cbn [fst snd length] in *. by rewrite IH1, IH2.
Qed.

(** What an allowed bulk check tells about a user who is not an admin. *)
Lemma canBulkGenerate_allowed now user videoCount check :
  PlanEnforcement.canBulkGenerate now user videoCount = Js.Return check ->
  PlanEnforcement.allowed check = true ->
  User.isAdmin user = false ->
  exists config,
    PlanEnforcement.PLAN_CONFIGS (User.planType user) = PlanEnforcement.Plan config /\
    (config = PlanEnforcement.scale \/ config = PlanEnforcement.empire) /\
    PlanEnforcement.isPlanExpired now user = false /\
    videoCount <= PlanEnforcement.maxPrompts (PlanEnforcement.bulkGeneration config) /\
    videoCount
    <= Z.max 0 (PlanEnforcement.dailyVideoLimit config - User.dailyVideoCount user).
Proof.
  unfold PlanEnforcement.canBulkGenerate, PlanEnforcement.canAccessTool,
    PlanEnforcement.getRemainingVideos.
  intros Hcheck Hallowed Hadmin. rewrite Hadmin in Hcheck.
  destruct (PlanEnforcement.isPlanExpired now user).
  { cbn in Hcheck. injection Hcheck as <-. done. }
  destruct (PLAN_CONFIGS_cases (User.planType user))
    as [[_ Hp]|[[_ Hp]|[[_ Hp]|(_ & _ & _ & [[_ Hp]|[_ Hp]])]]]; rewrite Hp in Hcheck.
  - cbn in Hcheck. injection Hcheck as <-. done.
  - cbn [negb PlanEnforcement.includesTool PlanEnforcement.allowedTools
         PlanEnforcement.scale existsb PlanEnforcement.AllowedTool_eqb orb
         PlanEnforcement.allowed PlanEnforcement.bulkGeneration
         PlanEnforcement.maxPrompts PlanEnforcement.dailyVideoLimit
         PlanEnforcement.gtNum] in Hcheck.
    destruct (Z.gtb_spec videoCount 50); [injection Hcheck as <-; done|].
    destruct (Z.gtb_spec videoCount (Z.max 0 (1000 - User.dailyVideoCount user)));
      [injection Hcheck as <-; done|].
    exists PlanEnforcement.scale. repeat split; try done. by left.
  - cbn [negb PlanEnforcement.includesTool PlanEnforcement.allowedTools
         PlanEnforcement.empire existsb PlanEnforcement.AllowedTool_eqb orb
         PlanEnforcement.allowed PlanEnforcement.bulkGeneration
         PlanEnforcement.maxPrompts PlanEnforcement.dailyVideoLimit
         PlanEnforcement.gtNum] in Hcheck.
    destruct (Z.gtb_spec videoCount 100); [injection Hcheck as <-; done|].
    destruct (Z.gtb_spec videoCount (Z.max 0 (2000 - User.dailyVideoCount user)));
      [injection Hcheck as <-; done|].
    exists PlanEnforcement.empire. repeat split; try done. by right.
  - done.
  - cbn in Hcheck. injection Hcheck as <-. done.
Qed.

(** A user the bulk check lets through has a batch configuration. *)
Lemma getBatchConfig_allowed now user videoCount check :
  PlanEnforcement.canBulkGenerate now user videoCount = Js.Return check ->
  PlanEnforcement.allowed check = true ->
  exists batchConfig,
    PlanEnforcement.getBatchConfig user = Some batchConfig /\
    (PlanEnforcement.delaySeconds batchConfig = 30 \/
     PlanEnforcement.delaySeconds batchConfig = 10).
Proof.
  intros Hcheck Hallowed. unfold PlanEnforcement.getBatchConfig.
  destruct (User.isAdmin user) eqn:Hadmin; [eexists; split; [done | by right]|].
  destruct (canBulkGenerate_allowed now user _ check Hcheck Hallowed Hadmin)
    as (config & -> & [->| ->] & _); eexists; (split; [done|]); [by left | by right].
Qed.

Lemma getUser_id userId st user :
  Storage.getUser userId st = Some user -> User.id user = userId.
Proof.
  unfold Storage.getUser. intros Huser. apply head_Some_elem_of in Huser.
  apply list_elem_of_filter in Huser as [Hid _]. by apply String.eqb_eq.
Qed.

Lemma getUser_users userId st st' :
  Storage.users st' = Storage.users st ->
  Storage.getUser userId st' = Storage.getUser userId st.
Proof. unfold Storage.getUser. by intros ->. Qed.

Lemma incrementDaily_users j userId st st' :
  Storage.users st' = Storage.users st ->
  Storage.users (Routes.incrementDaily j userId st')
  = Storage.users (Routes.incrementDaily j userId st).
Proof.
  revert st st'. induction j as [|j IH]; intros st st' Husers; [done|].
  cbn [Routes.incrementDaily]. apply IH.
  unfold Storage.incrementDailyVideoCount. cbn. by rewrite Husers.
Qed.

(** The rows a request has inserted when its loop ends or a call rejects. *)
Lemma createRows_with_spec gen fails now userId aspectRatio prompts :
  forall (call : nat) (i : Z) (st : Storage.Store),
    let res := Routes.createRows_with gen fails call now userId aspectRatio i prompts st in
    exists rows,
      Storage.videoHistory (snd (fst res)) = Storage.videoHistory st ++ rows /\
      Storage.users (snd (fst res)) = Storage.users st /\
      (length rows <= length prompts)%nat /\
      (forall queued, fst (fst res) = Some queued ->
         length rows = length prompts /\
         map BulkQueue.videoId queued = map VideoHistory.id rows) /\
      (fst (fst res) = None -> exists k, fails k = true).
Proof.
  induction prompts as [|prompt rest IH]; intros call i st; cbv zeta.
  { exists []. cbn. rewrite app_nil_r.
    repeat split; intros; simplify_eq; first [done | lia]. }
  cbn [Routes.createRows_with].
  destruct (fails call) eqn:Hfails.
  { exists []. cbn. rewrite app_nil_r.
    repeat split; intros; simplify_eq; first [done | lia | by eauto]. }
  unfold Storage.addVideoHistory.
  set (row := VideoHistory.mk _ _ _ _ _ _ _ _ _ _ _ _ _ _ _ _).
  set (st1 := Storage.set_videoHistory _ st).
  specialize (IH (S call) (i + 1) st1). cbv zeta in IH.
  destruct (Routes.createRows_with gen fails (S call) now userId aspectRatio (i + 1) rest st1)
    as [[queued st2] call2].
  destruct IH as (rows & Hrows & Husers & Hlen & Hsome & Hnone). cbn [fst snd] in *.
  exists (row :: rows). split; [|split; [|split; [|split]]].
  - rewrite Hrows. unfold st1. cbn [Storage.videoHistory Storage.set_videoHistory].
    by rewrite <- app_assoc.
  - by rewrite Husers.
  - cbn. lia.
  - intros queued' Hq. destruct queued as [queued|]; [|done].
    cbn in Hq. injection Hq as <-.
    destruct (Hsome queued eq_refl) as [Hl Hids]. cbn. by rewrite Hl, Hids.
  - intros Hq. destruct queued as [queued|]; [done|]. by apply Hnone.
Qed.

Lemma createRows_with_total gen fails now userId aspectRatio prompts :
  (forall k, fails k = false) ->
  forall (call : nat) (i : Z) (st : Storage.Store),
    fst (Routes.createRows_with gen fails call now userId aspectRatio i prompts st)
    = (Some (fst (Routes.createRows gen now userId aspectRatio i prompts st)),
       snd (Routes.createRows gen now userId aspectRatio i prompts st)).
Proof.
  intros Hfails. induction prompts as [|prompt rest IH]; intros call i st; [done|].
  cbn [Routes.createRows_with Routes.createRows]. rewrite Hfails.
  unfold Storage.addVideoHistory.
  set (st1 := Storage.set_videoHistory _ st).
  specialize (IH (S call) (i + 1) st1).
  destruct (Routes.createRows_with gen fails (S call) now userId aspectRatio (i + 1) rest st1)
    as [[queued st2] call2].
  destruct (Routes.createRows gen now userId aspectRatio (i + 1) rest st1) as [queued' st2'].
  cbn [fst snd] in *. by injection IH as -> ->.
Qed.

(** The increments a request has made when its loop ends or a call
    rejects. *)
Lemma incrementDaily_with_spec fails userId (n : nat) :
  forall (call : nat) (st : Storage.Store),
    exists j : nat,
      snd (Routes.incrementDaily_with fails call n userId st)
      = Routes.incrementDaily j userId st /\
      (j <= n)%nat /\
      (fst (Routes.incrementDaily_with fails call n userId st) = true -> j = n) /\
      (fst (Routes.incrementDaily_with fails call n userId st) = false ->
         exists k, fails k = true).
Proof.
  induction n as [|n IH]; intros call st.
  { exists 0%nat. by cbn. }
  cbn [Routes.incrementDaily_with]. destruct (fails call) eqn:Hfails.
  { exists 0%nat. cbn. repeat split; try done; [lia | by eauto]. }
  destruct (IH (S call) (Storage.incrementDailyVideoCount userId st))
    as (j & Hst & Hj & Htrue & Hfalse).
  exists (S j). cbn [Routes.incrementDaily]. split; [done|]. split; [lia|].
  split; [intros H; by rewrite (Htrue H) | done].
Qed.

Lemma incrementDaily_with_total fails userId (n : nat) :
  (forall k, fails k = false) ->
  forall (call : nat) (st : Storage.Store),
    Routes.incrementDaily_with fails call n userId st
    = (true, Routes.incrementDaily n userId st).
Proof.
  intros Hfails. induction n as [|n IH]; intros call st; [done|].
  cbn [Routes.incrementDaily_with Routes.incrementDaily]. by rewrite Hfails, IH.
Qed.

(** [POST /api/bulk-generate], with store calls that can reject and with
    other requests between its read of the user row and its writes.  The
    queue changes only when the request is accepted.  A refusal (401, 404,
    400, 403) writes nothing.  The answer 500 can come after writes: the rows
    inserted and the increments made before the call that rejected stay, so
    the daily count then lags behind the rows or the rows behind the prompts;
    when no store call rejects, 500 is the answer only for a plan check that
    throws, and nothing is written.  When the request is accepted there is
    one new row and one id per prompt, and the user's daily count in the store
    has grown by the number of prompts.  The quota is checked against the user
    row as it was read: for a user who is not an admin the plan is scale or
    empire, has not expired, and the count that was read plus the number of
    prompts does not exceed the daily limit.  The check does not look at the
    store again, so a request accepted on one store is accepted on any other
    with the same row read: two overlapping requests can together pass the
    limit.  If the processor was idle it is started, and the delay between its
    batches is then the plan's (30 s for scale, 10 s for empire and for
    admins), whatever the settings row says.  Run alone, without a rejecting
    call, the handler is [bulkGenerate]. *)
Theorem bulkGenerate_counts_against_quota :
  forall (gen : nat -> string) (fails : nat -> bool) (now : Z) (session : option string)
         (prompts : list string) (aspectRatio : string)
         (read st : Storage.Store) (q : BulkQueue.Queue),
    let res := Routes.bulkGenerate_with gen fails now session prompts aspectRatio read st q in
    let response := fst (fst res) in
    let st' := snd (fst res) in
    let q' := snd res in
    ((forall videoIds, response <> Routes.Started videoIds) -> q' = q) /\
    ((forall videoIds, response <> Routes.Started videoIds) ->
     response <> Routes.ServerError -> st' = st) /\
    (response = Routes.ServerError ->
       exists (userId : string) (rows : list VideoHistory.t) (j : nat),
         Routes.sessionUser session = Some userId /\
         Storage.videoHistory st' = Storage.videoHistory st ++ rows /\
         Storage.users st' = Storage.users (Routes.incrementDaily j userId st) /\
         (length rows <= length prompts)%nat /\ (j <= length prompts)%nat /\
         ((0 < j)%nat -> length rows = length prompts) /\
         ((forall k, fails k = false) ->
            st' = st /\
            exists user e,
              Storage.getUser userId read = Some user /\
              PlanEnforcement.canBulkGenerate now user (Z.of_nat (length prompts))
              = Js.Throw e)) /\
    (forall videoIds,
       response = Routes.Started videoIds ->
       exists userId user,
         Routes.sessionUser session = Some userId /\
         Storage.getUser userId read = Some user /\
         length videoIds = length prompts /\
         (1 <= length prompts <= 100)%nat /\
         (exists rows,
            Storage.videoHistory st' = Storage.videoHistory st ++ rows /\
            map VideoHistory.id rows = videoIds) /\
         (forall current,
            Storage.getUser userId st = Some current ->
            Storage.getUser userId st'
            = Some (User.set_dailyVideoCount
                      (User.dailyVideoCount current + Z.of_nat (length prompts))
                      current)) /\
         (User.isAdmin user = false ->
          exists config,
            PlanEnforcement.PLAN_CONFIGS (User.planType user)
            = PlanEnforcement.Plan config /\
            (config = PlanEnforcement.scale \/ config = PlanEnforcement.empire) /\
            PlanEnforcement.isPlanExpired now user = false /\
            User.dailyVideoCount user + Z.of_nat (length prompts)
            <= PlanEnforcement.dailyVideoLimit config) /\
         (BulkQueue.isProcessing q = false ->
          BulkQueue.isProcessing q' = true /\
          exists batchConfig,
            PlanEnforcement.getBatchConfig user = Some batchConfig /\
            (PlanEnforcement.delaySeconds batchConfig = 30 \/
             PlanEnforcement.delaySeconds batchConfig = 10) /\
            forall settings,
              snd (BulkQueue.batchSettings (BulkQueue.overrideDelaySeconds q') settings)
              = PlanEnforcement.delaySeconds batchConfig) /\
         ((forall k, fails k = false) ->
          forall (st2 : Storage.Store) (q2 : BulkQueue.Queue),
          exists videoIds2,
            fst (fst (Routes.bulkGenerate_with gen fails now session prompts aspectRatio
                        read st2 q2))
            = Routes.Started videoIds2)) /\
    ((forall k, fails k = false) ->
     Routes.bulkGenerate_with gen fails now session prompts aspectRatio st st q
     = Routes.bulkGenerate gen now session prompts aspectRatio st q).
Proof.
  intros gen fails now session prompts aspectRatio read st q. cbv zeta.
  assert ((forall k, fails k = false) ->
          Routes.bulkGenerate_with gen fails now session prompts aspectRatio st st q
          = Routes.bulkGenerate gen now session prompts aspectRatio st q) as Halone.
  { intros Hfails. unfold Routes.bulkGenerate_with, Routes.bulkGenerate.
    destruct (Routes.sessionUser session) as [userId|]; [|done]. rewrite Hfails.
    destruct (Storage.getUser userId st) as [user|]; [|done].
    destruct (negb _); [done|].
    destruct (PlanEnforcement.canBulkGenerate _ _ _) as [bulkCheck|]; [|done].
    destruct (negb _); [done|].
    pose proof (createRows_with_total gen fails now userId aspectRatio prompts Hfails
                  1 0 st) as Hrows.
    destruct (Routes.createRows_with gen fails 1 now userId aspectRatio 0 prompts st)
      as [[queued st1] call].
    destruct (Routes.createRows gen now userId aspectRatio 0 prompts st) as [queued' st1'].
    cbn [fst snd] in Hrows. injection Hrows as -> ->.
    by rewrite incrementDaily_with_total. }
  assert (forall A B C D E : Prop, A /\ B /\ C /\ D -> E -> A /\ B /\ C /\ D /\ E)
    as Hsplit by tauto.
  apply Hsplit; [clear Hsplit Halone | exact Halone].
  remember (Routes.bulkGenerate_with gen fails now session prompts aspectRatio read st q)
    as res eqn:Hres.
  unfold Routes.bulkGenerate_with in Hres.
  destruct (Routes.sessionUser session) as [userId|] eqn:Hsession; [|by subst res].
  destruct (fails 0%nat) eqn:Hfails0.
  { (* 500: [getUser] rejects *)
    subst res. cbn [fst snd]. split; [done|]. split; [done|]. split; [|done].
    intros _. exists userId, [], 0%nat. rewrite app_nil_r.
    cbn [length Routes.incrementDaily].
    split; [done|]. split; [done|]. split; [done|]. split; [lia|]. split; [lia|].
    split; [lia|]. intros Hfails. by rewrite Hfails in Hfails0. }
  destruct (Storage.getUser userId read) as [user|] eqn:Huser; [|by subst res].
  destruct (Routes.validBulkBody prompts aspectRatio) eqn:Hvalid; cbn [negb] in Hres;
    [|by subst res].
  destruct (PlanEnforcement.canBulkGenerate now user (Z.of_nat (length prompts)))
    as [bulkCheck|e] eqn:Hcheck.
  2:{ (* 500: the plan check throws *)
      subst res. cbn [fst snd]. split; [done|]. split; [done|]. split; [|done].
      intros _. exists userId, [], 0%nat. rewrite app_nil_r.
      cbn [length Routes.incrementDaily].
      split; [done|]. split; [done|]. split; [done|]. split; [lia|]. split; [lia|].
      split; [lia|]. intros _. split; [done|]. by exists user, e. }
  destruct (PlanEnforcement.allowed bulkCheck) eqn:Hallowed; cbn [negb] in Hres;
    [|by subst res].
  destruct (getBatchConfig_allowed now user _ bulkCheck Hcheck Hallowed)
    as (batchConfig & Hbatch & Hdelay).
  rewrite Hbatch in Hres.
  destruct (createRows_with_spec gen fails now userId aspectRatio prompts 1 0 st)
    as (rows & Hrows & Husers & Hlen & Hsome & Hnone).
  destruct (Routes.createRows_with gen fails 1 now userId aspectRatio 0 prompts st)
    as [[[queued|] st1] call]; cbn [fst snd] in *; cycle 1.
  { (* 500: an insert rejects *)
    subst res. cbn [fst snd]. split; [done|]. split; [done|]. split; [|done].
    intros _. exists userId, rows, 0%nat. cbn [Routes.incrementDaily].
    split; [done|]. split; [done|]. split; [done|]. split; [lia|]. split; [lia|].
    split; [lia|]. intros Hfails.
    destruct (Hnone eq_refl) as [k Hk]. by rewrite Hfails in Hk. }
  destruct (Hsome queued eq_refl) as [Hall Hids].
  destruct (incrementDaily_with_spec fails userId (length prompts) call st1)
    as (j & Hst & Hj & Htrue & Hfalse).
  destruct (Routes.incrementDaily_with fails call (length prompts) userId st1)
    as [[|] st2]; cbn [fst snd] in *; cycle 1.
  { (* 500: an increment rejects *)
    subst res st2. cbn [fst snd]. split; [done|]. split; [done|]. split; [|done].
    intros _. exists userId, rows, j.
    split; [done|]. split; [by rewrite incrementDaily_videoHistory|].
    split; [by apply incrementDaily_users|]. split; [lia|]. split; [lia|].
    split; [done|]. intros Hfails.
    destruct (Hfalse eq_refl) as [k Hk]. by rewrite Hfails in Hk. }
  (* accepted *)
  rewrite (Htrue eq_refl) in Hst. subst res st2. cbn [fst snd].
  split; [intros Hnot; by destruct (Hnot (map BulkQueue.videoId queued))|].
  split; [intros Hnot; by destruct (Hnot (map BulkQueue.videoId queued))|].
  split; [done|].
  intros videoIds [= <-]. exists userId, user.
  assert (1 <= length prompts <= 100)%nat as Hcount.
  { unfold Routes.validBulkBody in Hvalid.
    apply andb_true_iff in Hvalid as [Hvalid _].
    apply andb_true_iff in Hvalid as [Hvalid Hmax].
    apply andb_true_iff in Hvalid as [_ Hmin].
    apply Nat.leb_le in Hmin, Hmax. lia. }
  split; [done|]. split; [done|].
  split; [by rewrite Hids, length_map|]. split; [done|].
  split; [|split; [|split; [|split]]].
  - exists rows. by rewrite incrementDaily_videoHistory.
  - intros current Hcurrent. apply getUser_incrementDaily.
    by rewrite (getUser_users userId st st1).
  - intros Hadmin.
    destruct (canBulkGenerate_allowed now user _ bulkCheck Hcheck Hallowed Hadmin)
      as (config & Hconfig & Hplan & Hexpired & _ & Hquota).
    exists config. repeat split; try done. lia.
  - intros Hidle.
    unfold BulkQueue.addToQueue, BulkQueue.processQueue_start.
    cbn [BulkQueue.isProcessing]. rewrite Hidle. cbn [negb BulkQueue.isProcessing].
    split; [done|]. exists batchConfig. split; [done|]. split; [done|].
    intros settings. cbn [BulkQueue.overrideDelaySeconds]. unfold BulkQueue.batchSettings.
    destruct Hdelay as [-> | ->]; by destruct settings as [[row|]|e'].
  - intros Hfails st2 q2. unfold Routes.bulkGenerate_with.
    rewrite Hsession, Hfails0, Huser, Hvalid, Hcheck, Hallowed, Hbatch. cbn [negb].
    pose proof (createRows_with_total gen fails now userId aspectRatio prompts Hfails
                  1 0 st2) as Hrows2.
    destruct (Routes.createRows_with gen fails 1 now userId aspectRatio 0 prompts st2)
      as [[queued2 st3] call2].
    cbn [fst snd] in Hrows2. injection Hrows2 as -> _.
    rewrite incrementDaily_with_total by done. by eexists.
Qed.

(** Two requests of ten prompts each by a scale user who has 990 videos
    today overlap: both read the user row before either writes.  Both are
    accepted, and the count ends at 1010, above the limit of 1000. *)
Lemma bulkGenerate_overlapping_requests :
  let noFailure (k : nat) := false in
  let first :=
    Routes.bulkGenerate_with S1_gen noFailure 1000 (Some "user-9") tenPrompts "landscape"
      nearLimitStore nearLimitStore BulkQueue.emptyQueue in
  let second :=
    Routes.bulkGenerate_with S1_gen noFailure 1000 (Some "user-9") tenPrompts "landscape"
      nearLimitStore (snd (fst first)) (snd first) in
  (exists videoIds, fst (fst first) = Routes.Started videoIds) /\
  (exists videoIds, fst (fst second) = Routes.Started videoIds) /\
  User.dailyVideoCount <$> Storage.getUser "user-9" nearLimitStore = Some 990 /\
  User.dailyVideoCount <$> Storage.getUser "user-9" (snd (fst second)) = Some 1010 /\
  length (Storage.videoHistory (snd (fst second))) = 20%nat.
Proof.
  cbv zeta.
  assert (exists videoIds,
            fst (fst (Routes.bulkGenerate_with S1_gen (fun _ => false) 1000 (Some "user-9")
                        tenPrompts "landscape" nearLimitStore nearLimitStore
                        BulkQueue.emptyQueue))
            = Routes.Started videoIds) as [videoIds Hfirst] by (vm_compute; by eexists).
  destruct (bulkGenerate_counts_against_quota S1_gen (fun _ => false) 1000 (Some "user-9")
              tenPrompts "landscape" nearLimitStore nearLimitStore BulkQueue.emptyQueue)
    as (_ & _ & _ & Hstarted & _).
  destruct (Hstarted videoIds Hfirst) as (userId & user & _ & _ & _ & _ & _ & _ & _ & _ & Hagain).
  split; [by exists videoIds|]. split; [by apply Hagain|]. by vm_compute.
Defined.

(** [POST /api/video-history], with store calls that can reject.  The
    checks come in this order: session (401), the read of the user row (500
    when it rejects, 404 without a row), plan and daily quota (403, or 500 for
    a plan type that is no property of the table), body (400).  Then the row
    is inserted under the generated id with the session's user id and the
    body's columns, and unless the saved status is [failed] the user's daily
    count grows by one.  When the insert rejects the answer is 500 and nothing
    is written; when the increment rejects the answer is 500 as well, but the
    row stays and is not counted.  A free user whose count is not negative is
    always refused, the daily limit of the free plan being 0; a user whose
    plan type is a property name of [Object.prototype] passes the plan check
    whatever the count. *)
Theorem postVideoHistory_spec :
  forall (fails : nat -> bool) (newId : string) (now : Z) (session : option string)
         (body : Routes.HistoryBody) (read st : Storage.Store),
    let res := Routes.postVideoHistory fails newId now session body read st in
    (Routes.sessionUser session = None -> res = (Routes.NotAuthenticated, st)) /\
    (forall userId,
       Routes.sessionUser session = Some userId ->
       (fails 0%nat = true -> res = (Routes.ServerError, st)) /\
       (fails 0%nat = false ->
        (Storage.getUser userId read = None -> res = (Routes.NotFound, st)) /\
        (forall user,
           Storage.getUser userId read = Some user ->
           (forall e, PlanEnforcement.canGenerateVideo now user = Js.Throw e ->
                      res = (Routes.ServerError, st)) /\
           (forall check,
              PlanEnforcement.canGenerateVideo now user = Js.Return check ->
              (PlanEnforcement.allowed check = false ->
               res = (Routes.Forbidden (PlanEnforcement.reason check), st)) /\
              (PlanEnforcement.allowed check = true ->
               (Routes.validHistoryBody body = false -> res = (Routes.InvalidInput, st)) /\
               (Routes.validHistoryBody body = true ->
                (fails 1%nat = true -> res = (Routes.ServerError, st)) /\
                (fails 1%nat = false ->
                 exists video,
                   VideoHistory.id video = newId /\
                   VideoHistory.userId video = userId /\
                   VideoHistory.status video = Routes.h_status body /\
                   VideoHistory.prompt video = Routes.h_prompt body /\
                   Storage.videoHistory (snd res) = Storage.videoHistory st ++ [video] /\
                   (Routes.h_status body = "failed" ->
                    fst res = Routes.Updated video /\
                    Storage.users (snd res) = Storage.users st) /\
                   (Routes.h_status body <> "failed" ->
                    (fails 2%nat = true ->
                     fst res = Routes.ServerError /\
                     Storage.users (snd res) = Storage.users st) /\
                    (fails 2%nat = false ->
                     fst res = Routes.Updated video /\
                     forall current,
                       Storage.getUser userId st = Some current ->
                       Storage.getUser userId (snd res)
                       = Some (User.set_dailyVideoCount
                                 (User.dailyVideoCount current + 1) current))))))) /\
           (User.isAdmin user = false -> User.planType user = "free" ->
            0 <= User.dailyVideoCount user ->
            exists reason, res = (Routes.Forbidden (Some reason), st)) /\
           (User.isAdmin user = false ->
            PlanEnforcement.isPlanExpired now user = false ->
            User.planType user ∈ Js.objectPrototypeKeys ->
            PlanEnforcement.canGenerateVideo now user
            = Js.Return
                (PlanEnforcement.mkResult true None (Some PlanEnforcement.NaN)))))).
Proof.
  intros fails newId now session body read st. cbv zeta. unfold Routes.postVideoHistory.
  destruct (Routes.sessionUser session) as [userId|]; [|by split].
  split; [done|]. intros ? [= <-].
  destruct (fails 0%nat); [by split|]. split; [done|]. intros _.
  destruct (Storage.getUser userId read) as [user|] eqn:Huser; [|by split].
  split; [done|]. intros ? [= <-]. split; [|split; [|split]].
  - by intros e ->.
  - intros check ->. split; [by intros ->|]. intros ->. cbn [negb].
    split; [by intros ->|]. intros ->. cbn [negb].
    destruct (fails 1%nat); [by split|]. split; [done|]. intros _.
    unfold Storage.addVideoHistory.
    set (video := VideoHistory.mk newId _ _ _ _ _ _ _ _ _ _ _ _ _ _ _).
    set (st1 := Storage.set_videoHistory _ st).
    exists video. split; [done|]. split; [done|]. split; [done|]. split; [done|].
    destruct (String.eqb_spec (Routes.h_status body) "failed") as [Hfailed|Hfailed];
      cbn [negb].
    { split; [done|]. split; [done|]. by intros ?. }
    destruct (fails 2%nat); cbn [fst snd].
    { split; [done|]. split; [done|]. intros _. split; [done|]. by intros ?. }
    split; [done|]. split; [done|]. intros _. split; [done|]. intros _.
    split; [done|]. intros current Hcurrent.
    assert (Storage.getUser userId st1 = Some current) as Hcurrent1 by exact Hcurrent.
    rewrite getUser_incrementDailyVideoCount, Hcurrent1. cbn.
    by rewrite (getUser_id userId st current Hcurrent), String.eqb_refl.
  - intros Hadmin Hfree Hcount.
    unfold PlanEnforcement.canGenerateVideo, PlanEnforcement.isPlanExpired,
      PlanEnforcement.hasReachedDailyLimit.
    rewrite Hadmin, Hfree. cbn.
    destruct (Z.geb_spec (User.dailyVideoCount user) 0); [|lia]. cbn. eauto.
  - intros Hadmin Hexpired Hin.
    unfold PlanEnforcement.canGenerateVideo, PlanEnforcement.hasReachedDailyLimit,
      PlanEnforcement.getRemainingVideos.
    apply PLAN_CONFIGS_Inherited in Hin. by rewrite Hadmin, Hexpired, Hin.
Qed.

(** ** The monitor's buffers *)

Lemma pushCapped_lastN {A} (cap : nat) (x : A) (l : list A) :
  (1 <= cap)%nat ->
  Monitoring.pushCapped cap x (lastN cap l) = lastN cap (l ++ [x]).
Proof.
  intros Hcap. unfold Monitoring.pushCapped, lastN.
  rewrite !length_app, length_drop. cbn [length].
  destruct (Nat.ltb_spec cap (length l - (length l - cap) + 1)) as [Hfull|Hroom].
  - replace (length l + 1 - cap)%nat with (length l - cap + 1)%nat by lia.
    rewrite !drop_app_le by lia. rewrite <- drop_drop.
    destruct (drop (length l - cap) l) as [|y rest] eqn:E; [|done].
    apply (f_equal length) in E. rewrite length_drop in E. cbn in E. lia.
  - rewrite drop_app_le by lia.
    replace (length l + 1 - cap)%nat with (length l - cap)%nat by lia. done.
Qed.

Lemma dropOld_sublist (cutoff : Z) (errors : list Monitoring.ErrorEntry) :
  sublist (Monitoring.dropOld cutoff errors) errors /\
  (forall e, e ∈ errors -> cutoff <= Monitoring.timestamp e ->
             e ∈ Monitoring.dropOld cutoff errors).
Proof.
  induction errors as [|x errors [IH1 IH2]]; [done|].
  cbn [Monitoring.dropOld]. destruct (Z.ltb_spec (Monitoring.timestamp x) cutoff).
  - split; [by apply sublist_cons|]. intros e He Hts.
    apply elem_of_cons in He as [->|He]; [lia | by apply IH2].
  - done.
Qed.

(** Over every run of the monitor: each timing buffer holds the last 1000
    durations reported to it, in order, the oldest leaving first; the error log
    never holds more than 100 entries, every entry in it was reported, in that
    order, and an error just reported is its last entry; the ten-minute
    cleanup keeps every entry that is not older than an hour. *)
Theorem monitoring_buffers_spec :
  forall events : list Monitoring.Event,
    let s := monitorRun events in
    Monitoring.veoApiCalls s = lastN 1000 (veoSamples events) /\
    Monitoring.dbQueries s = lastN 1000 (dbSamples events) /\
    (length (Monitoring.veoApiCalls s) <= 1000)%nat /\
    (length (Monitoring.dbQueries s) <= 1000)%nat /\
    (length (Monitoring.errors s) <= 100)%nat /\
    sublist (Monitoring.errors s) (errorEntries events) /\
    (forall now type message,
       last (Monitoring.errors
               (Monitoring.step s (Monitoring.Error now type message)))
       = Some (Monitoring.mkEntry now type message)) /\
    (forall now e,
       e ∈ Monitoring.errors s -> now - 60 * 60 * 1000 <= Monitoring.timestamp e ->
       e ∈ Monitoring.errors (Monitoring.step s (Monitoring.Cleanup now))).
Proof.
  intros events. cbv zeta.
  assert (forall A (l : list A) cap, (length (lastN cap l) <= cap)%nat) as Hlen.
  { intros A l cap. unfold lastN. rewrite length_drop. lia. }
  assert (Monitoring.veoApiCalls (monitorRun events) = lastN 1000 (veoSamples events) /\
          Monitoring.dbQueries (monitorRun events) = lastN 1000 (dbSamples events) /\
          (length (Monitoring.errors (monitorRun events)) <= 100)%nat /\
          sublist (Monitoring.errors (monitorRun events)) (errorEntries events))
    as (Hveo & Hdb & Herrors & Hsub).
  { unfold monitorRun. induction events as [|e events IH] using rev_ind.
    { cbn. repeat split; [lia | constructor]. }
    rewrite foldl_app. cbn [foldl].
    destruct IH as (Hveo & Hdb & Herrors & Hsub).
    unfold veoSamples, dbSamples, errorEntries. rewrite !omap_app.
    fold (veoSamples events) (dbSamples events) (errorEntries events).
    destruct e as [duration|duration|now type message|now];
      cbn [Monitoring.step omap Monitoring.trackVeoApiCall Monitoring.trackDbQuery
           Monitoring.trackError Monitoring.cleanup Monitoring.veoApiCalls
           Monitoring.dbQueries Monitoring.errors];
      rewrite ?app_nil_r.
    - rewrite Hveo. split; [apply pushCapped_lastN; unfold Monitoring.MAX_TIMING_SAMPLES; lia
                           | done].
    - rewrite Hdb. split; [done|].
      split; [apply pushCapped_lastN; unfold Monitoring.MAX_TIMING_SAMPLES; lia | done].
    - split; [done|]. split; [done|].
      unfold Monitoring.pushCapped, Monitoring.MAX_ERROR_LOG. rewrite length_app.
      cbn [length].
      destruct (Nat.ltb_spec 100 (length (Monitoring.errors (foldl Monitoring.step
                                                             Monitoring.init events)) + 1)).
      + destruct (Monitoring.errors _) as [|x rest]; [cbn in *; lia|].
        cbn [app tail length] in *. split; [rewrite length_app; cbn; lia|].
        apply sublist_app; [|done]. etrans; [|exact Hsub]. by apply sublist_cons.
      + split; [rewrite length_app; cbn; lia|]. by apply sublist_app.
    - split; [done|]. split; [done|].
      destruct (dropOld_sublist (now - 60 * 60 * 1000)
                  (Monitoring.errors (foldl Monitoring.step Monitoring.init events)))
        as [Hd _].
      split.
      + apply sublist_length in Hd. lia.
      + by etrans. }
  split; [done|]. split; [done|].
  split; [rewrite Hveo; apply Hlen|]. split; [rewrite Hdb; apply Hlen|].
  split; [done|]. split; [done|]. split; cycle 1.
  { intros now e He Hts. cbn [Monitoring.step Monitoring.cleanup Monitoring.errors].
    by apply dropOld_sublist. }
  intros now type message. cbn [Monitoring.step Monitoring.trackError Monitoring.errors].
  unfold Monitoring.pushCapped, Monitoring.MAX_ERROR_LOG.
  destruct (Nat.ltb_spec 100
              (length (Monitoring.errors (monitorRun events)
                       ++ [Monitoring.mkEntry now type message])))
    as [Hfull|_]; [|by rewrite last_snoc].
  destruct (Monitoring.errors (monitorRun events)) as [|x rest]; [cbn in Hfull; lia|].
  cbn [app tail]. by rewrite last_snoc.
Qed.

(** ** The retry wrapper with other parameters *)


(** ** The settings row is a singleton *)

Lemma getCurrentBatchToken_settings_length now st :
  length (Storage.tokenSettings (snd (Storage.getCurrentBatchToken now st)))
  = length (Storage.tokenSettings st).
Proof.
  unfold Storage.getCurrentBatchToken.
  destruct (head (Storage.tokenSettings st)) as [settings|]; [|done].
  destruct (Storage.orderBy _ _) as [|t0 rest]; [done|].
  pose proof (filterAvailable_tables now (t0 :: rest) st) as (_ & _ & Hsettings & _).
  destruct (Storage.filterAvailable now (t0 :: rest) st) as [available st1].
  cbn [snd] in Hsettings.
  rewrite <- Hsettings.
  destruct available as [|a0 available]; [done|].
  destruct (Js.index _ _) as [selected|]; [|done].
  destruct (Storage.getTokenById _ st1) as [currentToken|]; [|done].
  destruct (_ >=? _).
  - destruct (Js.index _ _) as [nextSelected|]; [|done].
    destruct (Storage.getTokenById _ _) as [nextToken|]; [|done].
    rewrite (surjective_pairing (Storage.updateWhere _ _ _)).
    destruct (head _); [|done].
    cbn [snd Storage.tokenSettings Storage.set_tokenSettings Storage.set_apiTokens].
    by rewrite updateWhere_length.
  - rewrite (surjective_pairing (Storage.updateWhere _ _ _)).
    by destruct (head _).
Qed.

(** Over every run of [initializeTokenSettings], [updateTokenSettings] and
    token dispenses that starts without a settings row, the table never holds
    more than one row.  After [initializeTokenSettings] there is a row, and a
    second call changes nothing; [updateTokenSettings] returns the row it
    wrote, which is then the row [getTokenSettings] reads. *)
Theorem tokenSettings_singleton :
  forall (defaults : TokenSettings.t) (ops : list SettingsOp) (st0 : Storage.Store),
    let st := foldl (settingsStep defaults) st0 ops in
    let initialised := Storage.initializeTokenSettings defaults st in
    (Storage.tokenSettings st0 = [] -> (length (Storage.tokenSettings st) <= 1)%nat) /\
    is_Some (Storage.getTokenSettings initialised) /\
    Storage.initializeTokenSettings defaults initialised = initialised /\
    (is_Some (Storage.getTokenSettings st) -> initialised = st) /\
    (forall set,
       (length (Storage.tokenSettings st) <= 1)%nat ->
       exists row,
         fst (Storage.updateTokenSettings defaults set st) = Some row /\
         Storage.getTokenSettings (snd (Storage.updateTokenSettings defaults set st))
         = Some row /\
         row = set (default defaults (Storage.getTokenSettings st))).
Proof.
  intros defaults ops st0. cbv zeta.
  set (st := foldl (settingsStep defaults) st0 ops).
  split; [|split; [|split; [|split]]].
  - intros Hempty. unfold st.
    induction ops as [|op ops IH] using rev_ind; [cbn; rewrite Hempty; cbn; lia|].
    rewrite foldl_app. cbn [foldl].
    destruct op as [|set|now]; cbn [settingsStep].
    + unfold Storage.initializeTokenSettings, Storage.getTokenSettings.
      destruct (Storage.tokenSettings (foldl _ st0 ops)) as [|row rows] eqn:E;
        cbn [head]; [|by rewrite E].
      cbn. by rewrite E.
    + unfold Storage.updateTokenSettings, Storage.getTokenSettings.
      destruct (Storage.tokenSettings (foldl _ st0 ops)) as [|row rows] eqn:E;
        cbn [head].
      * cbn. by rewrite E.
      * rewrite (surjective_pairing (Storage.updateWhere _ _ _)). cbn [snd fst].
        cbn [Storage.tokenSettings Storage.set_tokenSettings].
        by rewrite updateWhere_length.
    + by rewrite getCurrentBatchToken_settings_length.
  - unfold Storage.initializeTokenSettings, Storage.getTokenSettings.
    destruct (Storage.tokenSettings st) as [|row rows] eqn:E; cbn [head].
    + cbn. rewrite E. by eexists.
    + rewrite E. by eexists.
  - unfold Storage.initializeTokenSettings at 2.
    destruct (Storage.getTokenSettings st) as [row|] eqn:E.
    + unfold Storage.initializeTokenSettings. by rewrite E.
    + unfold Storage.initializeTokenSettings, Storage.getTokenSettings in *.
      cbn. apply head_None in E. by rewrite E.
  - intros [row Hrow]. unfold Storage.initializeTokenSettings. by rewrite Hrow.
  - intros set Hlen. unfold Storage.updateTokenSettings, Storage.getTokenSettings.
    destruct (Storage.tokenSettings st) as [|row rows] eqn:E; cbn [head].
    + exists (set defaults). cbn. by rewrite E.
    + destruct rows as [|row' rows]; [|cbn in Hlen; lia].
      exists (set row). unfold Storage.updateWhere. cbn.
      by rewrite String.eqb_refl.
Qed.

(** ** The client's status check and its timeouts *)

Lemma retryWaits_S retryCount k :
  retryWaits retryCount (S k) = Veo3.waitTime retryCount :: retryWaits (retryCount + 1) k.
Proof.
  unfold retryWaits. cbn [seq map]. rewrite Z.add_0_r. f_equal.
  rewrite <- fmap_S_seq, <- list_fmap_compose. apply list_fmap_ext.
  intros i x _. cbn. f_equal. lia.
Qed.

Section VeoStatusCheck.

Variable request : nat -> Js.Completion Veo3.StatusResult.

Lemma checkVideoStatus_from_spec :
  forall (n : nat) (retryCount : Z) (calls : nat) (slept : list Q),
    n = Z.to_nat (Veo3.MAX_RETRIES - retryCount) ->
    exists run,
      (forall passes, (n < passes)%nat ->
         Veo3.checkVideoStatus_from request passes retryCount calls slept = Some run) /\
      (calls < Db.calls run <= calls + n + 1)%nat /\
      Db.delays run = slept ++ retryWaits retryCount (Db.calls run - calls - 1) /\
      (forall k, (calls <= k < Db.calls run - 1)%nat ->
         exists e, request k = Js.Throw e /\ Veo3.isAbortError e = true) /\
      Db.completion run
        = match request (Db.calls run - 1) with
          | Js.Return result => Js.Return result
          | Js.Throw e => if Veo3.isAbortError e then Js.Return Veo3.pending else Js.Throw e
          end /\
      (forall e, request (Db.calls run - 1) = Js.Throw e -> Veo3.isAbortError e = true ->
         Db.calls run = (calls + n + 1)%nat).
Proof.
  induction n as [|n IH]; intros retryCount calls slept Hn.
  - assert (Veo3.MAX_RETRIES <= retryCount) as Hge by lia.
    destruct (request calls) as [result|e] eqn:Hreq;
      [|destruct (Veo3.isAbortError e) eqn:Habort].
    + exists (Db.mkRun (Js.Return result) (S calls) slept).
      cbn [Db.calls Db.delays Db.completion].
      replace (S calls - 1)%nat with calls by lia.
      replace (S calls - calls - 1)%nat with 0%nat by lia.
      rewrite Hreq. split; [|split; [lia|split; [by rewrite app_nil_r|split; [|done]]]].
      * intros [|passes] Hp; [lia|]. cbn [Veo3.checkVideoStatus_from]. by rewrite Hreq.
      * intros k Hk. lia.
    + exists (Db.mkRun (Js.Return Veo3.pending) (S calls) slept).
      cbn [Db.calls Db.delays Db.completion].
      replace (S calls - 1)%nat with calls by lia.
      replace (S calls - calls - 1)%nat with 0%nat by lia.
      rewrite Hreq, Habort.
      split; [|split; [lia|split; [by rewrite app_nil_r|split; [|split; [done|]]]]].
      * intros [|passes] Hp; [lia|]. cbn [Veo3.checkVideoStatus_from].
        rewrite Hreq, Habort. destruct (Z.ltb_spec retryCount Veo3.MAX_RETRIES); [lia | done].
      * intros k Hk. lia.
      * intros; lia.
    + exists (Db.mkRun (Js.Throw e) (S calls) slept).
      cbn [Db.calls Db.delays Db.completion].
      replace (S calls - 1)%nat with calls by lia.
      replace (S calls - calls - 1)%nat with 0%nat by lia.
      rewrite Hreq, Habort.
      split; [|split; [lia|split; [by rewrite app_nil_r|split; [|split; [done|]]]]].
      * intros [|passes] Hp; [lia|]. cbn [Veo3.checkVideoStatus_from].
        by rewrite Hreq, Habort.
      * intros k Hk. lia.
      * intros e' [= <-] He'. congruence.
  - assert (retryCount < Veo3.MAX_RETRIES) as Hlt by lia.
    destruct (request calls) as [result|e] eqn:Hreq;
      [|destruct (Veo3.isAbortError e) eqn:Habort].
    + exists (Db.mkRun (Js.Return result) (S calls) slept).
      cbn [Db.calls Db.delays Db.completion].
      replace (S calls - 1)%nat with calls by lia.
      replace (S calls - calls - 1)%nat with 0%nat by lia.
      rewrite Hreq. split; [|split; [lia|split; [by rewrite app_nil_r|split; [|done]]]].
      * intros [|passes] Hp; [lia|]. cbn [Veo3.checkVideoStatus_from]. by rewrite Hreq.
      * intros k Hk. lia.
    + destruct (IH (retryCount + 1) (S calls) (slept ++ [Veo3.waitTime retryCount])
                  ltac:(lia))
        as (run & Hrun & Hcalls & Hdelays & Hearlier & Hcompletion & Hall).
      exists run. split; [|split; [lia|split; [|split; [|split; [done|]]]]].
      * intros [|passes] Hp; [lia|]. cbn [Veo3.checkVideoStatus_from].
        rewrite Hreq, Habort.
        destruct (Z.ltb_spec retryCount Veo3.MAX_RETRIES); [|lia].
        apply Hrun. lia.
      * rewrite Hdelays, <- app_assoc. f_equal.
        replace (Db.calls run - calls - 1)%nat with (S (Db.calls run - S calls - 1)) by lia.
        by rewrite retryWaits_S.
      * intros k Hk. destruct (decide (k = calls)) as [->|Hne]; [by exists e|].
        apply Hearlier. lia.
      * intros e' He' Habort'. rewrite (Hall e' He' Habort'). lia.
    + exists (Db.mkRun (Js.Throw e) (S calls) slept).
      cbn [Db.calls Db.delays Db.completion].
      replace (S calls - 1)%nat with calls by lia.
      replace (S calls - calls - 1)%nat with 0%nat by lia.
      rewrite Hreq, Habort.
      split; [|split; [lia|split; [by rewrite app_nil_r|split; [|split; [done|]]]]].
      * intros [|passes] Hp; [lia|]. cbn [Veo3.checkVideoStatus_from].
        by rewrite Hreq, Habort.
      * intros k Hk. lia.
      * intros e' [= <-] He'. congruence.
Qed.

End VeoStatusCheck.

(** The client's [checkVideoStatus] called with [retryCount] makes at least
    one and at most [MAX_RETRIES - retryCount + 1] requests (four for the
    callers, who pass none), and it ends.  Every request before the last timed
    out, and the waits between the requests double from
    [2^retryCount] seconds: 1, 2 and 4 seconds for the callers.  The last
    request decides: its result is returned, its error is thrown again unless
    it is a timeout, and a timeout of the last request allowed gives the status
    PENDING.  A timeout is never thrown to the caller. *)
Theorem veo_checkVideoStatus_retries :
  forall (request : nat -> Js.Completion Veo3.StatusResult) (retryCount : Z),
    let n := Z.to_nat (Veo3.MAX_RETRIES - retryCount) in
    exists run,
      (forall passes, (n < passes)%nat ->
         Veo3.checkVideoStatus request passes retryCount = Some run) /\
      (1 <= Db.calls run <= n + 1)%nat /\
      Db.delays run = retryWaits retryCount (Db.calls run - 1) /\
      (retryCount = 0 ->
         Db.delays run
         = take (Db.calls run - 1) [inject_Z 1000; inject_Z 2000; inject_Z 4000]) /\
      (forall k, (k < Db.calls run - 1)%nat ->
         exists e, request k = Js.Throw e /\ Veo3.isAbortError e = true) /\
      (forall result, request (Db.calls run - 1)%nat = Js.Return result ->
         Db.completion run = Js.Return result) /\
      (forall e, request (Db.calls run - 1)%nat = Js.Throw e ->
         if Veo3.isAbortError e
         then Db.completion run = Js.Return Veo3.pending /\ Db.calls run = (n + 1)%nat
         else Db.completion run = Js.Throw e) /\
      (forall e, Db.completion run = Js.Throw e -> Veo3.isAbortError e = false).
Proof.
  intros request retryCount n.
  destruct (checkVideoStatus_from_spec request n retryCount 0 [] eq_refl)
    as (run & Hrun & Hcalls & Hdelays & Hearlier & Hcompletion & Hall).
  exists run. rewrite Nat.sub_0_r in Hdelays. cbn [app] in Hdelays.
  split; [done|]. split; [lia|]. split; [done|]. split; [|split; [|split; [|split]]].
  - intros Hzero. rewrite Hdelays, Hzero.
    assert (n = 3%nat) as Hn by (unfold n; rewrite Hzero; reflexivity).
    assert (Db.calls run - 1 <= 3)%nat as Hle by lia.
    destruct (Db.calls run - 1)%nat as [|[|[|[|k]]]]; [done..|lia].
  - intros k Hk. apply Hearlier. lia.
  - intros result Hreq. by rewrite Hcompletion, Hreq.
  - intros e Hreq. rewrite Hcompletion, Hreq.
    destruct (Veo3.isAbortError e) eqn:Habort; [|done].
    split; [done|]. rewrite (Hall e Hreq Habort). lia.
  - intros e He. rewrite Hcompletion in He.
    destruct (request (Db.calls run - 1)%nat) as [result|e'] eqn:Hreq; [done|].
    destruct (Veo3.isAbortError e') eqn:Habort; [done|]. by injection He as <-.
Qed.

(** ** The wait for a video *)

Section VeoWait.

Variable check : nat -> Js.Completion Veo3.StatusResult.
Variable elapsed : nat -> Z.
Variable maxWaitTime : Z.

(** The timers do not fire early: the first test of the condition comes 15
    seconds after the start or later, and each further one 15 seconds after
    the one before or later. *)
Hypothesis first_test : 15000 <= elapsed 0.
Hypothesis next_test : forall k, elapsed k + 15000 <= elapsed (S k).

Lemma elapsed_lower_bound k : 15000 * (Z.of_nat k + 1) <= elapsed k.
Proof.
  induction k as [|k IH]; [cbn; lia|]. pose proof (next_test k). lia.
Qed.

Lemma waitForVideoCompletion_loop_spec :
  forall (passes polls : nat),
    (0 < passes)%nat ->
    (Z.to_nat (maxWaitTime / 15000) < passes + polls)%nat ->
    exists c n,
      Veo3.waitForVideoCompletion_loop check elapsed maxWaitTime passes polls = Some (c, n) /\
      (forall more, (passes <= more)%nat ->
         Veo3.waitForVideoCompletion_loop check elapsed maxWaitTime more polls
         = Some (c, n)) /\
      (polls <= n)%nat /\
      (n = polls \/ 15000 * Z.of_nat n < maxWaitTime) /\
      (forall k, (polls <= k < n - 1)%nat -> keepsWaiting check k) /\
      (c = Js.Throw Veo3.timedOut /\ maxWaitTime <= elapsed n /\
       (forall k, (polls <= k < n)%nat -> keepsWaiting check k) \/
       (polls < n)%nat /\ elapsed (n - 1) < maxWaitTime /\
       match check (n - 1) with
       | Js.Throw e => c = Js.Throw e
       | Js.Return result =>
           if Veo3.isComplete (Veo3.status result) then
             match Veo3.videoUrl result with
             | Some url =>
                 if String.eqb url "" then c = Js.Throw Veo3.completedWithoutUrl
                 else c = Js.Return url
             | None => c = Js.Throw Veo3.completedWithoutUrl
             end
           else
             Veo3.isFailed (Veo3.status result) = true /\
             c = Js.Throw (Veo3.generationFailed (Veo3.error result))
       end).
Proof.
  induction passes as [|passes IH]; intros polls Hpos Hfuel; [lia|].
  cbn [Veo3.waitForVideoCompletion_loop].
  destruct (Z.ltb_spec (elapsed polls) maxWaitTime) as [Hlt|Hge].
  2:{ exists (Js.Throw Veo3.timedOut), polls. split; [done|]. split.
      { intros [|more] Hmore; [lia|]. cbn [Veo3.waitForVideoCompletion_loop].
        destruct (Z.ltb_spec (elapsed polls) maxWaitTime); [lia | done]. }
      split; [lia|]. split; [by left|]. split; [intros; lia|].
      left. split; [done|]. split; [done|]. intros; lia. }
  assert (forall c,
            match check polls with
            | Js.Throw e => c = Js.Throw e
            | Js.Return result =>
                if Veo3.isComplete (Veo3.status result) then
                  match Veo3.videoUrl result with
                  | Some url =>
                      if String.eqb url "" then c = Js.Throw Veo3.completedWithoutUrl
                      else c = Js.Return url
                  | None => c = Js.Throw Veo3.completedWithoutUrl
                  end
                else
                  Veo3.isFailed (Veo3.status result) = true /\
                  c = Js.Throw (Veo3.generationFailed (Veo3.error result))
            end ->
            (forall more, (0 < more)%nat ->
               Veo3.waitForVideoCompletion_loop check elapsed maxWaitTime more polls
               = Some (c, S polls)) ->
            exists c' n,
              Some (c, S polls) = Some (c', n) /\
              (forall more, (S passes <= more)%nat ->
                 Veo3.waitForVideoCompletion_loop check elapsed maxWaitTime more polls
                 = Some (c', n)) /\
              (polls <= n)%nat /\
              (n = polls \/ 15000 * Z.of_nat n < maxWaitTime) /\
              (forall k, (polls <= k < n - 1)%nat -> keepsWaiting check k) /\
              (c' = Js.Throw Veo3.timedOut /\ maxWaitTime <= elapsed n /\
               (forall k, (polls <= k < n)%nat -> keepsWaiting check k) \/
               (polls < n)%nat /\ elapsed (n - 1) < maxWaitTime /\
               match check (n - 1) with
               | Js.Throw e => c' = Js.Throw e
               | Js.Return result =>
                   if Veo3.isComplete (Veo3.status result) then
                     match Veo3.videoUrl result with
                     | Some url =>
                         if String.eqb url "" then c' = Js.Throw Veo3.completedWithoutUrl
                         else c' = Js.Return url
                     | None => c' = Js.Throw Veo3.completedWithoutUrl
                     end
                   else
                     Veo3.isFailed (Veo3.status result) = true /\
                     c' = Js.Throw (Veo3.generationFailed (Veo3.error result))
               end)) as Hstop.
  { intros c Hc Hmore. exists c, (S polls). split; [done|].
    split; [intros more Hm; apply Hmore; lia|]. split; [lia|].
    pose proof (elapsed_lower_bound polls).
    split; [right; lia|]. split; [intros; lia|]. right.
    replace (S polls - 1)%nat with polls by lia. split; [lia|]. by split. }
  destruct (check polls) as [result|e] eqn:Hcheck.
  2:{ apply Hstop; [done|]. intros [|more] Hm; [lia|].
      cbn [Veo3.waitForVideoCompletion_loop].
      destruct (Z.ltb_spec (elapsed polls) maxWaitTime); [|lia]. by rewrite Hcheck. }
  destruct (Veo3.isComplete (Veo3.status result)) eqn:Hcomplete.
  { destruct (Veo3.videoUrl result) as [url|] eqn:Hurl;
      [destruct (String.eqb url "") eqn:Hempty|]; cbn [negb];
      (apply Hstop; [done|]; intros [|more] Hm; [lia|];
       cbn [Veo3.waitForVideoCompletion_loop];
       destruct (Z.ltb_spec (elapsed polls) maxWaitTime); [|lia];
       by rewrite Hcheck, Hcomplete, Hurl, ?Hempty). }
  destruct (Veo3.isFailed (Veo3.status result)) eqn:Hfailed.
  { apply Hstop; [done|]. intros [|more] Hm; [lia|].
    cbn [Veo3.waitForVideoCompletion_loop].
    destruct (Z.ltb_spec (elapsed polls) maxWaitTime); [|lia].
    by rewrite Hcheck, Hcomplete, Hfailed. }
  pose proof (elapsed_lower_bound polls) as Hlow.
  assert (Z.of_nat polls + 1 <= maxWaitTime / 15000) as Hdiv
    by (apply Z.div_le_lower_bound; lia).
  assert (keepsWaiting check polls) as Hkeeps by (by exists result).
  destruct (IH (S polls) ltac:(lia) ltac:(lia))
    as (c & n & Hrun & Hmore & Hn & Hbound & Hearlier & Hlast).
  exists c, n. split; [done|]. split.
  { intros [|more] Hm; [lia|]. cbn [Veo3.waitForVideoCompletion_loop].
    destruct (Z.ltb_spec (elapsed polls) maxWaitTime); [|lia].
    rewrite Hcheck, Hcomplete, Hfailed. apply Hmore. lia. }
  split; [lia|]. split.
  { right. destruct Hbound as [->|Hbound]; lia. }
  split.
  { intros k Hk. destruct (decide (k = polls)) as [->|Hne]; [done|].
    apply Hearlier. lia. }
  destruct Hlast as [(-> & Hout & Hall)|(Hlt' & Hin & Hlast)].
  - left. split; [done|]. split; [done|]. intros k Hk.
    destruct (decide (k = polls)) as [->|Hne]; [done|]. apply Hall. lia.
  - right. split; [lia|]. by split.
Qed.

End VeoWait.

(** If no timer fires early, [waitForVideoCompletion] ends, and the number
    of status checks it makes stays below [maxWaitTime / 15000]: at most 19
    with the default of five minutes, and none at all when [maxWaitTime] is 15
    seconds or less, where the call throws "Video generation timed out"
    without asking once.  Every check but the last reported a status that is
    neither complete nor failed.  The call returns a URL only when its last
    check reported a complete status with a URL that is not empty, and then it
    is that URL; a complete status without one, a failed status and an error
    of the check make it throw; otherwise it throws the time-out, and then the
    time was up at the test after the last check. *)
Theorem waitForVideoCompletion_spec :
  forall (check : nat -> Js.Completion Veo3.StatusResult) (elapsed : nat -> Z)
         (maxWaitTime : Z),
    15000 <= elapsed 0%nat ->
    (forall k, elapsed k + 15000 <= elapsed (S k)) ->
    exists c polls,
      (forall passes, (Z.to_nat (maxWaitTime / 15000) < passes)%nat ->
         Veo3.waitForVideoCompletion check elapsed maxWaitTime passes = Some (c, polls)) /\
      (polls = 0%nat \/ 15000 * Z.of_nat polls < maxWaitTime) /\
      (maxWaitTime <= 300000 -> (polls <= 19)%nat) /\
      (maxWaitTime <= 15000 -> polls = 0%nat /\ c = Js.Throw Veo3.timedOut) /\
      (forall k, (k < polls - 1)%nat ->
         exists result,
           check k = Js.Return result /\
           Veo3.isComplete (Veo3.status result) = false /\
           Veo3.isFailed (Veo3.status result) = false) /\
      (forall url,
         c = Js.Return url ->
         url <> "" /\
         exists result,
           check (polls - 1)%nat = Js.Return result /\
           Veo3.isComplete (Veo3.status result) = true /\
           Veo3.videoUrl result = Some url) /\
      (forall result,
         (0 < polls)%nat -> check (polls - 1)%nat = Js.Return result ->
         (Veo3.isComplete (Veo3.status result) = true ->
            c = (if Js.truthy (Veo3.videoUrl result)
                 then Js.Return (default "" (Veo3.videoUrl result))
                 else Js.Throw Veo3.completedWithoutUrl)) /\
         (Veo3.isComplete (Veo3.status result) = false ->
            Veo3.isFailed (Veo3.status result) = true ->
            c = Js.Throw (Veo3.generationFailed (Veo3.error result)))) /\
      (forall e, (0 < polls)%nat -> check (polls - 1)%nat = Js.Throw e -> c = Js.Throw e) /\
      ((polls = 0%nat \/ keepsWaiting check (polls - 1)%nat) ->
         c = Js.Throw Veo3.timedOut /\ maxWaitTime <= elapsed polls).
Proof.
  intros check elapsed maxWaitTime Hfirst Hnext.
  destruct (waitForVideoCompletion_loop_spec check elapsed maxWaitTime Hfirst Hnext
              (S (Z.to_nat (maxWaitTime / 15000))) 0%nat ltac:(lia) ltac:(lia))
    as (c & n & Hrun & Hmore & _ & Hbound & Hearlier & Hlast).
  exists c, n. split; [intros passes Hp; apply Hmore; lia|].
  split; [done|]. split; [lia|]. split.
  { intros Hshort. assert (n = 0%nat) as -> by lia. split; [done|].
    destruct Hlast as [(-> & _)|(Hlt & _)]; [done | lia]. }
  split; [intros k Hk; apply Hearlier; lia|].
  assert (c = Js.Throw Veo3.timedOut -> forall url, c <> Js.Return url) as Hthrow
    by (intros -> url; done).
  split; [|split; [|split; [|]]].
  - intros url ->.
    destruct Hlast as [(Hc & _)|(Hlt & Hin & Hlast)]; [done|].
    destruct (check (n - 1)%nat) as [result|e]; [|done].
    destruct (Veo3.isComplete (Veo3.status result)) eqn:Hcomplete; [|by destruct Hlast].
    destruct (Veo3.videoUrl result) as [url'|] eqn:Hurl; [|done].
    destruct (String.eqb_spec url' "") as [|Hne]; [done|].
    injection Hlast as ->. split; [done|]. by exists result.
  - intros result Hpos Hcheck.
    destruct Hlast as [(-> & _ & Hall)|(Hlt & Hin & Hlast)].
    + destruct (Hall (n - 1)%nat ltac:(lia)) as (result' & Hcheck' & Hc & Hf).
      rewrite Hcheck in Hcheck'. injection Hcheck' as <-.
      split; [by rewrite Hc | by rewrite Hf].
    + rewrite Hcheck in Hlast. split.
      * intros Hcomplete. rewrite Hcomplete in Hlast. unfold Js.truthy.
        destruct (Veo3.videoUrl result) as [url|]; [|done].
        by destruct (String.eqb url "").
      * intros Hcomplete _. rewrite Hcomplete in Hlast. by destruct Hlast.
  - intros e Hpos Hcheck.
    destruct Hlast as [(-> & _ & Hall)|(Hlt & Hin & Hlast)].
    + destruct (Hall (n - 1)%nat ltac:(lia)) as (result' & Hcheck' & _).
      by rewrite Hcheck in Hcheck'.
    + by rewrite Hcheck in Hlast.
  - intros Hkeeps.
    destruct Hlast as [(-> & Hout & _)|(Hlt & Hin & Hlast)]; [done|].
    exfalso. destruct Hkeeps as [->|(result & Hcheck & Hc & Hf)]; [lia|].
    rewrite Hcheck, Hc, Hf in Hlast. by destruct Hlast.
Qed.

(** With timers that fire on time and a service that reports success at the
    third check, the URL comes back after three checks. *)
Lemma waitForVideoCompletion_spec_third_check :
  exists c polls,
    (forall passes, (Z.to_nat (300000 / 15000) < passes)%nat ->
       Veo3.waitForVideoCompletion completesAtThirdCheck timersOnly 300000 passes
       = Some (c, polls)) /\
    Veo3.waitForVideoCompletion completesAtThirdCheck timersOnly 300000 21
    = Some (Js.Return "https://storage.example/video.mp4", 3%nat).
Proof.
  destruct (waitForVideoCompletion_spec completesAtThirdCheck timersOnly 300000)
    as (c & polls & Hrun & _).
  - unfold timersOnly. lia.
  - intros k. unfold timersOnly. lia.
  - exists c, polls. split; [done | reflexivity].
Defined.

(** ** One status check of the coordinator *)




